(** * Dynamic context pruning: the prune/inventory engine, the match
  resolver, the nudge tracker and the Responses-API adapter.

  A shallow embedding of
    - openclaw-extension/src/{config,state,core,tools}.js, with both
      tools ([dcp_prune], [dcp_distill]),
    - the [/dcp] command ([createCommandHandler], [formatContext],
      [formatStats]) and the text the plugin entry hands to it
      ([toCommandText]),
    - the synth-instruction tracker in its three wire formats
      ([countToolResults], [injectNudge], [injectSynth] and their Gemini
      and Responses counterparts),
    - the prune-tool match resolver ([findStringInMessages],
      [collectToolIdsInRange], [collectMessageIdsInRange]),
    - the OpenAI Responses format descriptor ([extractToolOutputs],
      [replaceToolOutput], [hasToolOutputs]),
  followed by the properties proved about them.

  Conventions of the embedding.
    - A JavaScript string is a [string]; one character stands for one
      UTF-16 code unit in the Latin-1 range, so [String.length] is
      [.length].
    - JavaScript [Map]s and [Set]s keyed by strings are [gmap string _]
      and [gset string]; no code here iterates over one, so insertion
      order is not observable.
    - Counters and sizes are natural numbers (the doubles of the source
      stay integral and exact below 2^53).
    - A value whose dynamic type the code tests ([typeof x === "string"],
      [Array.isArray x], truthiness) is an [option] or a small inductive
      whose constructors are the cases the code distinguishes.
    - A call that can throw returns an [outcome]; stateful code runs in
      the monad [M], which keeps the state reached when the exception
      was raised (the state object is mutated in place in the source). *)

From Stdlib Require Import QArith Ascii.
From stdpp Require Import gmap strings list pretty sorting.

(** ** JavaScript primitives *)

Module Js.

Inductive JsError :=
| SyntaxError (msg : string)
| Error (msg : string).

Inductive outcome (A : Type) :=
| Returned (a : A)
| Threw (e : JsError).
Arguments Returned {A} a.
Arguments Threw {A} e.

Global Instance JsError_eq_dec : EqDecision JsError.
Proof. solve_decision. Defined.

Global Instance outcome_eq_dec {A} `{EqDecision A} : EqDecision (outcome A).
Proof. solve_decision. Defined.

Definition outcome_bind {A B} (o : outcome A) (f : A → outcome B) : outcome B :=
  match o with
  | Returned a => f a
  | Threw e => Threw e
  end.

(** [typeof v === "number"] values: a double is NaN, an infinity or a
    rational. *)
Inductive number :=
| NaN
| Infinity (negative : bool)
| Finite (q : Q).

(** [Number.isFinite(v) && v > 0]. *)
Definition isFinitePositive (v : number) : bool :=
  match v with
  | Finite q => bool_decide (0 < Qnum q)%Z
  | _ => false
  end.

(** [ToIntegerOrInfinity] on a finite number: truncation towards zero. *)
Definition toInteger (q : Q) : Z := Z.quot (Qnum q) (Zpos (Qden q)).

Definition negate (v : number) : number :=
  match v with
  | NaN => NaN
  | Infinity negative => Infinity (negb negative)
  | Finite q => Finite (Qopp q)
  end.

(** [Array.prototype.slice(start)]: a negative [start] counts from the
    end, and both ends are clamped to the array. *)
Definition slice_from {A} (start : Z) (l : list A) : list A :=
  let len := Z.of_nat (length l) in
  let k := if (start <? 0)%Z then Z.max (len + start) 0 else Z.min start len in
  drop (Z.to_nat k) l.

Definition slice {A} (start : number) (l : list A) : list A :=
  match start with
  | NaN => l
  | Infinity true => l
  | Infinity false => []
  | Finite q => slice_from (toInteger q) l
  end.

(** [String.prototype.toLowerCase] on Latin-1 code units: A-Z and
    U+00C0-U+00DE (but not the multiplication sign U+00D7) move up by 32. *)
Definition lower_char (c : ascii) : ascii :=
  let n := N_of_ascii c in
  if ((65 <=? n) && (n <=? 90) ||
      (192 <=? n) && (n <=? 222) && negb (n =? 215))%N
  then ascii_of_N (n + 32) else c.

Fixpoint toLowerCase (s : string) : string :=
  match s with
  | "" => ""
  | String c s' => String (lower_char c) (toLowerCase s')
  end.

(** White space and line terminators removed by [String.prototype.trim]. *)
Definition is_js_space (c : ascii) : bool :=
  let n := N_of_ascii c in
  ((9 <=? n) && (n <=? 13) || (n =? 32) || (n =? 160))%N.

Fixpoint trimStart (s : string) : string :=
  match s with
  | "" => ""
  | String c s' => if is_js_space c then trimStart s' else s
  end.

Definition trimEnd (s : string) : string :=
  String.rev (trimStart (String.rev s)).

Definition trim (s : string) : string := trimEnd (trimStart s).

(** [s.startsWith(p)]. *)
Fixpoint startsWith (p s : string) : bool :=
  match p, s with
  | "", _ => true
  | String a p', String b s' => bool_decide (a = b) && startsWith p' s'
  | String _ _, "" => false
  end.

(** [s.includes(p)]: [p] occurs in [s] as a contiguous substring. *)
Fixpoint includes (s p : string) : bool :=
  startsWith p s ||
  match s with
  | "" => false
  | String _ s' => includes s' p
  end.

(** [s.replace(/pat/g, rep)] for a literal, non-empty [pat] and a
    replacement text without [$] patterns: matches are found left to
    right and do not overlap.  [skip] counts the characters of the
    current match that are still to be dropped. *)
Fixpoint replace_go (pat rep : string) (skip : nat) (s : string) : string :=
  match s with
  | "" => ""
  | String c s' =>
      match skip with
      | S k => replace_go pat rep k s'
      | O =>
          if startsWith pat s
          then rep +:+ replace_go pat rep (String.length pat - 1) s'
          else String c (replace_go pat rep 0 s')
      end
  end.

Definition replaceAll (pat rep s : string) : string := replace_go pat rep 0 s.

(** [parts.join(sep)]. *)
Fixpoint join (sep : string) (parts : list string) : string :=
  match parts with
  | [] => ""
  | [p] => p
  | p :: rest => p +:+ sep +:+ join sep rest
  end.

(** ** The regular expressions [globMatch] builds

    After escaping, the only active metacharacters left in the source of
    the regular expression are the dot, the class [[^/]], the star and
    the question mark; a backslash is always followed by the character
    it escapes. *)

Inductive atom :=
| Lit (c : ascii)
| NotSlash
| AnyChar.

Inductive lexeme :=
| LAtom (a : atom)
| LStar
| LQuest.

Inductive quant := One | Opt | Star.

Fixpoint lex (s : string) : option (list lexeme) :=
  match s with
  | "" => Some []
  | String "\" (String c s') => cons (LAtom (Lit c)) <$> lex s'
  | String "\" "" => None
  | String "[" (String "^" (String "/" (String "]" s'))) =>
      cons (LAtom NotSlash) <$> lex s'
  | String "[" _ => None
  | String "." s' => cons (LAtom AnyChar) <$> lex s'
  | String "*" s' => cons LStar <$> lex s'
  | String "?" s' => cons LQuest <$> lex s'
  | String c s' => cons (LAtom (Lit c)) <$> lex s'
  end.

(** A term is an atom with an optional quantifier [*] or [?], itself
    optionally followed by the lazy mark [?].  A quantifier with nothing
    before it is the syntax error "Nothing to repeat". *)
Fixpoint parse (ls : list lexeme) : option (list (atom * quant)) :=
  match ls with
  | [] => Some []
  | LAtom a :: rest =>
      match rest with
      | LStar :: LQuest :: rest' => cons (a, Star) <$> parse rest'
      | LStar :: rest' => cons (a, Star) <$> parse rest'
      | LQuest :: LQuest :: rest' => cons (a, Opt) <$> parse rest'
      | LQuest :: rest' => cons (a, Opt) <$> parse rest'
      | _ => cons (a, One) <$> parse rest
      end
  | _ => None
  end.

(** [new RegExp("^" + src + "$")]. *)
Definition compile (src : string) : outcome (list (atom * quant)) :=
  match lex src ≫= parse with
  | Some ts => Returned ts
  | None => Threw (SyntaxError ("Invalid regular expression: /^" +:+ src +:+ "$/"))
  end.

(** The dot does not match the line terminators. *)
Definition atom_matches (a : atom) (c : ascii) : bool :=
  match a with
  | Lit c' => bool_decide (c' = c)
  | NotSlash => negb (bool_decide (c = "/"%char))
  | AnyChar => negb (bool_decide (c = "010"%char) || bool_decide (c = "013"%char))
  end.

(** [regex.test(s)] for an anchored sequence of terms: greedy and lazy
    quantifiers accept the same strings. *)
Fixpoint regex_match (ts : list (atom * quant)) : string → bool :=
  match ts with
  | [] => λ s, bool_decide (s = "")
  | (a, q) :: ts' =>
      let k := regex_match ts' in
      let step (next : string → bool) (s : string) :=
        match s with
        | "" => false
        | String c s' => atom_matches a c && next s'
        end in
      match q with
      | One => step k
      | Opt => λ s, k s || step k s
      | Star => fix star (s : string) : bool :=
          k s || match s with
                 | "" => false
                 | String c s' => atom_matches a c && star s'
                 end
      end
  end.

End Js.

(** ** config.js *)

Module Config.
Import Js.

(** A raw configuration object as [normalizeConfig] inspects it: each
    field is [None] when it has the wrong dynamic type, and an array
    item is [None] when it is not a string. *)
Record RawConfig := {
  raw_enabled : option bool;
  raw_protectedTools : option (list (option string));
  raw_protectedFilePatterns : option (list (option string));
  raw_commands_enabled : option bool;
}.

Record ExtensionConfig := {
  enabled : bool;
  protectedTools : list string;
  protectedFilePatterns : list string;
  commands_enabled : bool;
}.

Definition DEFAULT_CONFIG : ExtensionConfig :=
  {| enabled := true; protectedTools := []; protectedFilePatterns := [];
     commands_enabled := true |}.

(** Keeps the items that are non-empty strings. *)
Definition asStringArray (value : option (list (option string))) : list string :=
  match value with
  | None => []
  | Some items =>
      omap (λ item, match item with
                    | Some s => if bool_decide (0 < String.length s) then Some s else None
                    | None => None
                    end) items
  end.

(** [raw] is [None] when the argument is not an object. *)
Definition normalizeConfig (raw : option RawConfig) : ExtensionConfig :=
  let v := default {| raw_enabled := None; raw_protectedTools := None;
                      raw_protectedFilePatterns := None;
                      raw_commands_enabled := None |} raw in
  {| enabled := default (enabled DEFAULT_CONFIG) (raw_enabled v);
     protectedTools := asStringArray (raw_protectedTools v);
     protectedFilePatterns := asStringArray (raw_protectedFilePatterns v);
     commands_enabled := default (commands_enabled DEFAULT_CONFIG) (raw_commands_enabled v) |}.

(** A normalized configuration handed on as the [rawConfig] argument of
    another function. *)
Definition asRaw (config : ExtensionConfig) : option RawConfig :=
  Some {| raw_enabled := Some (enabled config);
          raw_protectedTools := Some (Some <$> protectedTools config);
          raw_protectedFilePatterns := Some (Some <$> protectedFilePatterns config);
          raw_commands_enabled := Some (commands_enabled config) |}.

End Config.

(** ** types.js and state.js *)

Module State.

(** [message.content]: a string, [null]/[undefined], or any other value,
    which is kept as what [JSON.stringify] makes of it ([None] when that
    throws or yields no string). *)
Inductive Content :=
| CString (s : string)
| CNullish
| CStructured (json : option string).

(** [message.input] when it is an object: the two fields the code reads,
    each [None] unless it is a string. *)
Record InputObj := {
  in_filePath : option string;
  in_path : option string;
}.

Record DcpMeta := {
  dcp_pruned : bool;
  dcp_originalID : string;
  dcp_reason : string;
  dcp_distillationID : option string;
}.

Record Meta := {
  meta_fields : list (string * string);
  meta_dcp : option DcpMeta;
}.

(** A [DcpMessage].  [msg_id] is a string as the type declares;
    [msg_role], [msg_toolName] and [msg_filePath] are [None] when the
    field is not a string, [msg_input] and [msg_meta] when the field is
    absent. *)
Record DcpMessage := {
  msg_id : string;
  msg_role : option string;
  msg_toolName : option string;
  msg_content : Content;
  msg_input : option InputObj;
  msg_meta : option Meta;
  msg_filePath : option string;
}.

Record PrunedRecord := {
  pr_reason : string;
  pr_toolName : option string;
  pr_chars : nat;
  pr_at : Z;
  pr_distillationID : option string;
}.

Record DistillationRecord := {
  dr_id : string;
  dr_sourceMessageIDs : list string;
  dr_summary : string;
  dr_at : Z;
}.

Record InventoryEntry := {
  inv_id : string;
  inv_messageID : string;
  inv_role : string;
  inv_toolName : string;
  inv_chars : nat;
  inv_estimatedTokens : nat;
}.

Record IdMapEntry := {
  originalID : string;
  transformedID : string;
  pruned : bool;
}.

Record Inventory := {
  signature : string;
  entries : list InventoryEntry;
  numericToMessageID : gmap string string;
  messageToNumericID : gmap string string;
}.

Record Counters := {
  prunedMessages : nat;
  prunedChars : nat;
  distillations : nat;
  sweeps : nat;
}.

Record DcpState := {
  prunedByID : gmap string PrunedRecord;
  idMap : gmap string IdMapEntry;
  distillationBySourceID : gmap string string;
  st_distillations : list DistillationRecord;
  inventory : Inventory;
  counters : Counters;
}.

Definition createState : DcpState :=
  {| prunedByID := ∅;
     idMap := ∅;
     distillationBySourceID := ∅;
     st_distillations := [];
     inventory := {| signature := ""; entries := [];
                     numericToMessageID := ∅; messageToNumericID := ∅ |};
     counters := {| prunedMessages := 0; prunedChars := 0;
                    distillations := 0; sweeps := 0 |} |}.

(** *** Stateful code

    The state object is shared and mutated in place, so a function that
    throws leaves behind the state it had reached. *)
Definition M (A : Type) : Type := DcpState → Js.outcome A * DcpState.

Definition ret {A} (a : A) : M A := λ st, (Js.Returned a, st).

Definition bind {A B} (m : M A) (f : A → M B) : M B :=
  λ st, match m st with
        | (Js.Returned a, st') => f a st'
        | (Js.Threw e, st') => (Js.Threw e, st')
        end.

Definition get : M DcpState := λ st, (Js.Returned st, st).

Definition modify (f : DcpState → DcpState) : M unit := λ st, (Js.Returned tt, f st).

(** The result of a call that does not touch the state. *)
Definition lift {A} (o : Js.outcome A) : M A := λ st, (o, st).

(** [for (const x of l) { acc = body(acc, x) }]. *)
Fixpoint forEach {A B} (body : B → A → M B) (l : list A) (acc : B) : M B :=
  match l with
  | [] => ret acc
  | x :: l' => bind (body acc x) (forEach body l')
  end.

End State.

Declare Scope dcp_scope.
Delimit Scope dcp_scope with dcp.
Notation "x ⇐ m ;; k" := (State.bind m (λ x, k))
(at level 100, m at next level, right associativity) : dcp_scope.
Notation "m ;;; k" := (State.bind m (λ _, k))
(at level 100, right associativity) : dcp_scope.

(** ** core.js *)

Module Core.
Import Js Config State.
Local Open Scope dcp_scope.

Definition DEFAULT_PROTECTED_TOOLS : gset string :=
  {[ "dcp_prune"; "dcp_distill" ]}.

(** The characters of the class [[.+^${}()|[\]\\]]. *)
Definition is_regex_special (c : ascii) : bool :=
  bool_decide (c ∈ [ "."; "+"; "^"; "$"; "{"; "}"; "("; ")"; "|"; "["; "]"; "\" ]%char).

(** [pattern.replace(/[.+^${}()|[\]\\]/g, "\\$&")]. *)
Fixpoint escapeSpecials (pattern : string) : string :=
  match pattern with
  | "" => ""
  | String c p' =>
      if is_regex_special c
      then String "\" (String c (escapeSpecials p'))
      else String c (escapeSpecials p')
  end.

(** The source text of the regular expression between [^] and [$]. *)
Definition escaped (pattern : string) : string :=
  replaceAll "::DOUBLE_STAR::" ".*"
    (replaceAll "*" "[^/]*"
      (replaceAll "**" "::DOUBLE_STAR::"
        (escapeSpecials pattern))).

Definition globMatch (value pattern : string) : outcome bool :=
  outcome_bind (compile (escaped pattern)) (λ regex,
    Returned (regex_match regex value)).

Definition cloneMessage (message : DcpMessage) : DcpMessage :=
  {| msg_id := msg_id message;
     msg_role := msg_role message;
     msg_toolName := msg_toolName message;
     msg_content := msg_content message;
     msg_input := msg_input message;
     msg_meta := msg_meta message;
     msg_filePath := msg_filePath message |}.

Definition estimateTokens (chars : nat) : nat :=
  if bool_decide (chars ≤ 0) then 0 else (chars + 3) / 4.

Definition estimateChars (value : Content) : nat :=
  match value with
  | CString s => String.length s
  | CNullish => 0
  | CStructured (Some json) => String.length json
  | CStructured None => 0
  end.

Definition inferFilePath (message : DcpMessage) : string :=
  match msg_filePath message with
  | Some p => p
  | None =>
      match msg_input message with
      | Some inObj =>
          match in_filePath inObj with
          | Some p => p
          | None => default "" (in_path inObj)
          end
      | None => ""
      end
  end.

Fixpoint lastUserIndex_from (messages : list DcpMessage) (n : nat) : Z :=
  match n with
  | O => -1
  | S index =>
      match messages !! index with
      | Some m =>
          if bool_decide (msg_role m = Some "user") then Z.of_nat index
          else lastUserIndex_from messages index
      | None => lastUserIndex_from messages index
      end
  end.

(** The loop runs [index] from [messages.length - 1] down to [0]. *)
Definition lastUserIndex (messages : list DcpMessage) : Z :=
  lastUserIndex_from messages (length messages).

(** [patterns.some(p)] for a predicate that may throw. *)
Fixpoint some_of {A} (p : A → outcome bool) (l : list A) : outcome bool :=
  match l with
  | [] => Returned false
  | x :: l' =>
      outcome_bind (p x) (λ b, if b then Returned true else some_of p l')
  end.

Definition isProtectedMessage (message : DcpMessage) (config : ExtensionConfig)
  : outcome bool :=
  let toolName := default "" (toLowerCase <$> msg_toolName message) in
  if bool_decide (toolName ∈ DEFAULT_PROTECTED_TOOLS) then Returned true
  else
    let protectedTools : gset string :=
      list_to_set (toLowerCase <$> protectedTools config) in
    if bool_decide (toolName ≠ "") && bool_decide (toolName ∈ protectedTools)
    then Returned true
    else
      let filePath := inferFilePath message in
      if bool_decide (filePath = "") then Returned false
      else some_of (λ pattern, globMatch filePath pattern)
                   (protectedFilePatterns config).

Definition isToolLikeMessage (message : DcpMessage) : bool :=
  bool_decide (msg_role message = Some "tool") ||
  bool_decide (is_Some (msg_toolName message)).

Definition has {V} (m : gmap string V) (k : string) : bool :=
  bool_decide (is_Some (m !! k)).

(** [new Map(messages.map((message) => [message.id, message]))]: a later
    message replaces an earlier one with the same id. *)
Definition messagesByID (messages : list DcpMessage) : gmap string DcpMessage :=
  foldl (λ acc message, <[msg_id message := message]> acc) ∅ messages.

Record PruneResult := {
  prunedIDs : list string;
  protectedIDs : list string;
  missingIDs : list string;
}.

Definition recordPruned (messageID : string) (rec : PrunedRecord) (st : DcpState)
  : DcpState :=
  {| prunedByID := <[messageID := rec]> (prunedByID st);
     idMap := idMap st;
     distillationBySourceID := distillationBySourceID st;
     st_distillations := st_distillations st;
     inventory := inventory st;
     counters :=
       {| prunedMessages := prunedMessages (counters st) + 1;
          prunedChars := prunedChars (counters st) + pr_chars rec;
          distillations := distillations (counters st);
          sweeps := sweeps (counters st) |} |}.

Definition addMissing (acc : PruneResult) (messageID : string) : PruneResult :=
  {| prunedIDs := prunedIDs acc;
     protectedIDs := protectedIDs acc;
     missingIDs := missingIDs acc ++ [messageID] |}.

Definition addProtected (acc : PruneResult) (messageID : string) : PruneResult :=
  {| prunedIDs := prunedIDs acc;
     protectedIDs := protectedIDs acc ++ [messageID];
     missingIDs := missingIDs acc |}.

Definition addPruned (acc : PruneResult) (messageID : string) : PruneResult :=
  {| prunedIDs := prunedIDs acc ++ [messageID];
     protectedIDs := protectedIDs acc;
     missingIDs := missingIDs acc |}.

(** The record made for a message.  [now] is what [Date.now()] returns;
    the readings of one call are taken to be equal. *)
Definition recordFor (message : DcpMessage) (reason : string)
    (distillationID : option string) (now : Z) : PrunedRecord :=
  {| pr_reason := reason;
     pr_toolName := msg_toolName message;
     pr_chars := estimateChars (msg_content message);
     pr_at := now;
     pr_distillationID := distillationID |}.

(** One turn of the loop of [pruneByIDs]. *)
Definition pruneStep (byID : gmap string DcpMessage) (config : ExtensionConfig)
    (reason : string) (distillationID : option string) (now : Z)
    (acc : PruneResult) (messageID : string) : M PruneResult :=
  match byID !! messageID with
  | None => ret (addMissing acc messageID)
  | Some message =>
      st ⇐ get;;
      if has (prunedByID st) messageID then ret acc
      else
        isProtected ⇐ lift (isProtectedMessage message config);;
        if (isProtected : bool) then ret (addProtected acc messageID)
        else
          modify (recordPruned messageID
                    (recordFor message reason distillationID now));;;
          ret (addPruned acc messageID)
  end.

Definition pruneByIDs (messages : list DcpMessage) (rawConfig : option RawConfig)
    (messageIDs : list string) (reason : string)
    (distillationID : option string) (now : Z) : M PruneResult :=
  let config := normalizeConfig rawConfig in
  let byID := messagesByID messages in
  forEach (pruneStep byID config reason distillationID now) messageIDs
    {| prunedIDs := []; protectedIDs := []; missingIDs := [] |}.

Definition collectStep (config : ExtensionConfig) (candidates : list string)
    (message : DcpMessage) : M (list string) :=
  if negb (isToolLikeMessage message) then ret candidates
  else
    st ⇐ get;;
    if has (prunedByID st) (msg_id message) then ret candidates
    else
      isProtected ⇐ lift (isProtectedMessage message config);;
      if (isProtected : bool) then ret candidates
      else ret (candidates ++ [msg_id message]).

Definition collectSweepCandidates (messages : list DcpMessage)
    (rawConfig : option RawConfig) : M (list string) :=
  let config := normalizeConfig rawConfig in
  let startIndex := lastUserIndex messages in
  forEach (collectStep config) (drop (Z.to_nat (startIndex + 1)) messages) [].

Record SweepResult := {
  sw_prunedIDs : list string;
  sw_protectedIDs : list string;
  sw_missingIDs : list string;
  candidateCount : nat;
  usedLimit : option number;
}.

(** [typeof limit === "number" && Number.isFinite(limit) && limit > 0];
    [limit] is [None] when it is not a number. *)
Definition limitApplies (limit : option number) : bool :=
  match limit with
  | Some v => isFinitePositive v
  | None => false
  end.

(** [limitApplies(limit) ? candidates.slice(-limit) : candidates]. *)
Definition capCandidates (limit : option number) (candidates : list string)
  : list string :=
  if limitApplies limit
  then match limit with
       | Some v => slice (negate v) candidates
       | None => candidates
       end
  else candidates.

Definition countSweep (st : DcpState) : DcpState :=
  {| prunedByID := prunedByID st;
     idMap := idMap st;
     distillationBySourceID := distillationBySourceID st;
     st_distillations := st_distillations st;
     inventory := inventory st;
     counters :=
       {| prunedMessages := prunedMessages (counters st);
          prunedChars := prunedChars (counters st);
          distillations := distillations (counters st);
          sweeps := sweeps (counters st) + 1 |} |}.

Definition sweep (messages : list DcpMessage) (rawConfig : option RawConfig)
    (limit : option number) (now : Z) : M SweepResult :=
  let config := normalizeConfig rawConfig in
  candidates ⇐ collectSweepCandidates messages (asRaw config);;
  let capped := capCandidates limit candidates in
  result ⇐ pruneByIDs messages (asRaw config) capped "sweep" None now;;
  (if bool_decide (0 < length (prunedIDs result))
   then modify countSweep else ret tt);;;
  ret {| sw_prunedIDs := prunedIDs result;
         sw_protectedIDs := protectedIDs result;
         sw_missingIDs := missingIDs result;
         candidateCount := length candidates;
         usedLimit := if limitApplies limit then limit else None |}.


(** An entry of the first loop of [getPrunableInventory], before it gets
    its numeric id. *)
Record Entry := {
  e_messageID : string;
  e_role : string;
  e_toolName : string;
  e_chars : nat;
  e_estimatedTokens : nat;
}.

Definition toEntry (message : DcpMessage) : Entry :=
  let chars := estimateChars (msg_content message) in
  {| e_messageID := msg_id message;
     e_role := default "" (msg_role message);
     e_toolName := default "" (msg_toolName message);
     e_chars := chars;
     e_estimatedTokens := estimateTokens chars |}.

Definition entryStep (config : ExtensionConfig) (entries : list Entry)
    (message : DcpMessage) : M (list Entry) :=
  if negb (isToolLikeMessage message) then ret entries
  else
    st ⇐ get;;
    if has (prunedByID st) (msg_id message) then ret entries
    else
      isProtected ⇐ lift (isProtectedMessage message config);;
      if (isProtected : bool) then ret entries
      else ret (entries ++ [toEntry message]).

(** [entries.map((entry) => `${entry.messageID}:${entry.chars}`).join("|")]. *)
Definition signatureOf (entries : list Entry) : string :=
  join "|" ((λ entry, e_messageID entry +:+ ":" +:+ pretty (e_chars entry)) <$> entries).

Definition numberEntry (index : nat) (entry : Entry) : InventoryEntry :=
  {| inv_id := pretty (index + 1);
     inv_messageID := e_messageID entry;
     inv_role := e_role entry;
     inv_toolName := e_toolName entry;
     inv_chars := e_chars entry;
     inv_estimatedTokens := e_estimatedTokens entry |}.

Definition buildInventory (signature : string) (entries : list Entry) : Inventory :=
  let inventoryEntries := imap numberEntry entries in
  {| State.signature := signature;
     State.entries := inventoryEntries;
     numericToMessageID :=
       foldl (λ acc e, <[inv_id e := inv_messageID e]> acc) ∅ inventoryEntries;
     messageToNumericID :=
       foldl (λ acc e, <[inv_messageID e := inv_id e]> acc) ∅ inventoryEntries |}.

Definition setInventory (inv : Inventory) (st : DcpState) : DcpState :=
  {| prunedByID := prunedByID st;
     idMap := idMap st;
     distillationBySourceID := distillationBySourceID st;
     st_distillations := st_distillations st;
     inventory := inv;
     counters := counters st |}.

Definition getPrunableInventory (messages : list DcpMessage)
    (rawConfig : option RawConfig) : M (list InventoryEntry) :=
  let config := normalizeConfig rawConfig in
  entries ⇐ forEach (entryStep config) messages [];;
  let signature := signatureOf entries in
  st ⇐ get;;
  if bool_decide (State.signature (inventory st) = signature) &&
     bool_decide (length (State.entries (inventory st)) = length entries)
  then ret (State.entries (inventory st))
  else
    let inv := buildInventory signature entries in
    modify (setInventory inv);;;
    ret (State.entries inv).

Record ResolveResult := {
  resolvedMessageIDs : list string;
  rr_missingIDs : list string;
}.

(** An id that maps to the empty string is falsy and counts as missing. *)
Definition resolveInventoryMessageIDs (st : DcpState) (ids : list string)
  : ResolveResult :=
  foldl (λ acc id,
           match numericToMessageID (inventory st) !! id with
           | Some messageID =>
               if bool_decide (messageID = "")
               then {| resolvedMessageIDs := resolvedMessageIDs acc;
                       rr_missingIDs := rr_missingIDs acc ++ [id] |}
               else {| resolvedMessageIDs := resolvedMessageIDs acc ++ [messageID];
                       rr_missingIDs := rr_missingIDs acc |}
           | None =>
               {| resolvedMessageIDs := resolvedMessageIDs acc;
                  rr_missingIDs := rr_missingIDs acc ++ [id] |}
           end)
        {| resolvedMessageIDs := []; rr_missingIDs := [] |} ids.

Definition recordDistillation (record : DistillationRecord) (st : DcpState)
  : DcpState :=
  {| prunedByID := prunedByID st;
     idMap := idMap st;
     distillationBySourceID :=
       foldl (λ acc sourceID, <[sourceID := dr_id record]> acc)
             (distillationBySourceID st) (dr_sourceMessageIDs record);
     st_distillations := st_distillations st ++ [record];
     inventory := inventory st;
     counters :=
       {| prunedMessages := prunedMessages (counters st);
          prunedChars := prunedChars (counters st);
          distillations := distillations (counters st) + 1;
          sweeps := sweeps (counters st) |} |}.

Definition createDistillation (messages : list DcpMessage)
    (messageIDs : list string) (summary : string) (now : Z)
  : M DistillationRecord :=
  st ⇐ get;;
  let id := "dcp-distill-" +:+ pretty (distillations (counters st) + 1) in
  let record := {| dr_id := id;
                   dr_sourceMessageIDs := messageIDs;
                   dr_summary := summary;
                   dr_at := now |} in
  modify (recordDistillation record);;;
  ret record.

Definition setIdMap (messageID : string) (entry : IdMapEntry) (st : DcpState)
  : DcpState :=
  {| prunedByID := prunedByID st;
     idMap := <[messageID := entry]> (idMap st);
     distillationBySourceID := distillationBySourceID st;
     st_distillations := st_distillations st;
     inventory := inventory st;
     counters := counters st |}.

(** The placeholder that replaces the content of a pruned message.  An
    absent or empty [distillationID] is falsy and adds nothing. *)
Definition placeholder (messageID : string) (prunedRecord : PrunedRecord) : string :=
  let distillationText :=
    match pr_distillationID prunedRecord with
    | Some d => if bool_decide (d = "") then "" else " distilled=" +:+ d
    | None => ""
    end in
  "[dcp-pruned id=" +:+ messageID +:+ " reason=" +:+ pr_reason prunedRecord
    +:+ distillationText +:+ "]".

(** [{ ...cloneMessage(message), content: ..., meta: { ...(message.meta
    || {}), dcp: { ... } } }]. *)
Definition prunedView (message : DcpMessage) (prunedRecord : PrunedRecord) : DcpMessage :=
  let clone := cloneMessage message in
  {| msg_id := msg_id clone;
     msg_role := msg_role clone;
     msg_toolName := msg_toolName clone;
     msg_content := CString (placeholder (msg_id message) prunedRecord);
     msg_input := msg_input clone;
     msg_meta :=
       Some {| meta_fields := default [] (meta_fields <$> msg_meta message);
               meta_dcp :=
                 Some {| dcp_pruned := true;
                         dcp_originalID := msg_id message;
                         dcp_reason := pr_reason prunedRecord;
                         dcp_distillationID := pr_distillationID prunedRecord |} |};
     msg_filePath := msg_filePath clone |}.

Definition viewStep (message : DcpMessage) : M DcpMessage :=
  let messageID := msg_id message in
  st ⇐ get;;
  let prunedRecord := prunedByID st !! messageID in
  modify (setIdMap messageID
            {| originalID := messageID;
               transformedID := messageID;
               pruned := bool_decide (is_Some prunedRecord) |});;;
  match prunedRecord with
  | None => ret (cloneMessage message)
  | Some rec => ret (prunedView message rec)
  end.

(** [messages.map(f)] for a callback that updates the state. *)
Fixpoint mapM {A B} (f : A → M B) (l : list A) : M (list B) :=
  match l with
  | [] => ret []
  | x :: l' => y ⇐ f x;; ys ⇐ mapM f l';; ret (y :: ys)
  end.

Definition createTransformedView (messages : list DcpMessage) : M (list DcpMessage) :=
  mapM viewStep messages.

End Core.

(** ** tools.js *)

Module Tools.
Import Js Config State Core.
Local Open Scope dcp_scope.

(** A raw distillation target when it is an object: each field is [None]
    unless it is a string. *)
Record RawTarget := {
  rt_id : option string;
  rt_distillation : option string;
}.

Record Target := {
  t_id : string;
  t_distillation : string;
}.

Definition DEFAULT_DISTILLATION : string :=
  "Distilled context summary was not provided by the caller.".

(** The summary text kept for a raw target. *)
Definition targetDistillation (target : RawTarget) : string :=
  match rt_distillation target with
  | Some text =>
      if bool_decide (0 < String.length (trim text)) then trim text
      else DEFAULT_DISTILLATION
  | None => DEFAULT_DISTILLATION
  end.

Fixpoint normalizeTargets_loop (value : list (option RawTarget))
    (seenIDs : gset string) : list Target :=
  match value with
  | [] => []
  | None :: rest => normalizeTargets_loop rest seenIDs
  | Some target :: rest =>
      let id := match rt_id target with
                | Some s => if bool_decide (0 < String.length s) then s else ""
                | None => ""
                end in
      let distillation := targetDistillation target in
      if bool_decide (id = "") then normalizeTargets_loop rest seenIDs
      else if bool_decide (id ∈ seenIDs) then normalizeTargets_loop rest seenIDs
      else {| t_id := id; t_distillation := distillation |}
             :: normalizeTargets_loop rest ({[ id ]} ∪ seenIDs)
  end.

(** [value] is [None] when it is not an array; an item is [None] when it
    is falsy or not an object. *)
Definition normalizeTargets (value : option (list (option RawTarget))) : list Target :=
  match value with
  | None => []
  | Some items => normalizeTargets_loop items ∅
  end.

(** [runtime] is [None] unless it is an object whose [messages] is an
    array. *)
Definition extractMessages (runtime : option (list DcpMessage)) : list DcpMessage :=
  default [] runtime.

Record ViewSummary := {
  totalMessages : nat;
  vs_prunedMessages : nat;
  prunableInventorySize : nat;
}.

Definition summarizeView (messages : list DcpMessage) (config : ExtensionConfig)
  : M ViewSummary :=
  transformed ⇐ createTransformedView messages;;
  inventory ⇐ getPrunableInventory messages (asRaw config);;
  ret {| totalMessages := length transformed;
         vs_prunedMessages :=
           length (List.filter (λ message : DcpMessage,
                                  match msg_meta message ≫= meta_dcp with
                                  | Some d => dcp_pruned d
                                  | None => false
                                  end)
                               transformed);
         prunableInventorySize := length inventory |}.

Record DistillAcc := {
  acc_distillations : list DistillationRecord;
  acc_prunedIDs : list string;
  acc_protectedIDs : list string;
  acc_missingIDs : list string;
  acc_unresolvedInventoryIDs : list string;
}.

Definition distillStep (messages : list DcpMessage) (config : ExtensionConfig)
    (now : Z) (acc : DistillAcc) (target : Target) : M DistillAcc :=
  st ⇐ get;;
  let resolved := resolveInventoryMessageIDs st [t_id target] in
  if bool_decide (0 < length (rr_missingIDs resolved))
  then ret {| acc_distillations := acc_distillations acc;
              acc_prunedIDs := acc_prunedIDs acc;
              acc_protectedIDs := acc_protectedIDs acc;
              acc_missingIDs := acc_missingIDs acc;
              acc_unresolvedInventoryIDs :=
                acc_unresolvedInventoryIDs acc ++ rr_missingIDs resolved |}
  else
    match resolvedMessageIDs resolved with
    | [] => ret acc
    | messageID :: _ =>
        distillation ⇐ createDistillation messages [messageID]
                         (t_distillation target) now;;
        pruneResult ⇐ pruneByIDs messages (asRaw config) [messageID]
                        "distilled" (Some (dr_id distillation)) now;;
        ret {| acc_distillations := acc_distillations acc ++ [distillation];
               acc_prunedIDs := acc_prunedIDs acc ++ prunedIDs pruneResult;
               acc_protectedIDs := acc_protectedIDs acc ++ protectedIDs pruneResult;
               acc_missingIDs := acc_missingIDs acc ++ missingIDs pruneResult;
               acc_unresolvedInventoryIDs := acc_unresolvedInventoryIDs acc |}
    end.

Record DistillResult := {
  d_distillations : list DistillationRecord;
  targetsApplied : nat;
  d_prunedIDs : list string;
  d_protectedIDs : list string;
  d_missingIDs : list string;
  d_unresolvedInventoryIDs : list string;
  d_transformedView : ViewSummary;
}.

(** The [dcp_distill] tool of a context [{ state, config }]; [targets] is
    [input?.targets]. *)
Definition dcp_distill (config : ExtensionConfig)
    (targets : option (list (option RawTarget)))
    (runtime : option (list DcpMessage)) (now : Z) : M DistillResult :=
  let messages := extractMessages runtime in
  getPrunableInventory messages (asRaw config);;;
  let targets := normalizeTargets targets in
  acc ⇐ forEach (distillStep messages config now) targets
          {| acc_distillations := []; acc_prunedIDs := [];
             acc_protectedIDs := []; acc_missingIDs := [];
             acc_unresolvedInventoryIDs := [] |};;
  view ⇐ summarizeView messages config;;
  ret {| d_distillations := acc_distillations acc;
         targetsApplied := length targets;
         d_prunedIDs := acc_prunedIDs acc;
         d_protectedIDs := acc_protectedIDs acc;
         d_missingIDs := acc_missingIDs acc;
         d_unresolvedInventoryIDs := acc_unresolvedInventoryIDs acc;
         d_transformedView := view |}.

End Tools.

(** ** The tool tracker and the nudge (chat-completions format) *)

Module SynthInstruction.

Record ToolTracker := {
  seenToolResultIds : gset string;
  toolResultCount : nat;
}.

Definition createToolTracker : ToolTracker :=
  {| seenToolResultIds := ∅; toolResultCount := 0 |}.

(** A content part.  [tool_use_id] is [None] when the field is falsy,
    and otherwise what [String(part.tool_use_id)] gives. *)
Record ContentPart := {
  part_type : option string;
  tool_use_id : option string;
  part_text : option string;
}.

Inductive MessageContent :=
| ContentString (s : string)
| ContentArray (parts : list ContentPart)
| ContentOther.

(** A message of the request body.  [tool_call_id] follows the same
    convention as [tool_use_id]. *)
Record ChatMessage := {
  role : option string;
  tool_call_id : option string;
  content : MessageContent;
  synthetic : bool;
}.

(** [if (!seen.has(id)) { seen.add(id); newCount++ }]. *)
Definition observe (id : string) (acc : gset string * nat) : gset string * nat :=
  if bool_decide (id ∈ acc.1) then acc else ({[ id ]} ∪ acc.1, S acc.2).

(** [if (part.type === 'tool_result' && part.tool_use_id) ...]. *)
Definition countPart (acc : gset string * nat) (part : ContentPart)
  : gset string * nat :=
  match (if bool_decide (part_type part = Some "tool_result")
         then tool_use_id part else None) with
  | Some raw => observe (Js.toLowerCase raw) acc
  | None => acc
  end.

(** [if (m.role === 'tool' && m.tool_call_id) ... else if (m.role ===
    'user' && Array.isArray(m.content)) ...]. *)
Definition countMessage (acc : gset string * nat) (m : ChatMessage)
  : gset string * nat :=
  match (if bool_decide (role m = Some "tool") then tool_call_id m else None) with
  | Some raw => observe (Js.toLowerCase raw) acc
  | None =>
      if bool_decide (role m = Some "user") then
        match content m with
        | ContentArray parts => foldl countPart acc parts
        | _ => acc
        end
      else acc
  end.

(** Returns [newCount] and the updated tracker. *)
Definition countToolResults (messages : list ChatMessage) (tracker : ToolTracker)
  : nat * ToolTracker :=
  let '(seen, newCount) :=
    foldl countMessage (seenToolResultIds tracker, 0) messages in
  (newCount, {| seenToolResultIds := seen;
                toolResultCount := toolResultCount tracker + newCount |}).

Definition nudgeMessage (nudgeText : string) : ChatMessage :=
  {| role := Some "user"; tool_call_id := None;
     content := ContentString nudgeText; synthetic := true |}.

(** [messages.push(...)]; returns [true]. *)
Definition appendNudge (messages : list ChatMessage) (nudgeText : string)
  : bool * list ChatMessage :=
  (true, messages ++ [nudgeMessage nudgeText]).

(** [freq] is a non-negative integer; for [freq = 0] the quotients of
    the source are [NaN] or [Infinity], no bucket compares greater, and
    the truncated division below agrees ([n / 0 = 0]). *)
Definition injectNudge (messages : list ChatMessage) (tracker : ToolTracker)
    (nudgeText : string) (freq : nat)
  : bool * list ChatMessage * ToolTracker :=
  let prevCount := toolResultCount tracker in
  let '(newCount, tracker') := countToolResults messages tracker in
  if bool_decide (0 < newCount) then
    let prevBucket := prevCount / freq in
    let newBucket := toolResultCount tracker' / freq in
    if bool_decide (prevBucket < newBucket)
    then (appendNudge messages nudgeText, tracker')
    else (false, messages, tracker')
  else (false, messages, tracker').

(** Successive requests handled with one tracker: each request brings
    its own message array; the result lists, per request, the value
    returned and the array after the call. *)
Fixpoint injectNudges (requests : list (list ChatMessage)) (tracker : ToolTracker)
    (nudgeText : string) (freq : nat)
  : list (bool * list ChatMessage) * ToolTracker :=
  match requests with
  | [] => ([], tracker)
  | messages :: rest =>
      let '(r, tracker') := injectNudge messages tracker nudgeText freq in
      let '(rs, tracker'') := injectNudges rest tracker' nudgeText freq in
      (r :: rs, tracker'')
  end.

End SynthInstruction.

(** ** The match resolver of the prune tool *)

Module MatchResolver.
Import Js.

Record FuzzyConfig := {
  minScore : Z;
  minGap : Z;
}.

Definition DEFAULT_FUZZY_CONFIG : FuzzyConfig :=
  {| minScore := 95; minGap := 15 |}.

Inductive MatchType := exact | fuzzy.

Record MatchResult := {
  messageId : string;
  messageIndex : nat;
  score : Z;
  matchType : MatchType;
}.

(** [state.input] of a tool part when it is truthy: a non-empty string,
    or another value kept as the text [JSON.stringify] makes of it. *)
Inductive ToolInput :=
| InputString (s : string)
| InputValue (json : string).

Record ToolState := {
  status : option string;
  output : option string;
  error : option string;
  input : option ToolInput;
}.

(** The parts by their [type]; a field is [None] unless it is a string. *)
Inductive Part :=
| PText (text : option string)
| PReasoning (text : option string)
| PTool (state : option ToolState)
| PCompaction (summary : option string)
| PSubtask (summary result : option string)
| POther.

(** [parts] is [None] when [msg.parts] is not an array. *)
Record WithParts := {
  info_id : string;
  parts : option (list Part);
}.

Definition sp (field : option string) : string :=
  match field with
  | Some text => " " +:+ text
  | None => ""
  end.

Definition partContent (part : Part) : string :=
  match part with
  | PText text | PReasoning text => sp text
  | PTool None => ""
  | PTool (Some state) =>
      (if bool_decide (status state = Some "completed") && bool_decide (is_Some (output state))
       then sp (output state)
       else if bool_decide (status state = Some "error") then sp (error state)
       else "")
      +:+
      match input state with
      | Some (InputString "") | None => ""
      | Some (InputString s) => " " +:+ s
      | Some (InputValue json) => " " +:+ json
      end
  | PCompaction summary => sp summary
  | PSubtask summary result => sp summary +:+ sp result
  | POther => ""
  end.

Definition extractMessageContent (msg : WithParts) : string :=
  foldl (λ content part, content +:+ partContent part) "" (default [] (parts msg)).

Fixpoint findExactMatches_from (i : nat) (messages : list WithParts)
    (searchString : string) : list MatchResult :=
  match messages with
  | [] => []
  | msg :: rest =>
      let content := extractMessageContent msg in
      if includes content searchString
      then {| messageId := info_id msg; messageIndex := i;
              score := 100; matchType := exact |}
             :: findExactMatches_from (S i) rest searchString
      else findExactMatches_from (S i) rest searchString
  end.

Definition findExactMatches (messages : list WithParts) (searchString : string)
  : list MatchResult :=
  findExactMatches_from 0 messages searchString.

(** [fuzzyMatches.sort((a, b) => b.score - a.score)]: descending by
    score, equal scores keep their order (the sort is stable). *)
Fixpoint insertByScore (x : MatchResult) (l : list MatchResult) : list MatchResult :=
  match l with
  | [] => [x]
  | y :: l' =>
      if bool_decide (score x < score y)%Z then y :: insertByScore x l'
      else x :: l
  end.

Definition sortByScore (l : list MatchResult) : list MatchResult :=
  foldr insertByScore [] l.

Inductive StringType := startString | endString.

Definition stringTypeName (t : StringType) : string :=
  match t with
  | startString => "startString"
  | endString => "endString"
  end.

Record Found := {
  f_messageId : string;
  f_messageIndex : nat;
}.

Definition ambiguousExact (t : StringType) : JsError :=
  Error ("Found multiple matches for " +:+ stringTypeName t +:+ ". " +:+
         "Provide more surrounding context to uniquely identify the intended match.").

Definition ambiguousFuzzy (t : StringType) : JsError :=
  Error ("Found multiple matches for " +:+ stringTypeName t +:+ ". " +:+
         "Provide more unique surrounding context to disambiguate.").

Definition notFound (t : StringType) : JsError :=
  Error (stringTypeName t +:+ " not found in conversation. " +:+
         "Make sure the string exists and is spelled exactly as it appears.").

(** The taxonomy of the errors: both "multiple matches" errors are the
    ambiguous match. *)
Definition isAmbiguousMatch (e : JsError) : Prop :=
  ∃ t, e = ambiguousExact t ∨ e = ambiguousFuzzy t.

Section Resolver.

(** [partial_ratio] of the fuzzball library: a score from 0 to 100. *)
Variable partial_ratio : string → string → Z.

Fixpoint findFuzzyMatches_from (i : nat) (messages : list WithParts)
    (searchString : string) (minScore : Z) : list MatchResult :=
  match messages with
  | [] => []
  | msg :: rest =>
      let content := extractMessageContent msg in
      let score := partial_ratio searchString content in
      if bool_decide (minScore ≤ score)%Z
      then {| messageId := info_id msg; messageIndex := i;
              score := score; matchType := fuzzy |}
             :: findFuzzyMatches_from (S i) rest searchString minScore
      else findFuzzyMatches_from (S i) rest searchString minScore
  end.

Definition findFuzzyMatches (messages : list WithParts) (searchString : string)
    (minScore : Z) : list MatchResult :=
  findFuzzyMatches_from 0 messages searchString minScore.

(** The logger is only written to and is left out. *)
Definition findStringInMessages (messages : list WithParts)
    (searchString : string) (stringType : StringType)
    (fuzzyConfig : FuzzyConfig) : outcome Found :=
  let searchableMessages :=
    if bool_decide (1 < length messages)
    then take (length messages - 1) messages else messages in
  let lastMessage := last messages in
  let exactMatches := findExactMatches searchableMessages searchString in
  match exactMatches with
  | [m] => Returned {| f_messageId := messageId m;
                       f_messageIndex := messageIndex m |}
  | _ :: _ :: _ => Threw (ambiguousExact stringType)
  | [] =>
      let fuzzyMatches :=
        findFuzzyMatches searchableMessages searchString (minScore fuzzyConfig) in
      match fuzzyMatches with
      | [] =>
          match lastMessage with
          | Some lastMessage =>
              let lastMsgContent := extractMessageContent lastMessage in
              let lastMsgIndex := length messages - 1 in
              if includes lastMsgContent searchString
              then Returned {| f_messageId := info_id lastMessage;
                               f_messageIndex := lastMsgIndex |}
              else Threw (notFound stringType)
          | None => Threw (notFound stringType)
          end
      | _ =>
          match sortByScore fuzzyMatches with
          | best :: secondBest :: _ =>
              if bool_decide (score best - score secondBest < minGap fuzzyConfig)%Z
              then Threw (ambiguousFuzzy stringType)
              else Returned {| f_messageId := messageId best;
                               f_messageIndex := messageIndex best |}
          | [best] => Returned {| f_messageId := messageId best;
                                  f_messageIndex := messageIndex best |}
          | [] => Threw (notFound stringType)
          end
      end
  end.

End Resolver.

End MatchResolver.

(** ** The OpenAI Responses format descriptor *)

Module OpenaiResponses.

(** An item of [body.input].  [call_id] is [None] when the field is
    absent, and a string otherwise, as the wire format has it; [fields]
    stands for the remaining properties. *)
Record Item := {
  item_type : option string;
  call_id : option string;
  item_output : option string;
  fields : list (string * string);
}.

(** [{ ...item, output: prunedMessage }]. *)
Definition withOutput (item : Item) (prunedMessage : string) : Item :=
  {| item_type := item_type item;
     call_id := call_id item;
     item_output := Some prunedMessage;
     fields := fields item |}.

Definition isTarget (toolIdLower : string) (item : Item) : bool :=
  bool_decide (item_type item = Some "function_call_output") &&
  bool_decide (Js.toLowerCase <$> call_id item = Some toolIdLower).

(** The loop over the indices; returns [replaced] and the array. *)
Fixpoint replaceLoop (toolIdLower prunedMessage : string) (data : list Item)
    (replaced : bool) : bool * list Item :=
  match data with
  | [] => (replaced, [])
  | item :: rest =>
      if isTarget toolIdLower item then
        let '(r, rest') := replaceLoop toolIdLower prunedMessage rest true in
        (r, withOutput item prunedMessage :: rest')
      else
        let '(r, rest') := replaceLoop toolIdLower prunedMessage rest replaced in
        (r, item :: rest')
  end.

Definition replaceToolOutput (data : list Item) (toolId prunedMessage : string)
  : bool * list Item :=
  let toolIdLower := Js.toLowerCase toolId in
  replaceLoop toolIdLower prunedMessage data false.

Definition hasToolOutputs (data : list Item) : bool :=
  existsb (λ item, bool_decide (item_type item = Some "function_call_output")) data.

End OpenaiResponses.


(** ** tools.js: the [dcp_prune] tool *)

Module PruneTool.
Import Js Config State Core Tools.
Local Open Scope dcp_scope.

(** [value] is [None] when it is not an array; an item is [None] when it
    is not a string.  Keeps the items that are non-empty strings. *)
Definition normalizeIDs (value : option (list (option string))) : list string :=
  match value with
  | None => []
  | Some items =>
      omap (λ id, match id with
                  | Some s => if bool_decide (0 < String.length s) then Some s else None
                  | None => None
                  end) items
  end.

(** [typeof input?.reason === "string" && input.reason.length > 0 ?
    input.reason : "manual"]. *)
Definition reasonOf (reason : option string) : string :=
  match reason with
  | Some r => if bool_decide (0 < String.length r) then r else "manual"
  | None => "manual"
  end.

(** The two shapes of the result: [mode: "sweep"] spreads a sweep
    result, [mode: "inventory"] spreads the result of [pruneByIDs]. *)
Inductive PruneToolResult :=
| SweepMode (result : SweepResult) (transformedView : ViewSummary)
| InventoryMode (inventoryIDs unresolvedInventoryIDs : list string)
    (result : PruneResult) (transformedView : ViewSummary).

(** The [dcp_prune] tool of a context [{ state, config }]; [ids] is
    [input?.ids] and [reason] is [input?.reason], [None] unless it is a
    string. *)
Definition dcp_prune (config : ExtensionConfig)
    (ids : option (list (option string))) (reason : option string)
    (runtime : option (list DcpMessage)) (now : Z) : M PruneToolResult :=
  let messages := extractMessages runtime in
  getPrunableInventory messages (asRaw config);;;
  let inventoryIDs := normalizeIDs ids in
  let reason := reasonOf reason in
  if bool_decide (length inventoryIDs = 0) then
    result ⇐ sweep messages (asRaw config) None now;;
    view ⇐ summarizeView messages config;;
    ret (SweepMode result view)
  else
    st ⇐ get;;
    let resolved := resolveInventoryMessageIDs st inventoryIDs in
    result ⇐ pruneByIDs messages (asRaw config) (resolvedMessageIDs resolved)
               reason None now;;
    view ⇐ summarizeView messages config;;
    ret (InventoryMode inventoryIDs (rr_missingIDs resolved) result view).

End PruneTool.

(** ** The Responses format: tool outputs and the tracker *)

Module ResponsesFormat.
Import Js SynthInstruction OpenaiResponses.

(** An entry of [state.toolParameters]; only [tool] is read here. *)
Record ToolParameterEntry := {
  tool : string;
}.

Record ToolOutput := {
  to_id : string;
  to_toolName : option string;
}.

(** [item[name]] among the remaining properties of an item. *)
Fixpoint fieldOf (name : string) (fields : list (string * string)) : option string :=
  match fields with
  | [] => None
  | (key, value) :: rest =>
      if bool_decide (key = name) then Some value else fieldOf name rest
  end.

(** [item.type === 'function_call_output' && item.call_id]: the call id
    when the item is a tool output with a truthy (non-empty) call id. *)
Definition outputCallId (item : Item) : option string :=
  if bool_decide (item_type item = Some "function_call_output") then
    match call_id item with
    | Some c => if bool_decide (c = "") then None else Some c
    | None => None
    end
  else None.

Definition extractStep (toolParameters : gmap string ToolParameterEntry)
    (outputs : list ToolOutput) (item : Item) : list ToolOutput :=
  match outputCallId item with
  | Some c =>
      let metadata := toolParameters !! toLowerCase c in
      outputs ++ [ {| to_id := toLowerCase c;
                      to_toolName :=
                        match metadata with
                        | Some entry => Some (tool entry)
                        | None => fieldOf "name" (fields item)
                        end |} ]
  | None => outputs
  end.

Definition extractToolOutputs (data : list Item)
    (toolParameters : gmap string ToolParameterEntry) : list ToolOutput :=
  foldl (extractStep toolParameters) [] data.

Definition countItem (acc : gset string * nat) (item : Item) : gset string * nat :=
  match outputCallId item with
  | Some c => observe (toLowerCase c) acc
  | None => acc
  end.

Definition countToolResultsResponses (input : list Item) (tracker : ToolTracker)
  : nat * ToolTracker :=
  let '(seen, newCount) := foldl countItem (seenToolResultIds tracker, 0) input in
  (newCount, {| seenToolResultIds := seen;
                toolResultCount := toolResultCount tracker + newCount |}).

Definition nudgeItem (nudgeText : string) : Item :=
  {| item_type := Some "message"; call_id := None; item_output := None;
     fields := [("role", "user"); ("content", nudgeText)] |}.

Definition appendNudgeResponses (input : list Item) (nudgeText : string)
  : bool * list Item :=
  (true, input ++ [nudgeItem nudgeText]).

Definition injectNudgeResponses (input : list Item) (tracker : ToolTracker)
    (nudgeText : string) (freq : nat) : bool * list Item * ToolTracker :=
  let prevCount := toolResultCount tracker in
  let '(newCount, tracker') := countToolResultsResponses input tracker in
  if bool_decide (0 < newCount) then
    let prevBucket := prevCount / freq in
    let newBucket := toolResultCount tracker' / freq in
    if bool_decide (prevBucket < newBucket)
    then (appendNudgeResponses input nudgeText, tracker')
    else (false, input, tracker')
  else (false, input, tracker').

End ResponsesFormat.

(** ** The Gemini format: the tracker, the nudge and the instruction *)

Module Gemini.
Import Js SynthInstruction.

(** [part.functionResponse] when it is truthy; [fr_name] is [None] when
    the name is nullish, and a string otherwise. *)
Record FunctionResponse := {
  fr_name : option string;
}.

(** [gp_text] is [None] unless [part.text] is a string. *)
Record GeminiPart := {
  functionResponse : option FunctionResponse;
  gp_text : option string;
}.

(** [gc_parts] is [None] when [content.parts] is not an array. *)
Record GeminiContent := {
  gc_role : option string;
  gc_parts : option (list GeminiPart);
}.

(** [part.functionResponse.name?.toLowerCase() || 'unknown']. *)
Definition funcNameOf (response : FunctionResponse) : string :=
  match fr_name response with
  | Some name =>
      if bool_decide (toLowerCase name = "") then "unknown" else toLowerCase name
  | None => "unknown"
  end.

(** [`gemini:${funcName}:${tracker.seenToolResultIds.size}`]. *)
Definition pseudoId (funcName : string) (seen : gset string) : string :=
  "gemini:" +:+ funcName +:+ ":" +:+ pretty (size seen).

Definition countPartGemini (acc : gset string * nat) (part : GeminiPart)
  : gset string * nat :=
  match functionResponse part with
  | Some response => observe (pseudoId (funcNameOf response) acc.1) acc
  | None => acc
  end.

Definition countContentGemini (acc : gset string * nat) (content : GeminiContent)
  : gset string * nat :=
  match gc_parts content with
  | Some parts => foldl countPartGemini acc parts
  | None => acc
  end.

Definition countToolResultsGemini (contents : list GeminiContent)
    (tracker : ToolTracker) : nat * ToolTracker :=
  let '(seen, newCount) :=
    foldl countContentGemini (seenToolResultIds tracker, 0) contents in
  (newCount, {| seenToolResultIds := seen;
                toolResultCount := toolResultCount tracker + newCount |}).

Definition textPart (text : string) : GeminiPart :=
  {| functionResponse := None; gp_text := Some text |}.

Definition appendNudgeGemini (contents : list GeminiContent) (nudgeText : string)
  : bool * list GeminiContent :=
  (true, contents ++ [ {| gc_role := Some "user";
                          gc_parts := Some [textPart nudgeText] |} ]).

Definition injectNudgeGemini (contents : list GeminiContent) (tracker : ToolTracker)
    (nudgeText : string) (freq : nat)
  : bool * list GeminiContent * ToolTracker :=
  let prevCount := toolResultCount tracker in
  let '(newCount, tracker') := countToolResultsGemini contents tracker in
  if bool_decide (0 < newCount) then
    let prevBucket := prevCount / freq in
    let newBucket := toolResultCount tracker' / freq in
    if bool_decide (prevBucket < newBucket)
    then (appendNudgeGemini contents nudgeText, tracker')
    else (false, contents, tracker')
  else (false, contents, tracker').

(** [part?.text && typeof part.text === 'string' &&
    part.text.includes(instruction)]: an empty text is falsy. *)
Definition holdsInstruction (instruction : string) (part : GeminiPart) : bool :=
  match gp_text part with
  | Some text => negb (bool_decide (text = "")) && includes text instruction
  | None => false
  end.

(** The loop runs [i] from [contents.length - 1] down to [0] and stops
    at the first user content whose parts are an array. *)
Fixpoint injectSynthGemini_from (contents : list GeminiContent)
    (instruction : string) (n : nat) : bool * list GeminiContent :=
  match n with
  | O => (false, contents)
  | S i =>
      match contents !! i with
      | Some content =>
          match (if bool_decide (gc_role content = Some "user")
                 then gc_parts content else None) with
          | Some parts =>
              if existsb (holdsInstruction instruction) parts
              then (false, contents)
              else (true,
                    <[i := {| gc_role := gc_role content;
                              gc_parts := Some (parts ++ [textPart instruction]) |}]>
                      contents)
          | None => injectSynthGemini_from contents instruction i
          end
      | None => injectSynthGemini_from contents instruction i
      end
  end.

Definition injectSynthGemini (contents : list GeminiContent) (instruction : string)
  : bool * list GeminiContent :=
  injectSynthGemini_from contents instruction (length contents).

End Gemini.

(** ** The chat format: the synthetic instruction *)

Module SynthInject.
Import Js.

(** A content part as [injectSynth] and [isIgnoredUserMessage] read it:
    [sp_text] is [None] unless [part.text] is a string, [sp_ignored]
    tells whether [part.ignored] is truthy. *)
Record SynthPart := {
  sp_type : option string;
  sp_text : option string;
  sp_ignored : bool;
}.

(** A part of the array is [None] when it is [null] or [undefined]. *)
Inductive SynthContent :=
| SString (s : string)
| SArray (parts : list (option SynthPart))
| SOther.

(** A message of the request body; the three flags tell whether
    [msg.ignored], [msg.info?.ignored] and [msg.synthetic] are truthy. *)
Record SynthMessage := {
  sm_role : option string;
  sm_content : SynthContent;
  sm_ignored : bool;
  sm_info_ignored : bool;
  sm_synthetic : bool;
}.

Definition partIgnored (part : option SynthPart) : bool :=
  match part with
  | Some p => sp_ignored p
  | None => false
  end.

Definition isIgnoredUserMessage (msg : SynthMessage) : bool :=
  if negb (bool_decide (sm_role msg = Some "user")) then false
  else if sm_ignored msg || sm_info_ignored msg || sm_synthetic msg then true
  else
    match sm_content msg with
    | SArray parts => bool_decide (0 < length parts) && forallb partIgnored parts
    | _ => false
    end.

(** [part?.type === 'text' && typeof part.text === 'string' &&
    part.text.includes(instruction)]. *)
Definition holdsInstruction (instruction : string) (part : option SynthPart) : bool :=
  match part with
  | Some p =>
      bool_decide (sp_type p = Some "text") &&
      match sp_text p with
      | Some text => includes text instruction
      | None => false
      end
  | None => false
  end.

Definition withContent (msg : SynthMessage) (content : SynthContent) : SynthMessage :=
  {| sm_role := sm_role msg;
     sm_content := content;
     sm_ignored := sm_ignored msg;
     sm_info_ignored := sm_info_ignored msg;
     sm_synthetic := sm_synthetic msg |}.

Definition textPart (instruction : string) : SynthPart :=
  {| sp_type := Some "text"; sp_text := Some instruction; sp_ignored := false |}.

Definition blankLine : string := String "010" (String "010" "").

(** What is done to the message the loop stops at; a content that is
    neither a string nor an array is left alone and [true] is returned
    all the same. *)
Definition injectInto (msg : SynthMessage) (instruction : string)
  : bool * SynthMessage :=
  match sm_content msg with
  | SString s =>
      if includes s instruction then (false, msg)
      else (true, withContent msg (SString (s +:+ blankLine +:+ instruction)))
  | SArray parts =>
      if existsb (holdsInstruction instruction) parts then (false, msg)
      else (true, withContent msg (SArray (parts ++ [Some (textPart instruction)])))
  | SOther => (true, msg)
  end.

(** The loop runs [i] from [messages.length - 1] down to [0] and stops
    at the first user message that is not ignored. *)
Fixpoint injectSynth_from (messages : list SynthMessage) (instruction : string)
    (n : nat) : bool * list SynthMessage :=
  match n with
  | O => (false, messages)
  | S i =>
      match messages !! i with
      | Some msg =>
          if bool_decide (sm_role msg = Some "user") && negb (isIgnoredUserMessage msg)
          then let '(injected, msg') := injectInto msg instruction in
               (injected, <[i := msg']> messages)
          else injectSynth_from messages instruction i
      | None => injectSynth_from messages instruction i
      end
  end.

Definition injectSynth (messages : list SynthMessage) (instruction : string)
  : bool * list SynthMessage :=
  injectSynth_from messages instruction (length messages).

End SynthInject.

(** ** The match resolver: ids in a range of messages *)

Module MatchRange.
Import Js MatchResolver.

(** The [TypeError] of reading a property of [messages[i]] when there is
    no such element. *)
Definition undefinedMessage : JsError :=
  Error "TypeError: Cannot read properties of undefined".

(** [messages[i]] for an integer [i]. *)
Definition at_index {A} (l : list A) (i : Z) : option A :=
  if (i <? 0)%Z then None else l !! Z.to_nat i.

(** The number of turns of [for (let i = startIndex; i <= endIndex; i++)]
    for integer bounds. *)
Definition turns (startIndex endIndex : Z) : nat :=
  Z.to_nat (endIndex - startIndex + 1).

(** [if (!ids.includes(id)) ids.push(id)]. *)
Definition pushNew (ids : list string) (id : string) : list string :=
  if bool_decide (id ∈ ids) then ids else ids ++ [id].

Fixpoint collectMessageIds_loop (messages : list WithParts) (i : Z) (count : nat)
    (messageIds : list string) : outcome (list string) :=
  match count with
  | O => Returned messageIds
  | S count' =>
      match at_index messages i with
      | Some msg =>
          collectMessageIds_loop messages (i + 1) count'
            (pushNew messageIds (info_id msg))
      | None => Threw undefinedMessage
      end
  end.

Definition collectMessageIdsInRange (messages : list WithParts)
    (startIndex endIndex : Z) : outcome (list string) :=
  collectMessageIds_loop messages startIndex (turns startIndex endIndex) [].

(** A part as [collectToolIdsInRange] reads it: its [type], and its
    [callID] when that is truthy. *)
Record CallPart := {
  cp_type : option string;
  cp_callID : option string;
}.

(** [cm_parts] is [None] when [msg.parts] is not an array. *)
Record CallMessage := {
  cm_parts : option (list CallPart);
}.

Definition collectPart (toolIds : list string) (part : CallPart) : list string :=
  match (if bool_decide (cp_type part = Some "tool") then cp_callID part else None) with
  | Some callID => pushNew toolIds callID
  | None => toolIds
  end.

Fixpoint collectToolIds_loop (messages : list CallMessage) (i : Z) (count : nat)
    (toolIds : list string) : outcome (list string) :=
  match count with
  | O => Returned toolIds
  | S count' =>
      match at_index messages i with
      | Some msg =>
          collectToolIds_loop messages (i + 1) count'
            (foldl collectPart toolIds (default [] (cm_parts msg)))
      | None => Threw undefinedMessage
      end
  end.

Definition collectToolIdsInRange (messages : list CallMessage)
    (startIndex endIndex : Z) : outcome (list string) :=
  collectToolIds_loop messages startIndex (turns startIndex endIndex) [].

End MatchRange.

(** ** Text and numbers of the command line *)

Module JsText.
Import Js.

(** [text.replace(/^\/dcp\s*/i, "")]: a leading "/dcp", in any case,
    goes together with the white space after it.  [\s] and [trim] remove
    the same Latin-1 characters. *)
Definition stripDcpPrefix (text : string) : string :=
  match text with
  | String a (String b (String c (String d rest))) =>
      if bool_decide (toLowerCase (String a (String b (String c (String d "")))) = "/dcp")
      then trimStart rest else text
  | _ => text
  end.

(** [s.split(/\s+/)]: the pieces between the runs of white space; a run
    at either end leaves an empty piece there, and the empty string
    gives one empty piece.  [piece] is the piece being read, [inRun]
    tells that the last character was white space. *)
Fixpoint split_go (piece : string) (inRun : bool) (s : string) : list string :=
  match s with
  | "" => [piece]
  | String c s' =>
      if is_js_space c
      then if inRun then split_go "" true s' else piece :: split_go "" true s'
      else split_go (piece +:+ String c "") false s'
  end.

Definition splitSpaces (s : string) : list string := split_go "" false s.

(** [.filter(Boolean)] on strings: the empty string is falsy. *)
Definition nonEmpty (l : list string) : list string :=
  List.filter (λ s, negb (bool_decide (s = ""))) l.

Definition digitValue (c : ascii) : option Z :=
  let n := N_of_ascii c in
  if ((48 <=? n) && (n <=? 57))%N then Some (Z.of_N (n - 48)) else None.

(** The value of the longest prefix of decimal digits, after [acc]. *)
Fixpoint digits_go (acc : Z) (s : string) : Z :=
  match s with
  | "" => acc
  | String c s' =>
      match digitValue c with
      | Some d => digits_go (10 * acc + d) s'
      | None => acc
      end
  end.

(** The double nearest to a non-negative integer (ties to the even
    mantissa of 53 bits); [None] stands for [Infinity], which [2^1024]
    and everything above round to. *)
Definition roundInteger (z : Z) : option Z :=
  if (z <? 2 ^ 53)%Z then Some z
  else
    let e := (Z.log2 z - 52)%Z in
    let q := (z / 2 ^ e)%Z in
    let r := (z mod 2 ^ e)%Z in
    let half := (2 ^ (e - 1))%Z in
    let q' := if (half <? r)%Z || ((r =? half)%Z && Z.odd q) then (q + 1)%Z else q in
    let v := (q' * 2 ^ e)%Z in
    if (v <? 2 ^ 1024)%Z then Some v else None.

Definition toDouble (z : Z) : number :=
  match roundInteger z with
  | Some v => Finite (inject_Z v)
  | None => Infinity false
  end.

(** [Number.parseInt(s, 10)]: leading white space is skipped, a sign is
    read, and the longest prefix of digits gives the value; no digit
    gives [NaN]. *)
Definition parseInt (s : string) : number :=
  let s1 := trimStart s in
  let '(negative, s2) :=
    match s1 with
    | String "-" rest => (true, rest)
    | String "+" rest => (false, rest)
    | _ => (false, s1)
    end in
  match s2 with
  | String c _ =>
      match digitValue c with
      | Some _ =>
          let v := toDouble (digits_go 0 s2) in
          if (negative : bool) then negate v else v
      | None => NaN
      end
  | "" => NaN
  end.

(** *** [Number::toString] of a positive integer-valued double

    The digits are the shortest decimal [s] of [k] digits for which
    [s * 10^(n-k)] is read back as the same double; among two such the
    nearer one, then the even one.  Below [2^53] every integer is a
    double and its own shortest decimal. *)
Definition decimalDigits (z : Z) : nat := String.length (pretty z).

Definition candidate (z : Z) (n k : nat) : option Z :=
  let scale := (10 ^ Z.of_nat (n - k))%Z in
  let lo := (z / scale)%Z in
  let hi := (lo + 1)%Z in
  let ok (s : Z) :=
    (10 ^ Z.of_nat (k - 1) <=? s)%Z && (s <? 10 ^ Z.of_nat k)%Z &&
    bool_decide (roundInteger (s * scale) = Some z) in
  match ok lo, ok hi with
  | true, true =>
      let below := (z - lo * scale)%Z in
      let above := (hi * scale - z)%Z in
      Some (if (below <? above)%Z then lo
            else if (above <? below)%Z then hi
            else if Z.even lo then lo else hi)
  | true, false => Some lo
  | false, true => Some hi
  | false, false => None
  end.

(** The values that are read back as [z] have as many digits as [z] or
    one more. *)
Fixpoint shortest (z : Z) (n k fuel : nat) : option (Z * nat * nat) :=
  match fuel with
  | O => None
  | S fuel' =>
      match candidate z n k with
      | Some s => Some (s, n, k)
      | None =>
          match candidate z (S n) k with
          | Some s => Some (s, S n, k)
          | None => shortest z n (S k) fuel'
          end
      end
  end.

Fixpoint zeros (n : nat) : string :=
  match n with
  | O => ""
  | S n' => String "0" (zeros n')
  end.

Definition integerToString (z : Z) : string :=
  if (z <? 2 ^ 53)%Z then pretty z
  else
    match shortest z (decimalDigits z) 1 17 with
    | Some (s, n, k) =>
        if bool_decide (n ≤ 21) then pretty s +:+ zeros (n - k)
        else
          match pretty s with
          | String d "" => String d "" +:+ "e+" +:+ pretty (n - 1)
          | String d rest => String d "" +:+ "." +:+ rest +:+ "e+" +:+ pretty (n - 1)
          | "" => ""
          end
    | None => pretty z
    end.

End JsText.

(** ** commands.js *)

Module Commands.
Import Js Config State Core JsText.
Local Open Scope dcp_scope.

(** [runtime] is [None] unless it is an object whose [messages] is an
    array. *)
Definition extractMessages (runtime : option (list DcpMessage)) : list DcpMessage :=
  default [] runtime.

(** What [totalChars] raises at a content that is neither a string nor
    nullish and of which [JSON.stringify] makes no string: the exception
    of [JSON.stringify], or the [TypeError] of reading [.length] of
    [undefined].  The embedding keeps one error for both. *)
Definition stringifyFailure : JsError :=
  Error "TypeError: JSON.stringify(message.content).length".

Fixpoint totalChars_from (total : nat) (messages : list DcpMessage) : outcome nat :=
  match messages with
  | [] => Returned total
  | message :: rest =>
      match msg_content message with
      | CString s => totalChars_from (total + String.length s) rest
      | CNullish => totalChars_from total rest
      | CStructured (Some json) => totalChars_from (total + String.length json) rest
      | CStructured None => Threw stringifyFailure
      end
  end.

Definition totalChars (messages : list DcpMessage) : outcome nat :=
  totalChars_from 0 messages.

(** [entry.toolName || entry.role || "unknown"]. *)
Definition entryLabel (entry : InventoryEntry) : string :=
  if negb (bool_decide (inv_toolName entry = "")) then inv_toolName entry
  else if negb (bool_decide (inv_role entry = "")) then inv_role entry
  else "unknown".

Definition entryLine (entry : InventoryEntry) : string :=
  "#" +:+ inv_id entry +:+ " " +:+ entryLabel entry
    +:+ " chars=" +:+ pretty (inv_chars entry)
    +:+ " estTokens=" +:+ pretty (inv_estimatedTokens entry).

Definition newline : string := String "010" "".

Definition formatContext (messages : list DcpMessage) (rawConfig : option RawConfig)
  : M string :=
  transformed ⇐ createTransformedView messages;;
  inventory ⇐ getPrunableInventory messages rawConfig;;
  rawChars ⇐ lift (totalChars messages);;
  transformedChars ⇐ lift (totalChars transformed);;
  let savedChars := (Z.of_nat rawChars - Z.of_nat transformedChars)%Z in
  let prunableChars := foldl (λ total entry, total + inv_chars entry) 0 inventory in
  let prunableTokens :=
    foldl (λ total entry, total + inv_estimatedTokens entry) 0 inventory in
  let lines :=
    [ "context rawMessages=" +:+ pretty (length messages)
        +:+ " viewMessages=" +:+ pretty (length transformed)
        +:+ " rawChars=" +:+ pretty rawChars
        +:+ " viewChars=" +:+ pretty transformedChars
        +:+ " savedChars=" +:+ pretty savedChars;
      "prunable count=" +:+ pretty (length inventory)
        +:+ " chars=" +:+ pretty prunableChars
        +:+ " estTokens=" +:+ pretty prunableTokens ]
    ++ (entryLine <$> inventory) in
  ret (join newline lines).

Definition formatStats (st : DcpState) : string :=
  join " "
    [ "stats prunedMessages=" +:+ pretty (prunedMessages (counters st));
      "prunedChars=" +:+ pretty (prunedChars (counters st));
      "distillations=" +:+ pretty (distillations (counters st));
      "sweeps=" +:+ pretty (sweeps (counters st)) ].

(** [.replace(/^\/dcp\s*/i, "").trim().split(/\s+/).filter(Boolean)] of
    the trimmed input. *)
Definition argsOf (text : string) : list string :=
  nonEmpty (splitSpaces (trim (stripDcpPrefix text))).

(** [Number.isFinite(maybeLimit) && maybeLimit > 0 ? maybeLimit :
    undefined] for [maybeLimit = Number.parseInt(args[1] || "", 10)]. *)
Definition limitOf (args : list string) : option number :=
  let maybeLimit := parseInt (default "" (args !! 1)) in
  if isFinitePositive maybeLimit then Some maybeLimit else None.

(** [result.usedLimit ? `limit=${result.usedLimit}` : "limit=all"]; the
    limit that [sweep] echoes here is the integer it was handed. *)
Definition limitText (usedLimit : option number) : string :=
  match usedLimit with
  | Some (Finite q) =>
      if bool_decide (Qnum q = 0%Z) then "limit=all"
      else "limit=" +:+ integerToString (toInteger q)
  | Some (Infinity negative) =>
      if negative then "limit=-Infinity" else "limit=Infinity"
  | Some NaN | None => "limit=all"
  end.

Definition sweepText (result : SweepResult) : string :=
  join " "
    [ "sweep pruned=" +:+ pretty (length (sw_prunedIDs result));
      "protected=" +:+ pretty (length (sw_protectedIDs result));
      "candidates=" +:+ pretty (candidateCount result);
      limitText (usedLimit result) ].

Definition DISABLED : string := "dcp commands are disabled by config".
Definition USAGE : string := "usage: /dcp context | /dcp stats | /dcp sweep [n]".
Definition UNKNOWN : string :=
  "unknown /dcp subcommand; expected context, stats, or sweep [n]".

(** The handler [dcpCommand] of a context [{ state, config }];
    [rawInput] is [None] when it is not a string. *)
Definition dcpCommand (config : ExtensionConfig) (rawInput : option string)
    (runtime : option (list DcpMessage)) (now : Z) : M string :=
  let text := match rawInput with Some s => trim s | None => "" end in
  let args := argsOf text in
  let subcommand := toLowerCase (default "" (args !! 0)) in
  let messages := extractMessages runtime in
  if negb (commands_enabled config) then ret DISABLED
  else if bool_decide (subcommand = "") then ret USAGE
  else if bool_decide (subcommand = "context")
  then formatContext messages (asRaw config)
  else if bool_decide (subcommand = "stats")
  then st ⇐ get;; ret (formatStats st)
  else if bool_decide (subcommand = "sweep") then
    let limit := limitOf args in
    result ⇐ sweep messages (asRaw config) limit now;;
    ret (sweepText result)
  else ret UNKNOWN.

End Commands.

(** ** index.js: the command as the host calls it *)

Module Index.
Import Js Config State Core JsText.

(** [value.args] of an input object. *)
Inductive ArgsField :=
| ArgsString (s : string)
| ArgsArray (items : list (option string))
| ArgsOther.

(** The input of the registered command: a string, an object, or
    anything else (falsy values included). *)
Inductive CommandInput :=
| TextInput (s : string)
| ObjectInput (args : ArgsField)
| OtherInput.

Definition toCommandText (input : CommandInput) : string :=
  match input with
  | TextInput s => s
  | OtherInput => "/dcp"
  | ObjectInput (ArgsString a) =>
      if bool_decide (0 < String.length (trim a)) then "/dcp " +:+ trim a else "/dcp"
  | ObjectInput (ArgsArray items) =>
      let args :=
        omap (λ item, match item with
                      | Some s => if bool_decide (0 < String.length s) then Some s else None
                      | None => None
                      end) items in
      if bool_decide (0 < length args) then "/dcp " +:+ join " " args else "/dcp"
  | ObjectInput ArgsOther => "/dcp"
  end.

(** [(input, runtime) => extension.commands.dcp(toCommandText(input),
    runtime)], the handler [register] hands to the host. *)
Definition commandHandler (config : ExtensionConfig) (input : CommandInput)
    (runtime : option (list DcpMessage)) (now : Z) : M string :=
  Commands.dcpCommand config (Some (toCommandText input)) runtime now.

End Index.

(** ** Concrete sessions used by the examples below *)

Module Examples.
Import Js Config State Core.

Definition toolMessage (id toolName content : string) : DcpMessage :=
  {| msg_id := id; msg_role := Some "tool"; msg_toolName := Some toolName;
     msg_content := CString content; msg_input := None; msg_meta := None;
     msg_filePath := None |}.

Definition userMessage (id content : string) : DcpMessage :=
  {| msg_id := id; msg_role := Some "user"; msg_toolName := None;
     msg_content := CString content; msg_input := None; msg_meta := None;
     msg_filePath := None |}.

(** The session [u1, t1, t2, u2, t3, t4, t5]. *)
Definition sweepSession : list DcpMessage :=
  [ userMessage "u1" "first";
    toolMessage "t1" "bash" "old1";
    toolMessage "t2" "bash" "old2";
    userMessage "u2" "second";
    toolMessage "t3" "bash" "new1";
    toolMessage "t4" "bash" "new2";
    toolMessage "t5" "bash" "new3" ].

Definition smallSession : list DcpMessage :=
  [ userMessage "u1" "run checks";
    toolMessage "t1" "bash" "big output" ].

(** A configuration that protects the tool "read" and the files named
    keep.txt, and a session with one message protected by its tool, one
    by its file path, and one unprotected. *)
Definition protectingConfig : option RawConfig :=
  Some {| raw_enabled := None;
          raw_protectedTools := Some [Some "read"];
          raw_protectedFilePatterns := Some [Some "**/keep.txt"];
          raw_commands_enabled := None |}.

Definition fileMessage (id toolName content path : string) : DcpMessage :=
  {| msg_id := id; msg_role := Some "tool"; msg_toolName := Some toolName;
     msg_content := CString content;
     msg_input := Some {| in_filePath := Some path; in_path := None |};
     msg_meta := None; msg_filePath := None |}.

Definition keepMessage : DcpMessage := fileMessage "t2" "bash" "y" "/tmp/keep.txt".

(** A configuration whose only pattern holds a question mark, and a
    message whose file path is that pattern, character by character. *)
Definition questionConfig : option RawConfig :=
  Some {| raw_enabled := None;
          raw_protectedTools := None;
          raw_protectedFilePatterns := Some [Some "/tmp/keep?.txt"];
          raw_commands_enabled := None |}.

Definition questionMessage : DcpMessage :=
  fileMessage "t2" "bash" "y" "/tmp/keep?.txt".

Definition protectedSession : list DcpMessage :=
  [ fileMessage "t1" "read" "x" "/tmp/a.txt";
    keepMessage;
    fileMessage "t3" "bash" "z" "/tmp/drop.txt" ].

(** Modelled from the spec: [partial_ratio] is a function of the fuzzball
    library, which is not among the sources; the specification describes
    it as a best-aligned-substring similarity from 0 to 100 that is 100
    when the shorter string is contained in the longer one and decreases
    with the edit distance.  This stand-in slides the shorter string along
    the longer one and scores the best alignment by the share of
    positions that agree. *)
Fixpoint agreeing (a b : string) : nat :=
  match a, b with
  | String x a', String y b' => (if bool_decide (x = y) then 1 else 0) + agreeing a' b'
  | _, _ => 0
  end.

Fixpoint bestAlignment (needle hay : string) : nat :=
  Nat.max (agreeing needle hay)
          match hay with
          | "" => 0
          | String _ hay' => bestAlignment needle hay'
          end.

Definition partial_ratio_model (s1 s2 : string) : Z :=
  let '(short, long) :=
    if bool_decide (String.length s1 ≤ String.length s2) then (s1, s2) else (s2, s1) in
  if bool_decide (String.length short = 0) then 0%Z
  else Z.of_nat (100 * bestAlignment short long / String.length short).

Definition textMessage (id text : string) : MatchResolver.WithParts :=
  {| MatchResolver.info_id := id;
     MatchResolver.parts := Some [MatchResolver.PText (Some text)] |}.

(** A transcript whose last message holds the search string and whose
    first message holds a near copy of it (one letter differs). *)
Definition foxSearch : string := "the quick brown fox jumps over the lazy dog".

Definition foxTranscript : list MatchResolver.WithParts :=
  [ textMessage "m0" "grep: the quick brown fox jumps over the lazy dig";
    textMessage "m1" "note: the quick brown fox jumps over the lazy dog" ].

(** A transcript with one exact hit among the searchable messages. *)
Definition plainTranscript : list MatchResolver.WithParts :=
  [ textMessage "a" "alpha beta";
    textMessage "b" "gamma delta";
    textMessage "c" "epsilon" ].

(** The session of the distillation test, and two requests: one whose
    texts are padded or missing, one whose texts are already trimmed. *)
Definition distillSession : list DcpMessage :=
  [ userMessage "u1" "start";
    toolMessage "t1" "bash" "aaa";
    toolMessage "t2" "bash" "bbb" ].

Definition paddedTargets : option (list (option Tools.RawTarget)) :=
  Some [ Some {| Tools.rt_id := Some "1";
                 Tools.rt_distillation := Some "  tool output one " |};
         Some {| Tools.rt_id := Some "2"; Tools.rt_distillation := None |} ].

(** Two sessions whose prunable sets differ but have one signature,
    "a:1|b:2|c:3": the ids hold the separators of the signature. *)
Definition sessionA : list DcpMessage :=
  [ toolMessage "a" "bash" "x";
    toolMessage "b:2|c" "bash" "xyz" ].

Definition sessionB : list DcpMessage :=
  [ toolMessage "a:1|b" "bash" "xy";
    toolMessage "c" "bash" "xyz" ].

(** A Responses input in which the call id of one tool call occurs
    twice, in different case, beside another output and a message. *)
Definition responsesInput : list OpenaiResponses.Item :=
  [ {| OpenaiResponses.item_type := Some "message";
       OpenaiResponses.call_id := None;
       OpenaiResponses.item_output := None;
       OpenaiResponses.fields := [("role", "user")] |};
    {| OpenaiResponses.item_type := Some "function_call_output";
       OpenaiResponses.call_id := Some "Call_1";
       OpenaiResponses.item_output := Some "first";
       OpenaiResponses.fields := [] |};
    {| OpenaiResponses.item_type := Some "function_call_output";
       OpenaiResponses.call_id := Some "call_2";
       OpenaiResponses.item_output := Some "other";
       OpenaiResponses.fields := [] |};
    {| OpenaiResponses.item_type := Some "function_call_output";
       OpenaiResponses.call_id := Some "call_1";
       OpenaiResponses.item_output := Some "again";
       OpenaiResponses.fields := [] |} ].

(** The state of the small session after its tool message was pruned by
    hand. *)
Definition smallPruned : DcpState :=
  (pruneByIDs smallSession None ["t1"] "manual" None 0 createState).2.

Definition toolResult (id : string) : SynthInstruction.ChatMessage :=
  {| SynthInstruction.role := Some "tool";
     SynthInstruction.tool_call_id := Some id;
     SynthInstruction.content := SynthInstruction.ContentString "ok";
     SynthInstruction.synthetic := false |}.

(** Three requests that bring 3, then 2 more, then no new tool results. *)
Definition nudgeRequests : list (list SynthInstruction.ChatMessage) :=
  [ [toolResult "call_A"; toolResult "call_b"; toolResult "call_c"];
    [toolResult "call_C"; toolResult "call_d"; toolResult "call_e"];
    [toolResult "call_e"; toolResult "CALL_A"] ].

End Examples.

(** ** The vocabulary of the specification *)

Module Spec.
Import Js Config State Core.

(** A tool-like message: its role is "tool" or it names a tool. *)
Definition ToolLike (m : DcpMessage) : Prop :=
  msg_role m = Some "tool" ∨ is_Some (msg_toolName m).

(** The file path a message carries: the direct field, else
    [input.filePath], else [input.path]. *)
Definition InferredPath (m : DcpMessage) (path : string) : Prop :=
  msg_filePath m = Some path
  ∨ (msg_filePath m = None
     ∧ ∃ inObj, msg_input m = Some inObj
         ∧ (in_filePath inObj = Some path
            ∨ (in_filePath inObj = None ∧ in_path inObj = Some path))).

(** How often a character occurs in a string. *)
Fixpoint occurrences (c : ascii) (s : string) : nat :=
  match s with
  | "" => 0
  | String a s' => (if bool_decide (a = c) then 1 else 0) + occurrences c s'
  end.

(** Glob patterns as the specification reads them: [*] matches any run
    of non-separator characters, [**] matches across separators, and the
    rest of the pattern is literal.  The separator is the slash.  A run
    of stars is read from the left, two stars at a time. *)
Inductive GlobToken :=
| GChar (c : ascii)
| GStar
| GDoubleStar.

Fixpoint globTokens (pattern : string) : list GlobToken :=
  match pattern with
  | "" => []
  | String "*" (String "*" rest) => GDoubleStar :: globTokens rest
  | String "*" rest => GStar :: globTokens rest
  | String c rest => GChar c :: globTokens rest
  end.

Inductive GlobMatches : list GlobToken → string → Prop :=
| glob_end : GlobMatches [] ""
| glob_char (c : ascii) (tokens : list GlobToken) (s : string) :
    GlobMatches tokens s →
    GlobMatches (GChar c :: tokens) (String c s)
| glob_star (tokens : list GlobToken) (run s : string) :
    occurrences "/" run = 0 →
    GlobMatches tokens s →
    GlobMatches (GStar :: tokens) (run +:+ s)
| glob_double_star (tokens : list GlobToken) (run s : string) :
    GlobMatches tokens s →
    GlobMatches (GDoubleStar :: tokens) (run +:+ s).

(** The three ways a message is protected: (a) its tool name is one of
    the pruning tools themselves; (b) its tool name is in the configured
    list, compared without regard to case; (c) it carries a (non-empty)
    file path that matches a configured glob pattern. *)
Inductive Protected (config : ExtensionConfig) (m : DcpMessage) : Prop :=
| protected_builtin (t : string) :
    msg_toolName m = Some t →
    toLowerCase t = "dcp_prune" ∨ toLowerCase t = "dcp_distill" →
    Protected config m
| protected_tool (t p : string) :
    msg_toolName m = Some t →
    p ∈ protectedTools config →
    toLowerCase p = toLowerCase t →
    Protected config m
| protected_path (path pattern : string) :
    InferredPath m path →
    path ≠ "" →
    pattern ∈ protectedFilePatterns config →
    GlobMatches (globTokens pattern) path →
    Protected config m.

(** The patterns and paths on which the engine's regular expressions are
    shown to follow this reading: a pattern without a question mark and
    without a colon, and a path without a line break. *)
Definition regularPattern (pattern : string) : Prop :=
  occurrences "?" pattern = 0 ∧ occurrences ":" pattern = 0.

Definition patternsRegular (config : ExtensionConfig) : Prop :=
  Forall regularPattern (protectedFilePatterns config).

Definition oneLine (path : string) : Prop :=
  occurrences "010" path = 0 ∧ occurrences "013" path = 0.

(** Every configured glob pattern yields a well-formed regular
    expression. *)
Definition patternsCompile (config : ExtensionConfig) : Prop :=
  Forall (λ pattern, ∃ regex, compile (escaped pattern) = Returned regex)
         (protectedFilePatterns config).

(** A message a sweep or the inventory may take: tool-like, without a
    record, and found unprotected. *)
Definition Prunable (config : ExtensionConfig) (st : DcpState) (m : DcpMessage) : Prop :=
  ToolLike m
  ∧ prunedByID st !! msg_id m = None
  ∧ isProtectedMessage m config = Returned false.

Global Instance ToolLike_dec m : Decision (ToolLike m).
Proof. unfold ToolLike. apply _. Defined.

Global Instance Prunable_dec config st m : Decision (Prunable config st m).
Proof. unfold Prunable. apply _. Defined.


(** An item of the Responses input is an output of the tool call
    [toolId]: its type is function_call_output and its call id equals
    [toolId] up to case. *)
Definition OutputOf (toolId : string) (item : OpenaiResponses.Item) : Prop :=
  OpenaiResponses.item_type item = Some "function_call_output"
  ∧ ∃ c, OpenaiResponses.call_id item = Some c ∧ toLowerCase c = toLowerCase toolId.

(** Two states that differ at most in the id map. *)
Definition sameButIdMap (st st' : DcpState) : Prop :=
  prunedByID st' = prunedByID st
  ∧ distillationBySourceID st' = distillationBySourceID st
  ∧ st_distillations st' = st_distillations st
  ∧ inventory st' = inventory st
  ∧ counters st' = counters st.

(** The ids of the tool results a message of a request carries,
    lower-cased: the call id of a tool message, or the ids of the
    tool_result parts of a user message whose content is an array. *)
Definition partResultIds (part : SynthInstruction.ContentPart) : list string :=
  match SynthInstruction.tool_use_id part with
  | Some raw =>
      if bool_decide (SynthInstruction.part_type part = Some "tool_result")
      then [toLowerCase raw] else []
  | None => []
  end.

Definition messageResultIds (m : SynthInstruction.ChatMessage) : list string :=
  if bool_decide (SynthInstruction.role m = Some "tool") then
    match SynthInstruction.tool_call_id m with
    | Some raw => [toLowerCase raw]
    | None => []
    end
  else if bool_decide (SynthInstruction.role m = Some "user") then
    match SynthInstruction.content m with
    | SynthInstruction.ContentArray parts => parts ≫= partResultIds
    | _ => []
    end
  else [].

Definition requestResultIds (messages : list SynthInstruction.ChatMessage) : list string :=
  messages ≫= messageResultIds.

(** A tracker counts what it has seen. *)
Definition trackerOk (tracker : SynthInstruction.ToolTracker) : Prop :=
  SynthInstruction.toolResultCount tracker
  = size (SynthInstruction.seenToolResultIds tracker).

(** The distinct tool-result ids carried by the first [k] requests. *)
Definition seenAfter (requests : list (list SynthInstruction.ChatMessage)) (k : nat)
  : gset string :=
  list_to_set (take k requests ≫= requestResultIds).

(** The messages searched first: all but the last one, or the only one. *)
Definition searchable (messages : list MatchResolver.WithParts)
  : list MatchResolver.WithParts :=
  match messages with
  | [_] => messages
  | _ => take (length messages - 1) messages
  end.

(** The text of a message holds the search string as a substring. *)
Definition Contains (searchString : string) (msg : MatchResolver.WithParts) : Prop :=
  ∃ before after,
    MatchResolver.extractMessageContent msg = before +:+ searchString +:+ after.

(** What the signature holds of one entry. *)
Definition entryText (entry : Entry) : string :=
  e_messageID entry +:+ ":" +:+ pretty (e_chars entry).

(** The inventory cache is one that [getPrunableInventory] built: the
    numbering of some entry list, stored with its signature.  The fresh
    state has such a cache (of the empty list), and nothing else writes
    the cache. *)
Definition InventoryOk (st : DcpState) : Prop :=
  ∃ entries, inventory st = buildInventory (signatureOf entries) entries.

(** The prunable messages of a list, in document order, and what the
    signature records of them. *)
Definition prunableOf (config : ExtensionConfig) (st : DcpState)
    (messages : list DcpMessage) : list DcpMessage :=
  filter (Prunable config st) messages.

Definition sized (messages : list DcpMessage) : list (string * nat) :=
  (λ m, (msg_id m, estimateChars (msg_content m))) <$> messages.

(** The numeric ids "1", "2", ... given to a list of messages in order. *)
Definition numbered (messages : list DcpMessage) : list (string * string) :=
  imap (λ i m, (pretty (i + 1), msg_id m)) messages.

(** The inventory of the state has a message for the numeric id of the
    target. *)
Definition Resolvable (listed : DcpState) (target : Tools.Target) : Prop :=
  rr_missingIDs (resolveInventoryMessageIDs listed [Tools.t_id target]) = [].

Global Instance Resolvable_dec listed target : Decision (Resolvable listed target).
Proof. unfold Resolvable. apply _. Defined.

(** The record of a target: it holds the text of that target as its
    summary, the clock reading of the call, and as its only source the
    message that the inventory of [listed] gives for the numeric id of
    that target. *)
Definition RecordOf (listed : DcpState) (now : Z)
    (record : DistillationRecord) (target : Tools.Target) : Prop :=
  dr_summary record = Tools.t_distillation target
  ∧ dr_at record = now
  ∧ ∃ messageID,
      dr_sourceMessageIDs record = [messageID]
      ∧ resolveInventoryMessageIDs listed [Tools.t_id target]
        = {| resolvedMessageIDs := [messageID]; rr_missingIDs := [] |}.

(** A limit that is a finite number strictly greater than zero. *)
Definition FinitePositive (limit : option number) : Prop :=
  ∃ q, limit = Some (Finite q) ∧ (0 < q)%Q.

(** The last [n] elements of a list (all of it when it is shorter). *)
Definition lastN {A} (n : nat) (l : list A) : list A :=
  drop (length l - n) l.

End Spec.

(** ** The engine as a whole: its calls and what they keep true *)

Module Engine.
Import Js Config State Core.

(** The ways the code writes the state: a record for an id that has
    none, a rebuilt inventory, an entry of the id map, a distillation
    with the next id, one more sweep. *)
Inductive mutation : DcpState → DcpState → Prop :=
| mutation_record (messageID : string) (rec : PrunedRecord) (st : DcpState) :
    prunedByID st !! messageID = None →
    mutation st (recordPruned messageID rec st)
| mutation_inventory (entries : list Entry) (st : DcpState) :
    mutation st (setInventory (buildInventory (signatureOf entries) entries) st)
| mutation_idMap (messageID : string) (entry : IdMapEntry) (st : DcpState) :
    mutation st (setIdMap messageID entry st)
| mutation_distillation (messageIDs : list string) (summary : string) (now : Z)
    (st : DcpState) :
    mutation st
      (recordDistillation
         {| dr_id := "dcp-distill-" +:+ pretty (distillations (counters st) + 1);
            dr_sourceMessageIDs := messageIDs;
            dr_summary := summary;
            dr_at := now |} st)
| mutation_sweep (st : DcpState) :
    mutation st (countSweep st).

Definition evolves : relation DcpState := rtc mutation.

(** The exported functions of core.js, the two tools and the command. *)
Inductive Call :=
| PruneByIDs (messages : list DcpMessage) (rawConfig : option RawConfig)
    (messageIDs : list string) (reason : string) (distillationID : option string)
| Sweep (messages : list DcpMessage) (rawConfig : option RawConfig)
    (limit : option number)
| GetPrunableInventory (messages : list DcpMessage) (rawConfig : option RawConfig)
| CreateTransformedView (messages : list DcpMessage)
| CreateDistillation (messages : list DcpMessage) (messageIDs : list string)
    (summary : string)
| DcpPrune (config : ExtensionConfig) (ids : option (list (option string)))
    (reason : option string) (runtime : option (list DcpMessage))
| DcpDistill (config : ExtensionConfig)
    (targets : option (list (option Tools.RawTarget)))
    (runtime : option (list DcpMessage))
| DcpCommand (config : ExtensionConfig) (rawInput : option string)
    (runtime : option (list DcpMessage)).

(** The state a call leaves behind, whether it returns or throws;
    [now] is the clock reading of the call. *)
Definition run (call : Call) (now : Z) (st : DcpState) : DcpState :=
  match call with
  | PruneByIDs messages rawConfig messageIDs reason distillationID =>
      (pruneByIDs messages rawConfig messageIDs reason distillationID now st).2
  | Sweep messages rawConfig limit => (sweep messages rawConfig limit now st).2
  | GetPrunableInventory messages rawConfig =>
      (getPrunableInventory messages rawConfig st).2
  | CreateTransformedView messages => (createTransformedView messages st).2
  | CreateDistillation messages messageIDs summary =>
      (createDistillation messages messageIDs summary now st).2
  | DcpPrune config ids reason runtime =>
      (PruneTool.dcp_prune config ids reason runtime now st).2
  | DcpDistill config targets runtime =>
      (Tools.dcp_distill config targets runtime now st).2
  | DcpCommand config rawInput runtime =>
      (Commands.dcpCommand config rawInput runtime now st).2
  end.

Definition runs (calls : list (Call * Z)) (st : DcpState) : DcpState :=
  foldl (λ st call, run call.1 call.2 st) st calls.

(** The characters counted by the records of a state. *)
Definition charsOf (records : gmap string PrunedRecord) : nat :=
  map_fold (λ _ rec total, pr_chars rec + total) 0 records.

(** The characters a record for the id would count. *)
Definition noted (byID : gmap string DcpMessage) (id : string) : nat :=
  from_option (λ m, estimateChars (msg_content m)) 0 (byID !! id).

(** The counters say what the state holds. *)
Definition CountersOk (st : DcpState) : Prop :=
  prunedMessages (counters st) = size (prunedByID st)
  ∧ prunedChars (counters st) = charsOf (prunedByID st)
  ∧ distillations (counters st) = length (st_distillations st).

(** The distillations are numbered in the order they were made, and the
    index by source id leads to distillations that exist and name the
    source. *)
Definition DistillationsOk (st : DcpState) : Prop :=
  (∀ i record, st_distillations st !! i = Some record →
               dr_id record = "dcp-distill-" +:+ pretty (i + 1))
  ∧ (∀ sourceID d, distillationBySourceID st !! sourceID = Some d →
       ∃ record, record ∈ st_distillations st
                 ∧ dr_id record = d
                 ∧ sourceID ∈ dr_sourceMessageIDs record).

(** The entry of the id map that a view makes for an id. *)
Definition viewEntry (st : DcpState) (id : string) : IdMapEntry :=
  {| originalID := id; transformedID := id;
     pruned := bool_decide (is_Some (prunedByID st !! id)) |}.

(** The message id the inventory list gives for a numeric id: that of
    the entry with this id, unless it is empty (an empty message id is
    falsy and counts as missing). *)
Definition entryMessageID (st : DcpState) (id : string) : option string :=
  match list_find (λ entry, inv_id entry = id) (State.entries (inventory st)) with
  | Some (_, entry) =>
      if bool_decide (inv_messageID entry = "") then None
      else Some (inv_messageID entry)
  | None => None
  end.

(** The ids a call of the prune tool reports as pruned, in either mode. *)
Definition toolPrunedIDs (r : PruneTool.PruneToolResult) : list string :=
  match r with
  | PruneTool.SweepMode result _ => sw_prunedIDs result
  | PruneTool.InventoryMode _ _ result _ => prunedIDs result
  end.

(** A message that says of itself that it is pruned: its own
    [meta.dcp.pruned] is truthy, as in a view that is fed back. *)
Definition flagged (m : DcpMessage) : bool :=
  match msg_meta m ≫= meta_dcp with
  | Some d => dcp_pruned d
  | None => false
  end.

End Engine.

(** ** Words of a command line *)

Module Text.
Import Js JsText.

(** No character of the string is white space. *)
Fixpoint spaceless (s : string) : bool :=
  match s with
  | "" => true
  | String c s' => negb (is_js_space c) && spaceless s'
  end.

(** A word: a non-empty string without white space. *)
Definition Word (w : string) : Prop := w ≠ "" ∧ spaceless w = true.

(** Every character of the string is a decimal digit. *)
Fixpoint allDigits (s : string) : bool :=
  match s with
  | "" => true
  | String c s' => bool_decide (is_Some (digitValue c)) && allDigits s'
  end.

End Text.

(** ** The wire formats *)

Module Formats.
Import Js SynthInstruction.

(** Every id the tracker has seen is a pseudo id made by the Gemini
    counter, numbered below the size of the set. *)
Definition GeminiOnly (seen : gset string) : Prop :=
  ∀ id, id ∈ seen →
    ∃ name k, id = "gemini:" +:+ name +:+ ":" +:+ pretty k ∧ k < size seen.

(** The number of parts of a request that carry a function response. *)
Definition functionResponses (contents : list Gemini.GeminiContent) : nat :=
  sum_list ((λ content,
               length (List.filter
                         (λ part, bool_decide (is_Some (Gemini.functionResponse part)))
                         (default [] (Gemini.gc_parts content)))) <$> contents).

(** An accumulator of a count that started from the set [seen0]: the
    set has only grown, by as many ids as were counted. *)
Definition counted (seen0 : gset string) (acc : gset string * nat) : Prop :=
  seen0 ⊆ acc.1 ∧ size acc.1 = size seen0 + acc.2.

End Formats.

(** ** Ranges of a transcript *)

Module Ranges.
Import Js MatchResolver MatchRange.

(** The elements with the indices [startIndex] to [endIndex], both
    included; no element when [endIndex] is below [startIndex]. *)
Definition rangeOf {A} (l : list A) (startIndex endIndex : Z) : list A :=
  take (turns startIndex endIndex) (drop (Z.to_nat startIndex) l).

(** The range lies within the list, or is empty. *)
Definition rangeFits {A} (l : list A) (startIndex endIndex : Z) : Prop :=
  (endIndex < startIndex)%Z
  ∨ (0 ≤ startIndex ∧ endIndex < Z.of_nat (length l))%Z.

(** The elements of a list in the order of their first occurrence: each
    element is kept where it occurs first and dropped wherever it
    occurs again. *)
Fixpoint firstOccurrences (l : list string) : list string :=
  match l with
  | [] => []
  | x :: l' => x :: filter (λ y, y ≠ x) (firstOccurrences l')
  end.

(** The call ids of the tool parts of a message, in order. *)
Definition toolCallIDs (msg : CallMessage) : list string :=
  omap (λ part, if bool_decide (cp_type part = Some "tool") then cp_callID part
                else None)
       (default [] (cm_parts msg)).

End Ranges.

(** ** Patterns without wildcards *)

Module Glob.
Import Js.

Fixpoint chars (s : string) : list ascii :=
  match s with
  | "" => []
  | String c s' => c :: chars s'
  end.

(** No character of the string is one of [cs]. *)
Fixpoint avoids (cs : list ascii) (s : string) : bool :=
  match s with
  | "" => true
  | String c s' => negb (bool_decide (c ∈ cs)) && avoids cs s'
  end.

(** A pattern without a star, a question mark or a colon. *)
Definition plain (pattern : string) : bool := avoids [ "*"; "?"; ":" ]%char pattern.

(** The text a glob character leaves in the source of the regular
    expression: itself, behind a backslash when it is special. *)
Definition charSource (c : ascii) : string :=
  if Core.is_regex_special c then String "\" (String c "") else String c "".

(** The source text for a token list, with given texts for the star and
    the double star. *)
Fixpoint render (star doubleStar : string) (tokens : list Spec.GlobToken) : string :=
  match tokens with
  | [] => ""
  | Spec.GChar c :: rest => charSource c +:+ render star doubleStar rest
  | Spec.GStar :: rest => star +:+ render star doubleStar rest
  | Spec.GDoubleStar :: rest => doubleStar +:+ render star doubleStar rest
  end.

Definition PLACEHOLDER : string := "::DOUBLE_STAR::".

Definition lexemesOf (token : Spec.GlobToken) : list lexeme :=
  match token with
  | Spec.GChar c => [LAtom (Lit c)]
  | Spec.GStar => [LAtom NotSlash; LStar]
  | Spec.GDoubleStar => [LAtom AnyChar; LStar]
  end.

Definition termOf (token : Spec.GlobToken) : atom * quant :=
  match token with
  | Spec.GChar c => (Lit c, One)
  | Spec.GStar => (NotSlash, Star)
  | Spec.GDoubleStar => (AnyChar, Star)
  end.

(** Every character of the run is matched by the atom. *)
Fixpoint allMatch (a : atom) (run : string) : bool :=
  match run with
  | "" => true
  | String c run' => atom_matches a c && allMatch a run'
  end.

End Glob.

(** ** Glob patterns: the regular expression of the engine and the
       reading of the specification *)

Section GlobReading.
Import Js Config State Core Spec Glob.

Lemma occurrences_app c s t :
  occurrences c (s +:+ t) = occurrences c s + occurrences c t.
Proof.
  induction s as [|a s IH]; [done|].
  change (occurrences c (String a (s +:+ t))
          = occurrences c (String a s) + occurrences c t).
  simpl. rewrite IH. lia.
Qed.

Lemma occurrences_cons c a s :
  occurrences c (String a s) = 0 ↔ a ≠ c ∧ occurrences c s = 0.
Proof.
  cbn [occurrences]. case_bool_decide; split; try lia; naive_solver.
Qed.

(** *** The shapes of a pattern *)

Lemma globTokens_char c rest :
  c ≠ "*"%char → globTokens (String c rest) = GChar c :: globTokens rest.
Proof.
  destruct c as [[] [] [] [] [] [] [] []]; try reflexivity. by intros [].
Qed.

Lemma globTokens_star rest :
  (∀ rest', rest ≠ String "*" rest') →
  globTokens (String "*" rest) = GStar :: globTokens rest.
Proof.
  destruct rest as [|c rest]; [reflexivity|].
  destruct c as [[] [] [] [] [] [] [] []]; try reflexivity.
  intros Hne. by destruct (Hne rest).
Qed.

Lemma glob_pattern_ind (P : string → Prop) :
  P "" →
  (∀ rest, P rest → P (String "*" (String "*" rest))) →
  (∀ rest, (∀ rest', rest ≠ String "*" rest') → P rest → P (String "*" rest)) →
  (∀ c rest, c ≠ "*"%char → P rest → P (String c rest)) →
  ∀ pattern, P pattern.
Proof.
  intros Hnil Hdouble Hstar Hchar pattern.
  assert (∀ n p, String.length p ≤ n → P p) as Hall; [|by apply (Hall (String.length pattern))].
  induction n as [|n IH]; intros p Hlen.
  - destruct p; [done|]. simpl in Hlen. lia.
  - destruct p as [|c p]; [done|]. simpl in Hlen.
    destruct (decide (c = "*"%char)) as [->|Hc]; [|apply Hchar; [done|apply IH; lia]].
    destruct p as [|c' p]; [by apply Hstar; [|apply IH; simpl; lia]|].
    destruct (decide (c' = "*"%char)) as [->|Hc'].
    + apply Hdouble. apply IH. simpl in Hlen. lia.
    + apply Hstar; [|apply IH; simpl in *; lia]. intros rest' [= ? _]. done.
Qed.

(** The characters among the tokens are neither stars, nor, for a
    regular pattern, question marks or colons. *)
Lemma globTokens_chars pattern :
  regularPattern pattern →
  Forall (λ token, ∀ c, token = GChar c →
                        c ≠ "*"%char ∧ c ≠ "?"%char ∧ c ≠ ":"%char)
         (globTokens pattern).
Proof.
  unfold regularPattern.
  induction pattern as [|rest IH|rest Hrest IH|c rest Hc IH] using glob_pattern_ind.
  - constructor.
  - rewrite !occurrences_cons. intros [(_ & _ & H1) (_ & _ & H2)].
    change (globTokens (String "*" (String "*" rest)))
      with (GDoubleStar :: globTokens rest).
    constructor; [done|]. by apply IH.
  - rewrite !occurrences_cons. intros [(_ & H1) (_ & H2)].
    rewrite globTokens_star by done. constructor; [done|]. by apply IH.
  - rewrite !occurrences_cons. intros [(Hq & H1) (Hcolon & H2)].
    rewrite globTokens_char by done. constructor; [|by apply IH].
    intros c' [= <-]. done.
Qed.

(** *** The three replacements *)

Lemma replace_go_hit pat rep c s :
  startsWith pat (String c s) = true →
  replace_go pat rep 0 (String c s)
  = rep +:+ replace_go pat rep (String.length pat - 1) s.
Proof. intros Hhit. cbn [replace_go]. by rewrite Hhit. Qed.

Lemma replace_go_miss pat rep c s :
  startsWith pat (String c s) = false →
  replace_go pat rep 0 (String c s) = String c (replace_go pat rep 0 s).
Proof. intros Hmiss. cbn [replace_go]. by rewrite Hmiss. Qed.

Lemma replace_go_pass c0 pat rep pre rest :
  occurrences c0 pre = 0 →
  replace_go (String c0 pat) rep 0 (pre +:+ rest)
  = pre +:+ replace_go (String c0 pat) rep 0 rest.
Proof.
  induction pre as [|c pre IH]; [done|].
  intros [Hc Hpre]%occurrences_cons.
  change (String c pre +:+ rest) with (String c (pre +:+ rest)).
  rewrite replace_go_miss.
  - by rewrite IH.
  - cbn [startsWith]. by rewrite bool_decide_false by done.
Qed.

Lemma escapeSpecials_cons c rest :
  escapeSpecials (String c rest) = charSource c +:+ escapeSpecials rest.
Proof.
  cbn [escapeSpecials]. unfold charSource. by destruct (is_regex_special c).
Qed.

Lemma charSource_occurrences c0 c :
  c ≠ c0 → c0 ≠ "\"%char → occurrences c0 (charSource c) = 0.
Proof.
  intros Hc Hb. unfold charSource. destruct (is_regex_special c).
  - apply occurrences_cons. split; [done|]. by apply occurrences_cons.
  - by apply occurrences_cons.
Qed.

Lemma escapeSpecials_no_star rest :
  (∀ rest', rest ≠ String "*" rest') →
  startsWith "*" (escapeSpecials rest) = false.
Proof.
  destruct rest as [|c rest]; [done|]. intros Hne.
  assert (c ≠ "*"%char) as Hc by (intros ->; by destruct (Hne rest)).
  cbn [escapeSpecials]. destruct (is_regex_special c); [done|].
  cbn [startsWith]. by rewrite bool_decide_false by done.
Qed.

Lemma replace_double_star pattern :
  replace_go "**" PLACEHOLDER 0 (escapeSpecials pattern)
  = render "*" PLACEHOLDER (globTokens pattern).
Proof.
  induction pattern as [|rest IH|rest Hrest IH|c rest Hc IH] using glob_pattern_ind.
  - done.
  - change (escapeSpecials (String "*" (String "*" rest)))
      with (String "*" (String "*" (escapeSpecials rest))).
    change (globTokens (String "*" (String "*" rest)))
      with (GDoubleStar :: globTokens rest).
    rewrite replace_go_hit by reflexivity.
    cbn [render String.length Nat.sub replace_go]. by rewrite IH.
  - change (escapeSpecials (String "*" rest))
      with (String "*" (escapeSpecials rest)).
    rewrite globTokens_star by done.
    rewrite replace_go_miss.
    + cbn [render]. by rewrite IH.
    + change (startsWith "**" (String "*" (escapeSpecials rest)))
        with (bool_decide ("*"%char = "*"%char)
              && startsWith "*" (escapeSpecials rest)).
      rewrite escapeSpecials_no_star by done. by destruct (bool_decide _).
  - rewrite escapeSpecials_cons, globTokens_char by done.
    rewrite replace_go_pass by (by apply charSource_occurrences).
    cbn [render]. by rewrite IH.
Qed.

Lemma replace_star tokens :
  Forall (λ token, ∀ c, token = GChar c →
                        c ≠ "*"%char ∧ c ≠ "?"%char ∧ c ≠ ":"%char) tokens →
  replace_go "*" "[^/]*" 0 (render "*" PLACEHOLDER tokens)
  = render "[^/]*" PLACEHOLDER tokens.
Proof.
  induction 1 as [|token tokens Htoken _ IH]; [done|].
  destruct token as [c| |]; cbn [render].
  - destruct (Htoken c eq_refl) as (Hstar & _ & _).
    rewrite replace_go_pass by (by apply charSource_occurrences). by rewrite IH.
  - change ("*" +:+ render "*" PLACEHOLDER tokens)
      with (String "*" (render "*" PLACEHOLDER tokens)).
    rewrite replace_go_hit by reflexivity.
    cbn [String.length Nat.sub]. by rewrite IH.
  - rewrite replace_go_pass by reflexivity. by rewrite IH.
Qed.

Lemma replace_placeholder tokens :
  Forall (λ token, ∀ c, token = GChar c →
                        c ≠ "*"%char ∧ c ≠ "?"%char ∧ c ≠ ":"%char) tokens →
  replace_go PLACEHOLDER ".*" 0 (render "[^/]*" PLACEHOLDER tokens)
  = render "[^/]*" ".*" tokens.
Proof.
  induction 1 as [|token tokens Htoken _ IH]; [done|].
  destruct token as [c| |]; cbn [render].
  - destruct (Htoken c eq_refl) as (_ & _ & Hcolon).
    unfold PLACEHOLDER at 1.
    rewrite replace_go_pass by (by apply charSource_occurrences).
    fold PLACEHOLDER. by rewrite IH.
  - unfold PLACEHOLDER at 1. rewrite replace_go_pass by reflexivity.
    fold PLACEHOLDER. by rewrite IH.
  - rewrite <- IH. reflexivity.
Qed.

Lemma escaped_render pattern :
  regularPattern pattern →
  escaped pattern = render "[^/]*" ".*" (globTokens pattern).
Proof.
  intros Hregular. unfold escaped, replaceAll.
  pose proof (globTokens_chars pattern Hregular) as Hchars.
  change "::DOUBLE_STAR::" with PLACEHOLDER.
  by rewrite replace_double_star, replace_star, replace_placeholder.
Qed.

(** *** Reading the source text *)

Lemma lex_literal c rest :
  is_regex_special c = false → c ≠ "*"%char → c ≠ "?"%char →
  lex (String c rest) = cons (LAtom (Lit c)) <$> lex rest.
Proof.
  destruct c as [[] [] [] [] [] [] [] []]; try reflexivity;
    intros Hspecial Hstar Hquestion;
    first [by vm_compute in Hspecial | by destruct Hstar | by destruct Hquestion].
Qed.

Lemma lex_render tokens :
  Forall (λ token, ∀ c, token = GChar c →
                        c ≠ "*"%char ∧ c ≠ "?"%char ∧ c ≠ ":"%char) tokens →
  lex (render "[^/]*" ".*" tokens) = Some (tokens ≫= lexemesOf).
Proof.
  induction 1 as [|token tokens Htoken _ IH]; [done|].
  rewrite bind_cons. destruct token as [c| |]; cbn [render lexemesOf].
  - destruct (Htoken c eq_refl) as (Hstar & Hquestion & _).
    unfold charSource. destruct (is_regex_special c) eqn:Hspecial.
    + change (cons (LAtom (Lit c)) <$> lex (render "[^/]*" ".*" tokens)
              = Some (LAtom (Lit c) :: (tokens ≫= lexemesOf))).
      by rewrite IH.
    + change (lex (String c (render "[^/]*" ".*" tokens))
              = Some (LAtom (Lit c) :: (tokens ≫= lexemesOf))).
      rewrite lex_literal by done. by rewrite IH.
  - change (cons (LAtom NotSlash) <$> (cons LStar <$> lex (render "[^/]*" ".*" tokens))
            = Some (LAtom NotSlash :: LStar :: (tokens ≫= lexemesOf))).
    by rewrite IH.
  - change (cons (LAtom AnyChar) <$> (cons LStar <$> lex (render "[^/]*" ".*" tokens))
            = Some (LAtom AnyChar :: LStar :: (tokens ≫= lexemesOf))).
    by rewrite IH.
Qed.

Lemma parse_token token tokens :
  parse (lexemesOf token ++ (tokens ≫= lexemesOf))
  = cons (termOf token) <$> parse (tokens ≫= lexemesOf).
Proof.
  destruct tokens as [|next tokens].
  - by destruct token.
  - rewrite bind_cons. by destruct token, next.
Qed.

Lemma parse_render tokens :
  parse (tokens ≫= lexemesOf) = Some (termOf <$> tokens).
Proof.
  induction tokens as [|token tokens IH]; [done|].
  by rewrite bind_cons, parse_token, IH.
Qed.

Lemma compile_regular pattern :
  regularPattern pattern →
  compile (escaped pattern) = Returned (termOf <$> globTokens pattern).
Proof.
  intros Hregular. unfold compile.
  rewrite (escaped_render _ Hregular), (lex_render _ (globTokens_chars _ Hregular)).
  cbn [mbind option_bind]. by rewrite parse_render.
Qed.

(** *** Matching *)

Lemma regex_match_star a terms s :
  regex_match ((a, Star) :: terms) s
  = regex_match terms s
    || match s with
       | "" => false
       | String c s' => atom_matches a c && regex_match ((a, Star) :: terms) s'
       end.
Proof. by destruct s. Qed.

Lemma regex_match_run a terms run :
  ∀ rest,
    allMatch a run = true → regex_match terms rest = true →
    regex_match ((a, Star) :: terms) (run +:+ rest) = true.
Proof.
  induction run as [|c run IH]; intros rest Hrun Hrest.
  - change ("" +:+ rest) with rest. rewrite regex_match_star, Hrest. apply orb_true_l.
  - cbn [allMatch] in Hrun. apply andb_true_iff in Hrun as [Hc Hrun].
    change (String c run +:+ rest) with (String c (run +:+ rest)).
    rewrite regex_match_star, Hc, (IH _ Hrun Hrest). apply orb_true_r.
Qed.

Lemma regex_match_split a terms s :
  regex_match ((a, Star) :: terms) s = true →
  ∃ run rest, s = run +:+ rest ∧ allMatch a run = true
              ∧ regex_match terms rest = true.
Proof.
  induction s as [|c s IH]; rewrite regex_match_star.
  - rewrite orb_false_r. intros Hrest. by exists "", "".
  - intros [Hrest|[Hc Hs]%andb_true_iff]%orb_true_iff.
    + by exists "", (String c s).
    + destruct (IH Hs) as (run & rest & -> & Hrun & Hrest).
      exists (String c run), rest. split; [done|]. split; [|done].
      cbn [allMatch]. by rewrite Hc, Hrun.
Qed.

Lemma allMatch_NotSlash run :
  allMatch NotSlash run = true ↔ occurrences "/" run = 0.
Proof.
  induction run as [|c run IH]; [done|].
  cbn [allMatch atom_matches]. rewrite andb_true_iff, negb_true_iff, IH.
  rewrite bool_decide_eq_false, occurrences_cons. done.
Qed.

Lemma allMatch_AnyChar run :
  allMatch AnyChar run = true ↔ oneLine run.
Proof.
  unfold oneLine. induction run as [|c run IH]; [done|].
  cbn [allMatch atom_matches].
  rewrite andb_true_iff, negb_true_iff, orb_false_iff, !bool_decide_eq_false, IH.
  rewrite !occurrences_cons. naive_solver.
Qed.

Lemma oneLine_app s t : oneLine (s +:+ t) ↔ oneLine s ∧ oneLine t.
Proof. unfold oneLine. rewrite !occurrences_app. lia. Qed.

Lemma oneLine_cons c s : oneLine (String c s) → oneLine s.
Proof. unfold oneLine. rewrite !occurrences_cons. naive_solver. Qed.

Lemma regex_match_reading tokens :
  ∀ value,
    oneLine value →
    regex_match (termOf <$> tokens) value = true ↔ GlobMatches tokens value.
Proof.
  induction tokens as [|token tokens IH]; intros value Hline.
  - cbn [fmap list_fmap regex_match]. rewrite bool_decide_eq_true. split.
    + intros ->. constructor.
    + by inversion 1.
  - destruct token as [c| |]; cbn [fmap list_fmap termOf].
    + destruct value as [|v value].
      { split; [done|]. by inversion 1. }
      change (regex_match ((Lit c, One) :: (termOf <$> tokens)) (String v value))
        with (bool_decide (c = v) && regex_match (termOf <$> tokens) value).
      rewrite andb_true_iff, bool_decide_eq_true, (IH value (oneLine_cons _ _ Hline)).
      split.
      * intros [-> Hm]. by constructor.
      * inversion 1; by subst.
    + split.
      * intros (run & rest & -> & Hrun & Hrest)%regex_match_split.
        apply oneLine_app in Hline as [_ Hline].
        apply glob_star; [by apply allMatch_NotSlash|by apply IH].
      * inversion 1 as [| |tokens' run rest Hrun Hrest|]; subst.
        apply oneLine_app in Hline as [_ Hline].
        apply regex_match_run; [by apply allMatch_NotSlash|by apply IH].
    + split.
      * intros (run & rest & -> & Hrun & Hrest)%regex_match_split.
        apply oneLine_app in Hline as [_ Hline].
        apply glob_double_star. by apply IH.
      * inversion 1 as [| | |tokens' run rest Hrest]; subst.
        apply oneLine_app in Hline as [Hrun Hline].
        apply regex_match_run; [by apply allMatch_AnyChar|by apply IH].
Qed.

(** On a regular pattern and a path of one line, [globMatch] returns,
    and it returns [true] exactly when the path matches the pattern as
    the specification reads it. *)
Lemma globMatch_reading value pattern :
  regularPattern pattern →
  oneLine value →
  ∃ b, globMatch value pattern = Returned b
       ∧ (b = true ↔ GlobMatches (globTokens pattern) value).
Proof.
  intros Hregular Hline. unfold globMatch.
  rewrite (compile_regular _ Hregular). cbn [outcome_bind].
  eexists. split; [reflexivity|]. by apply regex_match_reading.
Qed.

Lemma patternsRegular_compile config :
  patternsRegular config → patternsCompile config.
Proof.
  unfold patternsRegular, patternsCompile. intros Hall.
  eapply Forall_impl; [exact Hall|]. intros pattern Hregular.
  exists (termOf <$> globTokens pattern). by apply compile_regular.
Qed.

End GlobReading.

(** * Properties *)

(** ** The state monad and the loops *)

Section MonadFacts.
Import Js State.

Lemma forEach_cons {A B} (body : B → A → M B) x l acc st :
  forEach body (x :: l) acc st =
  match body acc x st with
  | (Returned acc', st') => forEach body l acc' st'
  | (Threw e, st') => (Threw e, st')
  end.
Proof. reflexivity. Qed.

Lemma forEach_app {A B} (body : B → A → M B) l1 l2 acc st :
  forEach body (l1 ++ l2) acc st =
  match forEach body l1 acc st with
  | (Returned acc', st') => forEach body l2 acc' st'
  | (Threw e, st') => (Threw e, st')
  end.
Proof.
  revert acc st. induction l1 as [|x l1 IH]; intros acc st; [done|].
  rewrite <- app_comm_cons, !forEach_cons.
  destruct (body acc x st) as [[acc'|e] st']; [apply IH|done].
Qed.

(** A property of the state that every turn of a loop keeps holds after
    the loop, whether it returned or threw. *)
Lemma forEach_state_inv {A B} (body : B → A → M B) (P : DcpState → Prop) :
  (∀ acc x st, P st → P (body acc x st).2) →
  ∀ l acc st, P st → P (forEach body l acc st).2.
Proof.
  intros Hbody l. induction l as [|x l IH]; intros acc st HP; [done|].
  rewrite forEach_cons. specialize (Hbody acc x st HP).
  destruct (body acc x st) as [[acc'|e] st']; simpl in *; auto.
Qed.

(** A relation between accumulator and state kept by every returning
    turn holds when the loop returns. *)
Lemma forEach_inv {A B} (body : B → A → M B) (I : B → DcpState → Prop) :
  (∀ acc x st acc' st', I acc st → body acc x st = (Returned acc', st') → I acc' st') →
  ∀ l acc st acc' st',
    I acc st → forEach body l acc st = (Returned acc', st') → I acc' st'.
Proof.
  intros Hbody l. induction l as [|x l IH]; intros acc st acc' st' HI Hrun.
  - by inversion Hrun; subst.
  - rewrite forEach_cons in Hrun.
    destruct (body acc x st) as [[acc1|e] st1] eqn:Hstep; [|done].
    eapply IH; [|exact Hrun]. eauto.
Qed.

End MonadFacts.

(** ** pruneByIDs *)

Section PruneFacts.
Import Js Config State Core.

(** The four ways a requested id is classified. *)
Lemma pruneStep_eq byID config reason d now acc id st :
  pruneStep byID config reason d now acc id st =
  match byID !! id with
  | None => (Returned (addMissing acc id), st)
  | Some message =>
      if has (prunedByID st) id then (Returned acc, st)
      else match isProtectedMessage message config with
           | Returned true => (Returned (addProtected acc id), st)
           | Returned false =>
               (Returned (addPruned acc id),
                recordPruned id (recordFor message reason d now) st)
           | Threw e => (Threw e, st)
           end
  end.
Proof.
  unfold pruneStep. destruct (byID !! id) as [message|]; [|done].
  unfold bind, get, lift, modify, ret; simpl.
  destruct (has (prunedByID st) id); [done|].
  by destruct (isProtectedMessage message config) as [[]|].
Qed.

Lemma has_true {V} (m : gmap string V) k : has m k = true ↔ is_Some (m !! k).
Proof. unfold has. by rewrite bool_decide_eq_true. Qed.

Lemma has_false {V} (m : gmap string V) k : has m k = false ↔ m !! k = None.
Proof. unfold has. rewrite bool_decide_eq_false. by rewrite eq_None_not_Some. Qed.

(** Records are only ever added: an id that is pruned stays pruned with
    the record it has. *)
Lemma pruneStep_keeps byID config reason d now acc id st k rec :
  prunedByID st !! k = Some rec →
  prunedByID (pruneStep byID config reason d now acc id st).2 !! k = Some rec.
Proof.
  intros Hk. rewrite pruneStep_eq.
  destruct (byID !! id) as [message|]; [|done].
  destruct (has (prunedByID st) id) eqn:Hhas; [done|].
  destruct (isProtectedMessage message config) as [[]|]; simpl; try done.
  apply has_false in Hhas.
  rewrite lookup_insert_ne; [done|]. intros ->. congruence.
Qed.

Lemma pruneByIDs_keeps messages rawConfig ids reason d now st k rec :
  prunedByID st !! k = Some rec →
  prunedByID (pruneByIDs messages rawConfig ids reason d now st).2 !! k = Some rec.
Proof.
  unfold pruneByIDs.
  apply (forEach_state_inv _ (λ st, prunedByID st !! k = Some rec)).
  intros acc x st'. apply pruneStep_keeps.
Qed.

(** Every id reported as newly pruned has a record afterwards. *)
Lemma pruneByIDs_pruned_recorded messages rawConfig ids reason d now st r st' :
  pruneByIDs messages rawConfig ids reason d now st = (Returned r, st') →
  ∀ id, id ∈ prunedIDs r → is_Some (prunedByID st' !! id).
Proof.
  unfold pruneByIDs.
  apply (forEach_inv _ (λ acc st, ∀ id, id ∈ prunedIDs acc → is_Some (prunedByID st !! id))).
  - intros acc x st0 acc' st0' HI Hstep id Hid.
    rewrite pruneStep_eq in Hstep.
    destruct (messagesByID messages !! x) as [message|].
    + destruct (has (prunedByID st0) x); [by inversion Hstep; subst; auto|].
      destruct (isProtectedMessage message _) as [[]|];
        inversion Hstep; subst; simpl in *; auto.
      apply elem_of_app in Hid as [Hid|Hid%list_elem_of_singleton].
      * destruct (decide (x = id)) as [->|Hne];
          [rewrite lookup_insert_eq; eauto|rewrite lookup_insert_ne; auto].
      * subst. rewrite lookup_insert_eq; eauto.
    + inversion Hstep; subst; simpl in *; auto.
  - intros id Hid. simpl in Hid. by apply elem_of_nil in Hid.
Qed.

(** Requesting ids that all have a record already changes nothing and
    reports nothing as pruned or protected. *)
Lemma pruneByIDs_all_pruned messages rawConfig ids reason d now st :
  Forall (λ id, is_Some (prunedByID st !! id)) ids →
  ∃ r, pruneByIDs messages rawConfig ids reason d now st = (Returned r, st)
       ∧ prunedIDs r = [] ∧ protectedIDs r = []
       ∧ missingIDs r = filter (λ id, messagesByID messages !! id = None) ids.
Proof.
  unfold pruneByIDs.
  set (byID := messagesByID messages). set (config := normalizeConfig rawConfig).
  assert (∀ acc, Forall (λ id, is_Some (prunedByID st !! id)) ids →
    ∃ r, forEach (pruneStep byID config reason d now) ids acc st = (Returned r, st)
         ∧ prunedIDs r = prunedIDs acc ∧ protectedIDs r = protectedIDs acc
         ∧ missingIDs r = missingIDs acc ++ filter (λ id, byID !! id = None) ids) as H.
  { induction ids as [|id ids IH]; intros acc Hall.
    - exists acc. by rewrite app_nil_r.
    - apply Forall_cons in Hall as [Hid Hall].
      rewrite forEach_cons, pruneStep_eq.
      destruct (byID !! id) as [message|] eqn:Hlook.
      + apply has_true in Hid. rewrite Hid.
        destruct (IH acc Hall) as (r & Hrun & ? & ? & Hmiss). exists r.
        rewrite filter_cons_False; [done|]. by rewrite Hlook.
      + destruct (IH (addMissing acc id) Hall) as (r & Hrun & ? & ? & Hmiss).
        exists r. rewrite filter_cons_True by done.
        split_and!; [done..|]. rewrite Hmiss. simpl. by rewrite <- app_assoc. }
  intros Hall.
  destruct (H {| prunedIDs := []; protectedIDs := []; missingIDs := [] |} Hall)
    as (r & ? & ? & ? & ?).
  by exists r.
Qed.

End PruneFacts.

(** ** Idempotent pruning *)

Section Idempotence.
Import Js Config State Core.

(** C1.  Re-pruning an id that is already pruned is a no-op.  Take any
    call of [pruneByIDs] and an id that had a record before that call or
    was reported as pruned by it.  A further call of [pruneByIDs] for
    that id, on the state the first call left (with any message list,
    configuration, reason, distillation id and clock reading), returns
    normally, does not list the id in [prunedIDs], and leaves the state —
    in particular the counters [prunedMessages] and [prunedChars] — as
    it was after the first call. *)
Theorem pruneByIDs_idempotent
    (messages : list DcpMessage) (rawConfig : option RawConfig)
    (ids : list string) (reason : string) (distillationID : option string)
    (now : Z) (st : DcpState) (id : string)
    (messages' : list DcpMessage) (rawConfig' : option RawConfig)
    (reason' : string) (distillationID' : option string) (now' : Z) :
  let first := pruneByIDs messages rawConfig ids reason distillationID now st in
  (is_Some (prunedByID st !! id)
   ∨ ∃ r1, first.1 = Returned r1 ∧ id ∈ prunedIDs r1) →
  ∃ r2 st2,
    pruneByIDs messages' rawConfig' [id] reason' distillationID' now' (first.2)
      = (Returned r2, st2)
    ∧ (id ∉ prunedIDs r2)
    ∧ prunedMessages (counters st2) = prunedMessages (counters first.2)
    ∧ prunedChars (counters st2) = prunedChars (counters first.2)
    ∧ st2 = first.2.
Proof.
  intros first Hid.
  assert (is_Some (prunedByID first.2 !! id)) as Hrec.
  { destruct Hid as [[rec Hrec]|(r1 & Hret & Hin)].
    - exists rec. by apply pruneByIDs_keeps.
    - eapply pruneByIDs_pruned_recorded; [|exact Hin].
      subst first. rewrite <- Hret. apply surjective_pairing. }
  destruct (pruneByIDs_all_pruned messages' rawConfig' [id] reason'
              distillationID' now' first.2) as (r2 & Hrun & Hpr & _).
  { by apply Forall_singleton. }
  exists r2, first.2. split_and!; try done.
  rewrite Hpr. apply not_elem_of_nil.
Qed.

Lemma pruneByIDs_idempotent_witness :
  let first := pruneByIDs Examples.smallSession None ["t1"] "manual" None 0 createState in
  (is_Some (prunedByID createState !! "t1")
   ∨ ∃ r1, first.1 = Returned r1 ∧ "t1" ∈ prunedIDs r1)
  ∧ ∃ r2 st2,
      pruneByIDs Examples.smallSession None ["t1"] "manual" None 1 (first.2)
        = (Returned r2, st2)
      ∧ ("t1" ∉ prunedIDs r2)
      ∧ prunedMessages (counters st2) = prunedMessages (counters first.2)
      ∧ prunedChars (counters st2) = prunedChars (counters first.2)
      ∧ st2 = first.2.
Proof.
  assert (let first := pruneByIDs Examples.smallSession None ["t1"] "manual" None 0 createState in
          is_Some (prunedByID createState !! "t1")
          ∨ ∃ r1, first.1 = Returned r1 ∧ "t1" ∈ prunedIDs r1) as H.
  { right. eexists. split; [vm_compute; reflexivity|]. apply list_elem_of_here. }
  split; [exact H|].
  exact (pruneByIDs_idempotent Examples.smallSession None ["t1"] "manual" None 0
           createState "t1" Examples.smallSession None "manual" None 1 H).
Defined.

End Idempotence.

(** ** Configuration and protection *)

Section ProtectionFacts.
Import Js Config State Core Spec.

Lemma asStringArray_nonempty value :
  Forall (λ s, s ≠ "") (asStringArray value).
Proof.
  destruct value as [items|]; [|constructor]. simpl.
  induction items as [|[s|] items IH]; simpl; try done.
  case_bool_decide as Hlen; simpl; [|done].
  constructor; [|done]. intros ->. simpl in Hlen. lia.
Qed.

Lemma asStringArray_idem l :
  Forall (λ s, s ≠ "") l → asStringArray (Some (Some <$> l)) = l.
Proof.
  induction 1 as [|s l Hs _ IH]; [done|]. simpl in *.
  rewrite bool_decide_true; [f_equal; exact IH|].
  destruct s; [done|simpl; lia].
Qed.

Lemma protectedTools_nonempty rawConfig :
  Forall (λ s, s ≠ "") (protectedTools (normalizeConfig rawConfig)).
Proof. apply asStringArray_nonempty. Qed.

Lemma protectedFilePatterns_nonempty rawConfig :
  Forall (λ s, s ≠ "") (protectedFilePatterns (normalizeConfig rawConfig)).
Proof. apply asStringArray_nonempty. Qed.

(** Normalizing a normalized configuration changes nothing. *)
Lemma normalizeConfig_asRaw rawConfig :
  normalizeConfig (asRaw (normalizeConfig rawConfig)) = normalizeConfig rawConfig.
Proof.
  pose proof (protectedTools_nonempty rawConfig) as Ht.
  pose proof (protectedFilePatterns_nonempty rawConfig) as Hp.
  destruct (normalizeConfig rawConfig) as [e pt pf ce]; simpl in Ht, Hp.
  unfold normalizeConfig, asRaw; cbn -[asStringArray].
  by rewrite !asStringArray_idem.
Qed.

Lemma toLowerCase_empty s : toLowerCase s = "" → s = "".
Proof. by destruct s. Qed.

Lemma some_of_returns {A} (p : A → outcome bool) l :
  Forall (λ x, ∃ b, p x = Returned b) l → ∃ b, some_of p l = Returned b.
Proof.
  induction 1 as [|x l [b Hb] _ [b' IH]]; [by exists false|].
  simpl. rewrite Hb. simpl. destruct b; eauto.
Qed.

Lemma some_of_not_false {A} (p : A → outcome bool) l x :
  x ∈ l → p x = Returned true → some_of p l ≠ Returned false.
Proof.
  induction 1 as [x l|x y l _ IH]; intros Hx; simpl.
  - by rewrite Hx.
  - destruct (p y) as [[]|]; simpl; auto.
Qed.

Lemma isProtectedMessage_returns config m :
  patternsCompile config → ∃ b, isProtectedMessage m config = Returned b.
Proof.
  intros Hc. unfold isProtectedMessage.
  case_bool_decide; [by eexists|].
  destruct (_ && _); [by eexists|].
  case_bool_decide; [by eexists|].
  apply some_of_returns. eapply Forall_impl; [exact Hc|].
  intros pattern [regex Hregex]. unfold globMatch. rewrite Hregex. by eexists.
Qed.

Lemma inferFilePath_spec m path : InferredPath m path → inferFilePath m = path.
Proof.
  unfold inferFilePath.
  intros [->|(-> & inObj & -> & [->|[-> ->]])]; done.
Qed.

(** A protected message is never found unprotected, when the patterns
    are regular and the path has one line. *)
Lemma Protected_not_false rawConfig m :
  patternsRegular (normalizeConfig rawConfig) →
  oneLine (inferFilePath m) →
  Protected (normalizeConfig rawConfig) m →
  isProtectedMessage m (normalizeConfig rawConfig) ≠ Returned false.
Proof.
  set (config := normalizeConfig rawConfig).
  intros Hregular Hline HP. unfold isProtectedMessage.
  destruct HP as [t Ht Hb|t p Ht Hp Heq|path pattern Hpath Hne Hpat Hmatch].
  - rewrite Ht. simpl. rewrite bool_decide_true; [done|].
    unfold DEFAULT_PROTECTED_TOOLS. destruct Hb as [-> | ->]; set_solver.
  - rewrite Ht. simpl. case_bool_decide; [done|].
    assert (p ≠ "") as Hpne.
    { pose proof (protectedTools_nonempty rawConfig) as Hall.
      rewrite Forall_forall in Hall. by apply Hall. }
    assert (toLowerCase t ≠ "") as H1.
    { intros Hempty. rewrite <- Heq in Hempty.
      by apply toLowerCase_empty in Hempty. }
    assert (toLowerCase t ∈@{gset string}
              list_to_set (toLowerCase <$> protectedTools config)) as H2.
    { apply elem_of_list_to_set, list_elem_of_fmap. eauto. }
    by rewrite (bool_decide_true _ H1), (bool_decide_true _ H2).
  - case_bool_decide; [done|]. destruct (_ && _); [done|].
    rewrite (inferFilePath_spec _ _ Hpath) in Hline |- *.
    rewrite bool_decide_false by done.
    eapply some_of_not_false; [exact Hpat|].
    unfold patternsRegular in Hregular. rewrite Forall_forall in Hregular.
    destruct (globMatch_reading path pattern (Hregular _ Hpat) Hline)
      as (b & -> & Hb).
    f_equal. by apply Hb.
Qed.


(** *** The index of the messages by id *)

Lemma messagesByID_snoc messages m :
  messagesByID (messages ++ [m]) = <[msg_id m := m]> (messagesByID messages).
Proof. unfold messagesByID. by rewrite foldl_app. Qed.

Lemma messagesByID_elem messages id m :
  messagesByID messages !! id = Some m → m ∈ messages ∧ msg_id m = id.
Proof.
  induction messages as [|x messages IH] using rev_ind; [done|].
  rewrite messagesByID_snoc. intros Hl.
  destruct (decide (msg_id x = id)) as [<-|Hne].
  - rewrite lookup_insert_eq in Hl. inversion Hl; subst.
    split; [|done]. apply elem_of_app. right. apply list_elem_of_here.
  - rewrite lookup_insert_ne in Hl by done. destruct (IH Hl) as [??].
    split; [|done]. apply elem_of_app. by left.
Qed.

Lemma messagesByID_None messages id :
  messagesByID messages !! id = None ↔ id ∉ msg_id <$> messages.
Proof.
  induction messages as [|x messages IH] using rev_ind.
  { split; [intros _; apply not_elem_of_nil|done]. }
  rewrite messagesByID_snoc, fmap_app, not_elem_of_app. simpl.
  rewrite list_elem_of_singleton.
  destruct (decide (msg_id x = id)) as [<-|Hne].
  - rewrite lookup_insert_eq. split; [done|]. by intros [_ []].
  - rewrite lookup_insert_ne by done. rewrite IH.
    split; [intros ?; split; [done|congruence]|by intros [? _]].
Qed.

(** With unique ids every message is found under its own id. *)
Lemma messagesByID_unique messages m :
  NoDup (msg_id <$> messages) → m ∈ messages →
  messagesByID messages !! msg_id m = Some m.
Proof.
  intros Hnd Hin.
  destruct (messagesByID messages !! msg_id m) as [m'|] eqn:Hl.
  - apply messagesByID_elem in Hl as [Hin' Heq]. f_equal.
    apply list_elem_of_lookup in Hin as [i Hi], Hin' as [j Hj].
    assert (i = j) as ->; [|congruence].
    eapply NoDup_lookup; [exact Hnd|..]; rewrite list_lookup_fmap.
    + by rewrite Hi.
    + rewrite Hj. simpl. by rewrite Heq.
  - apply messagesByID_None in Hl. exfalso. apply Hl.
    apply list_elem_of_fmap. eauto.
Qed.

End ProtectionFacts.

(** ** Protected messages are spared *)

Section Spared.
Import Js Config State Core Spec.

(** A turn of the loop leaves the record of [k] alone unless [k] is the
    requested id and its message is found unprotected. *)
Lemma pruneStep_spares byID config reason d now acc id st k :
  (∀ m, byID !! k = Some m → isProtectedMessage m config ≠ Returned false) →
  let run := pruneStep byID config reason d now acc id st in
  prunedByID run.2 !! k = prunedByID st !! k
  ∧ ∀ acc', run.1 = Returned acc' → k ∈ prunedIDs acc' → k ∈ prunedIDs acc.
Proof.
  intros Hk run. subst run. rewrite pruneStep_eq.
  destruct (byID !! id) as [message|] eqn:Hl;
    [|by simpl; split; [|intros ? [= <-]]].
  destruct (has (prunedByID st) id) eqn:Hhas;
    [by simpl; split; [|intros ? [= <-]]|].
  destruct (isProtectedMessage message config) as [[]|] eqn:Hp; simpl;
    try (by split; [|intros ? [= <-]]).
  assert (id ≠ k) as Hne by (intros ->; by eapply Hk).
  split; [by rewrite lookup_insert_ne|].
  intros acc' [= <-]. simpl. intros [?|?%list_elem_of_singleton]%elem_of_app; done.
Qed.

Lemma pruneByIDs_spares messages rawConfig ids reason d now st k :
  (∀ m, messagesByID messages !! k = Some m →
        isProtectedMessage m (normalizeConfig rawConfig) ≠ Returned false) →
  let run := pruneByIDs messages rawConfig ids reason d now st in
  prunedByID run.2 !! k = prunedByID st !! k
  ∧ ∀ r, run.1 = Returned r → k ∉ prunedIDs r.
Proof.
  intros Hk run. subst run. unfold pruneByIDs.
  set (body := pruneStep _ _ _ _ _).
  assert (∀ l acc st0,
    prunedByID (forEach body l acc st0).2 !! k = prunedByID st0 !! k
    ∧ ∀ r, (forEach body l acc st0).1 = Returned r →
           k ∈ prunedIDs r → k ∈ prunedIDs acc) as H.
  { induction l as [|id l IH]; intros acc st0.
    - by simpl; split; [|intros ? [= <-]].
    - rewrite forEach_cons.
      destruct (pruneStep_spares _ _ reason d now acc id st0 k Hk) as [Hst Hacc].
      fold body in Hst, Hacc.
      destruct (body acc id st0) as [[acc1|e] st1]; simpl in *; [|done].
      destruct (IH acc1 st1) as [Hst' Hacc']. split; [congruence|].
      intros r Hr Hin. eauto. }
  destruct (H ids {| prunedIDs := []; protectedIDs := []; missingIDs := [] |} st)
    as [Hst Hacc].
  split; [done|]. intros r Hr Hin. apply Hacc in Hin; [|done].
  simpl in Hin. by apply elem_of_nil in Hin.
Qed.

Lemma pruneStep_protectedIDs_mono byID config reason d now acc id st acc' st' x :
  pruneStep byID config reason d now acc id st = (Returned acc', st') →
  x ∈ protectedIDs acc → x ∈ protectedIDs acc'.
Proof.
  rewrite pruneStep_eq. intros Hstep Hx.
  destruct (byID !! id) as [message|]; [|by inversion Hstep; subst].
  destruct (has (prunedByID st) id); [by inversion Hstep; subst|].
  destruct (isProtectedMessage message config) as [[]|];
    inversion Hstep; subst; simpl; [apply elem_of_app; by left|done].
Qed.

(** A protected message that is requested and has no record yet is
    reported in [protectedIDs]. *)
Lemma pruneByIDs_reports messages rawConfig ids reason d now st k m r st' :
  messagesByID messages !! k = Some m →
  isProtectedMessage m (normalizeConfig rawConfig) ≠ Returned false →
  prunedByID st !! k = None →
  k ∈ ids →
  pruneByIDs messages rawConfig ids reason d now st = (Returned r, st') →
  k ∈ protectedIDs r.
Proof.
  intros Hl Hp. unfold pruneByIDs. set (body := pruneStep _ _ _ _ _).
  generalize ({| prunedIDs := []; protectedIDs := []; missingIDs := [] |}).
  revert st. induction ids as [|id ids IH]; intros st acc Hnone Hin Hrun.
  - by apply elem_of_nil in Hin.
  - rewrite forEach_cons in Hrun.
    destruct (body acc id st) as [[acc1|e] st1] eqn:Hstep; [|done].
    destruct (decide (id = k)) as [->|Hne].
    + assert (k ∈ protectedIDs acc1) as Hk.
      { unfold body in Hstep. rewrite pruneStep_eq, Hl in Hstep.
        apply has_false in Hnone. rewrite Hnone in Hstep.
        destruct (isProtectedMessage m _) as [[]|]; [|done..].
        inversion Hstep; subst. simpl.
        apply elem_of_app. right. apply list_elem_of_here. }
      clear IH Hin. revert Hk Hrun. generalize acc1 st1.
      induction ids as [|id' ids IH]; intros a s Hk Hrun.
      * by inversion Hrun; subst.
      * rewrite forEach_cons in Hrun.
        destruct (body a id' s) as [[a1|e] s1] eqn:Hstep'; [|done].
        eapply IH; [|exact Hrun].
        eapply pruneStep_protectedIDs_mono; [exact Hstep'|done].
    + eapply (IH st1 acc1); [| | exact Hrun].
      2:{ apply elem_of_cons in Hin as [?|?]; [congruence|done]. }
      assert (∀ m0, messagesByID messages !! k = Some m0 →
                isProtectedMessage m0 (normalizeConfig rawConfig) ≠ Returned false) as Hk.
      { intros m0 Hm0. rewrite Hl in Hm0. by inversion Hm0; subst. }
      destruct (pruneStep_spares _ _ reason d now acc id st k Hk) as [Hst _].
      fold body in Hst. rewrite Hstep in Hst. simpl in Hst. congruence.
Qed.

Lemma forEach_returns {A B} (body : B → A → M B) :
  (∀ acc x st, ∃ acc' st', body acc x st = (Returned acc', st')) →
  ∀ l acc st, ∃ acc' st', forEach body l acc st = (Returned acc', st').
Proof.
  intros Hbody l. induction l as [|x l IH]; intros acc st; [by eexists _, _|].
  rewrite forEach_cons. destruct (Hbody acc x st) as (acc1 & st1 & ->). apply IH.
Qed.

Lemma pruneByIDs_returns messages rawConfig ids reason d now st :
  patternsCompile (normalizeConfig rawConfig) →
  ∃ r st', pruneByIDs messages rawConfig ids reason d now st = (Returned r, st').
Proof.
  intros Hc. apply forEach_returns. intros acc id st0. rewrite pruneStep_eq.
  destruct (_ !! id) as [message|]; [|by eexists _, _].
  destruct (has _ _); [by eexists _, _|].
  destruct (isProtectedMessage_returns _ message Hc) as [[] ->]; by eexists _, _.
Qed.

(** *** Loops that only read the state *)

Lemma forEach_readonly {A B} (body : B → A → M B) :
  (∀ acc x st, (body acc x st).2 = st) →
  ∀ l acc st, (forEach body l acc st).2 = st.
Proof.
  intros Hbody l acc st.
  by apply (forEach_state_inv body (λ s, s = st)); [intros ??? ->|].
Qed.

Lemma collectStep_eq config candidates message st :
  collectStep config candidates message st =
  if negb (isToolLikeMessage message) then (Returned candidates, st)
  else if has (prunedByID st) (msg_id message) then (Returned candidates, st)
  else match isProtectedMessage message config with
       | Returned true => (Returned candidates, st)
       | Returned false => (Returned (candidates ++ [msg_id message]), st)
       | Threw e => (Threw e, st)
       end.
Proof.
  unfold collectStep. destruct (negb _); [done|].
  unfold bind, get, lift, ret; simpl.
  destruct (has _ _); [done|].
  by destruct (isProtectedMessage message config) as [[]|].
Qed.

Lemma collectSweepCandidates_readonly messages rawConfig st :
  (collectSweepCandidates messages rawConfig st).2 = st.
Proof.
  apply forEach_readonly. intros acc x st0. rewrite collectStep_eq.
  destruct (negb _); [done|]. destruct (has _ _); [done|].
  by destruct (isProtectedMessage _ _) as [[]|].
Qed.

Lemma sweep_eq messages rawConfig limit now st :
  sweep messages rawConfig limit now st =
  let config := asRaw (normalizeConfig rawConfig) in
  match collectSweepCandidates messages config st with
  | (Returned candidates, st1) =>
      match pruneByIDs messages config (capCandidates limit candidates)
              "sweep" None now st1 with
      | (Returned result, st2) =>
          (Returned {| sw_prunedIDs := prunedIDs result;
                       sw_protectedIDs := protectedIDs result;
                       sw_missingIDs := missingIDs result;
                       candidateCount := length candidates;
                       usedLimit := if limitApplies limit then limit else None |},
           if bool_decide (0 < length (prunedIDs result)) then countSweep st2 else st2)
      | (Threw e, st2) => (Threw e, st2)
      end
  | (Threw e, st1) => (Threw e, st1)
  end.
Proof.
  unfold sweep, bind. simpl.
  destruct (collectSweepCandidates _ _ st) as [[candidates|e] st1]; [|done].
  destruct (pruneByIDs _ _ _ _ _ _ st1) as [[result|e] st2]; [|done].
  by case_bool_decide.
Qed.

Lemma sweep_spares messages rawConfig limit now st k :
  (∀ m, messagesByID messages !! k = Some m →
        isProtectedMessage m (normalizeConfig rawConfig) ≠ Returned false) →
  let run := sweep messages rawConfig limit now st in
  prunedByID run.2 !! k = prunedByID st !! k
  ∧ ∀ r, run.1 = Returned r → k ∉ sw_prunedIDs r.
Proof.
  intros Hk run. subst run. rewrite sweep_eq. simpl.
  pose proof (collectSweepCandidates_readonly messages
                (asRaw (normalizeConfig rawConfig)) st) as Hro.
  destruct (collectSweepCandidates _ _ st) as [[candidates|e] st1];
    simpl in Hro; subst st1; [|done].
  rewrite <- (normalizeConfig_asRaw rawConfig) in Hk.
  destruct (pruneByIDs_spares messages (asRaw (normalizeConfig rawConfig))
              (capCandidates limit candidates) "sweep" None now st k Hk)
    as [Hst Hr].
  destruct (pruneByIDs _ _ _ _ _ _ st) as [[result|e] st2]; simpl in *; [|done].
  split.
  - by case_bool_decide.
  - intros r [= <-]. simpl. by apply Hr.
Qed.

(** X28: a protected message is never pruned, under regular patterns.
    Let the ids of the messages be unique, let no configured pattern hold
    a question mark or a colon, and let [m] be one of the messages, with
    a file path of one line, that is protected as the specification
    says: its tool name is one of the built-in pruning tools, or is in
    the configured list of protected tools up to case, or it carries a
    file path (the direct field, else [input.filePath], else
    [input.path]) that matches a configured glob pattern, with a star for
    a run without a slash, two stars for any run and every other
    character for itself.  Then every call of [pruneByIDs] returns —
    whatever ids it is given — and no such call and no [sweep] makes or
    changes a record for [m] or lists its id as pruned; and a call of
    [pruneByIDs] that targets [m] while it has no record lists its id in
    [protectedIDs]. *)
Theorem protected_never_pruned
    (messages : list DcpMessage) (rawConfig : option RawConfig) (m : DcpMessage) :
  NoDup (msg_id <$> messages) →
  m ∈ messages →
  patternsRegular (normalizeConfig rawConfig) →
  oneLine (inferFilePath m) →
  Protected (normalizeConfig rawConfig) m →
  (∀ ids reason distillationID now st,
     let run := pruneByIDs messages rawConfig ids reason distillationID now st in
     prunedByID run.2 !! msg_id m = prunedByID st !! msg_id m
     ∧ ∃ r, run.1 = Returned r
            ∧ (msg_id m ∉ prunedIDs r)
            ∧ (msg_id m ∈ ids → prunedByID st !! msg_id m = None →
               msg_id m ∈ protectedIDs r))
  ∧ (∀ limit now st,
       let run := sweep messages rawConfig limit now st in
       prunedByID run.2 !! msg_id m = prunedByID st !! msg_id m
       ∧ ∀ r, run.1 = Returned r → msg_id m ∉ sw_prunedIDs r).
Proof.
  intros Hnd Hin Hregular Hline HP.
  pose proof (messagesByID_unique _ _ Hnd Hin) as Hl.
  pose proof (Protected_not_false _ _ Hregular Hline HP) as Hnot.
  assert (∀ m0, messagesByID messages !! msg_id m = Some m0 →
            isProtectedMessage m0 (normalizeConfig rawConfig) ≠ Returned false) as Hk.
  { intros m0 Hm0. rewrite Hl in Hm0. by inversion Hm0; subst. }
  split.
  - intros ids reason d now st run.
    destruct (pruneByIDs_spares messages rawConfig ids reason d now st _ Hk)
      as [Hst Hr].
    split; [done|]. subst run.
    destruct (pruneByIDs_returns messages rawConfig ids reason d now st
                (patternsRegular_compile _ Hregular)) as (r & st' & Hrun).
    exists r. rewrite Hrun in Hr |- *. split; [done|]. split; [by apply Hr|].
    intros Hids Hnone.
    by eapply pruneByIDs_reports; [exact Hl|exact Hnot|exact Hnone|exact Hids|].
  - intros limit now st. by apply sweep_spares.
Qed.

(** C4 fails on the code for a pattern with a question mark.  The
    specification reads every character of a pattern but the star as
    itself, so the path /tmp/keep?.txt matches the pattern
    /tmp/keep?.txt and the message that carries it is protected.  The
    engine escapes the characters that are special in a regular
    expression but not the question mark, which makes the [p] before it
    optional: the path does not match, and the message is pruned when it
    is targeted and when it is swept. *)
Theorem protected_path_pruned :
  let m := Examples.questionMessage in
  let config := Examples.questionConfig in
  Protected (normalizeConfig config) m
  ∧ isProtectedMessage m (normalizeConfig config) = Returned false
  ∧ (∃ r st',
       pruneByIDs [m] config ["t2"] "manual" None 0 createState = (Returned r, st')
       ∧ prunedIDs r = ["t2"]
       ∧ protectedIDs r = []
       ∧ is_Some (prunedByID st' !! "t2"))
  ∧ (∃ r st',
       sweep [m] config None 0 createState = (Returned r, st')
       ∧ sw_prunedIDs r = ["t2"]
       ∧ is_Some (prunedByID st' !! "t2")).
Proof.
  intros m config. split_and!.
  - apply (protected_path _ _ "/tmp/keep?.txt" "/tmp/keep?.txt").
    + right. split; [reflexivity|]. eexists. split; [reflexivity|]. by left.
    + discriminate.
    + apply list_elem_of_here.
    + change (globTokens "/tmp/keep?.txt")
        with (GChar "/" :: GChar "t" :: GChar "m" :: GChar "p" :: GChar "/"
              :: GChar "k" :: GChar "e" :: GChar "e" :: GChar "p" :: GChar "?"
              :: GChar "." :: GChar "t" :: GChar "x" :: GChar "t" :: []).
      repeat constructor.
  - vm_compute. reflexivity.
  - eexists _, _. split; [vm_compute; reflexivity|].
    split_and!; [reflexivity|reflexivity|]. by eexists.
  - eexists _, _. split; [vm_compute; reflexivity|].
    split; [reflexivity|]. by eexists.
Qed.

End Spared.

(** ** Sweep *)

Section SweepFacts.
Import Js Config State Core Spec.

Lemma isToolLikeMessage_spec m : isToolLikeMessage m = true ↔ ToolLike m.
Proof.
  unfold isToolLikeMessage, ToolLike.
  by rewrite orb_true_iff, !bool_decide_eq_true.
Qed.

(** The loop of [collectSweepCandidates] (and of [getPrunableInventory])
    picks, in order, the messages that are prunable. *)
Lemma collect_loop config st l acc :
  patternsCompile config →
  forEach (collectStep config) l acc st =
  (Returned (acc ++ (msg_id <$> filter (Prunable config st) l)), st).
Proof.
  intros Hc. revert acc. induction l as [|m l IH]; intros acc.
  - simpl. by rewrite app_nil_r.
  - rewrite forEach_cons, collectStep_eq, filter_cons.
    destruct (isToolLikeMessage m) eqn:Htl; simpl.
    2:{ rewrite decide_False; [apply IH|].
        intros [Ht _]. apply isToolLikeMessage_spec in Ht. congruence. }
    apply isToolLikeMessage_spec in Htl.
    destruct (has (prunedByID st) (msg_id m)) eqn:Hhas.
    { rewrite decide_False; [apply IH|].
      intros (_ & Hn & _). apply has_false in Hn. congruence. }
    apply has_false in Hhas.
    destruct (isProtectedMessage_returns _ m Hc) as [[] Hp]; rewrite Hp.
    + rewrite decide_False; [apply IH|]. intros (_ & _ & Hf). congruence.
    + rewrite decide_True by done. rewrite IH, fmap_cons.
      by rewrite <- app_assoc.
Qed.






(** Whatever the position of the last user message, the candidates are
    prunable messages of the list, in its order. *)
Lemma collectSweepCandidates_sub messages rawConfig st :
  patternsCompile (normalizeConfig rawConfig) →
  ∃ picked,
    collectSweepCandidates messages rawConfig st = (Returned (msg_id <$> picked), st)
    ∧ picked `sublist_of` messages
    ∧ Forall (Prunable (normalizeConfig rawConfig) st) picked.
Proof.
  intros Hc. unfold collectSweepCandidates.
  set (l := drop _ messages).
  exists (filter (Prunable (normalizeConfig rawConfig) st) l).
  rewrite collect_loop by done. split_and!; [done| |].
  - etrans; [apply sublist_filter|apply sublist_drop].
  - apply Forall_forall. by intros m [? _]%list_elem_of_filter.
Qed.

(** Requesting distinct ids of messages that are all found, without a
    record and unprotected prunes every one of them, in order. *)
Lemma prune_loop_fresh byID config reason d now ids :
  NoDup ids →
  ∀ acc st,
    (∀ id, id ∈ ids →
           ∃ m, byID !! id = Some m ∧ prunedByID st !! id = None
                ∧ isProtectedMessage m config = Returned false) →
    ∃ st',
      forEach (pruneStep byID config reason d now) ids acc st =
      (Returned {| prunedIDs := prunedIDs acc ++ ids;
                   protectedIDs := protectedIDs acc;
                   missingIDs := missingIDs acc |}, st')
      ∧ ∀ k, is_Some (prunedByID st' !! k) ↔ is_Some (prunedByID st !! k) ∨ k ∈ ids.
Proof.
  induction 1 as [|id ids Hnotin Hnd IH]; intros acc st Hall.
  - exists st. simpl. rewrite app_nil_r. split; [by destruct acc|].
    intros k. rewrite elem_of_nil. tauto.
  - rewrite forEach_cons, pruneStep_eq.
    destruct (Hall id) as (m & -> & Hnone & ->); [apply list_elem_of_here|].
    apply has_false in Hnone. rewrite Hnone.
    destruct (IH (addPruned acc id) (recordPruned id (recordFor m reason d now) st))
      as (st' & -> & Hst').
    + intros id' Hin. destruct (Hall id') as (m' & ? & ? & ?);
        [by apply list_elem_of_further|].
      exists m'. split_and!; [done| |done]. simpl.
      rewrite lookup_insert_ne; [done|]. intros ->. done.
    + exists st'. simpl. rewrite <- app_assoc. split; [done|].
      intros k. rewrite Hst'. simpl. rewrite elem_of_cons.
      destruct (decide (id = k)) as [->|Hne].
      * rewrite lookup_insert_eq. split; [auto|]. intros _. left. by eexists.
      * rewrite lookup_insert_ne by done. split; [tauto|].
        intros [?|[?|?]]; [tauto|congruence|tauto].
Qed.

Lemma capCandidates_sublist limit (candidates : list string) :
  capCandidates limit candidates `sublist_of` candidates.
Proof.
  unfold capCandidates. destruct (limitApplies limit); [|done].
  destruct limit as [[| [] |q]|]; simpl; try done.
  - apply sublist_nil_l.
  - apply sublist_drop.
Qed.

Lemma collectSweepCandidates_asRaw messages rawConfig :
  collectSweepCandidates messages (asRaw (normalizeConfig rawConfig))
  = collectSweepCandidates messages rawConfig.
Proof. unfold collectSweepCandidates. by rewrite normalizeConfig_asRaw. Qed.

Lemma pruneByIDs_asRaw messages rawConfig ids reason d now :
  pruneByIDs messages (asRaw (normalizeConfig rawConfig)) ids reason d now
  = pruneByIDs messages rawConfig ids reason d now.
Proof. unfold pruneByIDs. by rewrite normalizeConfig_asRaw. Qed.

(** With unique ids and well-formed patterns a sweep returns, and
    prunes exactly the candidates that the limit leaves. *)
Lemma sweep_prunes messages rawConfig limit now st :
  NoDup (msg_id <$> messages) →
  patternsCompile (normalizeConfig rawConfig) →
  ∃ candidates st',
    collectSweepCandidates messages rawConfig st = (Returned candidates, st)
    ∧ sweep messages rawConfig limit now st =
      (Returned {| sw_prunedIDs := capCandidates limit candidates;
                   sw_protectedIDs := [];
                   sw_missingIDs := [];
                   candidateCount := length candidates;
                   usedLimit := if limitApplies limit then limit else None |}, st')
    ∧ ∀ k, is_Some (prunedByID st' !! k)
           ↔ is_Some (prunedByID st !! k) ∨ k ∈ capCandidates limit candidates.
Proof.
  intros Hnd Hc.
  destruct (collectSweepCandidates_sub messages rawConfig st Hc)
    as (picked & Hcollect & Hsub & Hpr).
  exists (msg_id <$> picked).
  rewrite sweep_eq. simpl.
  rewrite collectSweepCandidates_asRaw, Hcollect, pruneByIDs_asRaw.
  set (capped := capCandidates limit (msg_id <$> picked)).
  assert (capped `sublist_of` msg_id <$> messages) as Hcs.
  { etrans; [apply capCandidates_sublist|]. by apply fmap_sublist. }
  destruct (prune_loop_fresh (messagesByID messages) (normalizeConfig rawConfig)
              "sweep" None now capped (sublist_NoDup _ _ Hnd Hcs)
              {| prunedIDs := []; protectedIDs := []; missingIDs := [] |} st)
    as (st' & Hrun & Hst').
  { intros id Hid.
    assert (id ∈ msg_id <$> picked) as (m & -> & Hm)%list_elem_of_fmap.
    { eapply elem_of_sublist; [exact Hid|apply capCandidates_sublist]. }
    rewrite Forall_forall in Hpr. destruct (Hpr m Hm) as (_ & Hnone & Hnp).
    exists m. split_and!; [|done..].
    apply messagesByID_unique; [done|]. by eapply elem_of_sublist. }
  unfold pruneByIDs. rewrite Hrun. simpl.
  eexists. split_and!; [done|done|].
  intros k. case_bool_decide; [|apply Hst'].
  simpl. apply Hst'.
Qed.

Lemma isFinitePositive_spec q : isFinitePositive (Finite q) = true ↔ (0 < q)%Q.
Proof.
  unfold isFinitePositive, Qlt. rewrite bool_decide_eq_true. simpl. lia.
Qed.

Lemma limitApplies_spec limit : limitApplies limit = true ↔ FinitePositive limit.
Proof.
  unfold limitApplies, FinitePositive. destruct limit as [[| |q]|].
  - split; [done|]. by intros (q & [=] & _).
  - split; [done|]. by intros (q & [=] & _).
  - rewrite isFinitePositive_spec. split; [eauto|]. by intros (q' & [= ->] & ?).
  - split; [done|]. by intros (q & [=] & _).
Qed.

(** A positive whole limit keeps the last [n] candidates. *)
Lemma capCandidates_whole n (candidates : list string) :
  0 < n →
  capCandidates (Some (Finite (Z.of_nat n # 1))) candidates = lastN n candidates.
Proof.
  intros Hn. unfold capCandidates, limitApplies, isFinitePositive. simpl.
  rewrite bool_decide_true by lia.
  unfold slice_from, toInteger, lastN. simpl.
  rewrite Z.quot_1_r.
  replace (- Z.of_nat n <? 0)%Z with true by (symmetry; apply Z.ltb_lt; lia).
  f_equal. lia.
Qed.



End SweepFacts.

Section ProtectionClaims.
Import Js Config State Core Spec.






Lemma protected_never_pruned_witness :
  NoDup (msg_id <$> Examples.protectedSession)
  ∧ Examples.keepMessage ∈ Examples.protectedSession
  ∧ patternsRegular (normalizeConfig Examples.protectingConfig)
  ∧ oneLine (inferFilePath Examples.keepMessage)
  ∧ Protected (normalizeConfig Examples.protectingConfig) Examples.keepMessage
  ∧ ∀ ids reason distillationID now st,
      let run := pruneByIDs Examples.protectedSession Examples.protectingConfig
                   ids reason distillationID now st in
      prunedByID run.2 !! "t2" = prunedByID st !! "t2"
      ∧ ∃ r, run.1 = Returned r
             ∧ ("t2" ∉ prunedIDs r)
             ∧ ("t2" ∈ ids → prunedByID st !! "t2" = None → "t2" ∈ protectedIDs r).
Proof.
  assert (NoDup (msg_id <$> Examples.protectedSession)) as H1.
  { apply (bool_decide_unpack _). vm_compute. exact I. }
  assert (Examples.keepMessage ∈ Examples.protectedSession) as H2.
  { apply list_elem_of_further, list_elem_of_here. }
  assert (patternsRegular (normalizeConfig Examples.protectingConfig)) as H3.
  { repeat constructor. }
  assert (oneLine (inferFilePath Examples.keepMessage)) as H4.
  { split; reflexivity. }
  assert (Protected (normalizeConfig Examples.protectingConfig) Examples.keepMessage) as H5.
  { apply (protected_path _ _ "/tmp/keep.txt" "**/keep.txt").
    - right. split; [reflexivity|]. eexists. split; [reflexivity|]. by left.
    - discriminate.
    - apply list_elem_of_here.
    - change (globTokens "**/keep.txt")
        with (GDoubleStar :: GChar "/" :: GChar "k" :: GChar "e" :: GChar "e"
              :: GChar "p" :: GChar "." :: GChar "t" :: GChar "x" :: GChar "t" :: []).
      apply (glob_double_star _ "/tmp" "/keep.txt"). repeat constructor. }
  split_and!; [exact H1|exact H2|exact H3|exact H4|exact H5|].
  exact (proj1 (protected_never_pruned Examples.protectedSession
                  Examples.protectingConfig Examples.keepMessage H1 H2 H3 H4 H5)).
Defined.

End ProtectionClaims.

Section SweepClaims.
Import Js Config State Core Spec.




(** C10.  A limit that is not a finite number greater than zero — zero,
    a negative number, NaN, an infinity, or no number at all — makes
    [sweep] behave as the unlimited sweep: the call has the same outcome
    and leaves the same state as with an undefined limit, and a result
    has [usedLimit] null.  With unique message ids and well-formed
    patterns the call returns, every collected candidate is pruned (in
    order, none reported protected or missing) and has a record
    afterwards. *)
Theorem sweep_without_limit
    (messages : list DcpMessage) (rawConfig : option RawConfig)
    (limit : option number) (now : Z) (st : DcpState) :
  ¬ FinitePositive limit →
  sweep messages rawConfig limit now st = sweep messages rawConfig None now st
  ∧ (∀ r, (sweep messages rawConfig limit now st).1 = Returned r → usedLimit r = None)
  ∧ (NoDup (msg_id <$> messages) →
     patternsCompile (normalizeConfig rawConfig) →
     ∃ candidates st',
       collectSweepCandidates messages rawConfig st = (Returned candidates, st)
       ∧ sweep messages rawConfig limit now st
         = (Returned {| sw_prunedIDs := candidates;
                        sw_protectedIDs := [];
                        sw_missingIDs := [];
                        candidateCount := length candidates;
                        usedLimit := None |}, st')
       ∧ ∀ id, id ∈ candidates → is_Some (prunedByID st' !! id)).
Proof.
  intros Hlimit.
  assert (limitApplies limit = false) as Hno.
  { destruct (limitApplies limit) eqn:Ha; [|done].
    by apply limitApplies_spec in Ha. }
  assert (∀ candidates, capCandidates limit candidates = candidates) as Hcap.
  { intros candidates. unfold capCandidates. by rewrite Hno. }
  split_and!.
  - rewrite !sweep_eq. simpl. rewrite Hno.
    destruct (collectSweepCandidates _ _ st) as [[candidates|e] st1]; [|done].
    by rewrite Hcap.
  - intros r. rewrite sweep_eq. simpl. rewrite Hno.
    destruct (collectSweepCandidates _ _ st) as [[candidates|e] st1]; [|done].
    destruct (pruneByIDs _ _ _ _ _ _ st1) as [[result|e] st2]; [|done].
    by intros [= <-].
  - intros Hnd Hc.
    destruct (sweep_prunes messages rawConfig limit now st Hnd Hc)
      as (candidates & st' & Hcollect & Hsweep & Hst').
    rewrite Hcap, Hno in Hsweep. exists candidates, st'.
    split_and!; [done..|]. intros id Hid. apply Hst'. right. by rewrite Hcap.
Qed.

Lemma sweep_without_limit_witness :
  ¬ FinitePositive (Some (Finite 0))
  ∧ sweep Examples.sweepSession None (Some (Finite 0)) 0 createState
    = sweep Examples.sweepSession None None 0 createState
  ∧ ∀ r, (sweep Examples.sweepSession None (Some (Finite 0)) 0 createState).1
         = Returned r → usedLimit r = None.
Proof.
  assert (¬ FinitePositive (Some (Finite 0))) as H.
  { intros (q & [= <-] & Hq). vm_compute in Hq. discriminate. }
  split; [exact H|].
  pose proof (sweep_without_limit Examples.sweepSession None (Some (Finite 0)) 0
                createState H) as (Heq & Hused & _).
  split; [exact Heq|exact Hused].
Defined.

End SweepClaims.

(** ** The transformed view *)

Section ViewFacts.
Import Js Config State Core Spec.

Lemma cloneMessage_id message : cloneMessage message = message.
Proof. by destruct message. Qed.

Lemma prunedView_eq message rec :
  prunedView message rec =
  {| msg_id := msg_id message;
     msg_role := msg_role message;
     msg_toolName := msg_toolName message;
     msg_content := CString (placeholder (msg_id message) rec);
     msg_input := msg_input message;
     msg_meta :=
       Some {| meta_fields := default [] (meta_fields <$> msg_meta message);
               meta_dcp :=
                 Some {| dcp_pruned := true;
                         dcp_originalID := msg_id message;
                         dcp_reason := pr_reason rec;
                         dcp_distillationID := pr_distillationID rec |} |};
     msg_filePath := msg_filePath message |}.
Proof. reflexivity. Qed.

Lemma viewStep_eq message st :
  viewStep message st =
  (Returned (match prunedByID st !! msg_id message with
             | None => message
             | Some rec => prunedView message rec
             end),
   setIdMap (msg_id message)
     {| originalID := msg_id message; transformedID := msg_id message;
        pruned := bool_decide (is_Some (prunedByID st !! msg_id message)) |} st).
Proof.
  unfold viewStep, bind, get, modify, ret. simpl.
  destruct (prunedByID st !! msg_id message); [done|].
  by rewrite cloneMessage_id.
Qed.

Lemma createTransformedView_spec messages st :
  ∃ view st',
    createTransformedView messages st = (Returned view, st')
    ∧ sameButIdMap st st'
    ∧ view = (λ message, match prunedByID st !! msg_id message with
                         | None => message
                         | Some rec => prunedView message rec
                         end) <$> messages.
Proof.
  unfold createTransformedView. revert st.
  induction messages as [|m messages IH]; intros st.
  - by exists [], st.
  - simpl. unfold bind at 1. rewrite viewStep_eq.
    set (st1 := setIdMap _ _ st).
    destruct (IH st1) as (view & st' & Hrun & Hsame & Hview).
    unfold bind at 1. rewrite Hrun. unfold ret.
    eexists _, st'. split; [done|].
    destruct Hsame as (? & ? & ? & ? & ?).
    split; [by split_and!|]. rewrite Hview. by subst st1.
Qed.

(** C7.  The placeholder of the transformed view.  [createTransformedView]
    always returns, changes nothing of the state but the id map, and
    yields one message per input message, in order, with the same id.  A
    message that has a PrunedRecord gets as content exactly
    [[dcp-pruned id=<messageID> reason=<reason>]], with
    [ distilled=<distillationID>] before the closing bracket when the
    record carries a (non-empty) distillation id; a message without a
    record is returned unchanged, content included. *)
Theorem transformed_view_placeholder
    (messages : list DcpMessage) (st : DcpState) :
  ∃ view st',
    createTransformedView messages st = (Returned view, st')
    ∧ sameButIdMap st st'
    ∧ length view = length messages
    ∧ ∀ i m, messages !! i = Some m →
        ∃ v, view !! i = Some v
          ∧ msg_id v = msg_id m
          ∧ match prunedByID st !! msg_id m with
            | None => v = m
            | Some rec =>
                msg_content v =
                CString
                  match pr_distillationID rec with
                  | Some d =>
                      if bool_decide (d = "")
                      then "[dcp-pruned id=" +:+ msg_id m +:+ " reason="
                             +:+ pr_reason rec +:+ "]"
                      else "[dcp-pruned id=" +:+ msg_id m +:+ " reason="
                             +:+ pr_reason rec +:+ " distilled=" +:+ d +:+ "]"
                  | None =>
                      "[dcp-pruned id=" +:+ msg_id m +:+ " reason="
                        +:+ pr_reason rec +:+ "]"
                  end
            end.
Proof.
  destruct (createTransformedView_spec messages st) as (view & st' & Hrun & Hsame & ->).
  eexists _, st'. split_and!; [done..|by rewrite length_fmap|].
  intros i m Hi. rewrite list_lookup_fmap, Hi. simpl. eexists. split; [done|].
  destruct (prunedByID st !! msg_id m) as [rec|]; [|done].
  split; [done|]. rewrite prunedView_eq. simpl. f_equal.
  unfold placeholder. destruct (pr_distillationID rec) as [d|]; [|done].
  by case_bool_decide.
Qed.

Lemma transformed_view_placeholder_witness :
  Examples.smallSession !! 1 = Some (Examples.toolMessage "t1" "bash" "big output")
  ∧ ∃ view st' v,
      createTransformedView Examples.smallSession Examples.smallPruned
      = (Returned view, st')
      ∧ view !! 1 = Some v
      ∧ msg_content v = CString "[dcp-pruned id=t1 reason=manual]".
Proof.
  split; [reflexivity|].
  destruct (transformed_view_placeholder Examples.smallSession Examples.smallPruned)
    as (view & st' & Hrun & _ & _ & Hall).
  destruct (Hall 1 _ eq_refl) as (v & Hv & _ & Hcontent).
  exists view, st', v. split_and!; [exact Hrun|exact Hv|exact Hcontent].
Defined.

End ViewFacts.

(** ** The Responses-API adapter *)

Section AdapterFacts.
Import Js Spec OpenaiResponses.

Lemma isTarget_spec toolId item :
  isTarget (toLowerCase toolId) item = true ↔ OutputOf toolId item.
Proof.
  unfold isTarget, OutputOf.
  rewrite andb_true_iff, !bool_decide_eq_true.
  split; intros [Ht Hc]; (split; [done|]).
  - destruct (call_id item) as [c|]; [|done]. exists c. by inversion Hc.
  - destruct Hc as (c & -> & Hc). simpl. by rewrite Hc.
Qed.

Lemma replaceLoop_spec lower prunedMessage data replaced :
  replaceLoop lower prunedMessage data replaced =
  (replaced || existsb (isTarget lower) data,
   (λ item, if isTarget lower item then withOutput item prunedMessage else item) <$> data).
Proof.
  revert replaced. induction data as [|item data IH]; intros replaced.
  - simpl. by rewrite orb_false_r.
  - simpl. destruct (isTarget lower item); rewrite IH; simpl.
    + by rewrite orb_true_r.
    + done.
Qed.

(** C9.  [replaceToolOutput] of the Responses format.  Every item of
    type function_call_output whose call id equals [toolId] up to case
    has its output replaced by [prunedMessage] — each of them when the id
    repeats — and keeps its other fields; every other item is left as it
    is; the array keeps its length; and the result is [true] exactly when
    at least one item was replaced. *)
Theorem replaceToolOutput_all_matches
    (data : list Item) (toolId prunedMessage : string) :
  let result := replaceToolOutput data toolId prunedMessage in
  length result.2 = length data
  ∧ (∀ i item, data !! i = Some item →
       (OutputOf toolId item →
        ∃ item', result.2 !! i = Some item'
          ∧ item_output item' = Some prunedMessage
          ∧ item_type item' = item_type item
          ∧ call_id item' = call_id item
          ∧ fields item' = fields item)
       ∧ (¬ OutputOf toolId item → result.2 !! i = Some item))
  ∧ (result.1 = true ↔ ∃ i item, data !! i = Some item ∧ OutputOf toolId item).
Proof.
  unfold replaceToolOutput. rewrite replaceLoop_spec. simpl. split_and!.
  - by rewrite length_fmap.
  - intros i item Hi. rewrite list_lookup_fmap, Hi. simpl. split.
    + intros Ho. apply isTarget_spec in Ho. rewrite Ho. by eexists.
    + intros Hn. destruct (isTarget _ item) eqn:Ht; [|done].
      by apply isTarget_spec in Ht.
  - rewrite existsb_exists. split.
    + intros (item & Hin & Ht). apply isTarget_spec in Ht.
      apply list_elem_of_In, list_elem_of_lookup in Hin as [i Hi]. eauto.
    + intros (i & item & Hi & Ho). exists item. split.
      * apply list_elem_of_In. by eapply list_elem_of_lookup_2.
      * by apply isTarget_spec.
Qed.

Lemma replaceToolOutput_all_matches_witness :
  let result := replaceToolOutput Examples.responsesInput "CALL_1" "[pruned]" in
  (∃ i item, Examples.responsesInput !! i = Some item ∧ OutputOf "CALL_1" item)
  ∧ result.1 = true
  ∧ length result.2 = 4.
Proof.
  assert (∃ i item, Examples.responsesInput !! i = Some item ∧ OutputOf "CALL_1" item)
    as H.
  { eexists 3, _. split; [reflexivity|]. split; [reflexivity|]. by exists "call_1". }
  split; [exact H|].
  destruct (replaceToolOutput_all_matches Examples.responsesInput "CALL_1" "[pruned]")
    as (Hlen & _ & Hiff).
  split; [exact (proj2 Hiff H)|exact Hlen].
Defined.

End AdapterFacts.

(** ** The tracker and the nudge *)

Section NudgeFacts.
Import Js Spec SynthInstruction.

Lemma observe_fold (seen : gset string) (n : nat) (ids : list string) :
  foldl (λ acc id, observe id acc) (seen, n) ids =
  (seen ∪ list_to_set ids, n + (size (seen ∪ list_to_set ids) - size seen)).
Proof.
  revert seen n. induction ids as [|id ids IH]; intros seen n; simpl.
  - rewrite union_empty_r_L. f_equal. lia.
  - unfold observe at 2. simpl. case_bool_decide as Hin.
    + rewrite IH. replace (seen ∪ ({[id]} ∪ list_to_set ids))
        with (seen ∪ list_to_set ids) by set_solver. done.
    + rewrite IH.
      replace ({[id]} ∪ seen ∪ list_to_set ids)
        with (seen ∪ ({[id]} ∪ list_to_set ids)) by set_solver.
      f_equal.
      assert (size ({[id]} ∪ seen) = S (size seen)) as Hs.
      { rewrite size_union by set_solver. by rewrite size_singleton. }
      assert (size ({[id]} ∪ seen) ≤ size (seen ∪ ({[id]} ∪ list_to_set ids))) as Hle.
      { apply subseteq_size. set_solver. }
      lia.
Qed.

Lemma countPart_ids acc part :
  countPart acc part = foldl (λ a id, observe id a) acc (partResultIds part).
Proof.
  unfold countPart, partResultIds.
  case_bool_decide; [|by destruct (tool_use_id part)].
  by destruct (tool_use_id part).
Qed.

Lemma foldl_bind {A B C} (f : A → C → A) (g : B → list C) (l : list B) (acc : A) :
  foldl f acc (l ≫= g) = foldl (λ a x, foldl f a (g x)) acc l.
Proof.
  revert acc. induction l as [|x l IH]; intros acc; [done|].
  simpl. by rewrite foldl_app, IH.
Qed.

Lemma countMessage_ids acc m :
  countMessage acc m = foldl (λ a id, observe id a) acc (messageResultIds m).
Proof.
  unfold countMessage, messageResultIds.
  case_bool_decide as Htool.
  - rewrite bool_decide_false by congruence.
    by destruct (tool_call_id m).
  - case_bool_decide; [|done].
    destruct (content m) as [|parts|]; [done| |done].
    rewrite foldl_bind. clear. revert acc.
    induction parts as [|part parts IH]; intros acc; [done|].
    simpl. by rewrite countPart_ids, IH.
Qed.

Lemma countMessages_ids acc messages :
  foldl countMessage acc messages
  = foldl (λ a id, observe id a) acc (requestResultIds messages).
Proof.
  unfold requestResultIds. rewrite foldl_bind. revert acc.
  induction messages as [|m messages IH]; intros acc; [done|].
  simpl. by rewrite countMessage_ids, IH.
Qed.

Lemma countToolResults_spec messages tracker :
  let seen' := seenToolResultIds tracker ∪ list_to_set (requestResultIds messages) in
  countToolResults messages tracker =
  (size seen' - size (seenToolResultIds tracker),
   {| seenToolResultIds := seen';
      toolResultCount :=
        toolResultCount tracker + (size seen' - size (seenToolResultIds tracker)) |}).
Proof.
  unfold countToolResults. by rewrite countMessages_ids, observe_fold.
Qed.

Lemma injectNudge_spec messages tracker nudgeText freq :
  trackerOk tracker →
  let seen := seenToolResultIds tracker in
  let seen' := seen ∪ list_to_set (requestResultIds messages) in
  injectNudge messages tracker nudgeText freq =
  (if bool_decide (size seen / freq < size seen' / freq)
   then (true, messages ++ [nudgeMessage nudgeText]) else (false, messages),
   {| seenToolResultIds := seen'; toolResultCount := size seen' |}).
Proof.
  intros Hok seen seen'. unfold injectNudge.
  rewrite countToolResults_spec. fold seen seen'. simpl.
  assert (size seen ≤ size seen') as Hle by (apply subseteq_size; set_solver).
  unfold trackerOk in Hok. fold seen in Hok. rewrite Hok.
  replace (size seen + (size seen' - size seen)) with (size seen') by lia.
  case_bool_decide as Hnew.
  - by case_bool_decide.
  - replace (size seen') with (size seen) by lia.
    rewrite bool_decide_false by lia. done.
Qed.

Lemma injectNudges_lookup requests nudgeText freq :
  ∀ tracker k messages,
    trackerOk tracker →
    requests !! k = Some messages →
    let before := seenToolResultIds tracker ∪ seenAfter requests k in
    let after := seenToolResultIds tracker ∪ seenAfter requests (S k) in
    (injectNudges requests tracker nudgeText freq).1 !! k =
    Some (if bool_decide (size before / freq < size after / freq)
          then (true, messages ++ [nudgeMessage nudgeText]) else (false, messages)).
Proof.
  induction requests as [|first rest IH]; intros tracker k messages Hok Hk; [done|].
  simpl. rewrite (injectNudge_spec first tracker nudgeText freq Hok). simpl.
  set (tracker' := {| seenToolResultIds := _; toolResultCount := _ |}).
  destruct (injectNudges rest tracker' nudgeText freq) as [rs tracker''] eqn:Hrest.
  destruct k as [|k]; simpl in *.
  - inversion Hk; subst. unfold seenAfter. simpl.
    rewrite union_empty_r_L, app_nil_r. done.
  - specialize (IH tracker' k messages eq_refl Hk). rewrite Hrest in IH.
    simpl in IH. rewrite IH. unfold seenAfter. simpl.
    rewrite !list_to_set_app_L, !(assoc_L (∪)). done.
Qed.

(** C8.  The nudge with frequency 5.  Requests are handled one after
    the other with one tracker, fresh at the start.  Before the [k]-th
    request the tracker has seen [before] distinct tool-result ids, after
    it [after].  The call for that request either appends exactly one
    message at the end of its array, the synthetic user message whose
    content is the nudge text, and returns [true], or leaves the array
    alone and returns [false]; it injects exactly when the count moves
    into a higher bucket of five.  So there is no injection
    while the count stays below 5, one injection in the call during which
    the count reaches 5, and none afterwards while the count stays below
    10. *)
Theorem nudge_bucket_crossing
    (requests : list (list ChatMessage)) (nudgeText : string)
    (k : nat) (messages : list ChatMessage) :
  requests !! k = Some messages →
  let before := size (seenAfter requests k) in
  let after := size (seenAfter requests (S k)) in
  let run := injectNudges requests createToolTracker nudgeText 5 in
  let nudge := {| role := Some "user"; tool_call_id := None;
                  content := ContentString nudgeText; synthetic := true |} in
  ∃ r, run.1 !! k = Some r
    ∧ (r = (true, messages ++ [nudge]) ∨ r = (false, messages))
    ∧ (r.1 = true ↔ before / 5 < after / 5)
    ∧ (after < 5 → r = (false, messages))
    ∧ (before < 5 ≤ after → r = (true, messages ++ [nudge]))
    ∧ (5 ≤ before → after < 10 → r = (false, messages)).
Proof.
  intros Hk before after run nudge.
  pose proof (injectNudges_lookup requests nudgeText 5 createToolTracker k messages
                eq_refl Hk) as Hrun.
  cbv zeta in Hrun.
  change (seenToolResultIds createToolTracker) with (∅ : gset string) in Hrun.
  rewrite !union_empty_l_L in Hrun. fold before after run in Hrun.
  change (nudgeMessage nudgeText) with nudge in Hrun.
  assert (before ≤ after) as Hle.
  { apply subseteq_size. unfold seenAfter.
    intros x. rewrite !elem_of_list_to_set, !list_elem_of_bind.
    intros (y & ? & Hy). exists y. split; [done|].
    apply list_elem_of_lookup in Hy as [i Hi]. apply lookup_take_Some in Hi as [? ?].
    apply list_elem_of_lookup. exists i. apply lookup_take_Some. split; [done|lia]. }
  eexists. split; [exact Hrun|]. clear Hrun.
  pose proof (Nat.div_mod_eq before 5) as Hqb.
  pose proof (Nat.div_mod_eq after 5) as Hqa.
  pose proof (Nat.mod_upper_bound before 5 ltac:(lia)) as Hrb.
  pose proof (Nat.mod_upper_bound after 5 ltac:(lia)) as Hra.
  revert Hqb Hqa Hrb Hra.
  generalize (before / 5), (after / 5), (before `mod` 5), (after `mod` 5).
  intros qb qa rb ra Hqb Hqa Hrb Hra.
  case_bool_decide as Hb; simpl.
  - split_and!; [by left|done| |done| ]; intros; exfalso; lia.
  - split_and!; [by right| |done| |done].
    + split; [done|lia].
    + intros; exfalso; lia.
Qed.

Lemma nudge_bucket_crossing_witness :
  Examples.nudgeRequests !! 1
  = Some [Examples.toolResult "call_C"; Examples.toolResult "call_d";
          Examples.toolResult "call_e"]
  ∧ ∃ r, (injectNudges Examples.nudgeRequests createToolTracker "prune now" 5).1 !! 1
         = Some r
      ∧ (r = (true, [Examples.toolResult "call_C"; Examples.toolResult "call_d";
                     Examples.toolResult "call_e"]
                    ++ [ {| role := Some "user"; tool_call_id := None;
                            content := ContentString "prune now";
                            synthetic := true |} ])
         ∨ r = (false, [Examples.toolResult "call_C"; Examples.toolResult "call_d";
                        Examples.toolResult "call_e"]))
      ∧ (r.1 = true
         ↔ size (seenAfter Examples.nudgeRequests 1) / 5
           < size (seenAfter Examples.nudgeRequests 2) / 5)
      ∧ (size (seenAfter Examples.nudgeRequests 2) < 5 →
         r = (false, [Examples.toolResult "call_C"; Examples.toolResult "call_d";
                      Examples.toolResult "call_e"]))
      ∧ (size (seenAfter Examples.nudgeRequests 1) < 5
           ≤ size (seenAfter Examples.nudgeRequests 2) →
         r = (true, [Examples.toolResult "call_C"; Examples.toolResult "call_d";
                     Examples.toolResult "call_e"]
                    ++ [ {| role := Some "user"; tool_call_id := None;
                            content := ContentString "prune now";
                            synthetic := true |} ]))
      ∧ (5 ≤ size (seenAfter Examples.nudgeRequests 1) →
         size (seenAfter Examples.nudgeRequests 2) < 10 →
         r = (false, [Examples.toolResult "call_C"; Examples.toolResult "call_d";
                      Examples.toolResult "call_e"])).
Proof.
  split; [reflexivity|].
  exact (nudge_bucket_crossing Examples.nudgeRequests "prune now" 1 _ eq_refl).
Defined.

End NudgeFacts.

(** ** The match resolver *)

Section ResolverFacts.
Import Js Spec MatchResolver.

Lemma startsWith_spec p s : startsWith p s = true ↔ ∃ rest, s = p +:+ rest.
Proof.
  revert s. induction p as [|a p IH]; intros s; simpl.
  - split; [by exists s|done].
  - destruct s as [|b s]; [split; [done|by intros [? ?]]|].
    rewrite andb_true_iff, bool_decide_eq_true, IH. split.
    + intros [-> [rest ->]]. by exists rest.
    + intros [rest [= -> ->]]. eauto.
Qed.

(** [includes] is the substring test. *)
Lemma includes_spec s p :
  includes s p = true ↔ ∃ before after, s = before +:+ p +:+ after.
Proof.
  induction s as [|c s IH]; simpl; rewrite orb_true_iff.
  - rewrite startsWith_spec. split.
    + intros [[rest ->]|?]; [|done]. by exists "", rest.
    + intros ([|? ?] & after & Heq); [|done]. left. by exists after.
  - rewrite startsWith_spec, IH. split.
    + intros [[rest ->]|(before & after & ->)].
      * by exists "", rest.
      * by exists (String c before), after.
    + intros ([|c' before] & after & Heq).
      * left. by exists after.
      * right. inversion Heq; subst. by exists before, after.
Qed.

Lemma Contains_includes s msg :
  Contains s msg ↔ includes (extractMessageContent msg) s = true.
Proof. unfold Contains. by rewrite includes_spec. Qed.

Lemma findExactMatches_from_app i l1 l2 s :
  findExactMatches_from i (l1 ++ l2) s
  = findExactMatches_from i l1 s ++ findExactMatches_from (i + length l1) l2 s.
Proof.
  revert i. induction l1 as [|m l1 IH]; intros i; simpl.
  - by rewrite Nat.add_0_r.
  - replace (i + S (length l1)) with (S i + length l1) by lia.
    destruct (includes _ s); by rewrite IH.
Qed.

Lemma findExactMatches_from_none i l s :
  Forall (λ m, ¬ Contains s m) l → findExactMatches_from i l s = [].
Proof.
  revert i. induction l as [|m l IH]; intros i Hall; [done|].
  apply Forall_cons in Hall as [Hm Hall]. simpl.
  destruct (includes _ s) eqn:Hinc; [|by apply IH].
  by apply Contains_includes in Hinc.
Qed.

Lemma findFuzzyMatches_from_none partial_ratio i l s minScore :
  Forall (λ m, (partial_ratio s (extractMessageContent m) < minScore)%Z) l →
  findFuzzyMatches_from partial_ratio i l s minScore = [].
Proof.
  revert i. induction l as [|m l IH]; intros i Hall; [done|].
  apply Forall_cons in Hall as [Hm Hall]. simpl.
  rewrite bool_decide_false by lia. by apply IH.
Qed.

(** The code's searchable messages are the specification's. *)
Lemma searchable_eq messages :
  (if bool_decide (1 < length messages)
   then take (length messages - 1) messages else messages) = searchable messages.
Proof.
  destruct messages as [|m [|m' rest]]; [done|done|].
  by rewrite bool_decide_true by (simpl; lia).
Qed.

(** One exact hit among the searchable messages is returned. *)
Lemma findStringInMessages_unique partial_ratio messages s stringType fuzzyConfig i m :
  searchable messages !! i = Some m →
  Contains s m →
  (∀ j m', searchable messages !! j = Some m' → Contains s m' → j = i) →
  findStringInMessages partial_ratio messages s stringType fuzzyConfig
  = Returned {| f_messageId := info_id m; f_messageIndex := i |}.
Proof.
  intros Hi Hm Huniq. unfold findStringInMessages. rewrite searchable_eq.
  unfold findExactMatches.
  rewrite <- (take_drop_middle (searchable messages) i m Hi), findExactMatches_from_app.
  rewrite findExactMatches_from_none.
  2:{ apply Forall_forall. intros m' Hin Hc.
      apply list_elem_of_lookup in Hin as [j Hj].
      apply lookup_take_Some in Hj as [Hj Hlt]. specialize (Huniq j m' Hj Hc). lia. }
  simpl. apply Contains_includes in Hm. rewrite Hm.
  rewrite findExactMatches_from_none.
  2:{ apply Forall_forall. intros m' Hin Hc.
      apply list_elem_of_lookup in Hin as [j Hj].
      rewrite lookup_drop in Hj. specialize (Huniq _ m' Hj Hc). lia. }
  simpl. do 2 f_equal. rewrite length_take.
  apply lookup_lt_Some in Hi. lia.
Qed.

Lemma findExactMatches_from_two i0 l s i j mi mj :
  i < j →
  l !! i = Some mi → Contains s mi →
  l !! j = Some mj → Contains s mj →
  2 ≤ length (findExactMatches_from i0 l s).
Proof.
  intros Hlt Hi Hci Hj Hcj.
  assert (drop (S i) l !! (j - S i) = Some mj) as Hj'.
  { rewrite lookup_drop. by replace (S i + (j - S i)) with j by lia. }
  apply Contains_includes in Hci, Hcj.
  rewrite <- (take_drop_middle l i mi Hi), findExactMatches_from_app, length_app.
  simpl. rewrite Hci. simpl.
  rewrite <- (take_drop_middle _ (j - S i) mj Hj'), findExactMatches_from_app, length_app.
  simpl. rewrite Hcj. simpl. lia.
Qed.

(** Two exact hits among the searchable messages are an ambiguous
    match. *)
Lemma findStringInMessages_ambiguous partial_ratio messages s stringType fuzzyConfig
    i j mi mj :
  i < j →
  searchable messages !! i = Some mi → Contains s mi →
  searchable messages !! j = Some mj → Contains s mj →
  findStringInMessages partial_ratio messages s stringType fuzzyConfig
  = Threw (ambiguousExact stringType).
Proof.
  intros Hlt Hi Hci Hj Hcj. unfold findStringInMessages. rewrite searchable_eq.
  pose proof (findExactMatches_from_two 0 _ s i j mi mj Hlt Hi Hci Hj Hcj) as Hlen.
  unfold findExactMatches.
  destruct (findExactMatches_from 0 (searchable messages) s) as [|x [|y rest]];
    simpl in Hlen; [lia|lia|done].
Qed.

(** The last message is the last resort: it is returned when no
    searchable message holds the string or reaches the fuzzy threshold. *)
Lemma findStringInMessages_last partial_ratio messages s stringType fuzzyConfig m :
  last messages = Some m →
  Contains s m →
  Forall (λ m', ¬ Contains s m'
                ∧ (partial_ratio s (extractMessageContent m') < minScore fuzzyConfig)%Z)
         (searchable messages) →
  findStringInMessages partial_ratio messages s stringType fuzzyConfig
  = Returned {| f_messageId := info_id m; f_messageIndex := length messages - 1 |}.
Proof.
  intros Hlast Hm Hall. unfold findStringInMessages. rewrite searchable_eq.
  unfold findExactMatches, findFuzzyMatches.
  rewrite findExactMatches_from_none
    by (eapply Forall_impl; [exact Hall|by intros ? [? _]]).
  rewrite findFuzzyMatches_from_none
    by (eapply Forall_impl; [exact Hall|by intros ? [_ ?]]).
  rewrite Hlast. apply Contains_includes in Hm. by rewrite Hm.
Qed.

(** C5, as the code has it.  Exact matches are looked for among the
    searchable messages — all but the last message, or the only message.
    When exactly one searchable message holds the search string as a
    substring, [findStringInMessages] returns that message, by id and
    index; when two or more searchable messages hold it, the call fails
    with the ambiguous-match error.  The last message is only the last
    resort: it is returned when it holds the string and no searchable
    message holds it or reaches the fuzzy minimum score.  This holds for
    every scoring function. *)
Theorem resolver_exactness
    (partial_ratio : string → string → Z) (messages : list WithParts)
    (searchString : string) (stringType : StringType) (fuzzyConfig : FuzzyConfig) :
  let result :=
    findStringInMessages partial_ratio messages searchString stringType fuzzyConfig in
  (∀ i m,
     searchable messages !! i = Some m →
     Contains searchString m →
     (∀ j m', searchable messages !! j = Some m' → Contains searchString m' → j = i) →
     result = Returned {| f_messageId := info_id m; f_messageIndex := i |})
  ∧ (∀ i j mi mj,
       i ≠ j →
       searchable messages !! i = Some mi → Contains searchString mi →
       searchable messages !! j = Some mj → Contains searchString mj →
       ∃ e, result = Threw e ∧ isAmbiguousMatch e)
  ∧ (∀ m,
       last messages = Some m →
       Contains searchString m →
       Forall (λ m', ¬ Contains searchString m'
                     ∧ (partial_ratio searchString (extractMessageContent m')
                        < minScore fuzzyConfig)%Z)
              (searchable messages) →
       result = Returned {| f_messageId := info_id m;
                            f_messageIndex := length messages - 1 |}).
Proof.
  intros result. split_and!.
  - intros i m. apply findStringInMessages_unique.
  - intros i j mi mj Hne Hi Hci Hj Hcj. exists (ambiguousExact stringType).
    split; [|exists stringType; by left].
    destruct (decide (i < j)).
    + by eapply (findStringInMessages_ambiguous _ _ _ _ _ i j).
    + eapply (findStringInMessages_ambiguous _ _ _ _ _ j i); [lia|done..].
  - intros m. apply findStringInMessages_last.
Qed.

Lemma resolver_exactness_witness :
  searchable Examples.plainTranscript !! 1 = Some (Examples.textMessage "b" "gamma delta")
  ∧ Contains "gamma" (Examples.textMessage "b" "gamma delta")
  ∧ (∀ j m', searchable Examples.plainTranscript !! j = Some m' →
             Contains "gamma" m' → j = 1)
  ∧ findStringInMessages Examples.partial_ratio_model Examples.plainTranscript
      "gamma" startString DEFAULT_FUZZY_CONFIG
    = Returned {| f_messageId := "b"; f_messageIndex := 1 |}.
Proof.
  assert (searchable Examples.plainTranscript !! 1
          = Some (Examples.textMessage "b" "gamma delta")) as H1 by reflexivity.
  assert (Contains "gamma" (Examples.textMessage "b" "gamma delta")) as H2.
  { by exists " ", " delta". }
  assert (∀ j m', searchable Examples.plainTranscript !! j = Some m' →
                  Contains "gamma" m' → j = 1) as H3.
  { intros [|[|j]] m' Hj Hc; [|done|done].
    inversion Hj; subst. apply Contains_includes in Hc. vm_compute in Hc. discriminate. }
  split_and!; [exact H1|exact H2|exact H3|].
  exact (proj1 (resolver_exactness Examples.partial_ratio_model Examples.plainTranscript
                  "gamma" startString DEFAULT_FUZZY_CONFIG) 1 _ H1 H2 H3).
Defined.

(** The claim as stated fails when the only message that holds the
    search string is the last one: here the first message only comes
    close to the string, the last message holds it, and the resolver
    returns the first. *)
Lemma resolver_exactness_counterexample :
  (∀ i m, Examples.foxTranscript !! i = Some m →
          (Contains Examples.foxSearch m ↔ i = 1))
  ∧ findStringInMessages Examples.partial_ratio_model Examples.foxTranscript
      Examples.foxSearch startString DEFAULT_FUZZY_CONFIG
    = Returned {| f_messageId := "m0"; f_messageIndex := 0 |}.
Proof.
  split.
  - intros [|[|i]] m Hi; [| |done]; inversion Hi; subst;
      rewrite Contains_includes; vm_compute; split; (done || lia).
  - vm_compute. reflexivity.
Qed.

End ResolverFacts.

(** ** The inventory loop and the distillation records *)

Section InventoryLoop.
Import Js Config State Core Spec.

Lemma entryStep_eq config entries message st :
  entryStep config entries message st =
  if negb (isToolLikeMessage message) then (Returned entries, st)
  else if has (prunedByID st) (msg_id message) then (Returned entries, st)
  else match isProtectedMessage message config with
       | Returned true => (Returned entries, st)
       | Returned false => (Returned (entries ++ [toEntry message]), st)
       | Threw e => (Threw e, st)
       end.
Proof.
  unfold entryStep. destruct (negb _); [done|].
  unfold bind, get, lift, ret; simpl.
  destruct (has _ _); [done|].
  by destruct (isProtectedMessage message config) as [[]|].
Qed.

Lemma entries_readonly config messages acc st :
  (forEach (entryStep config) messages acc st).2 = st.
Proof.
  apply forEach_readonly. intros acc' x st0. rewrite entryStep_eq.
  destruct (negb _); [done|]. destruct (has _ _); [done|].
  by destruct (isProtectedMessage _ _) as [[]|].
Qed.

(** The first loop of [getPrunableInventory] lists the prunable messages
    in document order. *)
Lemma entries_loop config st l acc :
  patternsCompile config →
  forEach (entryStep config) l acc st =
  (Returned (acc ++ (toEntry <$> filter (Prunable config st) l)), st).
Proof.
  intros Hc. revert acc. induction l as [|m l IH]; intros acc.
  - simpl. by rewrite app_nil_r.
  - rewrite forEach_cons, entryStep_eq, filter_cons.
    destruct (isToolLikeMessage m) eqn:Htl; simpl.
    2:{ rewrite decide_False; [apply IH|].
        intros [Ht _]. apply isToolLikeMessage_spec in Ht. congruence. }
    apply isToolLikeMessage_spec in Htl.
    destruct (has (prunedByID st) (msg_id m)) eqn:Hhas.
    { rewrite decide_False; [apply IH|].
      intros (_ & Hn & _). apply has_false in Hn. congruence. }
    apply has_false in Hhas.
    destruct (isProtectedMessage_returns _ m Hc) as [[] Hp]; rewrite Hp.
    + rewrite decide_False; [apply IH|]. intros (_ & _ & Hf). congruence.
    + rewrite decide_True by done. rewrite IH, fmap_cons.
      by rewrite <- app_assoc.
Qed.

Lemma getPrunableInventory_eq messages rawConfig st :
  getPrunableInventory messages rawConfig st =
  match forEach (entryStep (normalizeConfig rawConfig)) messages [] st with
  | (Returned entries, _) =>
      if bool_decide (signature (inventory st) = signatureOf entries) &&
         bool_decide (length (State.entries (inventory st)) = length entries)
      then (Returned (State.entries (inventory st)), st)
      else (Returned (imap numberEntry entries),
            setInventory (buildInventory (signatureOf entries) entries) st)
  | (Threw e, _) => (Threw e, st)
  end.
Proof.
  unfold getPrunableInventory. unfold bind at 1.
  pose proof (entries_readonly (normalizeConfig rawConfig) messages [] st) as Hro.
  destruct (forEach _ messages [] st) as [[entries|e] st1]; simpl in Hro; subst st1;
    [|done].
  unfold bind, get, modify, ret. simpl.
  by destruct (_ && _).
Qed.

(** Only the inventory cache is ever written by [getPrunableInventory]. *)
Lemma getPrunableInventory_state messages rawConfig st :
  let st' := (getPrunableInventory messages rawConfig st).2 in
  prunedByID st' = prunedByID st
  ∧ idMap st' = idMap st
  ∧ distillationBySourceID st' = distillationBySourceID st
  ∧ st_distillations st' = st_distillations st
  ∧ counters st' = counters st.
Proof.
  rewrite getPrunableInventory_eq.
  destruct (forEach _ messages [] st) as [[entries|e] st1]; [|done].
  by destruct (_ && _).
Qed.

Lemma pruneByIDs_distillations messages rawConfig ids reason d now st :
  st_distillations (pruneByIDs messages rawConfig ids reason d now st).2
  = st_distillations st.
Proof.
  unfold pruneByIDs.
  apply (forEach_state_inv _ (λ s, st_distillations s = st_distillations st));
    [|done].
  intros acc id st0 Hst. rewrite pruneStep_eq.
  destruct (_ !! id) as [message|]; [|done].
  destruct (has _ _); [done|].
  by destruct (isProtectedMessage _ _) as [[]|].
Qed.

End InventoryLoop.

Section DistillFacts.
Import Js Config State Core Tools Spec.

Lemma createDistillation_eq messages messageIDs summary now st :
  createDistillation messages messageIDs summary now st =
  let record :=
    {| dr_id := "dcp-distill-" +:+ pretty (distillations (counters st) + 1);
       dr_sourceMessageIDs := messageIDs;
       dr_summary := summary;
       dr_at := now |} in
  (Returned record, recordDistillation record st).
Proof. reflexivity. Qed.

Lemma distillStep_eq messages config now acc target st :
  distillStep messages config now acc target st =
  let resolved := resolveInventoryMessageIDs st [t_id target] in
  if bool_decide (0 < length (rr_missingIDs resolved))
  then (Returned {| acc_distillations := acc_distillations acc;
                    acc_prunedIDs := acc_prunedIDs acc;
                    acc_protectedIDs := acc_protectedIDs acc;
                    acc_missingIDs := acc_missingIDs acc;
                    acc_unresolvedInventoryIDs :=
                      acc_unresolvedInventoryIDs acc ++ rr_missingIDs resolved |}, st)
  else
    match resolvedMessageIDs resolved with
    | [] => (Returned acc, st)
    | messageID :: _ =>
        let record :=
          {| dr_id := "dcp-distill-" +:+ pretty (distillations (counters st) + 1);
             dr_sourceMessageIDs := [messageID];
             dr_summary := t_distillation target;
             dr_at := now |} in
        match pruneByIDs messages (asRaw config) [messageID] "distilled"
                (Some (dr_id record)) now (recordDistillation record st) with
        | (Returned pruneResult, st2) =>
            (Returned {| acc_distillations := acc_distillations acc ++ [record];
                         acc_prunedIDs := acc_prunedIDs acc ++ prunedIDs pruneResult;
                         acc_protectedIDs :=
                           acc_protectedIDs acc ++ protectedIDs pruneResult;
                         acc_missingIDs := acc_missingIDs acc ++ missingIDs pruneResult;
                         acc_unresolvedInventoryIDs := acc_unresolvedInventoryIDs acc |},
             st2)
        | (Threw e, st2) => (Threw e, st2)
        end
    end.
Proof.
  unfold distillStep, bind at 1, get. cbv zeta.
  case_bool_decide; [done|].
  destruct (resolvedMessageIDs _) as [|messageID rest]; [done|].
  unfold bind at 1. rewrite createDistillation_eq. cbv zeta.
  unfold bind. by destruct (pruneByIDs _ _ _ _ _ _ _) as [[pruneResult|e] st2].
Qed.

Lemma pruneByIDs_inventory messages rawConfig ids reason d now st :
  inventory (pruneByIDs messages rawConfig ids reason d now st).2 = inventory st.
Proof.
  unfold pruneByIDs.
  apply (forEach_state_inv _ (λ s, inventory s = inventory st)); [|done].
  intros acc id st0 Hst. rewrite pruneStep_eq.
  destruct (_ !! id) as [message|]; [|done].
  destruct (has _ _); [done|].
  by destruct (isProtectedMessage _ _) as [[]|].
Qed.

Lemma resolve_one st id :
  resolveInventoryMessageIDs st [id]
  = match numericToMessageID (inventory st) !! id with
    | Some messageID =>
        if bool_decide (messageID = "")
        then {| resolvedMessageIDs := []; rr_missingIDs := [id] |}
        else {| resolvedMessageIDs := [messageID]; rr_missingIDs := [] |}
    | None => {| resolvedMessageIDs := []; rr_missingIDs := [id] |}
    end.
Proof.
  unfold resolveInventoryMessageIDs. cbn [foldl].
  destruct (_ !! id) as [messageID|]; [|done]. by case_bool_decide.
Qed.

Lemma resolve_same st1 st2 ids :
  inventory st1 = inventory st2 →
  resolveInventoryMessageIDs st1 ids = resolveInventoryMessageIDs st2 ids.
Proof. unfold resolveInventoryMessageIDs. by intros ->. Qed.

(** One target adds one record, its own, when the inventory has a
    message for its numeric id, and none otherwise. *)
Lemma distillStep_records messages config now acc target st listed :
  inventory st = inventory listed →
  let run := distillStep messages config now acc target st in
  ∃ records applied,
    st_distillations run.2 = st_distillations st ++ records
    ∧ Forall2 (RecordOf listed now) records applied
    ∧ applied `sublist_of` [target]
    ∧ inventory run.2 = inventory listed
    ∧ ∀ acc', run.1 = Returned acc' →
              acc_distillations acc' = acc_distillations acc ++ records
              ∧ applied = filter (Resolvable listed) [target].
Proof.
  intros Hinv run. subst run. rewrite distillStep_eq. cbv zeta.
  assert (Resolvable listed target
          ↔ rr_missingIDs (resolveInventoryMessageIDs st [t_id target]) = []) as Hres.
  { unfold Resolvable. by rewrite (resolve_same st listed). }
  pose proof (resolve_one st (t_id target)) as Hone.
  destruct (numericToMessageID (inventory st) !! t_id target) as [messageID|] eqn:Hfind.
  2:{ rewrite Hone. cbn [rr_missingIDs length]. rewrite bool_decide_true by lia.
      exists [], []. rewrite !app_nil_r. cbn [fst snd].
      split_and!; [done|constructor|apply sublist_nil_l|done|].
      intros acc' [= <-]. split; [done|].
      rewrite filter_cons_False, filter_nil; [done|].
      rewrite Hres, Hone. done. }
  destruct (decide (messageID = "")) as [Hempty|Hfull].
  { rewrite (bool_decide_true _ Hempty) in Hone. rewrite Hone.
    cbn [rr_missingIDs length]. rewrite bool_decide_true by lia.
    exists [], []. rewrite !app_nil_r. cbn [fst snd].
    split_and!; [done|constructor|apply sublist_nil_l|done|].
    intros acc' [= <-]. split; [done|].
    rewrite filter_cons_False, filter_nil; [done|].
    rewrite Hres, Hone. done. }
  rewrite (bool_decide_false _ Hfull) in Hone. rewrite Hone.
  cbn [rr_missingIDs resolvedMessageIDs length]. rewrite bool_decide_false by lia.
  set (record := {| dr_id := _; dr_sourceMessageIDs := _; dr_summary := _; dr_at := _ |}).
  assert (RecordOf listed now record target) as Hrec.
  { split; [done|]. split; [done|]. exists messageID. split; [done|].
    by rewrite <- (resolve_same st listed). }
  exists [record], [target].
  pose proof (pruneByIDs_distillations messages (asRaw config) [messageID] "distilled"
                (Some (dr_id record)) now (recordDistillation record st)) as Hd.
  pose proof (pruneByIDs_inventory messages (asRaw config) [messageID] "distilled"
                (Some (dr_id record)) now (recordDistillation record st)) as Hi.
  assert ([target] = filter (Resolvable listed) [target]) as Hap.
  { rewrite filter_cons_True, filter_nil; [done|]. rewrite Hres, Hone. done. }
  destruct (pruneByIDs _ _ _ _ _ _ _) as [[pruneResult|e] st2]; cbn [fst snd] in *.
  - split_and!; [done|by constructor|done|by rewrite Hi|].
    by intros acc' [= <-].
  - split_and!; [done|by constructor|done|by rewrite Hi|done].
Qed.

Lemma distill_loop messages config now listed targets :
  ∀ acc st,
    inventory st = inventory listed →
    let run := forEach (distillStep messages config now) targets acc st in
    ∃ records applied,
      st_distillations run.2 = st_distillations st ++ records
      ∧ Forall2 (RecordOf listed now) records applied
      ∧ applied `sublist_of` targets
      ∧ ∀ acc', run.1 = Returned acc' →
                acc_distillations acc' = acc_distillations acc ++ records
                ∧ applied = filter (Resolvable listed) targets.
Proof.
  induction targets as [|target targets IH]; intros acc st Hinv.
  - exists [], []. cbn [forEach fst snd]. rewrite !app_nil_r.
    split_and!; [done|constructor|done|].
    cbn [forEach fst snd]. by intros acc' [= <-].
  - cbv zeta. rewrite forEach_cons.
    destruct (distillStep_records messages config now acc target st listed Hinv)
      as (recs1 & app1 & Hst1 & Hall1 & Hsub1 & Hinv1 & Hacc1).
    destruct (distillStep messages config now acc target st) as [[acc1|e] st1];
      cbn [fst snd] in *.
    + destruct (IH acc1 st1 Hinv1) as (recs2 & app2 & Hst2 & Hall2 & Hsub2 & Hacc2).
      exists (recs1 ++ recs2), (app1 ++ app2). split_and!.
      * by rewrite Hst2, Hst1, app_assoc.
      * by apply Forall2_app.
      * change (target :: targets) with ([target] ++ targets).
        by apply sublist_app.
      * intros acc' Hret. destruct (Hacc2 acc' Hret) as [Ha2 Hf2].
        destruct (Hacc1 acc1 eq_refl) as [Ha1 Hf1].
        split; [by rewrite Ha2, Ha1, app_assoc|].
        change (target :: targets) with ([target] ++ targets).
        by rewrite filter_app, <- Hf1, <- Hf2.
    + exists recs1, app1. split_and!; [done|done| |done].
      change (target :: targets) with ([target] ++ targets).
      etrans; [exact Hsub1|]. apply sublist_inserts_r. done.
Qed.

(** A normalized target carries the text kept for one of the raw
    targets. *)
Lemma normalizeTargets_loop_source items seenIDs target :
  target ∈ normalizeTargets_loop items seenIDs →
  ∃ raw, Some raw ∈ items
         ∧ rt_id raw = Some (t_id target)
         ∧ t_distillation target = targetDistillation raw.
Proof.
  revert seenIDs. induction items as [|[raw|] items IH]; intros seenIDs; simpl.
  - by intros ?%elem_of_nil.
  - case_bool_decide as Hid.
    { intros (r & ? & ?)%IH. exists r. split; [by apply list_elem_of_further|done]. }
    case_bool_decide.
    { intros (r & ? & ?)%IH. exists r. split; [by apply list_elem_of_further|done]. }
    intros [->|(r & ? & ?)%IH]%elem_of_cons.
    + exists raw. split; [apply list_elem_of_here|]. simpl. split; [|done].
      destruct (rt_id raw) as [s|]; [|done].
      by case_bool_decide.
    + exists r. split; [by apply list_elem_of_further|done].
  - intros (r & ? & ?)%IH. exists r. split; [by apply list_elem_of_further|done].
Qed.

Lemma createTransformedView_distillations messages st :
  st_distillations (createTransformedView messages st).2 = st_distillations st.
Proof.
  destruct (createTransformedView_spec messages st) as (view & st' & -> & Hsame & _).
  by destruct Hsame as (_ & _ & ? & _).
Qed.

Lemma summarizeView_distillations messages config st :
  st_distillations (summarizeView messages config st).2 = st_distillations st.
Proof.
  unfold summarizeView, bind at 1.
  pose proof (createTransformedView_distillations messages st) as Hv.
  destruct (createTransformedView messages st) as [[view|e] st1]; simpl in *; [|done].
  unfold bind.
  pose proof (getPrunableInventory_state messages (asRaw config) st1)
    as (_ & _ & _ & Hd & _).
  destruct (getPrunableInventory _ _ st1) as [[inv|e] st2]; simpl in *; congruence.
Qed.

Lemma dcp_distill_records config targets runtime now st :
  let run := dcp_distill config targets runtime now st in
  let listed := (getPrunableInventory (extractMessages runtime) (asRaw config) st).2 in
  ∃ records applied,
    st_distillations run.2 = st_distillations st ++ records
    ∧ Forall2 (RecordOf listed now) records applied
    ∧ applied `sublist_of` normalizeTargets targets
    ∧ ∀ r, run.1 = Returned r →
           d_distillations r = records
           ∧ applied = filter (Resolvable listed) (normalizeTargets targets).
Proof.
  intros run listed. subst run listed. unfold dcp_distill, bind. cbv zeta.
  pose proof (getPrunableInventory_state (extractMessages runtime) (asRaw config) st)
    as (_ & _ & _ & Hd0 & _).
  destruct (getPrunableInventory _ _ st) as [[inv|e] st0]; cbn [fst snd] in *.
  2:{ exists [], []. rewrite app_nil_r.
      split_and!; [done|constructor|apply sublist_nil_l|done]. }
  destruct (distill_loop (extractMessages runtime) config now st0
              (normalizeTargets targets)
              {| acc_distillations := []; acc_prunedIDs := []; acc_protectedIDs := [];
                 acc_missingIDs := []; acc_unresolvedInventoryIDs := [] |} st0 eq_refl)
    as (records & applied & Hst & Hall & Hsub & Hacc).
  exists records, applied.
  destruct (forEach _ (normalizeTargets targets) _ st0) as [[acc|e] st1];
    cbn [fst snd] in *.
  2:{ split_and!; [by rewrite Hst, Hd0|done|done|done]. }
  pose proof (summarizeView_distillations (extractMessages runtime) config st1) as Hv.
  destruct (Hacc acc eq_refl) as [Ha Hf].
  destruct (summarizeView _ _ st1) as [[view|e] st2]; cbn [fst snd] in *.
  - unfold ret. cbn [fst snd]. cbn [acc_distillations app] in Ha.
    split_and!; [by rewrite Hv, Hst, Hd0|done|done|]. intros r [= <-]. by split.
  - split_and!; [by rewrite Hv, Hst, Hd0|done|done|done].
Qed.


(** *** Trimming *)

Lemma append_nil_r s : s +:+ "" = s.
Proof. induction s as [|a s IH]; [done|]. change (String a (s +:+ "") = String a s). by rewrite IH. Qed.

Lemma rev_app_snoc s c acc :
  String.rev_app (s +:+ String c "") acc = String c (String.rev_app s acc).
Proof.
  revert acc. induction s as [|a s IH]; intros acc; [done|].
  change (String.rev_app (s +:+ String c "") (String a acc)
          = String c (String.rev_app s (String a acc))).
  apply IH.
Qed.

Lemma rev_app_rev_app s acc acc' :
  String.rev_app (String.rev_app s acc) acc' = String.rev_app acc (s +:+ acc').
Proof.
  revert acc acc'. induction s as [|a s IH]; intros acc acc'; [done|].
  change (String.rev_app (String.rev_app s (String a acc)) acc'
          = String.rev_app acc (String a (s +:+ acc'))).
  by rewrite IH.
Qed.

Lemma rev_involutive s : String.rev (String.rev s) = s.
Proof.
  unfold String.rev. rewrite rev_app_rev_app. simpl. apply append_nil_r.
Qed.

(** A non-empty text that neither begins nor ends with white space is
    its own trimmed form. *)
Lemma trim_trimmed text c rest front d :
  text = String c rest →
  text = front +:+ String d "" →
  is_js_space c = false →
  is_js_space d = false →
  trim text = text.
Proof.
  intros Hc Hd Hsc Hsd. unfold trim.
  assert (trimStart text = text) as ->.
  { rewrite Hc. simpl. by rewrite Hsc. }
  unfold trimEnd. rewrite Hd at 1. unfold String.rev at 2.
  rewrite rev_app_snoc. simpl. rewrite Hsd.
  rewrite <- rev_app_snoc. fold (String.rev (front +:+ String d "")).
  rewrite <- Hd. apply rev_involutive.
Qed.

Lemma targetDistillation_cases raw :
  match rt_distillation raw with
  | Some text =>
      (trim text ≠ "" → targetDistillation raw = trim text)
      ∧ (trim text = "" → targetDistillation raw = DEFAULT_DISTILLATION)
  | None => targetDistillation raw = DEFAULT_DISTILLATION
  end.
Proof.
  unfold targetDistillation. destruct (rt_distillation raw) as [text|]; [|done].
  destruct (trim text) as [|a t].
  - split; [done|]. by rewrite bool_decide_false by (simpl; lia).
  - split; [|done]. by rewrite bool_decide_true by (simpl; lia).
Qed.

Lemma targetDistillation_nonempty raw : targetDistillation raw ≠ "".
Proof.
  unfold targetDistillation. destruct (rt_distillation raw) as [text|]; [|done].
  case_bool_decide as Hlen; [|done]. intros Heq. rewrite Heq in Hlen. simpl in Hlen. lia.
Qed.

Lemma normalizeTargets_loop_spec items :
  ∀ seenIDs,
    let targets := normalizeTargets_loop items seenIDs in
    NoDup (t_id <$> targets)
    ∧ (∀ target, target ∈ targets →
         (t_id target ∉ seenIDs)
         ∧ t_id target ≠ ""
         ∧ ∃ before raw after,
             items = before ++ Some raw :: after
             ∧ rt_id raw = Some (t_id target)
             ∧ t_distillation target = targetDistillation raw
             ∧ ∀ raw', Some raw' ∈ before → rt_id raw' ≠ Some (t_id target))
    ∧ (∀ raw id, Some raw ∈ items → rt_id raw = Some id → id ≠ "" → id ∉ seenIDs →
         id ∈ t_id <$> targets).
Proof.
  induction items as [|[raw0|] items IH]; intros seenIDs targets; subst targets.
  - simpl. split; [constructor|]. split; [by intros ? ?%elem_of_nil|].
    by intros ? ? ?%elem_of_nil.
  - simpl.
    set (id0 := match rt_id raw0 with
                | Some s => if bool_decide (0 < String.length s) then s else ""
                | None => ""
                end).
    assert (id0 ≠ "" → rt_id raw0 = Some id0) as Hid0.
    { subst id0. destruct (rt_id raw0) as [s|]; [|done]. by case_bool_decide. }
    assert (∀ id, rt_id raw0 = Some id → id ≠ "" → id0 = id) as Hid0'.
    { intros id Hid Hne. subst id0. rewrite Hid.
      rewrite bool_decide_true; [done|]. destruct id; [done|simpl; lia]. }
    assert (∀ seen,
              (let targets := normalizeTargets_loop items seen in
               NoDup (t_id <$> targets)
               ∧ (∀ target, target ∈ targets →
                    (t_id target ∉ seen) ∧ t_id target ≠ ""
                    ∧ ∃ before raw after,
                        items = before ++ Some raw :: after
                        ∧ rt_id raw = Some (t_id target)
                        ∧ t_distillation target = targetDistillation raw
                        ∧ ∀ raw', Some raw' ∈ before → rt_id raw' ≠ Some (t_id target))
               ∧ (∀ raw id, Some raw ∈ items → rt_id raw = Some id → id ≠ "" →
                    id ∉ seen → id ∈ t_id <$> targets)) →
              (id0 = "" ∨ id0 ∈ seen) →
              let targets := normalizeTargets_loop items seen in
              NoDup (t_id <$> targets)
              ∧ (∀ target, target ∈ targets →
                   (t_id target ∉ seen) ∧ t_id target ≠ ""
                   ∧ ∃ before raw after,
                       Some raw0 :: items = before ++ Some raw :: after
                       ∧ rt_id raw = Some (t_id target)
                       ∧ t_distillation target = targetDistillation raw
                       ∧ ∀ raw', Some raw' ∈ before → rt_id raw' ≠ Some (t_id target))
              ∧ (∀ raw id, Some raw ∈ Some raw0 :: items → rt_id raw = Some id →
                   id ≠ "" → id ∉ seen → id ∈ t_id <$> targets)) as Hskip.
    { intros seen (Hnd & Hsrc & Hall) Hskipped. cbv zeta. split; [done|]. split.
      - intros target Hin.
        destruct (Hsrc target Hin) as (Hns & Hne & before & raw & after & -> & Hr & Hd & Hb).
        split; [done|]. split; [done|].
        exists (Some raw0 :: before), raw, after. split_and!; try done.
        intros raw' [[= ->]|Hin']%elem_of_cons; [|by apply Hb].
        intros Heq. specialize (Hid0' _ Heq Hne).
        destruct Hskipped as [Hempty|Hseen]; congruence.
      - intros raw id [[= ->]|Hin]%elem_of_cons Hr Hne Hns; [|by eapply Hall].
        specialize (Hid0' _ Hr Hne). destruct Hskipped as [Hempty|Hseen]; congruence. }
    case_bool_decide as Hempty; [apply Hskip; [apply IH|by left]|].
    case_bool_decide as Hseen; [apply Hskip; [apply IH|by right]|].
    destruct (IH ({[ id0 ]} ∪ seenIDs)) as (Hnd & Hsrc & Hall).
    split_and!.
    + rewrite fmap_cons. simpl. constructor; [|done].
      intros (target & Heq & Hin)%list_elem_of_fmap.
      destruct (Hsrc target Hin) as (Hns & _). apply Hns. rewrite <- Heq. set_solver.
    + intros target [->|Hin]%elem_of_cons.
      * simpl. split; [done|]. split; [done|].
        exists [], raw0, items. split_and!; [done|by apply Hid0|done|].
        by intros ? ?%elem_of_nil.
      * destruct (Hsrc target Hin)
          as (Hns & Hne & before & raw & after & -> & Hr & Hd & Hb).
        split; [set_solver|]. split; [done|].
        exists (Some raw0 :: before), raw, after. split_and!; try done.
        intros raw' [[= ->]|Hin']%elem_of_cons; [|by apply Hb].
        intros Heq. rewrite (Hid0 Hempty) in Heq. injection Heq as Heq.
        apply Hns. rewrite <- Heq. set_solver.
    + intros raw id [[= ->]|Hin]%elem_of_cons Hr Hne Hns.
      * rewrite fmap_cons. simpl. rewrite (Hid0' _ Hr Hne). by left.
      * rewrite fmap_cons. simpl. destruct (decide (id = id0)) as [->|Hneq]; [by left|].
        right. eapply Hall; [done..|]. set_solver.
  - simpl. destruct (IH seenIDs) as (Hnd & Hsrc & Hall). split; [done|]. split.
    + intros target Hin.
      destruct (Hsrc target Hin) as (Hns & Hne & before & raw & after & -> & Hr & Hd & Hb).
      split; [done|]. split; [done|].
      exists (None :: before), raw, after. split_and!; try done.
      intros raw' [[=]|Hin']%elem_of_cons. by apply Hb.
    + intros raw id [[=]|Hin]%elem_of_cons Hr Hne Hns. by eapply Hall.
Qed.

(** C6, as the code has it.  [createDistillation] records exactly the
    summary string it is handed and appends that record to the state.
    The [dcp_distill] operation keeps one target per non-empty id of the
    request, the first item with that id, and appends one record for each
    target whose numeric id the inventory resolves, in order, and nothing
    else.  The record of a target has as its only source the message
    resolved for that target, and as its summary the text kept for that
    very target: the caller's distillation text of that item with the
    surrounding white space trimmed off, or — when that text is missing,
    not a string, or blank — the fixed sentence "Distilled context summary
    was not provided by the caller.".  A caller's text that is non-empty
    and has no white space at either end is kept as it is. *)
Theorem distillation_summary_stored :
  (∀ messages messageIDs summary now st,
     ∃ record,
       createDistillation messages messageIDs summary now st
       = (Returned record, recordDistillation record st)
       ∧ dr_summary record = summary
       ∧ st_distillations (recordDistillation record st)
         = st_distillations st ++ [record])
  ∧ (∀ config targets runtime now st,
       let run := dcp_distill config targets runtime now st in
       let listed :=
         (getPrunableInventory (extractMessages runtime) (asRaw config) st).2 in
       ∃ records applied,
         st_distillations run.2 = st_distillations st ++ records
         ∧ Forall2 (RecordOf listed now) records applied
         ∧ applied `sublist_of` normalizeTargets targets
         ∧ NoDup (t_id <$> normalizeTargets targets)
         ∧ (∀ target, target ∈ normalizeTargets targets →
              ∃ items before raw after,
                targets = Some items
                ∧ items = before ++ Some raw :: after
                ∧ rt_id raw = Some (t_id target)
                ∧ (∀ raw', Some raw' ∈ before → rt_id raw' ≠ Some (t_id target))
                ∧ t_distillation target = targetDistillation raw)
         ∧ ∀ r, run.1 = Returned r →
                d_distillations r = records
                ∧ applied = filter (Resolvable listed) (normalizeTargets targets))
  ∧ (∀ raw,
       match rt_distillation raw with
       | Some text =>
           (trim text ≠ "" → targetDistillation raw = trim text)
           ∧ (trim text = "" → targetDistillation raw = DEFAULT_DISTILLATION)
       | None => targetDistillation raw = DEFAULT_DISTILLATION
       end)
  ∧ (∀ text c rest front d,
       text = String c rest →
       text = front +:+ String d "" →
       is_js_space c = false →
       is_js_space d = false →
       trim text = text).
Proof.
  split_and!.
  - intros messages messageIDs summary now st. rewrite createDistillation_eq.
    by eexists.
  - intros config targets runtime now st run listed.
    destruct (dcp_distill_records config targets runtime now st)
      as (records & applied & Hst & Hrec & Hsub & Hret).
    exists records, applied. split_and!; [done|done|done| | |done].
    + destruct targets as [items|]; [|constructor].
      apply (normalizeTargets_loop_spec items ∅).
    + intros target Hin. destruct targets as [items|]; [|by apply elem_of_nil in Hin].
      destruct (normalizeTargets_loop_spec items ∅) as (_ & Hsrc & _).
      destruct (Hsrc target Hin)
        as (_ & _ & before & raw & after & Hitems & Hid & Htext & Hfirst).
      exists items, before, raw, after. by split_and!.
  - apply targetDistillation_cases.
  - apply trim_trimmed.
Qed.

Lemma distillation_summary_stored_witness :
  (let run := dcp_distill (normalizeConfig None) Examples.paddedTargets
                (Some Examples.distillSession) 0 createState in
   let listed :=
     (getPrunableInventory (extractMessages (Some Examples.distillSession))
        (asRaw (normalizeConfig None)) createState).2 in
   ∃ records applied,
     st_distillations run.2 = st_distillations createState ++ records
     ∧ Forall2 (RecordOf listed 0) records applied
     ∧ applied `sublist_of` normalizeTargets Examples.paddedTargets
     ∧ NoDup (t_id <$> normalizeTargets Examples.paddedTargets)
     ∧ (∀ target, target ∈ normalizeTargets Examples.paddedTargets →
          ∃ items before raw after,
            Examples.paddedTargets = Some items
            ∧ items = before ++ Some raw :: after
            ∧ rt_id raw = Some (t_id target)
            ∧ (∀ raw', Some raw' ∈ before → rt_id raw' ≠ Some (t_id target))
            ∧ t_distillation target = targetDistillation raw)
     ∧ ∀ r, run.1 = Returned r →
            d_distillations r = records
            ∧ applied
              = filter (Resolvable listed) (normalizeTargets Examples.paddedTargets))
  ∧ (dr_sourceMessageIDs <$>
       st_distillations
         (dcp_distill (normalizeConfig None) Examples.paddedTargets
            (Some Examples.distillSession) 0 createState).2)
    = [["t1"]; ["t2"]]
  ∧ "tool output one" = String "t" "ool output one"
  ∧ "tool output one" = "tool output on" +:+ String "e" ""
  ∧ is_js_space "t" = false
  ∧ is_js_space "e" = false
  ∧ trim "tool output one" = "tool output one".
Proof.
  split.
  { exact (proj1 (proj2 distillation_summary_stored)
             (normalizeConfig None) Examples.paddedTargets
             (Some Examples.distillSession) 0%Z createState). }
  split; [vm_compute; reflexivity|].
  split_and!; [reflexivity..|].
  exact (proj2 (proj2 (proj2 distillation_summary_stored))
           "tool output one" "t"%char "ool output one" "tool output on" "e"%char
           eq_refl eq_refl eq_refl eq_refl).
Defined.

(** The claim as stated fails: the recorded summary is not always the
    caller's text.  A padded text is recorded trimmed, and a target
    without a text gets a sentence the code supplies. *)
Lemma distillation_summary_counterexample :
  let run := dcp_distill (normalizeConfig None) Examples.paddedTargets
               (Some Examples.distillSession) 0 createState in
  dr_summary <$> st_distillations run.2
  = ["tool output one"; "Distilled context summary was not provided by the caller."]
  ∧ "tool output one" ≠ "  tool output one ".
Proof.
  split; [vm_compute; reflexivity|discriminate].
Qed.

End DistillFacts.

(** ** The inventory *)

Section InventoryFacts.
Import Js Config State Core Spec.

Lemma getPrunableInventory_compiled messages rawConfig st :
  patternsCompile (normalizeConfig rawConfig) →
  let entries := toEntry <$> prunableOf (normalizeConfig rawConfig) st messages in
  getPrunableInventory messages rawConfig st =
  if bool_decide (signature (inventory st) = signatureOf entries) &&
     bool_decide (length (State.entries (inventory st)) = length entries)
  then (Returned (State.entries (inventory st)), st)
  else (Returned (imap numberEntry entries),
        setInventory (buildInventory (signatureOf entries) entries) st).
Proof.
  intros Hc entries. rewrite getPrunableInventory_eq, entries_loop by done. done.
Qed.

(** The signature is a function of the ids and sizes. *)
Lemma signatureOf_toEntry l :
  signatureOf (toEntry <$> l)
  = join "|" ((λ p : string * nat, p.1 +:+ ":" +:+ pretty p.2) <$> sized l).
Proof. unfold signatureOf, sized. by rewrite <- !list_fmap_compose. Qed.

Lemma signatureOf_sized l1 l2 :
  sized l1 = sized l2 → signatureOf (toEntry <$> l1) = signatureOf (toEntry <$> l2).
Proof. intros Hs. by rewrite !signatureOf_toEntry, Hs. Qed.

(** After a call the cache answers for the entry list of that call. *)
Lemma getPrunableInventory_cache messages rawConfig st :
  patternsCompile (normalizeConfig rawConfig) →
  let entries := toEntry <$> prunableOf (normalizeConfig rawConfig) st messages in
  ∃ r st1,
    getPrunableInventory messages rawConfig st = (Returned r, st1)
    ∧ r = State.entries (inventory st1)
    ∧ signature (inventory st1) = signatureOf entries
    ∧ length (State.entries (inventory st1)) = length entries
    ∧ prunedByID st1 = prunedByID st
    ∧ (InventoryOk st → InventoryOk st1)
    ∧ (¬ (signature (inventory st) = signatureOf entries
          ∧ length (State.entries (inventory st)) = length entries) →
       r = imap numberEntry entries).
Proof.
  intros Hc entries. rewrite getPrunableInventory_compiled by done. fold entries.
  destruct (bool_decide (signature _ = _) && _) eqn:Hhit.
  - apply andb_true_iff in Hhit as [Hs%bool_decide_eq_true Hl%bool_decide_eq_true].
    eexists _, _. split_and!; [done..|]. by intros [].
  - eexists _, _. split_and!; try done.
    + simpl. by rewrite length_imap.
    + intros _. by exists entries.
Qed.

(** Stability of the inventory: when the prunable messages and their
    sizes are the same for a second call, that call returns the very list
    the first call returned and leaves the state alone. *)
Lemma getPrunableInventory_stable messages rawConfig messages' rawConfig' st :
  patternsCompile (normalizeConfig rawConfig) →
  patternsCompile (normalizeConfig rawConfig') →
  sized (prunableOf (normalizeConfig rawConfig') st messages')
  = sized (prunableOf (normalizeConfig rawConfig) st messages) →
  ∃ r st1,
    getPrunableInventory messages rawConfig st = (Returned r, st1)
    ∧ r = State.entries (inventory st1)
    ∧ getPrunableInventory messages' rawConfig' st1 = (Returned r, st1).
Proof.
  intros Hc Hc' Hsame.
  destruct (getPrunableInventory_cache messages rawConfig st Hc)
    as (r & st1 & Hrun & Hr & Hsig & Hlen & Hpr & _).
  exists r, st1. split_and!; [done..|].
  rewrite getPrunableInventory_compiled by done.
  assert (prunableOf (normalizeConfig rawConfig') st1 messages'
          = prunableOf (normalizeConfig rawConfig') st messages') as ->.
  { unfold prunableOf. apply list_filter_iff. intros m. unfold Prunable. by rewrite Hpr. }
  rewrite (signatureOf_sized _ _ Hsame), Hsig, bool_decide_true by done.
  rewrite bool_decide_true; [by rewrite Hr|].
  rewrite Hlen, !length_fmap.
  apply (f_equal length) in Hsame. unfold sized in Hsame.
  by rewrite !length_fmap in Hsame.
Qed.

Lemma numberEntry_numbered l :
  (λ e, (inv_id e, inv_messageID e)) <$> imap numberEntry (toEntry <$> l) = numbered l.
Proof.
  unfold numbered. rewrite imap_fmap, fmap_imap. by apply imap_ext.
Qed.

End InventoryFacts.

(** ** When the signature determines the prunable set *)

Section SignatureFacts.
Import Js Config State Core Spec.

(** Splitting at the first occurrence of a character. *)
Lemma split_first c s1 t1 s2 t2 :
  occurrences c s1 = 0 → occurrences c s2 = 0 →
  s1 +:+ String c t1 = s2 +:+ String c t2 →
  s1 = s2 ∧ t1 = t2.
Proof.
  revert s2. induction s1 as [|a s1 IH]; intros [|b s2] H1 H2 Heq.
  - by inversion Heq.
  - inversion Heq; subst. simpl in H2. rewrite bool_decide_true in H2 by done. lia.
  - inversion Heq; subst. simpl in H1. rewrite bool_decide_true in H1 by done. lia.
  - inversion Heq; subst. simpl in H1, H2.
    destruct (IH s2) as [-> ->]; [lia|lia|done|done].
Qed.

(** Splitting at the last occurrence of a character. *)
Lemma split_last c s1 d1 s2 d2 :
  occurrences c d1 = 0 → occurrences c d2 = 0 →
  s1 +:+ String c d1 = s2 +:+ String c d2 →
  s1 = s2 ∧ d1 = d2.
Proof.
  intros H1 H2. revert s2. induction s1 as [|a s1 IH]; intros [|b s2] Heq.
  - by inversion Heq.
  - inversion Heq as [[Ha Hd]]. subst. rewrite occurrences_app in H1. simpl in H1.
    rewrite bool_decide_true in H1 by done. lia.
  - inversion Heq as [[Ha Hd]]. subst. rewrite occurrences_app in H2. simpl in H2.
    rewrite bool_decide_true in H2 by done. lia.
  - inversion Heq as [[Ha Hd]]. subst. destruct (IH s2 Hd) as [-> ->]. done.
Qed.

(** A decimal numeral has digits only. *)
Lemma pretty_N_char_other c x :
  (c = ":" ∨ c = "|")%char → pretty_N_char x ≠ c.
Proof.
  intros [-> | ->]; unfold pretty_N_char; repeat case_match; discriminate.
Qed.

Lemma pretty_N_go_occurrences c x s :
  (c = ":" ∨ c = "|")%char →
  occurrences c (pretty_N_go x s) = occurrences c s.
Proof.
  intros Hc. revert s. induction (N.lt_wf_0 x) as [x _ IH]; intros s.
  destruct (decide (x = 0)%N) as [->|Hx]; [done|].
  rewrite pretty_N_go_step by lia. rewrite IH by (apply N.div_lt; lia).
  simpl. rewrite bool_decide_false; [done|]. by apply pretty_N_char_other.
Qed.

Lemma pretty_nat_occurrences c (n : nat) :
  (c = ":" ∨ c = "|")%char → occurrences c (pretty n) = 0.
Proof.
  intros Hc. unfold pretty, pretty_nat, pretty, pretty_N.
  case_decide.
  - destruct Hc as [-> | ->]; done.
  - by rewrite pretty_N_go_occurrences.
Qed.

Lemma entryText_bars entry :
  occurrences "|" (entryText entry) = occurrences "|" (e_messageID entry).
Proof.
  unfold entryText. rewrite !occurrences_app, pretty_nat_occurrences by auto.
  simpl. lia.
Qed.

Lemma entryText_inj e1 e2 :
  entryText e1 = entryText e2 →
  e_messageID e1 = e_messageID e2 ∧ e_chars e1 = e_chars e2.
Proof.
  unfold entryText. intros Heq.
  apply (split_last ":") in Heq as [? Hp];
    [|by apply pretty_nat_occurrences; auto..].
  split; [done|]. by apply (inj pretty) in Hp.
Qed.

Lemma signatureOf_cons entry entries :
  signatureOf (entry :: entries) =
  match entries with
  | [] => entryText entry
  | _ => entryText entry +:+ "|" +:+ signatureOf entries
  end.
Proof. by destruct entries. Qed.

(** The signature has one separator between neighbours, and the
    separators that the ids bring. *)
Lemma signatureOf_bars entries :
  occurrences "|" (signatureOf entries)
  = sum_list (occurrences "|" ∘ e_messageID <$> entries) + (length entries - 1).
Proof.
  induction entries as [|entry entries IH]; [done|].
  rewrite signatureOf_cons. destruct entries as [|entry' entries].
  - rewrite entryText_bars. simpl. lia.
  - rewrite !occurrences_app, entryText_bars, IH. simpl. lia.
Qed.

Lemma bars_free_sum entries :
  Forall (λ e, occurrences "|" (e_messageID e) = 0) entries
  ↔ sum_list (occurrences "|" ∘ e_messageID <$> entries) = 0.
Proof.
  induction entries as [|e l IH]; [done|].
  rewrite Forall_cons, IH, fmap_cons. simpl. lia.
Qed.

(** Two entry lists of one length and one signature, one of them with
    ids free of the separator, list the same ids and sizes. *)
Lemma signatureOf_inj entries1 entries2 :
  length entries1 = length entries2 →
  signatureOf entries1 = signatureOf entries2 →
  Forall (λ e, occurrences "|" (e_messageID e) = 0) entries1 →
  (λ e, (e_messageID e, e_chars e)) <$> entries1
  = (λ e, (e_messageID e, e_chars e)) <$> entries2.
Proof.
  intros Hlen Hsig Hfree.
  assert (Forall (λ e, occurrences "|" (e_messageID e) = 0) entries2) as Hfree2.
  { pose proof (signatureOf_bars entries1) as H1.
    pose proof (signatureOf_bars entries2) as H2.
    rewrite Hsig, Hlen in H1. rewrite H2 in H1.
    apply bars_free_sum. apply bars_free_sum in Hfree. lia. }
  revert entries2 Hlen Hsig Hfree2.
  induction Hfree as [|e1 entries1 He1 Hfree IH];
    intros [|e2 entries2] Hlen Hsig Hfree2; try done.
  apply Forall_cons in Hfree2 as [He2 Hfree2].
  rewrite !signatureOf_cons in Hsig. simpl in Hlen.
  destruct entries1 as [|e1' entries1], entries2 as [|e2' entries2]; try done.
  - apply entryText_inj in Hsig as [Hid Hch]. simpl. by rewrite Hid, Hch.
  - apply split_first in Hsig as [Ht Hrest];
      [|by rewrite entryText_bars..].
    apply entryText_inj in Ht as [Hid Hch].
    rewrite !fmap_cons. f_equal; [by rewrite Hid, Hch|].
    apply (IH (e2' :: entries2)); [simpl in *; lia|done|done].
Qed.

Lemma ids_of_pairs (l : list Entry) :
  e_messageID <$> l = fst <$> ((λ e, (e_messageID e, e_chars e)) <$> l).
Proof. by rewrite <- list_fmap_compose. Qed.

Lemma InventoryOk_createState : InventoryOk createState.
Proof. by exists []. Qed.

(** With a cache that [getPrunableInventory] built and prunable ids free
    of the separator, a call returns the prunable messages numbered "1",
    "2", ... in document order, whether it recomputes or answers from the
    cache. *)
Lemma getPrunableInventory_numbers messages rawConfig st :
  patternsCompile (normalizeConfig rawConfig) →
  InventoryOk st →
  Forall (λ m, occurrences "|" (msg_id m) = 0)
         (prunableOf (normalizeConfig rawConfig) st messages) →
  ∃ r st1,
    getPrunableInventory messages rawConfig st = (Returned r, st1)
    ∧ (λ e, (inv_id e, inv_messageID e)) <$> r
      = numbered (prunableOf (normalizeConfig rawConfig) st messages).
Proof.
  intros Hc [entries0 Hok] Hfree.
  set (prunable := prunableOf (normalizeConfig rawConfig) st messages) in *.
  rewrite getPrunableInventory_compiled by done. fold prunable.
  destruct (bool_decide (signature _ = _) && _) eqn:Hhit.
  2:{ eexists _, _. split; [done|]. apply numberEntry_numbered. }
  apply andb_true_iff in Hhit as [Hs%bool_decide_eq_true Hl%bool_decide_eq_true].
  eexists _, _. split; [done|].
  rewrite Hok in Hs, Hl |- *. simpl in *. rewrite length_imap in Hl.
  assert ((λ e, (e_messageID e, e_chars e)) <$> (toEntry <$> prunable)
          = (λ e, (e_messageID e, e_chars e)) <$> entries0) as Hsame.
  { apply signatureOf_inj; [done|done|].
    apply Forall_fmap. exact Hfree. }
  rewrite <- numberEntry_numbered.
  rewrite !fmap_imap.
  assert (e_messageID <$> entries0 = e_messageID <$> (toEntry <$> prunable)) as Hids.
  { rewrite (ids_of_pairs entries0), (ids_of_pairs (toEntry <$> prunable)).
    by rewrite Hsame. }
  transitivity (imap (λ i id, (pretty (i + 1), id)) (e_messageID <$> entries0)).
  { by rewrite imap_fmap. }
  rewrite Hids. by rewrite imap_fmap.
Qed.

(** X1: the inventory is stable, for ids free of the separator.  For a
    state whose inventory cache was built by [getPrunableInventory],
    patterns that compile and prunable ids without a bar: when the
    prunable messages and their sizes are the same for two calls in a
    row, both return the same list, which is the cached one, and it
    numbers the prunable messages 1, 2, ... in document order. *)
Lemma getPrunableInventory_stable_numbers messages rawConfig messages' rawConfig' st :
  patternsCompile (normalizeConfig rawConfig) →
  patternsCompile (normalizeConfig rawConfig') →
  InventoryOk st →
  Forall (λ m, occurrences "|" (msg_id m) = 0)
         (prunableOf (normalizeConfig rawConfig) st messages) →
  sized (prunableOf (normalizeConfig rawConfig') st messages')
  = sized (prunableOf (normalizeConfig rawConfig) st messages) →
  ∃ r st1,
    getPrunableInventory messages rawConfig st = (Returned r, st1)
    ∧ getPrunableInventory messages' rawConfig' st1 = (Returned r, st1)
    ∧ r = entries (inventory st1)
    ∧ (λ e, (inv_id e, inv_messageID e)) <$> r
      = numbered (prunableOf (normalizeConfig rawConfig) st messages).
Proof.
  intros Hc Hc' Hok Hfree Hsame.
  destruct (getPrunableInventory_stable _ _ _ _ st Hc Hc' Hsame)
    as (r & st1 & Hrun & Hr & Hrun').
  destruct (getPrunableInventory_numbers messages rawConfig st Hc Hok Hfree)
    as (r' & st1' & Hrun2 & Hnum).
  rewrite Hrun in Hrun2. inversion Hrun2; subst r' st1'.
  by exists r, st1.
Qed.

Lemma getPrunableInventory_stable_numbers_witness :
  patternsCompile (normalizeConfig None)
  ∧ InventoryOk createState
  ∧ Forall (λ m, occurrences "|" (msg_id m) = 0)
           (prunableOf (normalizeConfig None) createState Examples.sweepSession)
  ∧ ∃ r st1,
      getPrunableInventory Examples.sweepSession None createState = (Returned r, st1)
      ∧ getPrunableInventory Examples.sweepSession None st1 = (Returned r, st1)
      ∧ r = entries (inventory st1)
      ∧ (λ e, (inv_id e, inv_messageID e)) <$> r
        = numbered (prunableOf (normalizeConfig None) createState Examples.sweepSession).
Proof.
  assert (patternsCompile (normalizeConfig None)) as H1 by constructor.
  assert (Forall (λ m, occurrences "|" (msg_id m) = 0)
            (prunableOf (normalizeConfig None) createState Examples.sweepSession)) as H2.
  { apply (bool_decide_unpack _). vm_compute. exact I. }
  split_and!; [exact H1|exact InventoryOk_createState|exact H2|].
  exact (getPrunableInventory_stable_numbers Examples.sweepSession None
           Examples.sweepSession None createState H1 H1 InventoryOk_createState H2
           eq_refl).
Defined.

(** C3 fails on the code when ids hold the separators of the signature.
    Session A is inventoried first; session B has other prunable
    messages, of the same number and with the same signature
    "a:1|b:2|c:3".  Two consecutive calls for session B then see an
    unchanged prunable set and return the same list — the cached list of
    session A, whose numeric ids lead to the messages "a" and "b:2|c",
    not to the prunable messages "a:1|b" and "c" of session B. *)
Lemma inventory_signature_collision :
  let config := normalizeConfig None in
  let callA := getPrunableInventory Examples.sessionA None createState in
  let callB := getPrunableInventory Examples.sessionB None callA.2 in
  let callB' := getPrunableInventory Examples.sessionB None callB.2 in
  InventoryOk callB.2
  ∧ sized (prunableOf config callB.2 Examples.sessionB)
    = sized (prunableOf config callA.2 Examples.sessionB)
  ∧ numbered (prunableOf config callB.2 Examples.sessionB)
    = [("1", "a:1|b"); ("2", "c")]
  ∧ callB'.1 = callB.1
  ∧ ∃ r, callB'.1 = Returned r
         ∧ (λ e, (inv_id e, inv_messageID e)) <$> r = [("1", "a"); ("2", "b:2|c")].
Proof.
  split_and!.
  - exists (toEntry <$> Examples.sessionA). vm_compute. reflexivity.
  - vm_compute. reflexivity.
  - vm_compute. reflexivity.
  - vm_compute. reflexivity.
  - eexists. split; vm_compute; reflexivity.
Qed.

End SignatureFacts.

(** ** What every call keeps true *)

Section EngineFacts.
Import Js Config State Core Tools Spec Engine.

Lemma bind_evolves {A B} (m : M A) (f : A → M B) st :
  evolves st (m st).2 →
  (∀ a st', evolves st' (f a st').2) →
  evolves st (bind m f st).2.
Proof.
  intros Hm Hf. unfold bind.
  destruct (m st) as [[a|e] st'] eqn:Hrun; simpl in *; [|done].
  etrans; [exact Hm|apply Hf].
Qed.

Lemma forEach_evolves {A B} (body : B → A → M B) :
  (∀ acc x st, evolves st (body acc x st).2) →
  ∀ l acc st, evolves st (forEach body l acc st).2.
Proof.
  intros Hbody l. induction l as [|x l IH]; intros acc st; [done|].
  apply bind_evolves; [apply Hbody|]. intros a st'. apply IH.
Qed.

Lemma mapM_evolves {A B} (f : A → M B) :
  (∀ x st, evolves st (f x st).2) →
  ∀ l st, evolves st (mapM f l st).2.
Proof.
  intros Hf l. induction l as [|x l IH]; intros st; [done|].
  apply bind_evolves; [apply Hf|]. intros y st'.
  apply bind_evolves; [apply IH|]. done.
Qed.

Lemma pruneByIDs_evolves messages rawConfig ids reason d now st :
  evolves st (pruneByIDs messages rawConfig ids reason d now st).2.
Proof.
  apply forEach_evolves. intros acc id st'. rewrite pruneStep_eq.
  destruct (messagesByID messages !! id) as [message|]; [|done].
  destruct (has (prunedByID st') id) eqn:Hhas; [done|].
  destruct (isProtectedMessage message _) as [[]|]; simpl; try done.
  apply rtc_once, mutation_record. by apply has_false.
Qed.

Lemma sweep_evolves messages rawConfig limit now st :
  evolves st (sweep messages rawConfig limit now st).2.
Proof.
  rewrite sweep_eq. cbv zeta.
  pose proof (collectSweepCandidates_readonly messages
                (asRaw (normalizeConfig rawConfig)) st) as Hro.
  destruct (collectSweepCandidates _ _ st) as [[candidates|e] st1];
    simpl in Hro; subst st1; [|done].
  pose proof (pruneByIDs_evolves messages (asRaw (normalizeConfig rawConfig))
                (capCandidates limit candidates) "sweep" None now st) as Hev.
  destruct (pruneByIDs _ _ _ _ _ _ st) as [[result|e] st2]; simpl in *; [|done].
  case_bool_decide; [|done].
  etrans; [exact Hev|]. apply rtc_once, mutation_sweep.
Qed.

Lemma getPrunableInventory_evolves messages rawConfig st :
  evolves st (getPrunableInventory messages rawConfig st).2.
Proof.
  rewrite getPrunableInventory_eq.
  destruct (forEach _ messages [] st) as [[entries|e] st1]; [|done].
  destruct (_ && _); simpl; [done|]. apply rtc_once, mutation_inventory.
Qed.

Lemma createTransformedView_evolves messages st :
  evolves st (createTransformedView messages st).2.
Proof.
  apply mapM_evolves. intros message st'. rewrite viewStep_eq. simpl.
  apply rtc_once, mutation_idMap.
Qed.

Lemma createDistillation_evolves messages messageIDs summary now st :
  evolves st (createDistillation messages messageIDs summary now st).2.
Proof.
  rewrite createDistillation_eq. simpl. apply rtc_once, mutation_distillation.
Qed.

Lemma summarizeView_evolves messages config st :
  evolves st (summarizeView messages config st).2.
Proof.
  apply bind_evolves; [apply createTransformedView_evolves|]. intros view st'.
  apply bind_evolves; [apply getPrunableInventory_evolves|]. done.
Qed.

Lemma distillStep_evolves messages config now acc target st :
  evolves st (distillStep messages config now acc target st).2.
Proof.
  rewrite distillStep_eq. cbv zeta.
  case_bool_decide; [done|].
  destruct (resolvedMessageIDs _) as [|messageID ?]; [done|].
  set (record := {| dr_id := _ |}).
  pose proof (pruneByIDs_evolves messages (asRaw config) [messageID] "distilled"
                (Some (dr_id record)) now (recordDistillation record st)) as Hev.
  assert (evolves st (recordDistillation record st)) as Hd
    by apply rtc_once, mutation_distillation.
  destruct (pruneByIDs _ _ _ _ _ _ _) as [[r|e] st2]; simpl in *; by etrans.
Qed.

Lemma dcp_distill_evolves config targets runtime now st :
  evolves st (dcp_distill config targets runtime now st).2.
Proof.
  apply bind_evolves; [apply getPrunableInventory_evolves|]. intros _ st1.
  apply bind_evolves; [apply forEach_evolves; intros; apply distillStep_evolves|].
  intros acc st2.
  apply bind_evolves; [apply summarizeView_evolves|]. done.
Qed.

Lemma dcp_prune_evolves config ids reason runtime now st :
  evolves st (PruneTool.dcp_prune config ids reason runtime now st).2.
Proof.
  apply bind_evolves; [apply getPrunableInventory_evolves|]. intros _ st1.
  cbv zeta. case_bool_decide.
  - apply bind_evolves; [apply sweep_evolves|]. intros r st2.
    apply bind_evolves; [apply summarizeView_evolves|]. done.
  - apply bind_evolves; [done|]. intros st2 st3.
    apply bind_evolves; [apply pruneByIDs_evolves|]. intros r st4.
    apply bind_evolves; [apply summarizeView_evolves|]. done.
Qed.

Lemma formatContext_evolves messages rawConfig st :
  evolves st (Commands.formatContext messages rawConfig st).2.
Proof.
  apply bind_evolves; [apply createTransformedView_evolves|]. intros view st1.
  apply bind_evolves; [apply getPrunableInventory_evolves|]. intros inv st2.
  apply bind_evolves; [done|]. intros raw st3.
  apply bind_evolves; [done|]. done.
Qed.

Lemma dcpCommand_evolves config rawInput runtime now st :
  evolves st (Commands.dcpCommand config rawInput runtime now st).2.
Proof.
  unfold Commands.dcpCommand. cbv zeta.
  destruct (negb _); [done|].
  repeat (case_bool_decide; [try done|]); try done.
  - apply formatContext_evolves.
  - apply bind_evolves; [apply sweep_evolves|]. done.
Qed.

Lemma run_evolves call now st : evolves st (run call now st).
Proof.
  destruct call; simpl.
  - apply pruneByIDs_evolves.
  - apply sweep_evolves.
  - apply getPrunableInventory_evolves.
  - apply createTransformedView_evolves.
  - apply (createDistillation_evolves messages).
  - apply dcp_prune_evolves.
  - apply dcp_distill_evolves.
  - apply dcpCommand_evolves.
Qed.

Lemma runs_evolves calls st : evolves st (runs calls st).
Proof.
  revert st. induction calls as [|[call now] calls IH]; intros st; [done|].
  simpl. etrans; [apply run_evolves|apply IH].
Qed.


(** *** The invariants of a mutation *)

Lemma charsOf_insert records id rec :
  records !! id = None →
  charsOf (<[id := rec]> records) = pr_chars rec + charsOf records.
Proof.
  intros Hfresh. unfold charsOf.
  apply (map_fold_insert_L (λ _ rec total, pr_chars rec + total)); [|done].
  intros. lia.
Qed.

Lemma mutation_CountersOk st st' : mutation st st' → CountersOk st → CountersOk st'.
Proof.
  intros Hm (Hn & Hc & Hd). destruct Hm; split_and!; simpl; try done.
  - rewrite map_size_insert_None by done. lia.
  - rewrite charsOf_insert by done. lia.
  - rewrite length_app. simpl. lia.
Qed.

Lemma foldl_insert_lookup (d : string) (l : list string) (m : gmap string string) k :
  foldl (λ acc s, <[s := d]> acc) m l !! k
  = if bool_decide (k ∈ l) then Some d else m !! k.
Proof.
  revert m. induction l as [|s l IH]; intros m; simpl; [done|].
  rewrite IH. destruct (decide (k ∈ l)) as [Hin|Hnin].
  - rewrite !bool_decide_true; [done|by right|done].
  - rewrite (bool_decide_false (k ∈ l)) by done.
    destruct (decide (k = s)) as [->|Hne].
    + rewrite lookup_insert_eq, bool_decide_true; [done|by left].
    + rewrite lookup_insert_ne by done. rewrite bool_decide_false; [done|].
      intros [?|?]%elem_of_cons; done.
Qed.

Lemma mutation_DistillationsOk st st' :
  mutation st st' → CountersOk st → DistillationsOk st → DistillationsOk st'.
Proof.
  intros Hm (_ & _ & Hd) [Hids Hsrc]. destruct Hm; try done.
  split; simpl.
  - intros i record [Hold|[Hi Hnew]]%lookup_app_Some; [by apply Hids|].
    apply list_lookup_singleton_Some in Hnew as [Hz <-]. simpl.
    rewrite Hd. do 2 f_equal. lia.
  - intros sourceID d. rewrite foldl_insert_lookup.
    case_bool_decide as Hin.
    + intros [= <-]. eexists. split; [apply elem_of_app; right; by left|]. done.
    + intros (record & Hrec & Hid & Hs)%Hsrc. exists record.
      split; [apply elem_of_app; by left|done].
Qed.

Lemma mutation_InventoryOk st st' : mutation st st' → InventoryOk st → InventoryOk st'.
Proof. intros Hm Hok. destruct Hm; try done. by eexists. Qed.

Lemma mutation_keeps st st' k rec :
  mutation st st' → prunedByID st !! k = Some rec → prunedByID st' !! k = Some rec.
Proof.
  intros Hm Hk. destruct Hm; try done. simpl.
  rewrite lookup_insert_ne; [done|]. intros ->. congruence.
Qed.

Lemma mutation_distillations st st' :
  mutation st st' → st_distillations st `prefix_of` st_distillations st'.
Proof. intros Hm. destruct Hm; try done. simpl. by apply prefix_app_r. Qed.

Lemma mutation_counters st st' :
  mutation st st' →
  prunedMessages (counters st) ≤ prunedMessages (counters st')
  ∧ prunedChars (counters st) ≤ prunedChars (counters st')
  ∧ distillations (counters st) ≤ distillations (counters st')
  ∧ sweeps (counters st) ≤ sweeps (counters st').
Proof. intros Hm. destruct Hm; simpl; lia. Qed.

Lemma evolves_ok st st' :
  evolves st st' →
  CountersOk st ∧ DistillationsOk st ∧ InventoryOk st →
  CountersOk st' ∧ DistillationsOk st' ∧ InventoryOk st'.
Proof.
  induction 1 as [|st st1 st2 Hm _ IH]; [done|]. intros (Hc & Hd & Hi).
  apply IH. split_and!.
  - by eapply mutation_CountersOk.
  - by eapply mutation_DistillationsOk.
  - by eapply mutation_InventoryOk.
Qed.

Lemma createState_ok :
  CountersOk createState ∧ DistillationsOk createState ∧ InventoryOk createState.
Proof.
  split_and!.
  - done.
  - split; [intros i record Hi; by destruct i|].
    intros sourceID d Hs. simpl in Hs. by rewrite lookup_empty in Hs.
  - by exists [].
Qed.

Lemma distillation_ids_NoDup st :
  DistillationsOk st → NoDup (dr_id <$> st_distillations st).
Proof.
  intros [Hids _]. apply NoDup_alt. intros i j id Hi Hj.
  apply list_lookup_fmap_Some in Hi as (ri & -> & Hri).
  apply list_lookup_fmap_Some in Hj as (rj & Heq & Hrj).
  rewrite (Hids _ _ Hri), (Hids _ _ Hrj) in Heq.
  apply (inj (String.app "dcp-distill-")) in Heq.
  apply (inj pretty) in Heq. lia.
Qed.

(** X2: from the fresh state, whatever calls are made in whatever order,
    and whether they return or throw, the counters say what the state
    holds, the distillations carry the ids dcp-distill-1, -2, ... in the
    order they were made (so no two share an id), the index by source id
    leads to distillations that name the source, and the inventory cache
    is one that [getPrunableInventory] built. *)
Theorem engine_invariant (calls : list (Call * Z)) :
  let st := runs calls createState in
  CountersOk st
  ∧ DistillationsOk st
  ∧ InventoryOk st
  ∧ NoDup (dr_id <$> st_distillations st).
Proof.
  intros st.
  destruct (evolves_ok createState st (runs_evolves calls createState) createState_ok)
    as (Hc & Hd & Hi).
  split_and!; [done..|]. by apply distillation_ids_NoDup.
Qed.

Lemma evolves_keeps st st' k rec :
  evolves st st' → prunedByID st !! k = Some rec → prunedByID st' !! k = Some rec.
Proof. induction 1; [done|]. intros Hk. eauto using mutation_keeps. Qed.

Lemma evolves_distillations st st' :
  evolves st st' → st_distillations st `prefix_of` st_distillations st'.
Proof.
  induction 1 as [|st st1 st2 Hm _ IH]; [done|].
  etrans; [by apply mutation_distillations|done].
Qed.

Lemma evolves_counters st st' :
  evolves st st' →
  prunedMessages (counters st) ≤ prunedMessages (counters st')
  ∧ prunedChars (counters st) ≤ prunedChars (counters st')
  ∧ distillations (counters st) ≤ distillations (counters st')
  ∧ sweeps (counters st) ≤ sweeps (counters st').
Proof.
  induction 1 as [|st st1 st2 Hm _ IH]; [lia|].
  apply mutation_counters in Hm. lia.
Qed.

(** X3: nothing is ever un-pruned.  A record, once made, is still there
    and unchanged after any later calls; distillations are only added
    at the end; no counter ever goes down. *)
Theorem records_are_permanent
    (calls : list (Call * Z)) (st : DcpState) (k : string) (rec : PrunedRecord) :
  prunedByID st !! k = Some rec →
  let st' := runs calls st in
  prunedByID st' !! k = Some rec
  ∧ st_distillations st `prefix_of` st_distillations st'
  ∧ prunedMessages (counters st) ≤ prunedMessages (counters st')
  ∧ prunedChars (counters st) ≤ prunedChars (counters st')
  ∧ distillations (counters st) ≤ distillations (counters st')
  ∧ sweeps (counters st) ≤ sweeps (counters st').
Proof.
  intros Hk st'. pose proof (runs_evolves calls st) as Hev. fold st' in Hev.
  split; [by eapply evolves_keeps|].
  split; [by apply evolves_distillations|]. by apply evolves_counters.
Qed.


Lemma records_are_permanent_witness :
  let rec := {| pr_reason := "manual"; pr_toolName := Some "bash"; pr_chars := 10;
                pr_at := 0; pr_distillationID := None |} in
  let calls := [ (Engine.Sweep Examples.smallSession None None, 5%Z);
                 (Engine.CreateTransformedView Examples.smallSession, 6%Z) ] in
  State.prunedByID Examples.smallPruned !! "t1" = Some rec
  ∧ State.prunedByID (Engine.runs calls Examples.smallPruned) !! "t1" = Some rec.
Proof.
  intros rec calls.
  assert (State.prunedByID Examples.smallPruned !! "t1" = Some rec) as H
    by (vm_compute; reflexivity).
  split; [exact H|].
  exact (proj1 (records_are_permanent calls Examples.smallPruned "t1" rec H)).
Defined.

End EngineFacts.

(** ** What a call of pruneByIDs or sweep adds up to *)

Section Accounting.
Import Js Config State Core Spec Engine.

Lemma prune_loop_spec byID config reason d now ids :
  ∀ acc st r st',
    forEach (pruneStep byID config reason d now) ids acc st = (Returned r, st') →
    missingIDs r = missingIDs acc ++ filter (λ id, byID !! id = None) ids
    ∧ (∃ prot,
         protectedIDs r = protectedIDs acc ++ prot
         ∧ ∀ id, id ∈ prot ↔
             id ∈ ids ∧ prunedByID st !! id = None
             ∧ ∃ m, byID !! id = Some m ∧ isProtectedMessage m config = Returned true)
    ∧ ∃ new,
        prunedIDs r = prunedIDs acc ++ new
        ∧ NoDup new
        ∧ (∀ id, id ∈ new ↔
             id ∈ ids ∧ prunedByID st !! id = None
             ∧ ∃ m, byID !! id = Some m ∧ isProtectedMessage m config = Returned false)
        ∧ (∀ id, id ∈ new →
             prunedByID st' !! id
             = (λ m, recordFor m reason d now) <$> byID !! id)
        ∧ (∀ id, id ∉ new → prunedByID st' !! id = prunedByID st !! id)
        ∧ prunedMessages (counters st') = prunedMessages (counters st) + length new
        ∧ prunedChars (counters st')
          = prunedChars (counters st) + sum_list (noted byID <$> new)
        ∧ idMap st' = idMap st
        ∧ distillationBySourceID st' = distillationBySourceID st
        ∧ st_distillations st' = st_distillations st
        ∧ inventory st' = inventory st
        ∧ distillations (counters st') = distillations (counters st)
        ∧ sweeps (counters st') = sweeps (counters st).
Proof.
  induction ids as [|id ids IH]; intros acc st r st' Hrun.
  { inversion Hrun; subst. split; [by rewrite app_nil_r|].
    split.
    - exists []. split; [by rewrite app_nil_r|]. intros id.
      split; [by intros ?%elem_of_nil|by intros [?%elem_of_nil _]].
    - exists []. rewrite app_nil_r. split; [done|]. split; [constructor|].
      split; [intros id; split; [by intros ?%elem_of_nil|by intros [?%elem_of_nil _]]|].
      split; [by intros id ?%elem_of_nil|]. split; [done|].
      simpl. repeat split; lia. }
  rewrite forEach_cons, pruneStep_eq in Hrun.
  destruct (byID !! id) as [message|] eqn:Hid.
  2:{ apply IH in Hrun as (Hmiss & (prot & Hprot & Hpiff) & new & Hnew & Hnd & Hiff & Hrest).
      simpl in *. split; [by rewrite filter_cons_True, Hmiss, <- app_assoc by done|].
      split.
      - exists prot. split; [done|]. intros k. rewrite Hpiff, elem_of_cons.
        split; [naive_solver|]. intros ([->|?] & ? & m & Hm & ?); [congruence|eauto].
      - exists new. split_and!; try done; try apply Hrest.
        intros k. rewrite Hiff, elem_of_cons.
        split; [naive_solver|]. intros ([->|?] & ? & m & Hm & ?); [congruence|eauto]. }
  destruct (has (prunedByID st) id) eqn:Hhas.
  { apply has_true in Hhas as [rec0 Hrec0].
    apply IH in Hrun as (Hmiss & (prot & Hprot & Hpiff) & new & Hnew & Hnd & Hiff & Hrest).
    split; [by rewrite filter_cons_False by (rewrite Hid; done)|].
    split.
    - exists prot. split; [done|]. intros k. rewrite Hpiff, elem_of_cons.
      split; [naive_solver|]. intros ([->|?] & ? & ?); [congruence|eauto].
    - exists new. split_and!; try done; try apply Hrest.
      intros k. rewrite Hiff, elem_of_cons.
      split; [naive_solver|]. intros ([->|?] & ? & ?); [congruence|eauto]. }
  apply has_false in Hhas.
  destruct (isProtectedMessage message config) as [[]|e] eqn:Hprotected; [| |done].
  - apply IH in Hrun as (Hmiss & (prot & Hprot & Hpiff) & new & Hnew & Hnd & Hiff & Hrest).
    simpl in *.
    split; [by rewrite filter_cons_False by (rewrite Hid; done)|].
    split.
    + exists (id :: prot). split; [by rewrite Hprot, <- app_assoc|].
      intros k. rewrite !elem_of_cons, Hpiff.
      split; [intros [->|?]; [eauto 8|naive_solver]|].
      intros ([->|?] & ? & ?); eauto.
    + exists new. split_and!; try done; try apply Hrest.
      intros k. rewrite Hiff, elem_of_cons.
      split; [naive_solver|].
      intros ([->|?] & ? & m & Hm & Hf); [congruence|eauto].
  - apply IH in Hrun as (Hmiss & (prot & Hprot & Hpiff) & new & Hnew & Hnd & Hiff
                         & Hin & Hout & Hn & Hc & Hrest).
    simpl in *.
    assert (id ∉ new) as Hfresh.
    { rewrite Hiff. intros (_ & Hnone & _). by rewrite lookup_insert_eq in Hnone. }
    split; [by rewrite filter_cons_False by (rewrite Hid; done)|].
    split.
    + exists prot. split; [done|]. intros k. rewrite Hpiff, elem_of_cons.
      split.
      * intros (? & Hnone & ?). destruct (decide (k = id)) as [->|Hne];
          [by rewrite lookup_insert_eq in Hnone|].
        rewrite lookup_insert_ne in Hnone by done. eauto.
      * intros ([->|?] & Hnone & m & Hm & Hf); [congruence|].
        split; [done|]. split; [|eauto].
        rewrite lookup_insert_ne; [done|]. intros ->. congruence.
    + exists (id :: new). split_and!; try apply Hrest.
      * by rewrite Hnew, <- app_assoc.
      * by constructor.
      * intros k. rewrite !elem_of_cons, Hiff. split.
        -- intros [->|(? & Hnone & ?)]; [eauto 8|].
           destruct (decide (k = id)) as [->|Hne];
             [by rewrite lookup_insert_eq in Hnone|].
           rewrite lookup_insert_ne in Hnone by done. eauto.
        -- intros ([->|?] & Hnone & Hm); [by left|].
           destruct (decide (k = id)) as [->|Hne]; [by left|]. right.
           split; [done|]. by rewrite lookup_insert_ne.
      * intros k [->|Hk]%elem_of_cons; [|by apply Hin].
        rewrite Hout, lookup_insert_eq, Hid by done. done.
      * intros k [Hne Hk]%not_elem_of_cons.
        rewrite Hout, lookup_insert_ne by done. done.
      * simpl. lia.
      * rewrite Hc, fmap_cons. unfold noted at 2. rewrite Hid.
        cbn [sum_list_with sum_list from_option]. unfold Datatypes.id. lia.
Qed.

(** X4: what a returning call of [pruneByIDs] does, in full.  The
    missing ids are the requested ids that no message carries, in the
    order and number requested.  An id is reported protected exactly
    when it was requested, had no record and its message is protected.
    An id is reported pruned, once, exactly when it was requested, had
    no record and its message is unprotected; it then has the record
    made from its message, the reason, the distillation id and the
    clock.  Every other record is as before, the two prune counters grow
    by the number and the characters of the newly pruned messages, and
    nothing else in the state changes. *)
Theorem pruneByIDs_accounting
    (messages : list DcpMessage) (rawConfig : option RawConfig)
    (ids : list string) (reason : string) (distillationID : option string)
    (now : Z) (st st' : DcpState) (r : PruneResult) :
  pruneByIDs messages rawConfig ids reason distillationID now st = (Returned r, st') →
  let byID := messagesByID messages in
  let config := normalizeConfig rawConfig in
  missingIDs r = filter (λ id, byID !! id = None) ids
  ∧ (∀ id, id ∈ protectedIDs r ↔
       id ∈ ids ∧ prunedByID st !! id = None
       ∧ ∃ m, byID !! id = Some m ∧ isProtectedMessage m config = Returned true)
  ∧ NoDup (prunedIDs r)
  ∧ (∀ id, id ∈ prunedIDs r ↔
       id ∈ ids ∧ prunedByID st !! id = None
       ∧ ∃ m, byID !! id = Some m ∧ isProtectedMessage m config = Returned false)
  ∧ (∀ id, id ∈ prunedIDs r →
       prunedByID st' !! id
       = (λ m, recordFor m reason distillationID now) <$> byID !! id)
  ∧ (∀ id, id ∉ prunedIDs r → prunedByID st' !! id = prunedByID st !! id)
  ∧ prunedMessages (counters st')
    = prunedMessages (counters st) + length (prunedIDs r)
  ∧ prunedChars (counters st')
    = prunedChars (counters st) + sum_list (noted byID <$> prunedIDs r)
  ∧ idMap st' = idMap st
  ∧ distillationBySourceID st' = distillationBySourceID st
  ∧ st_distillations st' = st_distillations st
  ∧ inventory st' = inventory st
  ∧ distillations (counters st') = distillations (counters st)
  ∧ sweeps (counters st') = sweeps (counters st).
Proof.
  intros Hrun byID config.
  apply prune_loop_spec in Hrun
    as (Hmiss & (prot & Hprot & Hpiff) & new & Hnew & Hrest).
  simpl in Hmiss, Hprot, Hnew. subst prot new.
  split; [done|]. split; [done|]. exact Hrest.
Qed.

Lemma pruneByIDs_accounting_witness :
  let run := pruneByIDs Examples.protectedSession Examples.protectingConfig
               ["t1"; "t3"; "zz"; "t3"] "manual" None 7 createState in
  let r := {| prunedIDs := ["t3"]; protectedIDs := ["t1"]; missingIDs := ["zz"] |} in
  run = (Returned r, run.2)
  ∧ prunedMessages (counters run.2)
    = prunedMessages (counters createState) + length (prunedIDs r).
Proof.
  intros run r.
  assert (run = (Returned r, run.2)) as H by (vm_compute; reflexivity).
  split; [exact H|].
  pose proof (pruneByIDs_accounting _ _ _ _ _ _ _ _ _ H) as Hacc. cbv zeta in Hacc.
  exact (proj1 (proj2 (proj2 (proj2 (proj2 (proj2 (proj2 Hacc))))))).
Defined.

(** *** sweep *)

Lemma filter_none {A} (P : A → Prop) `{∀ x, Decision (P x)} (l : list A) :
  (∀ x, x ∈ l → ¬ P x) → filter P l = [].
Proof.
  induction l as [|x l IH]; intros Hl; [done|].
  rewrite filter_cons_False by (apply Hl; left).
  apply IH. intros y Hy. apply Hl. by right.
Qed.

Lemma collectSweepCandidates_eq messages rawConfig st :
  patternsCompile (normalizeConfig rawConfig) →
  collectSweepCandidates messages rawConfig st
  = (Returned (msg_id <$> filter (Prunable (normalizeConfig rawConfig) st)
                 (drop (Z.to_nat (lastUserIndex messages + 1)) messages)), st).
Proof. intros Hc. unfold collectSweepCandidates. by rewrite collect_loop. Qed.

Lemma capCandidates_nil limit : capCandidates limit [] = [].
Proof. apply sublist_nil_r, capCandidates_sublist. Qed.

(** X5: a sweep leaves nothing for the next one.  For messages with
    unique ids and patterns that compile, an unlimited sweep returns, and
    any sweep of the same messages right after it finds no candidate,
    prunes nothing, and leaves the state, the sweep counter included, as
    it is. *)
Theorem sweep_settles
    (messages : list DcpMessage) (rawConfig : option RawConfig)
    (now : Z) (st : DcpState) :
  NoDup (msg_id <$> messages) →
  patternsCompile (normalizeConfig rawConfig) →
  ∃ r1 st1,
    sweep messages rawConfig None now st = (Returned r1, st1)
    ∧ ∀ limit now',
        sweep messages rawConfig limit now' st1
        = (Returned {| sw_prunedIDs := []; sw_protectedIDs := [];
                       sw_missingIDs := []; candidateCount := 0;
                       usedLimit := if limitApplies limit then limit else None |},
           st1).
Proof.
  intros Hnd Hc.
  destruct (sweep_prunes messages rawConfig None now st Hnd Hc)
    as (candidates & st1 & Hcoll & Hrun & Hrec).
  eexists _, st1. split; [exact Hrun|]. intros limit now'.
  rewrite collectSweepCandidates_eq in Hcoll by done.
  injection Hcoll as Hcand.
  rewrite sweep_eq. cbv zeta.
  rewrite collectSweepCandidates_asRaw, collectSweepCandidates_eq by done.
  rewrite filter_none; [by rewrite capCandidates_nil|].
  intros m Hm (Htool & Hnone & Hunprot).
  assert (is_Some (prunedByID st1 !! msg_id m)) as [rec Hsome]; [|congruence].
  apply Hrec. destruct (prunedByID st !! msg_id m) eqn:Hold; [left; eauto|right].
  change (capCandidates None candidates) with candidates. rewrite <- Hcand.
  apply list_elem_of_fmap. exists m. split; [done|].
  apply list_elem_of_filter. split; [|done]. by split_and!.
Qed.

Lemma sweep_settles_witness :
  NoDup (msg_id <$> Examples.sweepSession)
  ∧ patternsCompile (normalizeConfig None)
  ∧ ∃ r1 st1,
      sweep Examples.sweepSession None None 1 createState = (Returned r1, st1)
      ∧ ∀ limit now',
          sweep Examples.sweepSession None limit now' st1
          = (Returned {| sw_prunedIDs := []; sw_protectedIDs := [];
                         sw_missingIDs := []; candidateCount := 0;
                         usedLimit := if limitApplies limit then limit else None |},
             st1).
Proof.
  assert (NoDup (msg_id <$> Examples.sweepSession)) as H1
    by (apply (bool_decide_unpack _); vm_compute; exact I).
  assert (patternsCompile (normalizeConfig None)) as H2 by constructor.
  split; [exact H1|]. split; [exact H2|].
  exact (sweep_settles Examples.sweepSession None 1 createState H1 H2).
Defined.

(** X6: what a returning sweep adds up to.  The candidate count is the
    number of candidates collected; every pruned id is one of the capped
    candidates and is listed once, so a whole limit [n > 0] is never
    exceeded; the sweep counter goes up by one exactly when something was
    pruned, and the message counter by the number of pruned ids. *)
Theorem sweep_accounting
    (messages : list DcpMessage) (rawConfig : option RawConfig)
    (limit : option number) (now : Z) (st st' : DcpState) (r : SweepResult) :
  sweep messages rawConfig limit now st = (Returned r, st') →
  ∃ candidates,
    collectSweepCandidates messages rawConfig st = (Returned candidates, st)
    ∧ candidateCount r = length candidates
    ∧ usedLimit r = (if limitApplies limit then limit else None)
    ∧ (∀ id, id ∈ sw_prunedIDs r → id ∈ capCandidates limit candidates)
    ∧ NoDup (sw_prunedIDs r)
    ∧ length (sw_prunedIDs r) ≤ length candidates
    ∧ (∀ n, 0 < n → limit = Some (Finite (Z.of_nat n # 1)) →
            length (sw_prunedIDs r) ≤ n)
    ∧ sweeps (counters st')
      = sweeps (counters st) + (if bool_decide (sw_prunedIDs r = []) then 0 else 1)
    ∧ prunedMessages (counters st')
      = prunedMessages (counters st) + length (sw_prunedIDs r).
Proof.
  rewrite sweep_eq. cbv zeta. rewrite collectSweepCandidates_asRaw.
  pose proof (collectSweepCandidates_readonly messages rawConfig st) as Hro.
  destruct (collectSweepCandidates messages rawConfig st) as [[candidates|e] st1];
    simpl in Hro; subst st1; [|done].
  rewrite pruneByIDs_asRaw.
  destruct (pruneByIDs _ _ _ _ _ _ st) as [[result|e] st2] eqn:Hprune; [|done].
  intros [= <- <-]. exists candidates. simpl.
  apply prune_loop_spec in Hprune
    as (_ & _ & new & Hnew & Hnd & Hiff & _ & _ & Hn & _ & _ & _ & _ & _ & _ & Hs).
  simpl in Hnew. subst new.
  assert (∀ id, id ∈ prunedIDs result → id ∈ capCandidates limit candidates) as Hsub.
  { intros id Hid. by apply Hiff in Hid as [? _]. }
  assert (length (prunedIDs result) ≤ length (capCandidates limit candidates)) as Hle.
  { apply submseteq_length, NoDup_submseteq; done. }
  split_and!; try done.
  - pose proof (sublist_length _ _ (capCandidates_sublist limit candidates)). lia.
  - intros n Hpos ->. rewrite capCandidates_whole in Hle by done.
    unfold lastN in Hle. rewrite length_drop in Hle. lia.
  - destruct (prunedIDs result) as [|id ids] eqn:Hids; simpl; rewrite Hs; lia.
  - destruct (prunedIDs result) as [|id ids] eqn:Hids; simpl; simpl in Hn; lia.
Qed.

Lemma sweep_accounting_witness :
  let run := sweep Examples.sweepSession None (Some (Finite (2 # 1))) 3 createState in
  let r := {| sw_prunedIDs := ["t4"; "t5"]; sw_protectedIDs := [];
              sw_missingIDs := []; candidateCount := 3;
              usedLimit := Some (Finite (2 # 1)) |} in
  run = (Returned r, run.2)
  ∧ ∃ candidates,
      collectSweepCandidates Examples.sweepSession None createState
      = (Returned candidates, createState)
      ∧ candidateCount r = length candidates.
Proof.
  intros run r.
  assert (run = (Returned r, run.2)) as H by (vm_compute; reflexivity).
  split; [exact H|].
  destruct (sweep_accounting _ _ _ _ _ _ _ H) as (candidates & Hc & Hn & _).
  by exists candidates.
Defined.

End Accounting.

(** ** The id map of the view, and the inventory as a lookup table *)

Section ViewInventory.
Import Js Config State Core Spec Engine.

Lemma mapM_cons {A B} (f : A → M B) x l st :
  mapM f (x :: l) st =
  match f x st with
  | (Returned y, st1) =>
      match mapM f l st1 with
      | (Returned ys, st2) => (Returned (y :: ys), st2)
      | (Threw e, st2) => (Threw e, st2)
      end
  | (Threw e, st1) => (Threw e, st1)
  end.
Proof.
  simpl. unfold bind at 1. destruct (f x st) as [[y|e] st1]; [|done].
  unfold bind at 1. by destruct (mapM f l st1) as [[ys|e] st2].
Qed.

Lemma mapM_cons_state {A B} (f : A → M B) x l st :
  (mapM f (x :: l) st).2 =
  match f x st with
  | (Returned y, st1) => (mapM f l st1).2
  | (Threw e, st1) => st1
  end.
Proof.
  rewrite mapM_cons. destruct (f x st) as [[y|e] st1]; [|done].
  by destruct (mapM f l st1) as [[ys|e] st2].
Qed.

Lemma createTransformedView_idMap messages :
  ∀ st id,
    idMap (createTransformedView messages st).2 !! id
    = if bool_decide (id ∈ msg_id <$> messages)
      then Some (viewEntry st id) else idMap st !! id.
Proof.
  unfold createTransformedView.
  induction messages as [|m messages IH]; intros st id; [done|].
  rewrite mapM_cons_state, viewStep_eq, IH, fmap_cons.
  destruct (decide (id ∈ msg_id <$> messages)) as [Hin|Hnin].
  { rewrite (bool_decide_true (id ∈ msg_id <$> messages)) by done.
    by rewrite (bool_decide_true (id ∈ _ :: _)) by (by right). }
  rewrite (bool_decide_false (id ∈ msg_id <$> messages)) by done. simpl.
  destruct (decide (id = msg_id m)) as [->|Hne].
  - rewrite lookup_insert_eq, (bool_decide_true (_ ∈ _ :: _)); [done|by left].
  - rewrite lookup_insert_ne by done.
    rewrite (bool_decide_false (_ ∈ _ :: _)); [done|].
    by intros [?|?]%elem_of_cons.
Qed.

Lemma prunedView_again message rec :
  prunedView (prunedView message rec) rec = prunedView message rec.
Proof. reflexivity. Qed.

Lemma setIdMap_id id entry st :
  idMap st !! id = Some entry → setIdMap id entry st = st.
Proof. intros H. destruct st. unfold setIdMap. simpl in *. by rewrite insert_id. Qed.

Lemma view_loop_again messages :
  ∀ st,
    (∀ m, m ∈ messages → idMap st !! msg_id m = Some (viewEntry st (msg_id m))) →
    mapM viewStep
      ((λ message, match prunedByID st !! msg_id message with
                   | None => message
                   | Some rec => prunedView message rec
                   end) <$> messages) st
    = (Returned ((λ message, match prunedByID st !! msg_id message with
                             | None => message
                             | Some rec => prunedView message rec
                             end) <$> messages), st).
Proof.
  induction messages as [|m messages IH]; intros st Hmap; [done|].
  rewrite fmap_cons, mapM_cons, viewStep_eq.
  assert (msg_id (match prunedByID st !! msg_id m with
                  | None => m
                  | Some rec => prunedView m rec
                  end) = msg_id m) as Hid
    by (by destruct (prunedByID st !! msg_id m)).
  rewrite Hid, setIdMap_id by (apply Hmap; left).
  rewrite IH by (intros m' Hm'; apply Hmap; by right).
  by destruct (prunedByID st !! msg_id m).
Qed.

(** X7: the id map after a view, and the view of a view.  After
    [createTransformedView], the id map holds for the id of every message
    of the list the entry [{ originalID: id, transformedID: id, pruned }]
    with [pruned] telling whether the id has a record, and every other
    entry is as before.  Transforming the view once more returns the same
    view and leaves the state as it is. *)
Theorem transformed_view_idMap (messages : list DcpMessage) (st : DcpState) :
  ∃ view st',
    createTransformedView messages st = (Returned view, st')
    ∧ (∀ id, idMap st' !! id
             = if bool_decide (id ∈ msg_id <$> messages)
               then Some {| originalID := id; transformedID := id;
                            pruned := bool_decide (is_Some (prunedByID st !! id)) |}
               else idMap st !! id)
    ∧ createTransformedView view st' = (Returned view, st').
Proof.
  destruct (createTransformedView_spec messages st)
    as (view & st' & Hrun & (Hpr & _) & Hview).
  exists view, st'. split; [done|].
  assert (∀ id, idMap st' !! id
                = if bool_decide (id ∈ msg_id <$> messages)
                  then Some (viewEntry st id) else idMap st !! id) as Hmap.
  { intros id. rewrite <- (createTransformedView_idMap messages st id).
    by rewrite Hrun. }
  split; [exact Hmap|].
  unfold createTransformedView. rewrite Hview, <- Hpr.
  apply view_loop_again. intros m Hm. rewrite Hmap, bool_decide_true.
  - unfold viewEntry. by rewrite Hpr.
  - apply list_elem_of_fmap. eauto.
Qed.

(** *** The inventory as a lookup table *)

Lemma foldl_insert_keys {E} (key value : E → string) (l : list E) :
  NoDup (key <$> l) →
  ∀ id x,
    foldl (λ acc e, <[key e := value e]> acc) (∅ : gmap string string) l !! id = Some x
    ↔ ∃ e, e ∈ l ∧ key e = id ∧ value e = x.
Proof.
  induction l as [|e l IH] using rev_ind; intros Hnd id x.
  { simpl. rewrite lookup_empty. split; [done|]. by intros (e & ?%elem_of_nil & _). }
  rewrite fmap_app in Hnd. apply NoDup_app in Hnd as (Hl & Hfresh & _).
  rewrite foldl_app. simpl. destruct (decide (key e = id)) as [<-|Hne].
  - rewrite lookup_insert_eq. split.
    + intros [= <-]. exists e. split; [apply elem_of_app; right; by left|done].
    + intros (e' & [Hin|Hin%list_elem_of_singleton]%elem_of_app & Hk & <-).
      * exfalso. apply (Hfresh (key e)); [|simpl; by left].
        apply list_elem_of_fmap. eauto.
      * by subst.
  - rewrite lookup_insert_ne by done. rewrite IH by done. split.
    + intros (e' & ? & ? & ?). exists e'. split; [apply elem_of_app; by left|done].
    + intros (e' & [Hin|Hin%list_elem_of_singleton]%elem_of_app & Hk & <-);
        [eauto|]. by subst.
Qed.

Lemma numberEntry_ids_NoDup entries : NoDup (inv_id <$> imap numberEntry entries).
Proof.
  apply NoDup_alt. intros i j id Hi Hj.
  apply list_lookup_fmap_Some in Hi as (ei & -> & Hi).
  apply list_lookup_fmap_Some in Hj as (ej & Heq & Hj).
  apply list_lookup_imap_Some in Hi as (xi & _ & ->).
  apply list_lookup_imap_Some in Hj as (xj & _ & ->).
  simpl in Heq. apply (inj pretty) in Heq. lia.
Qed.

Lemma numericToMessageID_spec st id mid :
  InventoryOk st →
  numericToMessageID (inventory st) !! id = Some mid
  ↔ ∃ entry, entry ∈ State.entries (inventory st)
             ∧ inv_id entry = id ∧ inv_messageID entry = mid.
Proof.
  intros [entries ->]. simpl.
  apply (foldl_insert_keys inv_id inv_messageID), numberEntry_ids_NoDup.
Qed.

Lemma numericToMessageID_find st id :
  InventoryOk st →
  numericToMessageID (inventory st) !! id
  = (λ found, inv_messageID found.2)
      <$> list_find (λ entry, inv_id entry = id) (State.entries (inventory st)).
Proof.
  intros Hok.
  destruct (list_find _ _) as [[i entry]|] eqn:Hfind; simpl.
  - apply list_find_Some in Hfind as (Hi & Hid & _).
    apply numericToMessageID_spec; [done|]. exists entry.
    split; [by eapply list_elem_of_lookup_2|done].
  - apply eq_None_not_Some. intros [mid Hmid].
    apply numericToMessageID_spec in Hmid as (entry & Hin & Hid & _); [|done].
    apply list_find_None in Hfind. rewrite Forall_forall in Hfind.
    by apply (Hfind entry).
Qed.

Lemma entryMessageID_map st id :
  InventoryOk st →
  entryMessageID st id
  = match numericToMessageID (inventory st) !! id with
    | Some messageID => if bool_decide (messageID = "") then None else Some messageID
    | None => None
    end.
Proof.
  intros Hok. rewrite numericToMessageID_find by done. unfold entryMessageID.
  by destruct (list_find _ _) as [[i entry]|].
Qed.

Lemma resolve_loop st ids :
  InventoryOk st →
  ∀ acc,
    foldl (λ acc id,
             match numericToMessageID (inventory st) !! id with
             | Some messageID =>
                 if bool_decide (messageID = "")
                 then {| resolvedMessageIDs := resolvedMessageIDs acc;
                         rr_missingIDs := rr_missingIDs acc ++ [id] |}
                 else {| resolvedMessageIDs := resolvedMessageIDs acc ++ [messageID];
                         rr_missingIDs := rr_missingIDs acc |}
             | None =>
                 {| resolvedMessageIDs := resolvedMessageIDs acc;
                    rr_missingIDs := rr_missingIDs acc ++ [id] |}
             end) acc ids
    = {| resolvedMessageIDs := resolvedMessageIDs acc ++ omap (entryMessageID st) ids;
         rr_missingIDs :=
           rr_missingIDs acc ++ filter (λ id, entryMessageID st id = None) ids |}.
Proof.
  intros Hok. induction ids as [|id ids IH]; intros acc.
  { simpl. rewrite !app_nil_r. by destruct acc. }
  simpl foldl. rewrite IH. clear IH.
  assert (match numericToMessageID (inventory st) !! id with
          | Some messageID => if bool_decide (messageID = "") then None else Some messageID
          | None => None
          end = entryMessageID st id) as Hentry.
  { by rewrite entryMessageID_map. }
  destruct (numericToMessageID (inventory st) !! id) as [messageID|].
  - case_bool_decide; simpl.
    + rewrite filter_cons_True by done. simpl. rewrite <- Hentry.
      by rewrite <- !app_assoc.
    + rewrite filter_cons_False by (rewrite <- Hentry; done). simpl.
      rewrite <- Hentry. by rewrite <- !app_assoc.
  - simpl. rewrite filter_cons_True by done. simpl. rewrite <- Hentry.
    by rewrite <- !app_assoc.
Qed.

(** X8: numeric ids are resolved through the inventory list.  From the
    fresh state on, the map from numeric ids agrees with the cached
    list: [resolveInventoryMessageIDs] turns each id, in order, into the
    message id of the list entry with that numeric id, and reports as
    missing, in order, the ids that no entry has or whose entry has an
    empty message id.  Resolving the ids of the whole list gives back its
    message ids when none of them is empty. *)
Theorem inventory_ids_resolve (st : DcpState) (ids : list string) :
  InventoryOk st →
  let inv := State.entries (inventory st) in
  resolveInventoryMessageIDs st ids
  = {| resolvedMessageIDs := omap (entryMessageID st) ids;
       rr_missingIDs := filter (λ id, entryMessageID st id = None) ids |}
  ∧ (∀ i entry, inv !! i = Some entry →
       inv_id entry = pretty (i + 1)
       ∧ (inv_messageID entry ≠ "" →
          entryMessageID st (inv_id entry) = Some (inv_messageID entry)))
  ∧ (Forall (λ entry, inv_messageID entry ≠ "") inv →
     resolveInventoryMessageIDs st (inv_id <$> inv)
     = {| resolvedMessageIDs := inv_messageID <$> inv; rr_missingIDs := [] |}).
Proof.
  intros Hok inv.
  assert (∀ ids', resolveInventoryMessageIDs st ids'
                  = {| resolvedMessageIDs := omap (entryMessageID st) ids';
                       rr_missingIDs :=
                         filter (λ id, entryMessageID st id = None) ids' |}) as Hres.
  { intros ids'. unfold resolveInventoryMessageIDs. by rewrite resolve_loop. }
  assert (∀ entry, entry ∈ inv → inv_messageID entry ≠ "" →
                   entryMessageID st (inv_id entry) = Some (inv_messageID entry))
    as Hentry.
  { intros entry Hin Hne.
    assert (numericToMessageID (inventory st) !! inv_id entry
            = Some (inv_messageID entry)) as Hmap.
    { apply numericToMessageID_spec; [done|]. by exists entry. }
    rewrite numericToMessageID_find in Hmap by done. unfold entryMessageID.
    fold inv in Hmap |- *.
    destruct (list_find _ inv) as [[i found]|]; [|done].
    simpl in Hmap. injection Hmap as Hmap. rewrite Hmap.
    by rewrite bool_decide_false. }
  split; [apply Hres|]. split.
  - intros i entry Hi. split.
    + destruct Hok as [entries Hinv]. subst inv. rewrite Hinv in Hi. simpl in Hi.
      by apply list_lookup_imap_Some in Hi as (x & _ & ->).
    + apply Hentry. by eapply list_elem_of_lookup_2.
  - intros Hall. rewrite Hres. rewrite Forall_forall in Hall. f_equal.
    + clear Hres. induction inv as [|entry inv' IH]; [done|].
      simpl. rewrite Hentry; [|by left|apply Hall; by left]. simpl. f_equal.
      apply IH.
      * intros e He. apply Hentry. by right.
      * intros e He. apply Hall. by right.
    + apply filter_none. intros id (entry & -> & Hin)%list_elem_of_fmap.
      rewrite Hentry; [done|done|by apply Hall].
Qed.

Lemma inventory_ids_resolve_witness :
  let st := (getPrunableInventory Examples.sweepSession None createState).2 in
  InventoryOk st
  ∧ resolveInventoryMessageIDs st ["2"; "9"; "1"]
    = {| resolvedMessageIDs := omap (entryMessageID st) ["2"; "9"; "1"];
         rr_missingIDs := filter (λ id, entryMessageID st id = None) ["2"; "9"; "1"] |}.
Proof.
  intros st.
  assert (InventoryOk st) as H.
  { exists (toEntry <$> filter (Prunable (normalizeConfig None) createState)
                      Examples.sweepSession).
    vm_compute. reflexivity. }
  split; [exact H|].
  exact (proj1 (inventory_ids_resolve st ["2"; "9"; "1"] H)).
Defined.

End ViewInventory.

(** ** Distillations and the targets of the distill tool *)

Section ToolFacts.
Import Js Config State Core Tools Spec Engine.

(** X9: a distillation is recorded under a fresh id and does not prune.
    In a state whose counters say what it holds, [createDistillation]
    returns the record it appends; its id is dcp-distill-N for N one more
    than the number of distillations so far, which no earlier
    distillation has; afterwards every source id given leads to this id
    in the index by source, every other source is as before, and no
    message has been pruned. *)
Theorem createDistillation_fresh
    (messages : list DcpMessage) (messageIDs : list string) (summary : string)
    (now : Z) (st : DcpState) :
  CountersOk st →
  DistillationsOk st →
  ∃ record st',
    createDistillation messages messageIDs summary now st = (Returned record, st')
    ∧ record = {| dr_id := "dcp-distill-" +:+ pretty (length (st_distillations st) + 1);
                  dr_sourceMessageIDs := messageIDs;
                  dr_summary := summary;
                  dr_at := now |}
    ∧ (dr_id record ∉ dr_id <$> st_distillations st)
    ∧ st_distillations st' = st_distillations st ++ [record]
    ∧ distillations (counters st') = length (st_distillations st')
    ∧ (∀ sourceID,
         distillationBySourceID st' !! sourceID
         = if bool_decide (sourceID ∈ messageIDs) then Some (dr_id record)
           else distillationBySourceID st !! sourceID)
    ∧ prunedByID st' = prunedByID st.
Proof.
  intros (_ & _ & Hd) [Hids _]. rewrite createDistillation_eq. cbv zeta.
  eexists _, _. split; [done|]. rewrite Hd. split; [done|]. simpl.
  split_and!; try done.
  - intros (record & Heq & Hin)%list_elem_of_fmap.
    apply list_elem_of_lookup in Hin as [i Hi].
    pose proof (lookup_lt_Some _ _ _ Hi) as Hlt.
    rewrite (Hids _ _ Hi) in Heq.
    apply (inj (String.app "dcp-distill-")) in Heq.
    apply (inj pretty) in Heq. lia.
  - rewrite length_app. simpl. lia.
  - intros sourceID. apply foldl_insert_lookup.
Qed.

Lemma createDistillation_fresh_witness :
  CountersOk createState
  ∧ DistillationsOk createState
  ∧ ∃ record st',
      createDistillation Examples.distillSession ["t1"] "summary" 4 createState
      = (Returned record, st')
      ∧ dr_id record = "dcp-distill-1".
Proof.
  destruct createState_ok as (Hc & Hd & _).
  split; [exact Hc|]. split; [exact Hd|].
  destruct (createDistillation_fresh Examples.distillSession ["t1"] "summary" 4
              createState Hc Hd) as (record & st' & Hrun & Hrec & _).
  exists record, st'. split; [exact Hrun|]. by rewrite Hrec.
Defined.

(** *** normalizeTargets *)


(** X10: the targets of a distill request.  [normalizeTargets] keeps one
    target per usable id: the ids of the result are non-empty and
    pairwise distinct, every non-empty string id of the request is among
    them, each target comes from the first request item with its id (a
    later item with the same id is dropped, text included), and no
    target has an empty summary. *)
Theorem normalizeTargets_distinct (value : option (list (option RawTarget))) :
  let targets := normalizeTargets value in
  NoDup (t_id <$> targets)
  ∧ (∀ target, target ∈ targets →
       t_id target ≠ "" ∧ t_distillation target ≠ ""
       ∧ ∃ items before raw after,
           value = Some items
           ∧ items = before ++ Some raw :: after
           ∧ rt_id raw = Some (t_id target)
           ∧ t_distillation target = targetDistillation raw
           ∧ ∀ raw', Some raw' ∈ before → rt_id raw' ≠ Some (t_id target))
  ∧ (∀ items raw id, value = Some items → Some raw ∈ items → rt_id raw = Some id →
       id ≠ "" → id ∈ t_id <$> targets).
Proof.
  destruct value as [items|]; simpl.
  - destruct (normalizeTargets_loop_spec items ∅) as (Hnd & Hsrc & Hall).
    split; [done|]. split.
    + intros target Hin.
      destruct (Hsrc target Hin) as (_ & Hne & before & raw & after & Hitems & Hr & Hd & Hb).
      split; [done|]. split; [rewrite Hd; apply targetDistillation_nonempty|].
      by exists items, before, raw, after.
    + intros items' raw id [= <-] Hin Hr Hne. eapply Hall; [done..|set_solver].
  - split; [constructor|]. split; [by intros ? ?%elem_of_nil|]. by intros.
Qed.

End ToolFacts.

(** ** The prune tool and the summary of the view *)

Section PruneToolFacts.
Import Js Config State Core Tools Spec Engine.

Lemma getPrunableInventory_asRaw messages rawConfig :
  getPrunableInventory messages (asRaw (normalizeConfig rawConfig))
  = getPrunableInventory messages rawConfig.
Proof. unfold getPrunableInventory. by rewrite normalizeConfig_asRaw. Qed.

Lemma sweep_asRaw messages rawConfig limit now :
  sweep messages (asRaw (normalizeConfig rawConfig)) limit now
  = sweep messages rawConfig limit now.
Proof. unfold sweep. by rewrite normalizeConfig_asRaw. Qed.

Lemma prunableOf_records config st st' messages :
  prunedByID st' = prunedByID st →
  prunableOf config st' messages = prunableOf config st messages.
Proof.
  intros Hpr. unfold prunableOf. apply list_filter_iff. intros m.
  unfold Prunable. by rewrite Hpr.
Qed.

(** What a call of [getPrunableInventory] leaves in the cache. *)
Lemma refreshed_inventory messages rawConfig st :
  patternsCompile (normalizeConfig rawConfig) →
  InventoryOk st →
  Forall (λ m, occurrences "|" (msg_id m) = 0)
         (prunableOf (normalizeConfig rawConfig) st messages) →
  ∃ st1,
    getPrunableInventory messages rawConfig st
    = (Returned (State.entries (inventory st1)), st1)
    ∧ InventoryOk st1
    ∧ prunedByID st1 = prunedByID st
    ∧ length (State.entries (inventory st1))
      = length (prunableOf (normalizeConfig rawConfig) st messages)
    ∧ ∀ id mid,
        entryMessageID st1 id = Some mid
        ↔ ∃ k m, prunableOf (normalizeConfig rawConfig) st messages !! k = Some m
                 ∧ id = pretty (k + 1) ∧ msg_id m = mid ∧ mid ≠ "".
Proof.
  intros Hc Hok Hfree.
  destruct (getPrunableInventory_cache messages rawConfig st Hc)
    as (r & st1 & Hrun & Hr & _ & Hlen & Hpr & Hok1 & _).
  destruct (getPrunableInventory_numbers messages rawConfig st Hc Hok Hfree)
    as (r' & st1' & Hrun' & Hnum).
  rewrite Hrun in Hrun'. injection Hrun' as <- <-.
  specialize (Hok1 Hok). exists st1. subst r.
  split; [done|]. split; [done|]. split; [done|].
  split; [by rewrite Hlen, length_fmap|].
  set (prunable := prunableOf (normalizeConfig rawConfig) st messages) in *.
  assert (∀ k entry, State.entries (inventory st1) !! k = Some entry →
                     ∃ m, prunable !! k = Some m
                          ∧ inv_id entry = pretty (k + 1)
                          ∧ inv_messageID entry = msg_id m) as Hfwd.
  { intros k entry Hk.
    assert (((λ e, (inv_id e, inv_messageID e)) <$> State.entries (inventory st1)) !! k
            = Some (inv_id entry, inv_messageID entry)) as Hpair
      by (by rewrite list_lookup_fmap, Hk).
    rewrite Hnum in Hpair. unfold numbered in Hpair.
    apply list_lookup_imap_Some in Hpair as (m & Hm & [= -> ->]). eauto. }
  assert (∀ k m, prunable !! k = Some m →
                 ∃ entry, State.entries (inventory st1) !! k = Some entry
                          ∧ inv_id entry = pretty (k + 1)
                          ∧ inv_messageID entry = msg_id m) as Hbwd.
  { intros k m Hk.
    destruct (lookup_lt_is_Some_2 (State.entries (inventory st1)) k) as [entry He].
    { rewrite Hlen, length_fmap. by eapply lookup_lt_Some. }
    destruct (Hfwd _ _ He) as (m' & Hm' & ? & ?).
    exists entry. split; [done|]. split; [done|]. congruence. }
  intros id mid. rewrite entryMessageID_map by done. split.
  - destruct (numericToMessageID (inventory st1) !! id) as [messageID|] eqn:Hmap; [|done].
    case_bool_decide as Hne; [done|]. intros [= <-].
    apply numericToMessageID_spec in Hmap as (entry & Hin & <- & <-); [|done].
    apply list_elem_of_lookup in Hin as [k Hk].
    destruct (Hfwd _ _ Hk) as (m & Hm & Hid & Hmid).
    exists k, m. split_and!; first [done|by rewrite <- Hmid].
  - intros (k & m & Hk & -> & <- & Hne).
    destruct (Hbwd _ _ Hk) as (entry & He & Hid & Hmid).
    assert (numericToMessageID (inventory st1) !! pretty (k + 1) = Some (msg_id m))
      as ->.
    { apply numericToMessageID_spec; [done|]. exists entry.
      split; [by eapply list_elem_of_lookup_2|done]. }
    by rewrite bool_decide_false.
Qed.

Lemma filter_fmap_length {A B} (p : B → bool) (f : A → B) (l : list A) :
  length (List.filter p (f <$> l)) = length (List.filter (λ x, p (f x)) l).
Proof.
  induction l as [|x l IH]; [done|]. rewrite fmap_cons. cbn [List.filter].
  destruct (p (f x)); cbn [length]; by rewrite IH.
Qed.

Lemma summarizeView_spec messages rawConfig st :
  patternsCompile (normalizeConfig rawConfig) →
  ∃ st',
    summarizeView messages (normalizeConfig rawConfig) st
    = (Returned
         {| totalMessages := length messages;
            vs_prunedMessages :=
              length (List.filter
                        (λ m, bool_decide (is_Some (prunedByID st !! msg_id m))
                              || flagged m) messages);
            prunableInventorySize :=
              length (prunableOf (normalizeConfig rawConfig) st messages) |}, st')
    ∧ prunedByID st' = prunedByID st
    ∧ counters st' = counters st
    ∧ st_distillations st' = st_distillations st
    ∧ distillationBySourceID st' = distillationBySourceID st.
Proof.
  intros Hc. unfold summarizeView, bind.
  destruct (createTransformedView_spec messages st)
    as (view & st1 & -> & (Hpr & Hsrc & Hdist & Hinv & Hcount) & ->).
  rewrite getPrunableInventory_asRaw.
  destruct (getPrunableInventory_cache messages rawConfig st1 Hc)
    as (r & st2 & Hrun & Hr & _ & Hlen & Hpr2 & _).
  pose proof (getPrunableInventory_state messages rawConfig st1) as Hstate.
  rewrite Hrun in Hstate |- *. simpl in Hstate.
  destruct Hstate as (_ & _ & Hsrc2 & Hdist2 & Hcount2).
  exists st2. split; [|split_and!; congruence].
  unfold ret. do 2 f_equal. f_equal.
  - by rewrite length_fmap.
  - rewrite filter_fmap_length. f_equal.
    apply List.filter_ext. intros m.
    destruct (prunedByID st !! msg_id m) as [rec|] eqn:Hrec.
    + rewrite bool_decide_true by eauto. done.
    + rewrite bool_decide_false by (by intros [? ?]). done.
  - rewrite Hr, Hlen, length_fmap.
    by rewrite (prunableOf_records _ st st1).
Qed.

(** X11: what the summary of the view counts.  For patterns that compile,
    [summarizeView] returns; [totalMessages] is the number of messages,
    [prunedMessages] the number of messages whose id has a record or that
    carry a truthy [meta.dcp.pruned] of their own, and
    [prunableInventorySize] the number of prunable messages.  The call
    leaves the records, the counters and the distillations alone. *)
Theorem summarizeView_counts
    (messages : list DcpMessage) (rawConfig : option RawConfig) (st : DcpState) :
  patternsCompile (normalizeConfig rawConfig) →
  ∃ view st',
    summarizeView messages (normalizeConfig rawConfig) st = (Returned view, st')
    ∧ totalMessages view = length messages
    ∧ vs_prunedMessages view
      = length (List.filter
                  (λ m, bool_decide (is_Some (prunedByID st !! msg_id m)) || flagged m)
                  messages)
    ∧ prunableInventorySize view
      = length (filter (Prunable (normalizeConfig rawConfig) st) messages)
    ∧ prunedByID st' = prunedByID st
    ∧ counters st' = counters st
    ∧ st_distillations st' = st_distillations st.
Proof.
  intros Hc.
  destruct (summarizeView_spec messages rawConfig st Hc)
    as (st' & Hrun & Hpr & Hcount & Hdist & _).
  eexists _, st'. split; [exact Hrun|]. by split_and!.
Qed.

Lemma summarizeView_counts_witness :
  patternsCompile (normalizeConfig None)
  ∧ ∃ view st',
      summarizeView Examples.smallSession (normalizeConfig None) Examples.smallPruned
      = (Returned view, st')
      ∧ totalMessages view = length Examples.smallSession.
Proof.
  assert (patternsCompile (normalizeConfig None)) as H by constructor.
  split; [exact H|].
  destruct (summarizeView_counts Examples.smallSession None Examples.smallPruned H)
    as (view & st' & Hrun & Htotal & _).
  by exists view, st'.
Defined.

(** X12: the prune tool prunes what its inventory shows.  Let the ids of
    the messages be unique, the patterns compile, the cache be one the
    engine built, and no prunable id contain the separator of the
    signature.  When [dcp_prune] returns, every id it reports as pruned
    is the id of a message that was prunable when the call began.
    Without a usable id in the request the mode is "sweep" and the pruned
    ids are the sweep candidates.  Otherwise the mode is "inventory": the
    ids of the request that are the number of a prunable message (with a
    non-empty id) are resolved and the others are reported as
    unresolved; exactly the resolved messages are pruned, and nothing is
    reported protected or missing. *)
Theorem dcp_prune_prunes_inventory
    (rawConfig : option RawConfig) (ids : option (list (option string)))
    (reason : option string) (runtime : option (list DcpMessage))
    (now : Z) (st st' : DcpState) (r : PruneTool.PruneToolResult) :
  let config := normalizeConfig rawConfig in
  let messages := extractMessages runtime in
  let prunable := filter (Prunable config st) messages in
  NoDup (msg_id <$> messages) →
  patternsCompile config →
  InventoryOk st →
  Forall (λ m, occurrences "|" (msg_id m) = 0) prunable →
  PruneTool.dcp_prune config ids reason runtime now st = (Returned r, st') →
  (∀ id, id ∈ toolPrunedIDs r → ∃ m, m ∈ prunable ∧ msg_id m = id)
  ∧ match r with
    | PruneTool.SweepMode result view =>
        PruneTool.normalizeIDs ids = []
        ∧ collectSweepCandidates messages rawConfig st
          = (Returned (sw_prunedIDs result), st)
    | PruneTool.InventoryMode inventoryIDs unresolved result view =>
        inventoryIDs = PruneTool.normalizeIDs ids
        ∧ inventoryIDs ≠ []
        ∧ (∀ id, id ∈ prunedIDs result ↔
             ∃ k m, pretty (k + 1) ∈ inventoryIDs
                    ∧ prunable !! k = Some m ∧ msg_id m = id ∧ id ≠ "")
        ∧ (∀ numeric, numeric ∈ unresolved ↔
             numeric ∈ inventoryIDs
             ∧ ¬ ∃ k m, numeric = pretty (k + 1)
                        ∧ prunable !! k = Some m ∧ msg_id m ≠ "")
        ∧ protectedIDs result = []
        ∧ missingIDs result = []
    end.
Proof.
  intros config messages prunable Hnd Hc Hok Hfree Hrun.
  destruct (refreshed_inventory messages rawConfig st Hc Hok Hfree)
    as (st1 & Hinv & Hok1 & Hpr1 & _ & Hentry).
  change (prunableOf (normalizeConfig rawConfig) st messages) with prunable in Hentry.
  unfold PruneTool.dcp_prune in Hrun. fold config messages in Hrun.
  unfold bind at 1 in Hrun. unfold config at 1 in Hrun.
  rewrite getPrunableInventory_asRaw, Hinv in Hrun.
  assert (∀ l : list DcpMessage,
            filter (Prunable config st1) l = filter (Prunable config st) l) as Hsame.
  { intros l. apply list_filter_iff. intros m. unfold Prunable. by rewrite Hpr1. }
  case_bool_decide as Hmode.
  - (* sweep mode *)
    unfold bind at 1 in Hrun. unfold config at 1 in Hrun. rewrite sweep_asRaw in Hrun.
    destruct (sweep_prunes messages rawConfig None now st1 Hnd Hc)
      as (candidates & st2 & Hcoll & Hsweep & _).
    rewrite Hsweep in Hrun. unfold bind at 1 in Hrun.
    destruct (summarizeView_spec messages rawConfig st2 Hc) as (st3 & Hview & _).
    fold config in Hview. rewrite Hview in Hrun. injection Hrun as <- <-.
    change (capCandidates None candidates) with candidates. simpl.
    rewrite collectSweepCandidates_eq in Hcoll by done.
    fold config in Hcoll. rewrite Hsame in Hcoll. injection Hcoll as Hcand.
    split.
    + intros id Hid. rewrite <- Hcand in Hid.
      apply list_elem_of_fmap in Hid as (m & -> & Hm).
      exists m. split; [|done].
      apply list_elem_of_filter in Hm as [Hp Hm].
      apply list_elem_of_filter. split; [done|].
      eapply elem_of_sublist; [exact Hm|apply sublist_drop].
    + split; [by apply length_zero_iff_nil|].
      rewrite collectSweepCandidates_eq by done. by rewrite <- Hcand.
  - (* inventory mode *)
    unfold bind at 1, get at 1 in Hrun.
    set (inventoryIDs := PruneTool.normalizeIDs ids) in *.
    unfold bind at 1 in Hrun. unfold config at 1 in Hrun.
    rewrite pruneByIDs_asRaw in Hrun.
    destruct (pruneByIDs messages rawConfig _ _ None now st1)
      as [[result|e] st2] eqn:Hprune; [|done].
    unfold bind at 1 in Hrun.
    destruct (summarizeView_spec messages rawConfig st2 Hc) as (st3 & Hview & _).
    fold config in Hview. rewrite Hview in Hrun. injection Hrun as <- <-. simpl.
    unfold resolveInventoryMessageIDs in Hprune |- *.
    rewrite resolve_loop in Hprune |- * by done. simpl in Hprune |- *.
    apply prune_loop_spec in Hprune
      as (Hmiss & (prot & Hprot & Hpiff) & new & Hnew & _ & Hiff & _).
    simpl in Hmiss, Hprot, Hnew. subst prot new. fold config in Hpiff, Hiff.
    assert (∀ id, id ∈ omap (entryMessageID st1) inventoryIDs →
                  ∃ k m, pretty (k + 1) ∈ inventoryIDs
                         ∧ prunable !! k = Some m ∧ msg_id m = id ∧ id ≠ "")
      as Hresolved.
    { intros id (numeric & Hin & Hsome)%list_elem_of_omap.
      apply Hentry in Hsome as (k & m & Hk & -> & Hm & Hne). eauto 8. }
    assert (∀ k m, prunable !! k = Some m →
                   m ∈ messages ∧ Prunable config st m
                   ∧ messagesByID messages !! msg_id m = Some m) as Hprunable.
    { intros k m Hk. apply list_elem_of_lookup_2 in Hk.
      apply list_elem_of_filter in Hk as [Hp Hm].
      split; [done|]. split; [done|]. by apply messagesByID_unique. }
    assert (∀ id, id ∈ prunedIDs result ↔
                  ∃ k m, pretty (k + 1) ∈ inventoryIDs
                         ∧ prunable !! k = Some m ∧ msg_id m = id ∧ id ≠ "")
      as Hpruned.
    { intros id. rewrite Hiff. split.
      - intros (Hin & _). by apply Hresolved.
      - intros (k & m & Hnum & Hk & <- & Hne).
        destruct (Hprunable _ _ Hk) as (Hm & (Htool & Hnone & Hunprot) & Hby).
        split_and!.
        + apply list_elem_of_omap. exists (pretty (k + 1)). split; [done|].
          apply Hentry. eauto 8.
        + by rewrite Hpr1.
        + eauto. }
    split; [|split_and!].
    + intros id (k & m & _ & Hk & <- & _)%Hpruned.
      exists m. split; [by eapply list_elem_of_lookup_2|done].
    + done.
    + intros Hnil. apply Hmode. by rewrite Hnil.
    + exact Hpruned.
    + intros numeric. rewrite list_elem_of_filter. split.
      * intros [Hnone Hin]. split; [done|].
        intros (k & m & -> & Hk & Hne).
        assert (entryMessageID st1 (pretty (k + 1)) = Some (msg_id m)) as Hsome
          by (apply Hentry; eauto 8).
        congruence.
      * intros [Hin Hnot]. split; [|done].
        destruct (entryMessageID st1 numeric) as [mid|] eqn:Hsome; [|done].
        exfalso. apply Hnot.
        apply Hentry in Hsome as (k & m & Hk & -> & <- & Hne). eauto.
    + destruct (protectedIDs result) as [|id l] eqn:Hp; [done|]. exfalso.
      assert (id ∈ id :: l) as Hin by (by left).
      apply Hpiff in Hin as (Hin & _ & m' & Hby' & Htrue).
      apply Hresolved in Hin as (k & m & _ & Hk & <- & _).
      destruct (Hprunable _ _ Hk) as (_ & (_ & _ & Hunprot) & Hby).
      congruence.
    + rewrite Hmiss. apply filter_none. intros id Hin Hnone.
      apply Hresolved in Hin as (k & m & _ & Hk & <- & _).
      destruct (Hprunable _ _ Hk) as (_ & _ & Hby). congruence.
Qed.

Lemma dcp_prune_prunes_inventory_witness :
  let messages := extractMessages (Some Examples.sweepSession) in
  let prunable := filter (Prunable (normalizeConfig None) createState) messages in
  let run := PruneTool.dcp_prune (normalizeConfig None) (Some [Some "2"; Some "7"])
               None (Some Examples.sweepSession) 9 createState in
  let result := {| prunedIDs := ["t2"]; protectedIDs := []; missingIDs := [] |} in
  let view := {| totalMessages := 7; vs_prunedMessages := 1;
                 prunableInventorySize := 4 |} in
  NoDup (msg_id <$> messages)
  ∧ patternsCompile (normalizeConfig None)
  ∧ InventoryOk createState
  ∧ Forall (λ m, occurrences "|" (msg_id m) = 0) prunable
  ∧ run = (Returned (PruneTool.InventoryMode ["2"; "7"] ["7"] result view), run.2)
  ∧ ∀ id, id ∈ prunedIDs result → ∃ m, m ∈ prunable ∧ msg_id m = id.
Proof.
  intros messages prunable run result view.
  assert (NoDup (msg_id <$> messages)) as H1
    by (apply (bool_decide_unpack _); vm_compute; exact I).
  assert (patternsCompile (normalizeConfig None)) as H2 by constructor.
  assert (Forall (λ m, occurrences "|" (msg_id m) = 0) prunable) as H3
    by (apply (bool_decide_unpack _); vm_compute; exact I).
  assert (run = (Returned (PruneTool.InventoryMode ["2"; "7"] ["7"] result view), run.2))
    as H4 by (vm_compute; reflexivity).
  split_and!; [exact H1|exact H2|exact InventoryOk_createState|exact H3|exact H4|].
  exact (proj1 (dcp_prune_prunes_inventory None (Some [Some "2"; Some "7"]) None
                  (Some Examples.sweepSession) 9 createState run.2 _
                  H1 H2 InventoryOk_createState H3 H4)).
Defined.

End PruneToolFacts.

(** ** The command line *)

Section CommandFacts.
Import Js Config State Core JsText Commands Index Spec Engine Text.

Lemma append_assoc s t u : (s +:+ t) +:+ u = s +:+ (t +:+ u).
Proof.
  induction s as [|a s IH]; [done|].
  change (String a ((s +:+ t) +:+ u) = String a (s +:+ (t +:+ u))). by rewrite IH.
Qed.

Lemma word_first w :
  Word w → ∃ c rest, w = String c rest ∧ is_js_space c = false.
Proof.
  intros [Hne Hs]. destruct w as [|c rest]; [done|]. exists c, rest.
  split; [done|]. simpl in Hs. apply andb_true_iff in Hs as [Hc _].
  by apply negb_true_iff.
Qed.

Lemma word_last w :
  Word w → ∃ front d, w = front +:+ String d "" ∧ is_js_space d = false.
Proof.
  intros [Hne Hs]. induction w as [|c w IH]; [done|].
  simpl in Hs. apply andb_true_iff in Hs as [Hc Hw].
  destruct w as [|c' w'].
  - exists "", c. split; [done|]. by apply negb_true_iff.
  - destruct IH as (front & d & Heq & Hd); [done|done|].
    exists (String c front), d. split; [|done].
    change (String c (String c' w') = String c (front +:+ String d "")).
    by rewrite Heq.
Qed.

Lemma split_go_word w :
  spaceless w = true → w ≠ "" →
  ∀ piece b rest, split_go piece b (w +:+ rest) = split_go (piece +:+ w) false rest.
Proof.
  induction w as [|c w IH]; intros Hs Hne piece b rest; [done|].
  simpl in Hs. apply andb_true_iff in Hs as [Hc%negb_true_iff Hw].
  change (split_go piece b (String c (w +:+ rest))
          = split_go (piece +:+ String c w) false rest).
  simpl. rewrite Hc. destruct w as [|c' w'].
  - done.
  - rewrite IH by done. by rewrite append_assoc.
Qed.

Lemma split_join words :
  Forall Word words → words ≠ [] →
  ∀ b, split_go "" b (join " " words) = words.
Proof.
  induction 1 as [|w words [Hne Hs] Hwords IH]; intros Hnil b; [done|].
  destruct words as [|w2 words].
  - simpl. rewrite <- (append_nil_r w) at 1. by rewrite split_go_word.
  - change (join " " (w :: w2 :: words)) with (w +:+ " " +:+ join " " (w2 :: words)).
    rewrite split_go_word by done.
    change (split_go ("" +:+ w) false (String " " (join " " (w2 :: words)))
            = w :: w2 :: words).
    simpl. f_equal. by apply IH.
Qed.

Lemma nonEmpty_words words : Forall Word words → nonEmpty words = words.
Proof.
  induction 1 as [|w words [Hne _] _ IH]; [done|].
  unfold nonEmpty. simpl. rewrite bool_decide_false by done. simpl.
  f_equal. exact IH.
Qed.

Lemma join_first words :
  Forall Word words → words ≠ [] →
  ∃ c rest, join " " words = String c rest ∧ is_js_space c = false.
Proof.
  intros Hw Hne. destruct Hw as [|w words Hword Hwords]; [done|].
  destruct (word_first w Hword) as (c & rest & -> & Hc).
  destruct words as [|w2 words]; [by exists c, rest|].
  by exists c, (rest +:+ " " +:+ join " " (w2 :: words)).
Qed.

Lemma join_last words :
  Forall Word words → words ≠ [] →
  ∃ front d, join " " words = front +:+ String d "" ∧ is_js_space d = false.
Proof.
  induction 1 as [|w words Hword Hwords IH]; intros Hne; [done|].
  destruct words as [|w2 words]; [by apply word_last|].
  destruct IH as (front & d & Heq & Hd); [done|].
  exists (w +:+ " " +:+ front), d. split; [|done].
  change (join " " (w :: w2 :: words)) with (w +:+ " " +:+ join " " (w2 :: words)).
  rewrite Heq. by rewrite !append_assoc.
Qed.

Lemma trim_join words :
  Forall Word words → words ≠ [] → trim (join " " words) = join " " words.
Proof.
  intros Hw Hne.
  destruct (join_first words Hw Hne) as (c & rest & Hc & Hsc).
  destruct (join_last words Hw Hne) as (front & d & Hd & Hsd).
  by eapply trim_trimmed.
Qed.

Lemma trimStart_join words :
  Forall Word words → trimStart (join " " words) = join " " words.
Proof.
  intros Hw. destruct words as [|w words]; [done|].
  destruct (join_first (w :: words) Hw) as (c & rest & -> & Hc); [done|].
  simpl. by rewrite Hc.
Qed.

(** The arguments read from a command text made of words. *)
Lemma argsOf_words a b c d words :
  toLowerCase (String a (String b (String c (String d "")))) = "/dcp" →
  Forall Word words →
  argsOf (String a (String b (String c (String d (" " +:+ join " " words))))) = words.
Proof.
  intros Hprefix Hw. unfold argsOf, stripDcpPrefix.
  rewrite bool_decide_true by done.
  change (trimStart (" " +:+ join " " words)) with (trimStart (join " " words)).
  rewrite trimStart_join by done.
  destruct words as [|w words]; [done|].
  rewrite trim_join by done. unfold splitSpaces.
  rewrite split_join by done. by apply nonEmpty_words.
Qed.

Lemma trim_command a b c d words :
  is_js_space a = false →
  Forall Word words → words ≠ [] →
  trim (String a (String b (String c (String d (" " +:+ join " " words)))))
  = String a (String b (String c (String d (" " +:+ join " " words)))).
Proof.
  intros Ha Hw Hne.
  destruct (join_last words Hw Hne) as (front & e & Hd & Hsd).
  eapply trim_trimmed; [done| |done|exact Hsd].
  rewrite Hd. instantiate (1 := String a (String b (String c (String d (" " +:+ front))))).
  done.
Qed.

(** *** Numbers on the command line *)

Lemma digitValue_pretty x :
  (x < 10)%N → digitValue (pretty_N_char x) = Some (Z.of_N x).
Proof.
  intros Hx.
  assert (x = 0 ∨ x = 1 ∨ x = 2 ∨ x = 3 ∨ x = 4 ∨ x = 5 ∨ x = 6 ∨ x = 7 ∨ x = 8
          ∨ x = 9)%N as Hcases by lia.
  repeat (destruct Hcases as [->|Hcases]; [reflexivity|]). by subst.
Qed.

Lemma digits_go_pretty x :
  ∀ s acc, ∃ k : nat,
    digits_go acc (pretty_N_go x s) = digits_go (acc * 10 ^ Z.of_nat k + Z.of_N x) s.
Proof.
  induction (N.lt_wf_0 x) as [x _ IH]; intros s acc.
  destruct (decide (x = 0)%N) as [->|Hx].
  { exists 0. rewrite pretty_N_go_0. f_equal. lia. }
  rewrite pretty_N_go_step by lia.
  destruct (IH (x `div` 10)%N) with (s := String (pretty_N_char (x `mod` 10)) s)
                                    (acc := acc) as [k Hk].
  { apply N.div_lt; lia. }
  exists (S k). rewrite Hk. simpl.
  rewrite digitValue_pretty by (apply N.mod_lt; lia). f_equal.
  pose proof (N.div_mod x 10) as Hdiv.
  rewrite Nat2Z.inj_succ, Z.pow_succ_r by lia. lia.
Qed.

Lemma allDigits_pretty_go x :
  ∀ s, allDigits s = true → allDigits (pretty_N_go x s) = true.
Proof.
  induction (N.lt_wf_0 x) as [x _ IH]; intros s Hs.
  destruct (decide (x = 0)%N) as [->|Hx]; [by rewrite pretty_N_go_0|].
  rewrite pretty_N_go_step by lia. apply IH; [apply N.div_lt; lia|].
  simpl. rewrite digitValue_pretty by (apply N.mod_lt; lia).
  by rewrite bool_decide_true by eauto.
Qed.

Lemma pretty_N_go_nonempty x : ∀ s, s ≠ "" → pretty_N_go x s ≠ "".
Proof.
  induction (N.lt_wf_0 x) as [x _ IH]; intros s Hs.
  destruct (decide (x = 0)%N) as [->|Hx]; [by rewrite pretty_N_go_0|].
  rewrite pretty_N_go_step by lia. apply IH; [apply N.div_lt; lia|done].
Qed.

Lemma pretty_nat_digits (n : nat) : allDigits (pretty n) = true ∧ pretty n ≠ "".
Proof.
  unfold pretty, pretty_nat, pretty, pretty_N. case_decide as Hz; [done|].
  split; [by apply allDigits_pretty_go|].
  rewrite pretty_N_go_step by lia. by apply pretty_N_go_nonempty.
Qed.

Lemma pretty_nat_value (n : nat) : digits_go 0 (pretty n) = Z.of_nat n.
Proof.
  unfold pretty, pretty_nat, pretty, pretty_N. case_decide as Hz.
  - simpl. lia.
  - destruct (digits_go_pretty (N.of_nat n) "" 0) as [k ->]. simpl. lia.
Qed.

Lemma digit_not_space c : is_Some (digitValue c) → is_js_space c = false.
Proof.
  intros [d Hd]. unfold digitValue in Hd. unfold is_js_space.
  destruct ((48 <=? N_of_ascii c)%N && (N_of_ascii c <=? 57)%N) eqn:Hrange; [|done].
  apply andb_true_iff in Hrange as [H1%N.leb_le H2%N.leb_le].
  repeat match goal with
         | |- context [(?a <=? ?b)%N] => destruct (N.leb_spec a b)
         | |- context [(?a =? ?b)%N] => destruct (N.eqb_spec a b)
         end; simpl; try done; lia.
Qed.

Lemma allDigits_spaceless s : allDigits s = true → spaceless s = true.
Proof.
  induction s as [|c s IH]; [done|]. simpl.
  intros [Hc%bool_decide_eq_true Hs]%andb_true_iff.
  by rewrite digit_not_space, IH.
Qed.

Lemma pretty_nat_word (n : nat) : Word (pretty n).
Proof.
  destruct (pretty_nat_digits n) as [Hd Hne]. split; [done|].
  by apply allDigits_spaceless.
Qed.

Lemma parseInt_digits c rest :
  is_Some (digitValue c) →
  parseInt (String c rest) = toDouble (digits_go 0 (String c rest)).
Proof.
  intros [d Hd].
  destruct c as [[] [] [] [] [] [] [] []]; vm_compute in Hd; try discriminate Hd;
    reflexivity.
Qed.

Lemma toDouble_safe z : (z < 2 ^ 53)%Z → toDouble z = Finite (z # 1).
Proof.
  intros Hz. unfold toDouble, roundInteger.
  by rewrite (proj2 (Z.ltb_lt _ _) Hz).
Qed.

Lemma parseInt_pretty (n : nat) :
  (Z.of_nat n < 2 ^ 53)%Z → parseInt (pretty n) = Finite (Z.of_nat n # 1).
Proof.
  intros Hn. destruct (pretty_nat_digits n) as [Hd Hne].
  pose proof (pretty_nat_value n) as Hv.
  destruct (pretty n) as [|c rest]; [done|].
  simpl in Hd. apply andb_true_iff in Hd as [Hc%bool_decide_eq_true _].
  rewrite parseInt_digits, Hv by done. by apply toDouble_safe.
Qed.

Lemma pretty_Z_nat (n : nat) : 0 < n → pretty (Z.of_nat n) = pretty n.
Proof. intros Hn. destruct n; [lia|done]. Qed.

Lemma sweep_usedLimit messages rawConfig limit now st r st' :
  sweep messages rawConfig limit now st = (Returned r, st') →
  usedLimit r = if limitApplies limit then limit else None.
Proof.
  rewrite sweep_eq. cbv zeta.
  destruct (collectSweepCandidates _ _ st) as [[candidates|e] st1]; [|done].
  destruct (pruneByIDs _ _ _ _ _ _ st1) as [[result|e] st2]; [|done].
  by intros [= <- _].
Qed.

Lemma lower_slash_not_space a b c d :
  toLowerCase (String a (String b (String c (String d "")))) = "/dcp" →
  is_js_space a = false.
Proof.
  intros H. injection H as Ha _.
  destruct a as [[] [] [] [] [] [] [] []]; vm_compute in Ha; try discriminate Ha;
    reflexivity.
Qed.

(** X13: [/dcp sweep n] is a sweep with limit [n].  With commands
    enabled, a command text made of a prefix that is "/dcp" in any case,
    a word that is "sweep" in any case, and the decimal numeral of a
    whole number [n > 0] (below 2^53) runs [sweep] with the limit [n]:
    it throws when the sweep throws, and otherwise leaves the state of
    the sweep and returns the line
    [sweep pruned=P protected=Q candidates=C limit=n]. *)
Theorem command_sweep_limit
    (config : ExtensionConfig) (runtime : option (list DcpMessage))
    (now : Z) (st : DcpState) (a b c d : ascii) (sub : string) (n : nat) :
  commands_enabled config = true →
  toLowerCase (String a (String b (String c (String d "")))) = "/dcp" →
  Word sub →
  toLowerCase sub = "sweep" →
  0 < n →
  (Z.of_nat n < 2 ^ 53)%Z →
  dcpCommand config
    (Some (String a (String b (String c (String d (" " +:+ sub +:+ " " +:+ pretty n))))))
    runtime now st
  = match sweep (extractMessages runtime) (asRaw config)
            (Some (Finite (Z.of_nat n # 1))) now st with
    | (Returned r, st') =>
        (Returned
           (join " " [ "sweep pruned=" +:+ pretty (length (sw_prunedIDs r));
                       "protected=" +:+ pretty (length (sw_protectedIDs r));
                       "candidates=" +:+ pretty (candidateCount r);
                       "limit=" +:+ pretty n ]), st')
    | (Threw e, st') => (Threw e, st')
    end.
Proof.
  intros Hen Hprefix Hsub Hlower Hpos Hsafe.
  assert (Forall Word [sub; pretty n]) as Hwords.
  { repeat constructor; [apply Hsub|apply Hsub|apply pretty_nat_word..]. }
  unfold dcpCommand.
  change (" " +:+ sub +:+ " " +:+ pretty n) with (" " +:+ join " " [sub; pretty n]).
  rewrite trim_command by (done || by eapply lower_slash_not_space).
  rewrite argsOf_words by done. cbv zeta.
  change ([sub; pretty n] !! 0) with (Some sub).
  cbn [default from_option]. unfold id. rewrite Hlower, Hen. cbn [negb].
  rewrite !bool_decide_false by done. rewrite bool_decide_true by done.
  unfold limitOf. change ([sub; pretty n] !! 1) with (Some (pretty n)).
  cbn [default from_option]. unfold id. rewrite parseInt_pretty by done.
  assert (isFinitePositive (Finite (Z.of_nat n # 1)) = true) as Hfp.
  { unfold isFinitePositive. simpl. apply bool_decide_eq_true. lia. }
  rewrite Hfp. unfold bind.
  destruct (sweep _ _ _ _ st) as [[r|e] st'] eqn:Hsweep; [|done].
  apply sweep_usedLimit in Hsweep. unfold limitApplies in Hsweep.
  rewrite Hfp in Hsweep.
  unfold ret, sweepText, limitText. rewrite Hsweep. simpl Qnum.
  rewrite bool_decide_false by lia.
  assert (toInteger (Z.of_nat n # 1) = Z.of_nat n) as ->.
  { unfold toInteger. simpl. apply Z.quot_1_r. }
  unfold integerToString. rewrite (proj2 (Z.ltb_lt _ _) Hsafe).
  by rewrite pretty_Z_nat.
Qed.

Lemma command_sweep_limit_witness :
  commands_enabled DEFAULT_CONFIG = true
  ∧ Word "Sweep"
  ∧ dcpCommand DEFAULT_CONFIG (Some "/DCP Sweep 2") (Some Examples.sweepSession) 0
      createState
    = match sweep (extractMessages (Some Examples.sweepSession)) (asRaw DEFAULT_CONFIG)
              (Some (Finite (Z.of_nat 2 # 1))) 0 createState with
      | (Returned r, st') =>
          (Returned
             (join " " [ "sweep pruned=" +:+ pretty (length (sw_prunedIDs r));
                         "protected=" +:+ pretty (length (sw_protectedIDs r));
                         "candidates=" +:+ pretty (candidateCount r);
                         "limit=" +:+ pretty 2 ]), st')
      | (Threw e, st') => (Threw e, st')
      end.
Proof.
  assert (Word "Sweep") as Hw by (split; [done|reflexivity]).
  split; [reflexivity|]. split; [exact Hw|].
  apply (command_sweep_limit DEFAULT_CONFIG (Some Examples.sweepSession) 0 createState
           "/" "D" "C" "P" "Sweep" 2); [reflexivity|reflexivity|exact Hw|reflexivity|lia|].
  vm_compute. reflexivity.
Defined.

(** *** What the command touches, and when it throws *)

Lemma totalChars_from_ok l :
  ∀ total,
    Forall (λ m, msg_content m ≠ CStructured None) l →
    ∃ n, totalChars_from total l = Returned n.
Proof.
  induction l as [|m l IH]; intros total Hok; [by eexists|].
  apply Forall_cons in Hok as [Hm Hl]. simpl.
  destruct (msg_content m) as [s| |[json|]]; [by apply IH..|done].
Qed.

Lemma totalChars_from_bad l :
  ∀ total,
    Exists (λ m, msg_content m = CStructured None) l →
    totalChars_from total l = Threw stringifyFailure.
Proof.
  induction l as [|m l IH]; intros total Hbad; [by apply Exists_nil in Hbad|].
  simpl. destruct (msg_content m) as [s| |[json|]] eqn:Hm; [| | |done].
  all: apply Exists_cons in Hbad as [Hbad|Hbad]; [congruence|by apply IH].
Qed.

Lemma formatContext_state messages rawConfig st :
  let st' := (formatContext messages rawConfig st).2 in
  prunedByID st' = prunedByID st
  ∧ counters st' = counters st
  ∧ st_distillations st' = st_distillations st
  ∧ distillationBySourceID st' = distillationBySourceID st.
Proof.
  unfold formatContext, bind.
  destruct (createTransformedView_spec messages st)
    as (view & st1 & -> & (Hpr & Hsrc & Hdist & _ & Hcount) & _).
  pose proof (getPrunableInventory_state messages rawConfig st1)
    as (Hpr2 & _ & Hsrc2 & Hdist2 & Hcount2).
  destruct (getPrunableInventory messages rawConfig st1) as [[inv|e] st2];
    simpl in *; [|split_and!; congruence].
  unfold lift. destruct (totalChars messages); [|split_and!; simpl; congruence].
  destruct (totalChars view); split_and!; simpl; congruence.
Qed.

(** X14: [/dcp context] throws on a content that cannot be serialised.
    For patterns that compile, [formatContext] throws exactly when some
    message has a content that is neither a string nor nullish and of
    which [JSON.stringify] makes no string (the inventory counts such a
    content as 0 characters instead); otherwise it returns its report.
    Either way the records, the counters and the distillations are as
    before. *)
Theorem formatContext_outcome
    (messages : list DcpMessage) (rawConfig : option RawConfig) (st : DcpState) :
  patternsCompile (normalizeConfig rawConfig) →
  let run := formatContext messages rawConfig st in
  (Exists (λ m, msg_content m = CStructured None) messages →
   run.1 = Threw stringifyFailure)
  ∧ (Forall (λ m, msg_content m ≠ CStructured None) messages →
     ∃ text, run.1 = Returned text)
  ∧ (∀ m, msg_content m = CStructured None → estimateChars (msg_content m) = 0)
  ∧ prunedByID run.2 = prunedByID st
  ∧ counters run.2 = counters st
  ∧ st_distillations run.2 = st_distillations st.
Proof.
  intros Hc run.
  pose proof (formatContext_state messages rawConfig st) as (Hpr & Hcount & Hdist & _).
  fold run in Hpr, Hcount, Hdist.
  split_and!; try done.
  - intros Hbad. subst run. unfold formatContext, bind.
    destruct (createTransformedView_spec messages st) as (view & st1 & -> & _ & _).
    destruct (getPrunableInventory_cache messages rawConfig st1 Hc)
      as (r & st2 & -> & _).
    unfold lift, totalChars. by rewrite totalChars_from_bad.
  - intros Hok. subst run. unfold formatContext, bind.
    destruct (createTransformedView_spec messages st) as (view & st1 & -> & _ & ->).
    destruct (getPrunableInventory_cache messages rawConfig st1 Hc)
      as (r & st2 & -> & _).
    unfold lift, totalChars.
    destruct (totalChars_from_ok messages 0 Hok) as [n ->].
    destruct (totalChars_from_ok
                ((λ message, match prunedByID st !! msg_id message with
                             | None => message
                             | Some rec => prunedView message rec
                             end) <$> messages) 0) as [n' ->]; [|by eexists].
    apply Forall_fmap. eapply Forall_impl; [exact Hok|].
    intros m Hm. simpl. by destruct (prunedByID st !! msg_id m).
  - intros m Hm. by rewrite Hm.
Qed.

Lemma formatContext_outcome_witness :
  patternsCompile (normalizeConfig None)
  ∧ Forall (λ m, msg_content m ≠ CStructured None) Examples.smallSession
  ∧ ∃ text, (formatContext Examples.smallSession None Examples.smallPruned).1
            = Returned text.
Proof.
  assert (patternsCompile (normalizeConfig None)) as H1 by constructor.
  assert (Forall (λ m, msg_content m ≠ CStructured None) Examples.smallSession) as H2
    by (repeat constructor; discriminate).
  split; [exact H1|]. split; [exact H2|].
  exact (proj1 (proj2 (formatContext_outcome Examples.smallSession None
                         Examples.smallPruned H1)) H2).
Defined.

(** X15: only [/dcp sweep] prunes.  When commands are disabled, or the
    first argument is not "sweep" (in any case), the command leaves the
    records, the counters and the distillations as they are.  When
    moreover it is not "context", the command does not throw and leaves
    the whole state alone: it answers that commands are disabled, or with
    the usage line (no argument), the statistics ("stats"), or the line
    for an unknown subcommand. *)
Theorem command_prunes_only_by_sweep
    (config : ExtensionConfig) (rawInput : option string)
    (runtime : option (list DcpMessage)) (now : Z) (st : DcpState) :
  let text := match rawInput with Some s => trim s | None => "" end in
  let subcommand := toLowerCase (default "" (argsOf text !! 0)) in
  let run := dcpCommand config rawInput runtime now st in
  commands_enabled config = false ∨ subcommand ≠ "sweep" →
  prunedByID run.2 = prunedByID st
  ∧ counters run.2 = counters st
  ∧ st_distillations run.2 = st_distillations st
  ∧ distillationBySourceID run.2 = distillationBySourceID st
  ∧ (commands_enabled config = false ∨ subcommand ≠ "context" →
     run = (Returned (if negb (commands_enabled config) then DISABLED
                      else if bool_decide (subcommand = "") then USAGE
                      else if bool_decide (subcommand = "stats") then formatStats st
                      else UNKNOWN), st)).
Proof.
  intros text subcommand run Hcase. subst run. unfold dcpCommand.
  fold text. fold subcommand. cbv zeta.
  destruct (commands_enabled config) eqn:Hen; simpl negb; cbn iota.
  2:{ by split_and!. }
  destruct Hcase as [Hcase|Hsweep]; [done|].
  case_bool_decide as Hempty; [by split_and!|].
  case_bool_decide as Hctx.
  { pose proof (formatContext_state (extractMessages runtime) (asRaw config) st)
      as (? & ? & ? & ?).
    split_and!; try done. intros [?|?]; done. }
  case_bool_decide as Hstats; [by split_and!|].
  rewrite bool_decide_false by done. by split_and!.
Qed.

Lemma command_prunes_only_by_sweep_witness :
  let run := dcpCommand DEFAULT_CONFIG (Some " /dcp STATS ") (Some Examples.smallSession)
               0 Examples.smallPruned in
  (commands_enabled DEFAULT_CONFIG = false
   ∨ toLowerCase (default "" (argsOf (trim " /dcp STATS ") !! 0)) ≠ "sweep")
  ∧ prunedByID run.2 = prunedByID Examples.smallPruned.
Proof.
  intros run.
  assert (commands_enabled DEFAULT_CONFIG = false
          ∨ toLowerCase (default "" (argsOf (trim " /dcp STATS ") !! 0)) ≠ "sweep") as H
    by (right; vm_compute; discriminate).
  split; [exact H|].
  exact (proj1 (command_prunes_only_by_sweep DEFAULT_CONFIG (Some " /dcp STATS ")
                  (Some Examples.smallSession) 0 Examples.smallPruned H)).
Defined.

(** *** The command text the host hands over *)

Lemma omap_words words :
  Forall Word words →
  omap (λ item : option string,
          match item with
          | Some s => if bool_decide (0 < String.length s) then Some s else None
          | None => None
          end) (Some <$> words) = words.
Proof.
  induction 1 as [|w words [Hne _] _ IH]; [done|].
  rewrite fmap_cons. cbn [omap list_omap].
  rewrite bool_decide_true by (destruct w; [done|simpl; lia]).
  f_equal. exact IH.
Qed.

(** X16: the arguments survive the way from the host to the command.
    For words (non-empty strings without white space), the text that
    [toCommandText] makes of an input object whose [args] is the array
    of the words, or the string of the words joined by blanks, is read
    back by the command as exactly these words; an input that is neither
    a string nor an object is read as no argument at all. *)
Theorem command_text_round_trip (words : list string) :
  Forall Word words →
  argsOf (trim (toCommandText (ObjectInput (ArgsArray (Some <$> words))))) = words
  ∧ argsOf (trim (toCommandText (ObjectInput (ArgsString (join " " words))))) = words
  ∧ argsOf (trim (toCommandText OtherInput)) = [].
Proof.
  intros Hw.
  assert (words ≠ [] →
          argsOf (trim ("/dcp " +:+ join " " words)) = words) as Hmain.
  { intros Hne.
    change ("/dcp " +:+ join " " words)
      with (String "/" (String "d" (String "c" (String "p" (" " +:+ join " " words))))).
    rewrite trim_command by done. by apply argsOf_words. }
  split_and!.
  - unfold toCommandText. rewrite omap_words by done.
    destruct words as [|w words]; [done|].
    rewrite bool_decide_true by (simpl; lia). by apply Hmain.
  - unfold toCommandText. destruct words as [|w words]; [done|].
    rewrite trim_join by done.
    destruct (join_first (w :: words) Hw) as (c & rest & Hj & _); [done|].
    rewrite bool_decide_true by (rewrite Hj; simpl; lia). by apply Hmain.
  - done.
Qed.

Lemma command_text_round_trip_witness :
  Forall Word ["sweep"; "3"]
  ∧ argsOf (trim (toCommandText (ObjectInput (ArgsArray (Some <$> ["sweep"; "3"])))))
    = ["sweep"; "3"].
Proof.
  assert (Forall Word ["sweep"; "3"]) as H
    by (repeat constructor; done).
  split; [exact H|]. exact (proj1 (command_text_round_trip ["sweep"; "3"] H)).
Defined.

End CommandFacts.

(** ** The synthetic instruction *)

Section SynthFacts.
Import Js SynthInject.

Lemma includes_suffix s p : includes (s +:+ p) p = true.
Proof. apply includes_spec. exists s, "". by rewrite append_nil_r. Qed.

Lemma includes_self p : includes p p = true.
Proof. apply includes_spec. exists "", "". by rewrite append_nil_r. Qed.

(** What [injectInto] makes of a message that is not ignored is left
    alone by a second [injectInto], and is not ignored either. *)
Lemma injectInto_again msg instruction :
  isIgnoredUserMessage msg = false →
  let first := injectInto msg instruction in
  let second := injectInto first.2 instruction in
  second.2 = first.2
  ∧ (second.1 = true → first.1 = true ∧ first.2 = msg)
  ∧ sm_role first.2 = sm_role msg
  ∧ isIgnoredUserMessage first.2 = false.
Proof.
  intros Hign. unfold injectInto.
  destruct msg as [role [s|parts|] ign info syn]; simpl.
  - destruct (includes s instruction) eqn:Hin; simpl.
    + rewrite Hin. by split_and!.
    + rewrite append_assoc at 1. rewrite <- append_assoc, includes_suffix.
      by split_and!.
  - destruct (existsb (holdsInstruction instruction) parts) eqn:Hex; simpl.
    + rewrite Hex. by split_and!.
    + assert (existsb (holdsInstruction instruction)
                (parts ++ [Some (textPart instruction)]) = true) as ->.
      { rewrite existsb_app. apply orb_true_iff. right. simpl.
        by rewrite includes_self. }
      split_and!; try done.
      unfold isIgnoredUserMessage in Hign |- *. simpl in Hign |- *.
      destruct (negb (bool_decide (role = Some "user"))); [done|].
      destruct (ign || info || syn); [done|].
      rewrite forallb_app. simpl. by rewrite andb_false_r, andb_false_r.
  - by split_and!.
Qed.

Lemma injectSynth_from_length messages instruction n :
  length (injectSynth_from messages instruction n).2 = length messages.
Proof.
  induction n as [|i IH]; [done|]. simpl.
  destruct (messages !! i) as [msg|]; [|done].
  destruct (_ && _); [|done].
  destruct (injectInto msg instruction) as [injected msg']. simpl.
  by rewrite length_insert.
Qed.

(** The loop started at [n] leaves the messages from [n] on alone. *)
Lemma injectSynth_from_above messages instruction n j :
  n ≤ j → (injectSynth_from messages instruction n).2 !! j = messages !! j.
Proof.
  induction n as [|i IH]; intros Hj; [done|]. simpl.
  destruct (messages !! i) as [msg|]; [|apply IH; lia].
  destruct (_ && _); [|apply IH; lia].
  destruct (injectInto msg instruction) as [injected msg']. simpl.
  rewrite list_lookup_insert_ne by lia. done.
Qed.

Lemma injectSynth_from_again messages instruction n :
  n ≤ length messages →
  let first := injectSynth_from messages instruction n in
  let second := injectSynth_from first.2 instruction n in
  second.2 = first.2
  ∧ (second.1 = true → first.1 = true ∧ first.2 = messages).
Proof.
  induction n as [|i IH]; intros Hn; [done|]. cbv zeta. simpl.
  destruct (messages !! i) as [msg|] eqn:Hi.
  2:{ apply lookup_ge_None in Hi. lia. }
  destruct (bool_decide (sm_role msg = Some "user")
            && negb (isIgnoredUserMessage msg)) eqn:Htarget.
  - apply andb_true_iff in Htarget as [Hrole Hign%negb_true_iff].
    destruct (injectInto_again msg instruction Hign) as (Hsame & Htrue & Hrole' & Hign').
    destruct (injectInto msg instruction) as [injected msg'] eqn:Hinto.
    simpl in *. rewrite list_lookup_insert_eq by (by eapply lookup_lt_Some).
    rewrite Hrole', Hrole, Hign'. simpl.
    destruct (injectInto msg' instruction) as [injected' msg''] eqn:Hinto'.
    simpl in *. subst msg''. rewrite list_insert_insert_eq. split; [done|].
    intros ->. destruct Htrue as [-> ->]; [done|]. split; [done|].
    by apply list_insert_id.
  - rewrite injectSynth_from_above, Hi, Htarget by lia. apply IH. lia.
Qed.

(** X17: the instruction is injected once.  [injectSynth] keeps the
    length of the array, and a second call with the same instruction
    right after the first leaves the array as the first call left it; the
    second call returns [true] only in the case where the first call
    returned [true] without changing anything (the content of the message
    it stopped at is neither a string nor an array). *)
Theorem injectSynth_idempotent
    (messages : list SynthMessage) (instruction : string) :
  let first := injectSynth messages instruction in
  let second := injectSynth first.2 instruction in
  length first.2 = length messages
  ∧ second.2 = first.2
  ∧ (second.1 = true → first.1 = true ∧ first.2 = messages).
Proof.
  intros first second. subst second first. unfold injectSynth.
  rewrite injectSynth_from_length. split; [done|].
  by apply injectSynth_from_again.
Qed.

End SynthFacts.

Section GeminiSynthFacts.
Import Js Gemini.

Lemma injectSynthGemini_from_above contents instruction n j :
  n ≤ j → (injectSynthGemini_from contents instruction n).2 !! j = contents !! j.
Proof.
  induction n as [|i IH]; intros Hj; [done|]. simpl.
  destruct (contents !! i) as [content|]; [|apply IH; lia].
  destruct (if bool_decide (gc_role content = Some "user") then gc_parts content
            else None) as [parts|]; [|apply IH; lia].
  destruct (existsb _ parts); [done|]. simpl.
  rewrite list_lookup_insert_ne by lia. done.
Qed.

Lemma injectSynthGemini_from_length contents instruction n :
  length (injectSynthGemini_from contents instruction n).2 = length contents.
Proof.
  induction n as [|i IH]; [done|]. simpl.
  destruct (contents !! i) as [content|]; [|done].
  destruct (if bool_decide (gc_role content = Some "user") then gc_parts content
            else None) as [parts|]; [|done].
  destruct (existsb _ parts); [done|]. simpl. by rewrite length_insert.
Qed.

Lemma injectSynthGemini_from_again contents instruction n :
  instruction ≠ "" →
  n ≤ length contents →
  let first := injectSynthGemini_from contents instruction n in
  injectSynthGemini_from first.2 instruction n = (false, first.2).
Proof.
  intros Hne. induction n as [|i IH]; intros Hn; [done|]. cbv zeta. simpl.
  destruct (contents !! i) as [content|] eqn:Hi.
  2:{ apply lookup_ge_None in Hi. lia. }
  destruct (if bool_decide (gc_role content = Some "user") then gc_parts content
            else None) as [parts|] eqn:Htarget.
  - destruct (existsb (holdsInstruction instruction) parts) eqn:Hex; simpl.
    + by rewrite Hi, Htarget, Hex.
    + rewrite list_lookup_insert_eq by (by eapply lookup_lt_Some).
      cbn [gc_role gc_parts].
      destruct (bool_decide (gc_role content = Some "user")); [|done].
      assert (existsb (holdsInstruction instruction) (parts ++ [textPart instruction])
              = true) as ->; [|done].
      rewrite existsb_app. apply orb_true_iff. right.
      cbn [existsb]. unfold holdsInstruction, textPart. cbn [gp_text].
      by rewrite bool_decide_false, includes_self by done.
  - rewrite injectSynthGemini_from_above, Hi, Htarget by lia. apply IH. lia.
Qed.

(** With the empty instruction, a loop that has injected injects again:
    the part it appends has an empty text, which is falsy and is not
    taken for the instruction. *)
Lemma injectSynthGemini_from_empty contents n :
  n ≤ length contents →
  let first := injectSynthGemini_from contents "" n in
  first.1 = true →
  let second := injectSynthGemini_from first.2 "" n in
  second.1 = true ∧ second.2 ≠ first.2.
Proof.
  induction n as [|i IH]; intros Hn; [done|]. cbv zeta. simpl.
  destruct (contents !! i) as [content|] eqn:Hi.
  2:{ apply lookup_ge_None in Hi. lia. }
  destruct (if bool_decide (gc_role content = Some "user") then gc_parts content
            else None) as [parts|] eqn:Htarget.
  - destruct (existsb (holdsInstruction "") parts) eqn:Hex; simpl; [done|].
    intros _. rewrite list_lookup_insert_eq by (by eapply lookup_lt_Some).
    cbn [gc_role gc_parts].
    destruct (bool_decide (gc_role content = Some "user")); [|done].
    assert (existsb (holdsInstruction "") (parts ++ [textPart ""]) = false) as ->.
    { rewrite existsb_app, Hex. done. }
    split; [done|]. simpl. rewrite list_insert_insert_eq.
    intros Heq. apply (f_equal (λ l, l !! i)) in Heq.
    rewrite !list_lookup_insert_eq in Heq by (by eapply lookup_lt_Some).
    injection Heq as Heq. apply (f_equal length) in Heq.
    rewrite !length_app in Heq. simpl in Heq. lia.
  - rewrite injectSynthGemini_from_above, Hi, Htarget by lia. apply IH. lia.
Qed.

(** X18: the Gemini instruction is injected once, unless it is empty.
    [injectSynthGemini] keeps the number of contents.  For a non-empty
    instruction, a second call right after the first returns [false] and
    leaves the contents as the first call left them.  For the empty
    instruction, a call that injected is followed by a call that injects
    again: the part appended has an empty, falsy text. *)
Theorem injectSynthGemini_idempotent
    (contents : list GeminiContent) (instruction : string) :
  let first := injectSynthGemini contents instruction in
  let second := injectSynthGemini first.2 instruction in
  length first.2 = length contents
  ∧ (instruction ≠ "" → second = (false, first.2))
  ∧ (instruction = "" → first.1 = true → second.1 = true ∧ second.2 ≠ first.2).
Proof.
  intros first second. subst second first. unfold injectSynthGemini.
  rewrite injectSynthGemini_from_length. split; [done|]. split.
  - intros Hne. by apply injectSynthGemini_from_again.
  - intros ->. by apply injectSynthGemini_from_empty.
Qed.

End GeminiSynthFacts.

(** ** The tracker in the three formats *)

Section TrackerFacts.
Import Js SynthInstruction ResponsesFormat Gemini Spec Formats.

Lemma observe_counted seen0 id acc : counted seen0 acc → counted seen0 (observe id acc).
Proof.
  intros [Hsub Hsize]. unfold observe. case_bool_decide as Hin; [done|].
  split; simpl; [set_solver|].
  rewrite size_union by set_solver. rewrite size_singleton. lia.
Qed.

Lemma foldl_counted {A} (f : gset string * nat → A → gset string * nat) seen0 :
  (∀ acc x, counted seen0 acc → counted seen0 (f acc x)) →
  ∀ l acc, counted seen0 acc → counted seen0 (foldl f acc l).
Proof.
  intros Hf l. induction l as [|x l IH]; intros acc Hacc; [done|].
  simpl. apply IH, Hf, Hacc.
Qed.

Lemma countMessage_counted seen0 acc m :
  counted seen0 acc → counted seen0 (countMessage acc m).
Proof.
  intros Hacc. unfold countMessage.
  destruct (if bool_decide (role m = Some "tool") then tool_call_id m else None);
    [by apply observe_counted|].
  case_bool_decide; [|done]. destruct (content m); try done.
  apply foldl_counted; [|done]. intros acc' part Hacc'. unfold countPart.
  destruct (if bool_decide (part_type part = Some "tool_result")
            then tool_use_id part else None); [by apply observe_counted|done].
Qed.

Lemma countItem_counted seen0 acc item :
  counted seen0 acc → counted seen0 (countItem acc item).
Proof.
  intros Hacc. unfold countItem.
  destruct (outputCallId item); [by apply observe_counted|done].
Qed.

Lemma countContentGemini_counted seen0 acc content :
  counted seen0 acc → counted seen0 (countContentGemini acc content).
Proof.
  intros Hacc. unfold countContentGemini. destruct (gc_parts content); [|done].
  apply foldl_counted; [|done]. intros acc' part Hacc'. unfold countPartGemini.
  destruct (functionResponse part); [by apply observe_counted|done].
Qed.

Lemma counted_start seen0 : counted seen0 (seen0, 0).
Proof. split; simpl; [done|lia]. Qed.

Lemma counted_tracker tracker (acc : gset string * nat) :
  trackerOk tracker →
  counted (seenToolResultIds tracker) acc →
  trackerOk {| seenToolResultIds := acc.1;
               toolResultCount := toolResultCount tracker + acc.2 |}
  ∧ seenToolResultIds tracker ⊆ acc.1
  ∧ acc.2 = size acc.1 - size (seenToolResultIds tracker).
Proof.
  unfold trackerOk. intros Hok [Hsub Hsize]. simpl. split_and!; [lia|done|lia].
Qed.

(** X19: in every format the tracker counts distinct ids.  For a tracker
    whose count is the size of its set, each of the three counting
    functions returns the number of ids it added to the set, keeps every
    id already seen, and leaves the count equal to the size of the set. *)
Theorem tracker_counts_distinct (tracker : ToolTracker) :
  trackerOk tracker →
  (∀ messages,
     let r := countToolResults messages tracker in
     trackerOk r.2
     ∧ seenToolResultIds tracker ⊆ seenToolResultIds r.2
     ∧ r.1 = size (seenToolResultIds r.2) - size (seenToolResultIds tracker))
  ∧ (∀ input,
       let r := countToolResultsResponses input tracker in
       trackerOk r.2
       ∧ seenToolResultIds tracker ⊆ seenToolResultIds r.2
       ∧ r.1 = size (seenToolResultIds r.2) - size (seenToolResultIds tracker))
  ∧ (∀ contents,
       let r := countToolResultsGemini contents tracker in
       trackerOk r.2
       ∧ seenToolResultIds tracker ⊆ seenToolResultIds r.2
       ∧ r.1 = size (seenToolResultIds r.2) - size (seenToolResultIds tracker)).
Proof.
  intros Hok. split_and!.
  - intros messages. unfold countToolResults.
    pose proof (foldl_counted countMessage _ (countMessage_counted _) messages _
                  (counted_start (seenToolResultIds tracker))) as Hc.
    destruct (foldl countMessage _ messages) as [seen n].
    apply (counted_tracker tracker (seen, n) Hok Hc).
  - intros input. unfold countToolResultsResponses.
    pose proof (foldl_counted countItem _ (countItem_counted _) input _
                  (counted_start (seenToolResultIds tracker))) as Hc.
    destruct (foldl countItem _ input) as [seen n].
    apply (counted_tracker tracker (seen, n) Hok Hc).
  - intros contents. unfold countToolResultsGemini.
    pose proof (foldl_counted countContentGemini _ (countContentGemini_counted _)
                  contents _ (counted_start (seenToolResultIds tracker))) as Hc.
    destruct (foldl countContentGemini _ contents) as [seen n].
    apply (counted_tracker tracker (seen, n) Hok Hc).
Qed.

Lemma tracker_counts_distinct_witness :
  trackerOk createToolTracker
  ∧ ∀ messages,
      let r := countToolResults messages createToolTracker in
      trackerOk r.2
      ∧ seenToolResultIds createToolTracker ⊆ seenToolResultIds r.2
      ∧ r.1 = size (seenToolResultIds r.2) - size (seenToolResultIds createToolTracker).
Proof.
  assert (trackerOk createToolTracker) as H by reflexivity.
  split; [exact H|]. exact (proj1 (tracker_counts_distinct createToolTracker H)).
Defined.

(** *** The Gemini counter counts again *)

Lemma pseudoId_fresh name seen :
  GeminiOnly seen → pseudoId name seen ∉ seen.
Proof.
  intros Hg Hin. destruct (Hg _ Hin) as (name' & k & Heq & Hk).
  unfold pseudoId in Heq.
  rewrite <- !(append_assoc "gemini:") in Heq.
  change (("gemini:" +:+ name) +:+ String ":" (pretty (size seen))
          = ("gemini:" +:+ name') +:+ String ":" (pretty k)) in Heq.
  apply split_last in Heq as [_ Hp]; [|by apply pretty_nat_occurrences; auto..].
  apply (inj pretty) in Hp. lia.
Qed.

Lemma GeminiOnly_add name seen :
  GeminiOnly seen → GeminiOnly ({[ pseudoId name seen ]} ∪ seen).
Proof.
  intros Hg id Hin.
  assert (size ({[ pseudoId name seen ]} ∪ seen) = S (size seen)) as ->.
  { rewrite size_union by (pose proof (pseudoId_fresh name seen Hg); set_solver).
    by rewrite size_singleton. }
  apply elem_of_union in Hin as [->%elem_of_singleton|Hin].
  - exists name, (size seen). split; [done|lia].
  - destruct (Hg _ Hin) as (name' & k & -> & Hk). exists name', k. split; [done|lia].
Qed.

Lemma countPartGemini_eq seen n part :
  GeminiOnly seen →
  countPartGemini (seen, n) part
  = match functionResponse part with
    | Some response => ({[ pseudoId (funcNameOf response) seen ]} ∪ seen, S n)
    | None => (seen, n)
    end.
Proof.
  intros Hg. unfold countPartGemini.
  destruct (functionResponse part) as [response|]; [|done].
  unfold observe. cbn [fst snd]. by rewrite bool_decide_false by (by apply pseudoId_fresh).
Qed.

Lemma countParts_gemini parts :
  ∀ seen n,
    GeminiOnly seen →
    ∃ seen',
      foldl countPartGemini (seen, n) parts
      = (seen', n + length (List.filter
                              (λ part, bool_decide (is_Some (functionResponse part)))
                              parts))
      ∧ GeminiOnly seen'
      ∧ size seen'
        = size seen + length (List.filter
                                (λ part, bool_decide (is_Some (functionResponse part)))
                                parts).
Proof.
  induction parts as [|part parts IH]; intros seen n Hg.
  { exists seen. simpl. split_and!; [f_equal; lia|done|lia]. }
  cbn [foldl List.filter]. rewrite countPartGemini_eq by done.
  destruct (functionResponse part) as [response|] eqn:Hr.
  - rewrite bool_decide_true by eauto.
    destruct (IH _ (S n) (GeminiOnly_add (funcNameOf response) seen Hg))
      as (seen' & -> & Hg' & Hs).
    exists seen'. cbn [length]. split_and!; [f_equal; lia|done|].
    rewrite Hs.
    rewrite size_union by (pose proof (pseudoId_fresh (funcNameOf response) seen Hg);
                           set_solver).
    rewrite size_singleton. lia.
  - rewrite bool_decide_false by (by intros [? ?]). by apply IH.
Qed.

Lemma countContents_gemini contents :
  ∀ seen n,
    GeminiOnly seen →
    ∃ seen',
      foldl countContentGemini (seen, n) contents
      = (seen', n + functionResponses contents)
      ∧ GeminiOnly seen'
      ∧ size seen' = size seen + functionResponses contents.
Proof.
  induction contents as [|content contents IH]; intros seen n Hg.
  { exists seen. unfold functionResponses. simpl. split_and!; [f_equal; lia|done|lia]. }
  cbn [foldl]. unfold functionResponses. rewrite fmap_cons.
  cbn [sum_list sum_list_with]. fold (functionResponses contents). unfold id.
  unfold countContentGemini at 2.
  destruct (gc_parts content) as [parts|]; cbn [default from_option]; unfold id.
  - destruct (countParts_gemini parts seen n Hg) as (seen1 & -> & Hg1 & Hs1).
    destruct (IH seen1 (n + length (List.filter
                                      (λ part, bool_decide (is_Some (functionResponse part)))
                                      parts)) Hg1) as (seen2 & -> & Hg2 & Hs2).
    exists seen2. split_and!; [f_equal; lia|done|lia].
  - destruct (IH seen n Hg) as (seen2 & -> & Hg2 & Hs2).
    exists seen2. cbn [length List.filter]. split_and!; [f_equal; lia|done|lia].
Qed.

(** X20: the Gemini counter counts every function response on every
    call.  For a tracker that only the Gemini counter has fed, a call
    counts each part with a function response as new, whether or not an
    earlier call has counted the same part: the pseudo id is numbered by
    the size of the set, which no id in the set carries.  So the same
    contents sent again are counted in full again, whereas the chat
    counter counts nothing when the same messages are sent again. *)
Theorem gemini_counts_every_time
    (contents : list GeminiContent) (tracker : ToolTracker) :
  GeminiOnly (seenToolResultIds tracker) →
  let first := countToolResultsGemini contents tracker in
  let second := countToolResultsGemini contents first.2 in
  first.1 = functionResponses contents
  ∧ GeminiOnly (seenToolResultIds first.2)
  ∧ size (seenToolResultIds first.2)
    = size (seenToolResultIds tracker) + functionResponses contents
  ∧ second.1 = functionResponses contents
  ∧ ∀ messages chatTracker,
      (countToolResults messages (countToolResults messages chatTracker).2).1 = 0.
Proof.
  intros Hg first second.
  assert (∀ t, GeminiOnly (seenToolResultIds t) →
               let r := countToolResultsGemini contents t in
               r.1 = functionResponses contents
               ∧ GeminiOnly (seenToolResultIds r.2)
               ∧ size (seenToolResultIds r.2)
                 = size (seenToolResultIds t) + functionResponses contents) as Hcall.
  { intros t Ht. unfold countToolResultsGemini.
    destruct (countContents_gemini contents (seenToolResultIds t) 0 Ht)
      as (seen' & -> & Hg' & Hs).
    by split_and!. }
  destruct (Hcall tracker Hg) as (H1 & H2 & H3). fold first in H1, H2, H3.
  destruct (Hcall first.2 H2) as (H4 & _). fold second in H4.
  split_and!; try done.
  intros messages chatTracker. rewrite !countToolResults_spec. simpl.
  replace (seenToolResultIds chatTracker ∪ list_to_set (requestResultIds messages)
           ∪ list_to_set (requestResultIds messages))
    with (seenToolResultIds chatTracker ∪ list_to_set (requestResultIds messages))
    by set_solver.
  lia.
Qed.

Lemma gemini_counts_every_time_witness :
  let contents :=
    [ {| gc_role := Some "user";
         gc_parts :=
           Some [ {| functionResponse := Some {| fr_name := Some "Read" |};
                     gp_text := None |};
                  {| functionResponse := None; gp_text := Some "hello" |} ] |} ] in
  GeminiOnly (seenToolResultIds createToolTracker)
  ∧ (countToolResultsGemini contents createToolTracker).1 = functionResponses contents.
Proof.
  intros contents.
  assert (GeminiOnly (seenToolResultIds createToolTracker)) as H
    by (by intros id ?%elem_of_empty).
  split; [exact H|].
  exact (proj1 (gemini_counts_every_time contents createToolTracker H)).
Defined.

End TrackerFacts.

(** ** The Responses format: from the outputs extracted to the outputs replaced *)

Section ResponsesFacts.
Import Js OpenaiResponses ResponsesFormat Spec.

Lemma lower_char_idem c : lower_char (lower_char c) = lower_char c.
Proof. destruct c as [[] [] [] [] [] [] [] []]; reflexivity. Qed.

Lemma toLowerCase_idem s : toLowerCase (toLowerCase s) = toLowerCase s.
Proof. induction s as [|c s IH]; [done|]. simpl. by rewrite lower_char_idem, IH. Qed.

Lemma extract_loop toolParameters data :
  ∀ outputs,
    to_id <$> foldl (extractStep toolParameters) outputs data
    = (to_id <$> outputs) ++ (toLowerCase <$> omap outputCallId data).
Proof.
  induction data as [|item data IH]; intros outputs; [by rewrite app_nil_r|].
  cbn [foldl omap list_omap]. rewrite IH. unfold extractStep.
  destruct (outputCallId item) as [c|]; [|done].
  rewrite fmap_app, fmap_cons, <- app_assoc. done.
Qed.

Lemma isTarget_withOutput lower item prunedMessage :
  isTarget lower (withOutput item prunedMessage) = isTarget lower item.
Proof. done. Qed.

Lemma replace_fold prunedMessage ids :
  ∀ data,
    foldl (λ d id, (replaceToolOutput d id prunedMessage).2) data ids
    = (λ item, if existsb (λ id, isTarget (toLowerCase id) item) ids
               then withOutput item prunedMessage else item) <$> data.
Proof.
  induction ids as [|id ids IH]; intros data.
  { simpl. by rewrite list_fmap_id. }
  cbn [foldl]. rewrite IH. unfold replaceToolOutput. rewrite replaceLoop_spec.
  cbn [snd]. rewrite <- list_fmap_compose. apply list_fmap_ext. intros i item _.
  cbn [existsb compose]. destruct (isTarget (toLowerCase id) item) eqn:Hid; cbn [orb].
  - by destruct (existsb _ ids).
  - done.
Qed.

Lemma outputCallId_target data item :
  item ∈ data →
  existsb (λ id, isTarget (toLowerCase id) item)
          (toLowerCase <$> omap outputCallId data)
  = bool_decide (is_Some (outputCallId item)).
Proof.
  intros Hin. apply eq_true_iff_eq. rewrite bool_decide_eq_true.
  rewrite <- Is_true_true, existb_True, Exists_exists. split.
  - intros (id & (c' & -> & Hc')%list_elem_of_fmap & Htarget%Is_true_true).
    apply list_elem_of_omap in Hc' as (item' & _ & Hc').
    unfold outputCallId in Hc' |- *. unfold isTarget in Htarget.
    apply andb_true_iff in Htarget as [Htype%bool_decide_eq_true Hcall%bool_decide_eq_true].
    rewrite bool_decide_true by done.
    destruct (call_id item) as [c|]; [|done]. simpl in Hcall. injection Hcall as Hcall.
    destruct (decide (c = "")) as [->|Hempty];
      [|rewrite bool_decide_false by done; by eexists].
    exfalso.
    destruct (bool_decide (item_type item' = Some "function_call_output")); [|done].
    destruct (call_id item') as [c''|]; [|done].
    destruct (decide (c'' = "")) as [->|Hne];
      [by rewrite bool_decide_true in Hc' by done|].
    rewrite bool_decide_false in Hc' by done. injection Hc' as ->.
    symmetry in Hcall. simpl in Hcall.
    by apply toLowerCase_empty, toLowerCase_empty in Hcall.
  - intros [c Hc]. exists (toLowerCase c). split.
    + apply list_elem_of_fmap. exists c. split; [done|].
      apply list_elem_of_omap. eauto.
    + apply Is_true_true. unfold outputCallId in Hc. unfold isTarget.
      case_bool_decide as Htype; [|done]. simpl.
      destruct (call_id item) as [c'|]; [|done].
      case_bool_decide; [done|]. injection Hc as ->. simpl.
      by rewrite toLowerCase_idem, bool_decide_true.
Qed.

(** X21: replacing what was extracted replaces every tool output and
    nothing else.  [extractToolOutputs] lists, in order, the lower-cased
    call id of every item of type function_call_output whose call id is
    truthy.  Replacing the output for each id listed, one call of
    [replaceToolOutput] after the other, gives the input back with the
    output of exactly these items replaced: the length is the same, every
    other item is untouched, [hasToolOutputs] answers as before, and each
    of the calls finds something to replace. *)
Theorem extract_replace_round_trip
    (data : list Item) (toolParameters : gmap string ToolParameterEntry)
    (prunedMessage : string) :
  let outputs := extractToolOutputs data toolParameters in
  let data' :=
    foldl (λ d id, (replaceToolOutput d id prunedMessage).2) data (to_id <$> outputs) in
  to_id <$> outputs = toLowerCase <$> omap outputCallId data
  ∧ length data' = length data
  ∧ (∀ i item, data !! i = Some item →
       data' !! i = Some (if bool_decide (is_Some (outputCallId item))
                          then withOutput item prunedMessage else item))
  ∧ hasToolOutputs data' = hasToolOutputs data
  ∧ (∀ id, id ∈ to_id <$> outputs → (replaceToolOutput data id prunedMessage).1 = true).
Proof.
  intros outputs data'.
  assert (to_id <$> outputs = toLowerCase <$> omap outputCallId data) as Hids.
  { subst outputs. unfold extractToolOutputs. by rewrite extract_loop. }
  assert (data' = (λ item, if bool_decide (is_Some (outputCallId item))
                           then withOutput item prunedMessage else item) <$> data)
    as Hdata.
  { subst data'. rewrite replace_fold, Hids. apply list_fmap_ext.
    intros i item Hi. rewrite outputCallId_target; [done|].
    by eapply list_elem_of_lookup_2. }
  split; [done|]. split; [by rewrite Hdata, length_fmap|]. split.
  { intros i item Hi. by rewrite Hdata, list_lookup_fmap, Hi. }
  split.
  - rewrite Hdata. unfold hasToolOutputs. clear.
    induction data as [|item data IH]; [done|]. rewrite fmap_cons. simpl.
    rewrite IH. f_equal. by destruct (bool_decide (is_Some (outputCallId item))).
  - intros id. rewrite Hids. intros (c & -> & Hc)%list_elem_of_fmap.
    apply list_elem_of_omap in Hc as (item & Hin & Hc).
    unfold replaceToolOutput. rewrite replaceLoop_spec. simpl.
    apply Is_true_true, existb_True, Exists_exists. exists item. split; [done|].
    apply Is_true_true. unfold outputCallId in Hc. unfold isTarget.
    case_bool_decide as Htype; [|done]. simpl.
    destruct (call_id item) as [c'|]; [|done].
    case_bool_decide; [done|]. injection Hc as ->. simpl.
    by rewrite toLowerCase_idem, bool_decide_true.
Qed.

End ResponsesFacts.

(** ** The resolver: what it returns, and the ids of a range *)

Section ResolverResult.
Import Js MatchResolver Spec.
Variable partial_ratio : string → string → Z.

Lemma findExactMatches_from_valid l s :
  ∀ i0 r,
    r ∈ findExactMatches_from i0 l s →
    ∃ m, i0 ≤ messageIndex r
         ∧ l !! (messageIndex r - i0) = Some m
         ∧ info_id m = messageId r
         ∧ includes (extractMessageContent m) s = true.
Proof.
  induction l as [|msg l IH]; intros i0 r Hr; [by apply elem_of_nil in Hr|].
  simpl in Hr. destruct (includes (extractMessageContent msg) s) eqn:Hinc.
  - apply elem_of_cons in Hr as [->|Hr].
    + exists msg. simpl. rewrite Nat.sub_diag. by split_and!.
    + destruct (IH _ _ Hr) as (m & Hle & Hm & Hid & Hin). exists m.
      split; [lia|]. split; [|done].
      replace (messageIndex r - i0) with (S (messageIndex r - S i0)) by lia. done.
  - destruct (IH _ _ Hr) as (m & Hle & Hm & Hid & Hin). exists m.
    split; [lia|]. split; [|done].
    replace (messageIndex r - i0) with (S (messageIndex r - S i0)) by lia. done.
Qed.

Lemma findFuzzyMatches_from_valid l s minScore :
  ∀ i0 r,
    r ∈ findFuzzyMatches_from partial_ratio i0 l s minScore →
    ∃ m, i0 ≤ messageIndex r
         ∧ l !! (messageIndex r - i0) = Some m
         ∧ info_id m = messageId r
         ∧ (minScore ≤ partial_ratio s (extractMessageContent m))%Z.
Proof.
  induction l as [|msg l IH]; intros i0 r Hr; [by apply elem_of_nil in Hr|].
  simpl in Hr. case_bool_decide as Hscore.
  - apply elem_of_cons in Hr as [->|Hr].
    + exists msg. simpl. rewrite Nat.sub_diag. by split_and!.
    + destruct (IH _ _ Hr) as (m & Hle & Hm & Hid & Hin). exists m.
      split; [lia|]. split; [|done].
      replace (messageIndex r - i0) with (S (messageIndex r - S i0)) by lia. done.
  - destruct (IH _ _ Hr) as (m & Hle & Hm & Hid & Hin). exists m.
    split; [lia|]. split; [|done].
    replace (messageIndex r - i0) with (S (messageIndex r - S i0)) by lia. done.
Qed.

Lemma insertByScore_elem x l r : r ∈ insertByScore x l → r = x ∨ r ∈ l.
Proof.
  induction l as [|y l IH]; simpl.
  - intros ->%list_elem_of_singleton. by left.
  - case_bool_decide.
    + intros [->|Hr]%elem_of_cons; [right; by left|].
      destruct (IH Hr) as [->|?]; [by left|right; by right].
    + intros [->|Hr]%elem_of_cons; [by left|by right].
Qed.

Lemma sortByScore_elem l r : r ∈ sortByScore l → r ∈ l.
Proof.
  induction l as [|x l IH]; [done|]. simpl.
  intros [->|Hr]%insertByScore_elem; [by left|right; by apply IH].
Qed.

Lemma searchable_lookup (messages : list WithParts) i m :
  (if bool_decide (1 < length messages)
   then take (length messages - 1) messages else messages) !! i = Some m →
  messages !! i = Some m.
Proof.
  case_bool_decide; [|done]. by intros [? _]%lookup_take_Some.
Qed.

(** X22: the resolver returns a message of the transcript that matches.
    Whatever the scorer, when [findStringInMessages] returns, the index
    it returns is the index of a message of the transcript, the id is the
    id of that message, and the message contains the search string or
    scores at least the minimum score.  On an empty transcript it fails
    with the not-found error. *)
Theorem resolver_result_valid
    (messages : list WithParts) (searchString : string)
    (stringType : StringType) (fuzzyConfig : FuzzyConfig) (found : Found) :
  findStringInMessages partial_ratio messages searchString stringType fuzzyConfig
  = Returned found →
  messages ≠ []
  ∧ ∃ m, messages !! f_messageIndex found = Some m
         ∧ info_id m = f_messageId found
         ∧ (Contains searchString m
            ∨ (minScore fuzzyConfig
               ≤ partial_ratio searchString (extractMessageContent m))%Z).
Proof.
  unfold findStringInMessages. cbv zeta.
  set (searchableMessages := if bool_decide (1 < length messages)
                             then take (length messages - 1) messages else messages).
  unfold findExactMatches, findFuzzyMatches.
  assert (∀ r, r ∈ findExactMatches_from 0 searchableMessages searchString →
               ∃ m, messages !! messageIndex r = Some m ∧ info_id m = messageId r
                    ∧ Contains searchString m) as Hexact.
  { intros r Hr. apply findExactMatches_from_valid in Hr as (m & _ & Hm & Hid & Hin).
    rewrite Nat.sub_0_r in Hm. apply searchable_lookup in Hm.
    exists m. split_and!; [done..|]. by apply Contains_includes. }
  assert (∀ r, r ∈ findFuzzyMatches_from partial_ratio 0 searchableMessages searchString
                     (minScore fuzzyConfig) →
               ∃ m, messages !! messageIndex r = Some m ∧ info_id m = messageId r
                    ∧ (minScore fuzzyConfig
                       ≤ partial_ratio searchString (extractMessageContent m))%Z)
    as Hfuzzy.
  { intros r Hr. apply findFuzzyMatches_from_valid in Hr as (m & _ & Hm & Hid & Hin).
    rewrite Nat.sub_0_r in Hm. apply searchable_lookup in Hm. eauto. }
  assert (∀ r, (∃ m, messages !! messageIndex r = Some m ∧ info_id m = messageId r
                     ∧ (Contains searchString m
                        ∨ (minScore fuzzyConfig
                           ≤ partial_ratio searchString (extractMessageContent m))%Z)) →
               messages ≠ []
               ∧ ∃ m, messages !! messageIndex r = Some m ∧ info_id m = messageId r
                      ∧ (Contains searchString m
                         ∨ (minScore fuzzyConfig
                            ≤ partial_ratio searchString (extractMessageContent m))%Z))
    as Hwrap.
  { intros r (m & Hm & Hrest). split; [by intros ->|eauto]. }
  destruct (findExactMatches_from 0 searchableMessages searchString)
    as [|r1 [|r2 rest]] eqn:He.
  - destruct (findFuzzyMatches_from partial_ratio 0 searchableMessages searchString
                (minScore fuzzyConfig)) as [|f1 fs] eqn:Hf.
    + destruct (last messages) as [lastMessage|] eqn:Hlast; [|done].
      destruct (includes (extractMessageContent lastMessage) searchString) eqn:Hinc;
        [|done].
      intros [= <-]. simpl. split; [by intros ->|].
      exists lastMessage. split_and!; [|done|left; by apply Contains_includes].
      rewrite last_lookup in Hlast.
      by replace (length messages - 1) with (pred (length messages)) by lia.
    + destruct (sortByScore (f1 :: fs)) as [|best [|secondBest rest]] eqn:Hsort; [done| |].
      * intros [= <-]. simpl. apply (Hwrap best).
        destruct (Hfuzzy best) as (m & ? & ? & ?); [|eauto].
        apply sortByScore_elem. rewrite Hsort. by left.
      * case_bool_decide; [done|]. intros [= <-]. simpl. apply (Hwrap best).
        destruct (Hfuzzy best) as (m & ? & ? & ?); [|eauto].
        apply sortByScore_elem. rewrite Hsort. by left.
  - intros [= <-]. simpl. apply (Hwrap r1).
    destruct (Hexact r1) as (m & ? & ? & ?); [by left|eauto].
  - done.
Qed.

End ResolverResult.

Section ResolverResultWitness.
Import Js MatchResolver Spec.

Lemma resolver_result_valid_witness :
  let found := {| f_messageId := "b"; f_messageIndex := 1 |} in
  findStringInMessages Examples.partial_ratio_model Examples.plainTranscript
    "gamma" startString DEFAULT_FUZZY_CONFIG = Returned found
  ∧ Examples.plainTranscript ≠ [].
Proof.
  intros found.
  assert (findStringInMessages Examples.partial_ratio_model Examples.plainTranscript
            "gamma" startString DEFAULT_FUZZY_CONFIG = Returned found) as H
    by (vm_compute; reflexivity).
  split; [exact H|].
  exact (proj1 (resolver_result_valid Examples.partial_ratio_model
                  Examples.plainTranscript "gamma" startString DEFAULT_FUZZY_CONFIG
                  found H)).
Defined.

End ResolverResultWitness.

Section RangeFacts.
Import Js MatchResolver MatchRange Ranges.

Lemma pushNew_fold (l : list string) :
  ∀ acc, NoDup acc →
    NoDup (foldl pushNew acc l)
    ∧ (∀ id, id ∈ foldl pushNew acc l ↔ id ∈ acc ∨ id ∈ l)
    ∧ ∃ new, foldl pushNew acc l = acc ++ new ∧ new `sublist_of` l.
Proof.
  induction l as [|x l IH]; intros acc Hnd.
  - simpl. split; [done|]. split.
    + intros id. rewrite elem_of_nil. naive_solver.
    + exists []. by rewrite app_nil_r.
  - simpl. unfold pushNew at 2 4 6. case_bool_decide as Hx.
    + destruct (IH acc Hnd) as (Hnd' & Hin & new & Heq & Hsub).
      split; [done|]. split.
      * intros id. rewrite Hin, elem_of_cons. naive_solver.
      * exists new. split; [done|]. by apply sublist_cons.
    + assert (NoDup (acc ++ [x])) as Hnd2.
      { apply NoDup_app. split; [done|]. split; [|apply NoDup_singleton].
        intros y Hy ->%list_elem_of_singleton. done. }
      destruct (IH _ Hnd2) as (Hnd' & Hin & new & Heq & Hsub).
      split; [done|]. split.
      * intros id. rewrite Hin, elem_of_app, list_elem_of_singleton, elem_of_cons.
        naive_solver.
      * exists (x :: new). split; [by rewrite Heq, <- app_assoc|].
        by apply sublist_skip.
Qed.

Lemma filter_every (P : string → Prop) `{!∀ x, Decision (P x)} (l : list string) :
  (∀ x, P x) → filter P l = l.
Proof.
  intros HP. induction l as [|x l IH]; [done|].
  by rewrite filter_cons_True, IH by done.
Qed.

Lemma firstOccurrences_elem (l : list string) x :
  x ∈ firstOccurrences l ↔ x ∈ l.
Proof.
  induction l as [|y l IH]; [done|]. cbn [firstOccurrences].
  rewrite !elem_of_cons, list_elem_of_filter, IH.
  destruct (decide (x = y)); naive_solver.
Qed.

Lemma firstOccurrences_app (l1 l2 : list string) :
  firstOccurrences (l1 ++ l2)
  = firstOccurrences l1 ++ filter (λ y, y ∉ l1) (firstOccurrences l2).
Proof.
  induction l1 as [|x l1 IH].
  - cbn [app firstOccurrences]. symmetry. apply filter_every.
    intros y. apply not_elem_of_nil.
  - cbn [app firstOccurrences]. rewrite IH, filter_app, list_filter_filter.
    do 2 f_equal. apply list_filter_iff. intros y. rewrite elem_of_cons. naive_solver.
Qed.

Lemma pushNew_firstOccurrences (l : list string) :
  ∀ acc, foldl pushNew acc l = acc ++ filter (λ y, y ∉ acc) (firstOccurrences l).
Proof.
  induction l as [|x l IH]; intros acc.
  - cbn [foldl firstOccurrences]. by rewrite filter_nil, app_nil_r.
  - cbn [foldl firstOccurrences]. rewrite IH. unfold pushNew.
    destruct (decide (x ∈ acc)) as [Hx|Hx].
    + rewrite (bool_decide_true _ Hx), filter_cons_False by naive_solver.
      f_equal. rewrite list_filter_filter. apply list_filter_iff.
      intros y. destruct (decide (y = x)) as [->|]; naive_solver.
    + rewrite (bool_decide_false _ Hx), filter_cons_True by done.
      rewrite <- app_assoc. cbn [app]. do 2 f_equal.
      rewrite list_filter_filter. apply list_filter_iff.
      intros y. rewrite elem_of_app, list_elem_of_singleton. naive_solver.
Qed.

Lemma pushNew_order (l : list string) :
  foldl pushNew [] l = firstOccurrences l
  ∧ ∀ before x after,
      l = before ++ x :: after → x ∉ before →
      ∃ front back,
        firstOccurrences l = front ++ x :: back
        ∧ (∀ y, y ∈ front ↔ y ∈ before)
        ∧ (∀ y, y ∈ back ↔ y ∈ after ∧ (y ∉ before) ∧ y ≠ x).
Proof.
  split.
  - rewrite pushNew_firstOccurrences. cbn [app]. apply filter_every.
    intros y. apply not_elem_of_nil.
  - intros before x after -> Hx. rewrite firstOccurrences_app.
    cbn [firstOccurrences]. rewrite filter_cons_True by done.
    eexists _, _. split; [reflexivity|]. split.
    + apply firstOccurrences_elem.
    + intros y. rewrite !list_elem_of_filter, firstOccurrences_elem. naive_solver.
Qed.

Lemma at_index_lookup {A} (l : list A) (i : nat) :
  at_index l (Z.of_nat i) = l !! i.
Proof.
  unfold at_index. destruct (Z.ltb_spec (Z.of_nat i) 0); [lia|].
  by rewrite Nat2Z.id.
Qed.

Lemma collectMessageIds_loop_in (messages : list WithParts) (count : nat) :
  ∀ (i : nat) acc,
    i + count ≤ length messages →
    collectMessageIds_loop messages (Z.of_nat i) count acc
    = Returned (foldl pushNew acc (info_id <$> take count (drop i messages))).
Proof.
  induction count as [|count IH]; intros i acc Hlen; [done|].
  cbn [collectMessageIds_loop]. rewrite at_index_lookup.
  destruct (messages !! i) as [msg|] eqn:Hmsg.
  - replace (Z.of_nat i + 1)%Z with (Z.of_nat (S i)) by lia.
    rewrite IH by lia.
    rewrite (drop_S _ _ _ Hmsg). by cbn [take fmap list_fmap foldl].
  - apply lookup_ge_None in Hmsg. lia.
Qed.

Lemma collectMessageIds_loop_out (messages : list WithParts) (count : nat) :
  ∀ (i : nat) acc,
    0 < count → length messages < i + count →
    collectMessageIds_loop messages (Z.of_nat i) count acc = Threw undefinedMessage.
Proof.
  induction count as [|count IH]; intros i acc Hpos Hlen; [lia|].
  cbn [collectMessageIds_loop]. rewrite at_index_lookup.
  destruct (messages !! i) as [msg|] eqn:Hmsg; [|done].
  apply lookup_lt_Some in Hmsg.
  replace (Z.of_nat i + 1)%Z with (Z.of_nat (S i)) by lia.
  apply IH; lia.
Qed.

Lemma collectPart_fold (parts : list CallPart) :
  ∀ acc,
    foldl collectPart acc parts
    = foldl pushNew acc
        (omap (λ part, if bool_decide (cp_type part = Some "tool")
                       then cp_callID part else None) parts).
Proof.
  induction parts as [|part parts IH]; intros acc; [done|].
  cbn [foldl omap list_omap]. rewrite IH. unfold collectPart at 1.
  by destruct (if bool_decide (cp_type part = Some "tool") then cp_callID part else None).
Qed.

Lemma collectToolIds_loop_in (messages : list CallMessage) (count : nat) :
  ∀ (i : nat) acc,
    i + count ≤ length messages →
    collectToolIds_loop messages (Z.of_nat i) count acc
    = Returned (foldl pushNew acc (take count (drop i messages) ≫= toolCallIDs)).
Proof.
  induction count as [|count IH]; intros i acc Hlen; [done|].
  cbn [collectToolIds_loop]. rewrite at_index_lookup.
  destruct (messages !! i) as [msg|] eqn:Hmsg.
  - replace (Z.of_nat i + 1)%Z with (Z.of_nat (S i)) by lia.
    rewrite IH by lia.
    rewrite (drop_S _ _ _ Hmsg). cbn [take]. rewrite bind_cons, foldl_app.
    by rewrite collectPart_fold.
  - apply lookup_ge_None in Hmsg. lia.
Qed.

Lemma collectToolIds_loop_out (messages : list CallMessage) (count : nat) :
  ∀ (i : nat) acc,
    0 < count → length messages < i + count →
    collectToolIds_loop messages (Z.of_nat i) count acc = Threw undefinedMessage.
Proof.
  induction count as [|count IH]; intros i acc Hpos Hlen; [lia|].
  cbn [collectToolIds_loop]. rewrite at_index_lookup.
  destruct (messages !! i) as [msg|] eqn:Hmsg; [|done].
  apply lookup_lt_Some in Hmsg.
  replace (Z.of_nat i + 1)%Z with (Z.of_nat (S i)) by lia.
  apply IH; lia.
Qed.

(** X23: the message ids of a range.  For integer bounds,
    [collectMessageIdsInRange] returns exactly when the range is empty
    or lies within the transcript; it then returns the ids of the
    messages of the range, each once, in the order of their first
    occurrence: where an id occurs first in the range, the ids listed
    before it are exactly those that occur before it in the range.  In
    every other case it throws the [TypeError] of reading
    a message that is not there. *)
Theorem collectMessageIdsInRange_spec
    (messages : list WithParts) (startIndex endIndex : Z) :
  (rangeFits messages startIndex endIndex →
     ∃ ids, collectMessageIdsInRange messages startIndex endIndex = Returned ids
            ∧ ids = firstOccurrences (info_id <$> rangeOf messages startIndex endIndex)
            ∧ (∀ before id after,
                 info_id <$> rangeOf messages startIndex endIndex
                 = before ++ id :: after →
                 id ∉ before →
                 ∃ front back,
                   ids = front ++ id :: back
                   ∧ (∀ other, other ∈ front ↔ other ∈ before)
                   ∧ (∀ other, other ∈ back
                               ↔ other ∈ after ∧ (other ∉ before) ∧ other ≠ id))
            ∧ NoDup ids
            ∧ (∀ id, id ∈ ids
                     ↔ id ∈ info_id <$> rangeOf messages startIndex endIndex)
            ∧ ids `sublist_of` (info_id <$> rangeOf messages startIndex endIndex))
  ∧ (¬ rangeFits messages startIndex endIndex →
     collectMessageIdsInRange messages startIndex endIndex = Threw undefinedMessage).
Proof.
  unfold collectMessageIdsInRange, rangeFits, rangeOf, turns. split.
  - intros Hfits.
    assert (∃ ids, collectMessageIds_loop messages startIndex
                     (Z.to_nat (endIndex - startIndex + 1)) []
                   = Returned
                       (foldl pushNew []
                          (info_id <$> take (Z.to_nat (endIndex - startIndex + 1))
                                            (drop (Z.to_nat startIndex) messages)))
                   ∧ ids = foldl pushNew []
                          (info_id <$> take (Z.to_nat (endIndex - startIndex + 1))
                                            (drop (Z.to_nat startIndex) messages)))
      as (ids & Hrun & Hids).
    { eexists. split; [|reflexivity].
      destruct (decide (endIndex < startIndex)%Z) as [Hempty|Hsome].
      - by replace (Z.to_nat (endIndex - startIndex + 1)) with 0 by lia.
      - destruct Hfits as [?|[Hlo Hhi]]; [lia|].
        rewrite <- (Z2Nat.id startIndex) at 1 by lia.
        apply collectMessageIds_loop_in. lia. }
    exists ids. rewrite Hrun, <- Hids. split; [done|].
    destruct (pushNew_order
                (info_id <$> take (Z.to_nat (endIndex - startIndex + 1))
                                  (drop (Z.to_nat startIndex) messages)))
      as [Hfirst Horder].
    rewrite <- Hids in Hfirst. split; [exact Hfirst|].
    split; [rewrite Hfirst; exact Horder|].
    destruct (pushNew_fold
                (info_id <$> take (Z.to_nat (endIndex - startIndex + 1))
                                  (drop (Z.to_nat startIndex) messages))
                [] (NoDup_nil_2)) as (Hnd & Hin & new & Heq & Hsub).
    rewrite <- Hids in Hnd, Hin, Heq. split; [done|]. split.
    + intros id. rewrite Hin, elem_of_nil. naive_solver.
    + by rewrite Heq.
  - intros Hout.
    assert (startIndex ≤ endIndex)%Z as Hle by (apply Z.nlt_ge; intros ?; apply Hout; by left).
    destruct (decide (startIndex < 0)%Z) as [Hneg|Hpos].
    + replace (Z.to_nat (endIndex - startIndex + 1))
        with (S (Z.to_nat (endIndex - startIndex))) by lia.
      cbn [collectMessageIds_loop]. unfold at_index.
      by destruct (Z.ltb_spec startIndex 0); [|lia].
    + rewrite <- (Z2Nat.id startIndex) at 1 by lia.
      apply collectMessageIds_loop_out; [lia|].
      assert (Z.of_nat (length messages) ≤ endIndex)%Z.
      { apply Z.nlt_ge. intros ?. apply Hout. right. lia. }
      lia.
Qed.

(** X24: the tool call ids of a range.  For integer bounds,
    [collectToolIdsInRange] returns exactly when the range is empty or
    lies within the transcript; it then returns the call ids of the tool
    parts of the messages of the range, each once, in the order of their
    first occurrence (where a call id occurs first, the ids listed before
    it are exactly those that occur before it); parts of another type and parts without a call id
    give nothing.  In every other case it throws the [TypeError] of
    reading a message that is not there. *)
Theorem collectToolIdsInRange_spec
    (messages : list CallMessage) (startIndex endIndex : Z) :
  (rangeFits messages startIndex endIndex →
     ∃ ids, collectToolIdsInRange messages startIndex endIndex = Returned ids
            ∧ ids = firstOccurrences (rangeOf messages startIndex endIndex ≫= toolCallIDs)
            ∧ (∀ before id after,
                 rangeOf messages startIndex endIndex ≫= toolCallIDs
                 = before ++ id :: after →
                 id ∉ before →
                 ∃ front back,
                   ids = front ++ id :: back
                   ∧ (∀ other, other ∈ front ↔ other ∈ before)
                   ∧ (∀ other, other ∈ back
                               ↔ other ∈ after ∧ (other ∉ before) ∧ other ≠ id))
            ∧ NoDup ids
            ∧ (∀ id, id ∈ ids
                     ↔ ∃ msg part,
                         msg ∈ rangeOf messages startIndex endIndex
                         ∧ part ∈ default [] (cm_parts msg)
                         ∧ cp_type part = Some "tool"
                         ∧ cp_callID part = Some id)
            ∧ ids `sublist_of` (rangeOf messages startIndex endIndex ≫= toolCallIDs))
  ∧ (¬ rangeFits messages startIndex endIndex →
     collectToolIdsInRange messages startIndex endIndex = Threw undefinedMessage).
Proof.
  unfold collectToolIdsInRange, rangeFits, rangeOf, turns. split.
  - intros Hfits.
    assert (∃ ids, collectToolIds_loop messages startIndex
                     (Z.to_nat (endIndex - startIndex + 1)) []
                   = Returned
                       (foldl pushNew []
                          (take (Z.to_nat (endIndex - startIndex + 1))
                                (drop (Z.to_nat startIndex) messages) ≫= toolCallIDs))
                   ∧ ids = foldl pushNew []
                          (take (Z.to_nat (endIndex - startIndex + 1))
                                (drop (Z.to_nat startIndex) messages) ≫= toolCallIDs))
      as (ids & Hrun & Hids).
    { eexists. split; [|reflexivity].
      destruct (decide (endIndex < startIndex)%Z) as [Hempty|Hsome].
      - by replace (Z.to_nat (endIndex - startIndex + 1)) with 0 by lia.
      - destruct Hfits as [?|[Hlo Hhi]]; [lia|].
        rewrite <- (Z2Nat.id startIndex) at 1 by lia.
        apply collectToolIds_loop_in. lia. }
    exists ids. rewrite Hrun, <- Hids. split; [done|].
    destruct (pushNew_order
                (take (Z.to_nat (endIndex - startIndex + 1))
                      (drop (Z.to_nat startIndex) messages) ≫= toolCallIDs))
      as [Hfirst Horder].
    rewrite <- Hids in Hfirst. split; [exact Hfirst|].
    split; [rewrite Hfirst; exact Horder|].
    destruct (pushNew_fold
                (take (Z.to_nat (endIndex - startIndex + 1))
                      (drop (Z.to_nat startIndex) messages) ≫= toolCallIDs)
                [] (NoDup_nil_2)) as (Hnd & Hin & new & Heq & Hsub).
    rewrite <- Hids in Hnd, Hin, Heq. split; [done|]. split.
    + intros id. rewrite Hin, elem_of_nil. split.
      * intros [[]|Hid]. apply list_elem_of_bind in Hid as (msg & Hid & Hmsg).
        unfold toolCallIDs in Hid. apply list_elem_of_omap in Hid as (part & Hpart & Hcall).
        exists msg, part. split; [done|]. split; [done|].
        by case_bool_decide.
      * intros (msg & part & Hmsg & Hpart & Htype & Hcall). right.
        apply list_elem_of_bind. exists msg. split; [|done].
        unfold toolCallIDs. apply list_elem_of_omap. exists part. split; [done|].
        by rewrite bool_decide_true.
    + by rewrite Heq.
  - intros Hout.
    assert (startIndex ≤ endIndex)%Z as Hle by (apply Z.nlt_ge; intros ?; apply Hout; by left).
    destruct (decide (startIndex < 0)%Z) as [Hneg|Hpos].
    + replace (Z.to_nat (endIndex - startIndex + 1))
        with (S (Z.to_nat (endIndex - startIndex))) by lia.
      cbn [collectToolIds_loop]. unfold at_index.
      by destruct (Z.ltb_spec startIndex 0); [|lia].
    + rewrite <- (Z2Nat.id startIndex) at 1 by lia.
      apply collectToolIds_loop_out; [lia|].
      assert (Z.of_nat (length messages) ≤ endIndex)%Z.
      { apply Z.nlt_ge. intros ?. apply Hout. right. lia. }
      lia.
Qed.

End RangeFacts.

(** ** Glob patterns *)

Section GlobFacts.
Import Js Config State Core Spec Glob.

Lemma avoids_cons cs c s :
  avoids cs (String c s) = true ↔ (c ∉ cs) ∧ avoids cs s = true.
Proof.
  simpl. rewrite andb_true_iff, negb_true_iff, bool_decide_eq_false. done.
Qed.

Lemma replace_go_avoids cs c0 pat rep s :
  c0 ∈ cs → avoids cs s = true → replace_go (String c0 pat) rep 0 s = s.
Proof.
  intros Hc0. induction s as [|c s IH]; [done|].
  intros [Hc Hs]%avoids_cons. cbn [replace_go startsWith].
  rewrite (bool_decide_false (c0 = c)) by (by intros ->). cbn [andb].
  by rewrite IH.
Qed.

Lemma escapeSpecials_avoids cs s :
  "\"%char ∉ cs → avoids cs s = true → avoids cs (escapeSpecials s) = true.
Proof.
  intros Hbs. induction s as [|c s IH]; [done|].
  intros [Hc Hs]%avoids_cons. cbn [escapeSpecials].
  destruct (is_regex_special c).
  - apply avoids_cons. split; [done|]. apply avoids_cons. auto.
  - apply avoids_cons. auto.
Qed.

Lemma escaped_plain pattern :
  plain pattern = true → escaped pattern = escapeSpecials pattern.
Proof.
  intros Hplain. unfold escaped, replaceAll.
  assert (avoids [ "*"; "?"; ":" ]%char (escapeSpecials pattern) = true) as Hesc.
  { apply escapeSpecials_avoids; [|done].
    rewrite !elem_of_cons, elem_of_nil. naive_solver. }
  rewrite (replace_go_avoids [ "*"; "?"; ":" ]%char "*"%char "*") by (done || set_solver).
  rewrite (replace_go_avoids [ "*"; "?"; ":" ]%char "*"%char "") by (done || set_solver).
  by rewrite (replace_go_avoids [ "*"; "?"; ":" ]%char ":"%char ":DOUBLE_STAR::")
    by (done || set_solver).
Qed.

Lemma lex_escapeSpecials pattern :
  plain pattern = true →
  lex (escapeSpecials pattern) = Some ((λ c, LAtom (Lit c)) <$> chars pattern).
Proof.
  induction pattern as [|c pattern IH]; [done|].
  intros [Hc Hs]%avoids_cons. specialize (IH Hs).
  cbn [escapeSpecials chars fmap list_fmap].
  destruct (is_regex_special c) eqn:Hspecial.
  - change (lex (String "\" (String c (escapeSpecials pattern))))
      with (cons (LAtom (Lit c)) <$> lex (escapeSpecials pattern)).
    by rewrite IH.
  - assert (lex (String c (escapeSpecials pattern))
            = cons (LAtom (Lit c)) <$> lex (escapeSpecials pattern)) as ->;
      [|by rewrite IH].
    revert Hc Hspecial. generalize (escapeSpecials pattern). intros rest.
    destruct c as [[] [] [] [] [] [] [] []]; try reflexivity;
      intros Hc Hspecial; first [by vm_compute in Hspecial | exfalso; apply Hc; set_solver].
Qed.

Lemma parse_literal_step c cs :
  parse (LAtom (Lit c) :: ((λ c, LAtom (Lit c)) <$> cs))
  = cons (Lit c, One) <$> parse ((λ c, LAtom (Lit c)) <$> cs).
Proof. by destruct cs. Qed.

Lemma parse_literals cs :
  parse ((λ c, LAtom (Lit c)) <$> cs) = Some ((λ c, (Lit c, One)) <$> cs).
Proof.
  induction cs as [|c cs IH]; [done|].
  rewrite !fmap_cons, parse_literal_step, IH. done.
Qed.

Lemma regex_match_literals pattern :
  ∀ value,
    regex_match ((λ c, (Lit c, One)) <$> chars pattern) value
    = bool_decide (value = pattern).
Proof.
  induction pattern as [|c pattern IH]; intros value; [done|].
  cbn [chars fmap list_fmap regex_match]. destruct value as [|v value].
  - by rewrite bool_decide_false.
  - rewrite IH. cbn [atom_matches].
    destruct (decide (c = v)) as [->|Hne].
    + rewrite bool_decide_true by done. cbn [andb].
      apply bool_decide_ext. naive_solver.
    + rewrite bool_decide_false by done. cbn [andb].
      symmetry. apply bool_decide_eq_false. naive_solver.
Qed.

Lemma globMatch_plain value pattern :
  plain pattern = true →
  globMatch value pattern = Returned (bool_decide (value = pattern)).
Proof.
  intros Hplain. unfold globMatch, compile.
  rewrite (escaped_plain _ Hplain), (lex_escapeSpecials _ Hplain).
  cbn [mbind option_bind]. rewrite parse_literals. cbn [outcome_bind].
  by rewrite regex_match_literals.
Qed.

Lemma some_of_plain value patterns :
  Forall (λ pattern, plain pattern = true) patterns →
  some_of (λ pattern, globMatch value pattern) patterns
  = Returned (bool_decide (value ∈ patterns)).
Proof.
  induction 1 as [|pattern patterns Hplain _ IH].
  - cbn [some_of]. by rewrite bool_decide_false by apply not_elem_of_nil.
  - cbn [some_of]. rewrite (globMatch_plain _ _ Hplain). cbn [outcome_bind].
    destruct (decide (value = pattern)) as [->|Hne].
    + rewrite (bool_decide_true (pattern = pattern)) by done.
      rewrite bool_decide_true; [done|]. apply elem_of_cons. by left.
    + rewrite (bool_decide_false (value = pattern)) by done.
      rewrite IH. f_equal. apply bool_decide_ext. rewrite elem_of_cons. naive_solver.
Qed.

(** X25: a pattern without wildcards matches itself only.  For a pattern
    that has no star, no question mark and no colon, [globMatch] returns,
    and it returns [true] exactly when the value is the pattern: the
    characters that are special in a regular expression are taken
    literally. *)
Theorem globMatch_literal (value pattern : string) :
  plain pattern = true →
  globMatch value pattern = Returned (bool_decide (value = pattern)).
Proof. apply globMatch_plain. Qed.

Lemma globMatch_literal_witness :
  plain "src/a+b.(x).ts" = true
  ∧ globMatch "src/a+b.(x).ts" "src/a+b.(x).ts" = Returned true
  ∧ globMatch "src/a+bb(x)3ts" "src/a+b.(x).ts" = Returned false.
Proof.
  split; [reflexivity|]. split.
  - exact (globMatch_literal "src/a+b.(x).ts" "src/a+b.(x).ts" eq_refl).
  - exact (globMatch_literal "src/a+bb(x)3ts" "src/a+b.(x).ts" eq_refl).
Defined.

(** X26: protection under patterns without wildcards.  When no protected
    file pattern has a star, a question mark or a colon,
    [isProtectedMessage] returns, and a message is protected exactly when
    its lower-cased tool name is a default protected tool, or is not
    empty and is a configured protected tool in lower case, or its
    inferred file path is not empty and is one of the patterns. *)
Theorem isProtectedMessage_literal_patterns
    (message : DcpMessage) (config : ExtensionConfig) :
  Forall (λ pattern, plain pattern = true) (protectedFilePatterns config) →
  let toolName := default "" (toLowerCase <$> msg_toolName message) in
  isProtectedMessage message config
  = Returned
      (bool_decide
         (toolName ∈ DEFAULT_PROTECTED_TOOLS
          ∨ (toolName ≠ "" ∧ toolName ∈ toLowerCase <$> protectedTools config)
          ∨ (inferFilePath message ≠ ""
             ∧ inferFilePath message ∈ protectedFilePatterns config))).
Proof.
  intros Hplain toolName. unfold isProtectedMessage. fold toolName.
  destruct (decide (toolName ∈ DEFAULT_PROTECTED_TOOLS)) as [Hdefault|Hdefault].
  { rewrite !bool_decide_true by auto. done. }
  rewrite (bool_decide_false (toolName ∈ DEFAULT_PROTECTED_TOOLS)) by done.
  destruct (decide (toolName ≠ "" ∧ toolName ∈ toLowerCase <$> protectedTools config))
    as [[Hne Htool]|Htool].
  { rewrite (bool_decide_true (toolName ≠ "")) by done.
    rewrite (bool_decide_true (toolName ∈ _)) by (by apply elem_of_list_to_set).
    cbn [andb]. by rewrite bool_decide_true by auto. }
  assert (bool_decide (toolName ≠ "")
          && bool_decide (toolName ∈ (list_to_set (toLowerCase <$> protectedTools config)
                                        : gset string)) = false) as ->.
  { apply andb_false_iff. rewrite !bool_decide_eq_false, elem_of_list_to_set.
    destruct (decide (toolName ≠ "")); [right|left]; naive_solver. }
  case_bool_decide as Hpath.
  { rewrite bool_decide_false; [done|]. naive_solver. }
  rewrite (some_of_plain _ _ Hplain). f_equal. apply bool_decide_ext. naive_solver.
Qed.

Lemma isProtectedMessage_literal_patterns_witness :
  let config := {| enabled := true; protectedTools := [];
                   protectedFilePatterns := ["/tmp/keep.txt"];
                   commands_enabled := true |} in
  Forall (λ pattern, plain pattern = true) (protectedFilePatterns config)
  ∧ isProtectedMessage Examples.keepMessage config = Returned true.
Proof.
  intros config.
  assert (Forall (λ pattern, plain pattern = true) (protectedFilePatterns config)) as H
    by (repeat constructor).
  split; [exact H|].
  rewrite (isProtectedMessage_literal_patterns Examples.keepMessage config H).
  reflexivity.
Defined.

Lemma replace_go_question a pat rep s :
  a ≠ "?"%char →
  replace_go (String a pat) rep 0 (String "?" s)
  = String "?" (replace_go (String a pat) rep 0 s).
Proof.
  intros Ha. cbn [replace_go startsWith].
  by rewrite (bool_decide_false (a = "?"%char)) by done.
Qed.

(** X27: a pattern that begins with a question mark.  The question mark
    is not escaped and reaches the regular expression as a quantifier
    with nothing before it, so [globMatch] throws a [SyntaxError] for
    every value. *)
Theorem globMatch_leading_question (value rest : string) :
  ∃ message, globMatch value (String "?" rest) = Threw (SyntaxError message).
Proof.
  unfold globMatch, compile, escaped, replaceAll.
  change (escapeSpecials (String "?" rest)) with (String "?" (escapeSpecials rest)).
  rewrite !replace_go_question by done.
  set (src := replace_go _ _ 0 (replace_go _ _ 0 (replace_go _ _ 0 _))).
  change (lex (String "?" src)) with (cons LQuest <$> lex src).
  destruct (lex src) as [ls|]; by eexists.
Qed.

(** X29: stars in a pattern.  For a pattern without a question mark or
    a colon and a value without a line break, [globMatch] returns, and
    it returns [true] exactly when the value matches the pattern read as
    a glob: a star for a run of characters other than the slash, two
    stars for a run of any characters, and every other character for
    itself. *)
Theorem globMatch_wildcards (value pattern : string) :
  regularPattern pattern →
  oneLine value →
  ∃ b, globMatch value pattern = Returned b
       ∧ (b = true ↔ GlobMatches (globTokens pattern) value).
Proof. apply globMatch_reading. Qed.

Lemma globMatch_wildcards_witness :
  regularPattern "src/**/*.ts"
  ∧ oneLine "src/lib/core/a.ts"
  ∧ ∃ b, globMatch "src/lib/core/a.ts" "src/**/*.ts" = Returned b
         ∧ (b = true ↔ GlobMatches (globTokens "src/**/*.ts") "src/lib/core/a.ts").
Proof.
  assert (regularPattern "src/**/*.ts") as H1 by (split; reflexivity).
  assert (oneLine "src/lib/core/a.ts") as H2 by (split; reflexivity).
  split; [exact H1|]. split; [exact H2|].
  exact (globMatch_wildcards "src/lib/core/a.ts" "src/**/*.ts" H1 H2).
Defined.

End GlobFacts.
